(** * HIP operator kernels of caffe2, embedded in Rocq

    The development follows the source files one module at a time:
    [caffe2/core/common_hip.cc], [caffe2/operators/boolean_mask_ops_hip.cc],
    [caffe2/operators/boolean_unmask_ops_hip.cc],
    [caffe2/operators/layer_norm_op_hip.cc],
    [caffe2/operators/sparse_to_dense_op_hip.cc],
    [caffe2/operators/rmac_regions_op_hip.cc] and
    [caffe2/sgd/adagrad_op_hip.cc].

    Conventions of the embedding.
    - C++ [int], [TIndex] and [size_t] values are integers of [Z]; [/] and
      [%] are [Z.quot] and [Z.rem] (truncation towards zero).  Signed
      overflow is undefined in C++, the model is the overflow-free run.
    - [float] values are real numbers ([R]) in the operators that take
      sums, means and square roots; where the code compares [float]s and
      converts them to [int] (the RMAC regions) they are IEEE 754 binary32
      numbers with their rounding.
    - A device buffer is a [list]; [load] and [store] are the indexed read
      and write.  Out of range the C++ behaviour is undefined: [load]
      returns a fixed junk value, [store] leaves the buffer alone.
    - A kernel launch runs its loop body over the indices handed out by the
      grid-stride schedule, threads taken one after the other.
    - A failed [CAFFE_ENFORCE] or [LOG(FATAL)] is the outcome [Fatal]; all
      state changes made before it stay.  A device assertion does not reach
      the host code, which launches and returns as written. *)

From Stdlib Require Import ZArith List Lia Reals Lra Bool String Permutation Sorted.
From Stdlib Require Import Floats.SpecFloat.
From stdpp Require Import base list.
Import ListNotations.
#[local] Open Scope Z_scope.

(** ** Outcomes and the operator monad *)

Inductive outcome (A : Type) : Type :=
| Ok (a : A)
| Fatal (msg : string).
Arguments Ok {A} a.
Arguments Fatal {A} msg.

Definition is_fatal {A : Type} (o : outcome A) : bool :=
  match o with Ok _ => false | Fatal _ => true end.

(** A computation over a state [S] that may stop with [Fatal]. *)
Definition Op (S A : Type) : Type := S -> outcome A * S.

Definition ret {S A : Type} (a : A) : Op S A := fun s => (Ok a, s).

Definition bind {S A B : Type} (m : Op S A) (k : A -> Op S B) : Op S B :=
  fun s =>
    match m s with
    | (Ok a, s') => k a s'
    | (Fatal msg, s') => (Fatal msg, s')
    end.

Definition get_state {S : Type} : Op S S := fun s => (Ok s, s).
Definition modify {S : Type} (f : S -> S) : Op S unit := fun s => (Ok tt, f s).

(** [CAFFE_ENFORCE(cond, msg)]: throws when [cond] is false. *)
Definition CAFFE_ENFORCE {S : Type} (cond : bool) (msg : string) : Op S unit :=
  fun s => if cond then (Ok tt, s) else (Fatal msg, s).

Declare Scope op_scope.
Delimit Scope op_scope with op.
Notation "x <- c ;; k" := (bind c (fun x => k))
  (at level 100, c at next level, right associativity) : op_scope.
Notation "c ;;; k" := (bind c (fun _ => k))
  (at level 100, right associativity) : op_scope.

(** [for (i = 0; i < n; ++i) body(i)] inside an operator. *)
Fixpoint for_each {S A : Type} (body : A -> Op S unit) (l : list A) : Op S unit :=
  match l with
  | [] => ret tt
  | x :: l' => bind (body x) (fun _ => for_each body l')
  end.

(** ** Device buffers *)

Definition load {A : Type} (junk : A) (buf : list A) (p : Z) : A :=
  if p <? 0 then junk else default junk (buf !! Z.to_nat p).

Definition store {A : Type} (buf : list A) (p : Z) (v : A) : list A :=
  if p <? 0 then buf else <[Z.to_nat p := v]> buf.

(** [0, 1, ..., n-1] *)
Definition zrange (n : Z) : list Z := map Z.of_nat (seq 0 (Z.to_nat n)).

(** ** Launch geometry *)

Module Hip.

(** Modelled from the spec: the launch constants and [CAFFE_GET_BLOCKS] of
    [caffe2/core/common_hip.h], which is not part of this fragment.  They
    are kept abstract; [config_ok] is all the proofs use. *)
Record Config : Type := mkConfig {
  CAFFE_HIP_NUM_THREADS : Z;
  CAFFE_MAXIMUM_NUM_BLOCKS : Z;
  CAFFE_GET_BLOCKS : Z -> Z
}.

Definition config_ok (cfg : Config) : Prop :=
  0 < CAFFE_HIP_NUM_THREADS cfg /\
  0 < CAFFE_MAXIMUM_NUM_BLOCKS cfg /\
  forall n, 0 < n -> 0 < CAFFE_GET_BLOCKS cfg n.

(** The usual values: 512 threads, at most 4096 blocks. *)
Definition default_config : Config :=
  {| CAFFE_HIP_NUM_THREADS := 512;
     CAFFE_MAXIMUM_NUM_BLOCKS := 4096;
     CAFFE_GET_BLOCKS := fun n => Z.min ((n + 512 - 1) / 512) 4096 |}.

(** [for (i = start; i < n; i += stride)]: the indices one thread (or one
    block) visits.  [fuel] bounds the number of iterations. *)
Fixpoint stride_loop (fuel : nat) (i stride n : Z) : list Z :=
  match fuel with
  | O => []
  | S fuel' => if i <? n then i :: stride_loop fuel' (i + stride) stride n else []
  end.

(** Modelled from the spec: [HIP_1D_KERNEL_LOOP(i, n)] of
    [caffe2/core/common_hip.h] (not part of this fragment), the
    "parallel-for" of a kernel: thread [threadIdx] of block [blockIdx]
    starts at [blockIdx * blockDim + threadIdx] and advances by
    [blockDim * gridDim] while the index is below [n]. *)
Definition thread_indices (gridDim blockDim blockIdx threadIdx n : Z) : list Z :=
  stride_loop (Z.to_nat n) (blockIdx * blockDim + threadIdx) (blockDim * gridDim) n.

(** All indices of a launch, block after block and thread after thread. *)
Definition HIP_1D_KERNEL_LOOP (gridDim blockDim n : Z) : list Z :=
  flat_map
    (fun b => flat_map (fun t => thread_indices gridDim blockDim b t n) (zrange blockDim))
    (zrange gridDim).

(** Run a loop body over a schedule, threading the device state. *)
Definition run {S : Type} (body : Z -> S -> S) (sched : list Z) (s : S) : S :=
  fold_left (fun s i => body i s) sched s.

(** A launch as seen from the host: which kernel, on what grid. *)
Record Launch : Type := mkLaunch {
  kernel : string;
  launch_grid : Z;
  launch_block : Z
}.

(** What an operator can change: its output (and scratch) tensors [outs]
    and the stream of launched kernels. *)
Record Ctx (O : Type) : Type := mkCtx {
  outs : O;
  launches : list Launch
}.
Arguments mkCtx {O} outs launches.
Arguments outs {O} c.
Arguments launches {O} c.

(** [hipLaunchKernelGGL(kernel, grid, block, 0, stream, args...)] *)
Definition hipLaunchKernelGGL {O : Type} (name : string) (grid block : Z)
    (effect : O -> O) : Op (Ctx O) unit :=
  fun c => (Ok tt, mkCtx (effect (outs c)) (launches c ++ [mkLaunch name grid block])).

(** A launch whose kernel can hit [HIP_KERNEL_ASSERT]: [None] is the
    failed assertion.  The host does not see it: the launch returns as any
    other and the code after it runs.  What a kernel that stopped at its
    assertion leaves in the buffers is not specified; [aborted] stands for
    it. *)
Definition hipLaunchKernelGGL_assert {O : Type} (name : string) (grid block : Z)
    (effect : O -> option O) (aborted : O -> O) : Op (Ctx O) unit :=
  fun c =>
    (Ok tt,
     mkCtx (match effect (outs c) with
            | Some o => o
            | None => aborted (outs c)
            end)
           (launches c ++ [mkLaunch name grid block])).

(** Host code on the outputs. *)
Definition on_outs {O : Type} (f : O -> O) : Op (Ctx O) unit :=
  fun c => (Ok tt, mkCtx (f (outs c)) (launches c)).

Definition read_outs {O A : Type} (f : O -> A) : Op (Ctx O) A :=
  fun c => (Ok (f (outs c)), c).

End Hip.

(** ** Tensors *)

Module Tensor.

(** Modelled from the spec: the framework's [Tensor]
    ([caffe2/core/tensor.h], not part of this fragment), "dense arrays
    with shape metadata": the shape [dims] and the flat row-major
    contents [data]. *)
Record t (T : Type) : Type := mk {
  dims : list Z;
  data : list T
}.
Arguments mk {T} dims data.
Arguments dims {T} t.
Arguments data {T} t.

Definition prod_dims (l : list Z) : Z := fold_right Z.mul 1 l.

Definition size {T : Type} (x : t T) : Z := prod_dims (dims x).
Definition ndim {T : Type} (x : t T) : Z := Z.of_nat (length (dims x)).

(** [dims()[i]], [dim(i)], [dim32(i)] *)
Definition dim {T : Type} (x : t T) (i : Z) : Z := nth (Z.to_nat i) (dims x) 0.

(** Product of [dims[k..]]. *)
Definition size_from_dim {T : Type} (x : t T) (k : Z) : Z :=
  prod_dims (drop (Z.to_nat k) (dims x)).

(** Product of [dims[0..k)]. *)
Definition size_to_dim {T : Type} (x : t T) (k : Z) : Z :=
  prod_dims (take (Z.to_nat k) (dims x)).

(** Product of the dims strictly between [k] and [l]. *)
Definition size_between_dim {T : Type} (x : t T) (k l : Z) : Z :=
  prod_dims (take (Z.to_nat (l - k - 1)) (drop (Z.to_nat (k + 1)) (dims x))).

(** [canonical_axis_index]: the axis must lie in [-ndim, ndim); a
    negative axis counts from the end. *)
Definition canonical_axis_index {S T : Type} (x : t T) (axis : Z) : Op S Z :=
  (CAFFE_ENFORCE (- ndim x <=? axis) "axis >= -ndim" ;;;
   CAFFE_ENFORCE (axis <? ndim x) "axis < ndim" ;;;
   ret (if axis <? 0 then axis + ndim x else axis))%op.

(** [Resize(dims)]: the shape changes; contents that fit are kept and new
    cells hold the junk value. *)
Definition Resize {T : Type} (junk : T) (new_dims : list Z) (x : t T) : t T :=
  mk new_dims (resize (Z.to_nat (prod_dims new_dims)) junk (data x)).

(** A tensor whose buffer matches its shape. *)
Definition well_formed {T : Type} (x : t T) : Prop :=
  Forall (fun d => 0 <= d) (dims x) /\ Z.of_nat (length (data x)) = size x.

End Tensor.

(** Raw (untyped) tensors: [raw_data()] views the buffer as [char]s,
    [itemsize] of them per element. *)
Module RawTensor.

Record t : Type := mk {
  dims : list Z;
  itemsize : Z;
  bytes : list Byte.byte
}.

Definition size (x : t) : Z := Tensor.prod_dims (dims x).
Definition ndim (x : t) : Z := Z.of_nat (length (dims x)).
Definition dim (x : t) (i : Z) : Z := nth (Z.to_nat i) (dims x) 0.
Definition size_from_dim (x : t) (k : Z) : Z :=
  Tensor.prod_dims (drop (Z.to_nat k) (dims x)).

Definition junk : Byte.byte := Byte.x00.

Definition Resize (new_dims : list Z) (x : t) : t :=
  mk new_dims (itemsize x)
     (resize (Z.to_nat (Tensor.prod_dims new_dims * itemsize x)) junk (bytes x)).

(** [raw_mutable_data(meta)]: the buffer is typed by [meta] and holds
    [size * itemsize] chars. *)
Definition raw_mutable_data (meta_itemsize : Z) (x : t) : t :=
  mk (dims x) meta_itemsize
     (resize (Z.to_nat (size x * meta_itemsize)) junk (bytes x)).

Definition well_formed (x : t) : Prop :=
  Forall (fun d => 0 <= d) (dims x) /\ 0 < itemsize x /\
  Z.of_nat (length (bytes x)) = size x * itemsize x.

End RawTensor.

(** ** The framework's [math::] helpers used by the operators *)

(** [math::Set(n, v, y)]: [y[i] = v] for [i < n]. *)
Definition math_Set {A : Type} (n : Z) (v : A) (y : list A) : list A :=
  replicate (Z.to_nat n) v ++ drop (Z.to_nat n) y.

(** [math::Scale(n, alpha, x, y)]: [y[i] = x[i] * alpha] for [i < n]. *)
Definition math_Scale (n : Z) (alpha : R) (x y : list R) : list R :=
  fold_left (fun y i => store y i (load 0%R x i * alpha)%R) (zrange n) y.

(** Element types the [DispatchHelper]s of the operators switch on. *)
Inductive DType : Type :=
| TFloat | TFloat16 | TInt32 | TInt64 | TOther.

Definition DType_eqb (a b : DType) : bool :=
  match a, b with
  | TFloat, TFloat | TFloat16, TFloat16 | TInt32, TInt32
  | TInt64, TInt64 | TOther, TOther => true
  | _, _ => false
  end.

(** * [caffe2/core/common_hip.cc] *)

Module CommonHip.

Inductive hipError_t : Type :=
| hipSuccess
| hipErrorNoDevice
| hipErrorInsufficientDriver
| hipErrorInitializationError
| hipErrorUnknown
| hipErrorMemoryAllocation
| hipErrorOther (code : Z).

(** The function-local statics of [NumHipDevices], the log, and the number
    of [hipGetDeviceCount] calls made so far. *)
Record World : Type := mkWorld {
  first : bool;
  count : Z;
  queries : nat;
  log : list string
}.

Definition initial : World := mkWorld true (-1) 0 [].

Definition set_first (b : bool) (w : World) : World :=
  mkWorld b (count w) (queries w) (log w).
Definition set_count (c : Z) (w : World) : World :=
  mkWorld (first w) c (queries w) (log w).
Definition LOG (msg : string) (w : World) : World :=
  mkWorld (first w) (count w) (queries w) (log w ++ [msg]).

(** The GPU runtime: the answer to the [k]-th [hipGetDeviceCount] call is
    an error code and the device count it stores on success. *)
Definition Runtime : Type := nat -> hipError_t * nat.

Definition hipGetDeviceCount (rt : Runtime) : Op World hipError_t :=
  fun w =>
    let '(err, n) := rt (queries w) in
    let c := match err with hipSuccess => Z.of_nat n | _ => count w end in
    (Ok err, mkWorld (first w) c (S (queries w)) (log w)).

Definition LOG_FATAL {A : Type} (msg : string) : Op World A :=
  fun w => (Fatal msg, LOG msg w).

(** [asan] is [CAFFE2_ASAN_ENABLED]; [debug_env] says whether
    [CAFFE2_DEBUG_HIP_INIT_ORDER] is set. *)
Definition NumHipDevices (asan debug_env : bool) (rt : Runtime) : Op World Z :=
  ((if debug_env
    then (w <- get_state ;;
          if first w
          then modify (set_first false) ;;;
               modify (LOG "DEBUG: caffe2::NumHipDevices() invoked for the first time")
          else ret tt)
    else ret tt) ;;;
   w <- get_state ;;
   (if count w <? 0
    then (err <- hipGetDeviceCount rt ;;
          match err with
          | hipSuccess => ret tt
          | hipErrorNoDevice => modify (set_count 0)
          | hipErrorInsufficientDriver =>
              modify (LOG "Insufficient HIP driver. Cannot use HIP.") ;;;
              modify (set_count 0)
          | hipErrorInitializationError =>
              modify (LOG "HIP driver initialization failed, you might not have a HIP gpu.") ;;;
              modify (set_count 0)
          | hipErrorUnknown =>
              modify (LOG "Found an unknown error. I will set the available devices to be zero.") ;;;
              modify (set_count 0)
          | hipErrorMemoryAllocation =>
              if asan
              then modify (LOG "It is known that HIP does not work well with ASAN.") ;;;
                   modify (set_count 0)
              else LOG_FATAL "Unexpected error from hipGetDeviceCount()."
          | hipErrorOther _ => LOG_FATAL "Unexpected error from hipGetDeviceCount()."
          end)
    else ret tt) ;;;
   w' <- get_state ;;
   ret (count w'))%op.

(** The table of the [switch]: what a call that asks the runtime returns
    for each answer. *)
Definition first_call_result (asan : bool) (err : hipError_t) (n : nat) : outcome Z :=
  match err with
  | hipSuccess => Ok (Z.of_nat n)
  | hipErrorNoDevice | hipErrorInsufficientDriver
  | hipErrorInitializationError | hipErrorUnknown => Ok 0
  | hipErrorMemoryAllocation =>
      if asan then Ok 0 else Fatal "Unexpected error from hipGetDeviceCount()."
  | hipErrorOther _ => Fatal "Unexpected error from hipGetDeviceCount()."
  end.

(** [n] calls in a row and what each returned. *)
Fixpoint calls (asan debug_env : bool) (rt : Runtime) (n : nat) : Op World (list Z) :=
  match n with
  | O => ret []
  | S n' =>
      (c <- NumHipDevices asan debug_env rt ;;
       cs <- calls asan debug_env rt n' ;;
       ret (c :: cs))%op
  end.

End CommonHip.

(** * [caffe2/core/common_hip.cc]: default device, current device, peer access *)

Module HipDevice.

Import CommonHip.

(** The globals of the file beside the statics of [NumHipDevices]:
    [gDefaultGPUID] and the thread-local [gCurrentDevice]; and of the HIP
    runtime the device that is current for the thread and the calls made
    to it so far. *)
Record State : Type := mkState {
  world : World;
  gDefaultGPUID : Z;
  gCurrentDevice : Z;
  runtime_device : Z;
  runtime_calls : list string
}.

(** The values at program start; [device] is the runtime's current device. *)
Definition initial (device : Z) : State := mkState CommonHip.initial 0 (-1) device [].

Definition set_world (w : World) (s : State) : State :=
  mkState w (gDefaultGPUID s) (gCurrentDevice s) (runtime_device s) (runtime_calls s).
Definition set_gDefaultGPUID (d : Z) (s : State) : State :=
  mkState (world s) d (gCurrentDevice s) (runtime_device s) (runtime_calls s).
Definition set_gCurrentDevice (d : Z) (s : State) : State :=
  mkState (world s) (gDefaultGPUID s) d (runtime_device s) (runtime_calls s).

(** [NumHipDevices] works on its own statics. *)
Definition in_world {A : Type} (m : Op World A) : Op State A :=
  fun s => let '(o, w) := m (world s) in (o, set_world w s).

Definition throw {A : Type} (msg : string) : Op State A := fun s => (Fatal msg, s).

(** [CAFFE_ENFORCE_LT(deviceid, NumHipDevices(), msg, deviceid, " vs ",
    NumHipDevices())].  Modelled from the spec: the macro is the
    framework's ([caffe2/core/logging.h], not part of this fragment); it
    compares first and builds the message, calling [NumHipDevices] again,
    only when the comparison fails. *)
Definition SetDefaultGPUID (asan debug_env : bool) (rt : Runtime) (deviceid : Z)
    : Op State unit :=
  (n <- in_world (NumHipDevices asan debug_env rt) ;;
   if deviceid <? n
   then modify (set_gDefaultGPUID deviceid)
   else
     in_world (NumHipDevices asan debug_env rt) ;;;
     throw "The default gpu id should be smaller than the number of gpus on this machine: ")%op.

Definition GetDefaultGPUID : Op State Z := fun s => (Ok (gDefaultGPUID s), s).

(** The HIP runtime as [CaffeHipGetDevice] and [CaffeHipSetDevice] use it:
    the error code of each call, by the number of calls made before it.
    A successful [hipSetDevice(id)] makes [id] the current device of the
    thread; a successful [hipGetDevice(&d)] stores the current device in
    [d], a failed one leaves [d] as it is. *)
Record DeviceRuntime : Type := mkDeviceRuntime {
  hipSetDevice_error : nat -> Z -> hipError_t;
  hipGetDevice_error : nat -> hipError_t
}.

Definition hipSetDevice (drt : DeviceRuntime) (id : Z) : Op State hipError_t :=
  fun s =>
    let err := hipSetDevice_error drt (length (runtime_calls s)) id in
    (Ok err,
     mkState (world s) (gDefaultGPUID s) (gCurrentDevice s)
       (match err with hipSuccess => id | _ => runtime_device s end)
       (runtime_calls s ++ ["hipSetDevice"%string])).

(** [hipGetDevice(&d)]: the error code and the new value of [d]. *)
Definition hipGetDevice (drt : DeviceRuntime) (d : Z) : Op State (hipError_t * Z) :=
  fun s =>
    let err := hipGetDevice_error drt (length (runtime_calls s)) in
    (Ok (err, match err with hipSuccess => runtime_device s | _ => d end),
     mkState (world s) (gDefaultGPUID s) (gCurrentDevice s) (runtime_device s)
       (runtime_calls s ++ ["hipGetDevice"%string])).

(** Modelled from the spec: [HIP_ENFORCE] of [caffe2/core/common_hip.h]
    (not part of this fragment) throws unless the call returned
    [hipSuccess]. *)
Definition HIP_ENFORCE (err : hipError_t) : Op State unit :=
  match err with
  | hipSuccess => ret tt
  | _ => throw "HIP_ENFORCE"
  end.

(** [full_device_control] is [FLAGS_caffe2_hip_full_device_control]. *)
Definition CaffeHipGetDevice (full_device_control : bool) (drt : DeviceRuntime)
    : Op State Z :=
  (if full_device_control
   then
     s <- get_state ;;
     (if gCurrentDevice s <? 0
      then
        r <- hipGetDevice drt (gCurrentDevice s) ;;
        modify (set_gCurrentDevice (snd r)) ;;;
        HIP_ENFORCE (fst r)
      else ret tt) ;;;
     s' <- get_state ;;
     ret (gCurrentDevice s')
   else
     let gpu_id := 0 in
     r <- hipGetDevice drt gpu_id ;;
     HIP_ENFORCE (fst r) ;;;
     ret (snd r))%op.

Definition CaffeHipSetDevice (full_device_control : bool) (drt : DeviceRuntime)
    (id : Z) : Op State unit :=
  (if full_device_control
   then
     s <- get_state ;;
     (if negb (gCurrentDevice s =? id)
      then err <- hipSetDevice drt id ;; HIP_ENFORCE err
      else ret tt) ;;;
     modify (set_gCurrentDevice id)
   else
     err <- hipSetDevice drt id ;;
     HIP_ENFORCE err)%op.

(** ** [GetHipPeerAccessPattern] *)

(** The runtime as [GetHipPeerAccessPattern] uses it: the answer of
    [hipGetDeviceCount] (error code and count), and for devices [i], [j]
    the answer of [hipDeviceCanAccessPeer(&can_access, i, j)] (error code
    and the value stored in [can_access]). *)
Record PeerRuntime : Type := mkPeerRuntime {
  hipGetDeviceCount_answer : hipError_t * nat;
  hipDeviceCanAccessPeer : Z -> Z -> hipError_t * Z
}.

(** Cell [j] of row [i] of the pattern is set to [b]. *)
Definition set_cell (pattern : list (list bool)) (i j : Z) (b : bool)
    : list (list bool) :=
  store pattern i (store (load [] pattern i) j b).

(** The inner loop over [j]; the flag is [false] when the function has
    returned [false] from inside the loop. *)
Fixpoint peer_row (prt : PeerRuntime) (i : Z) (js : list Z)
    (pattern : list (list bool)) : bool * list (list bool) :=
  match js with
  | [] => (true, pattern)
  | j :: js' =>
      let can_access := 1 in
      if negb (i =? j)
      then
        match hipDeviceCanAccessPeer prt i j with
        | (hipSuccess, can_access) =>
            peer_row prt i js' (set_cell pattern i j (negb (can_access =? 0)))
        | _ => (false, pattern)
        end
      else peer_row prt i js' (set_cell pattern i j (negb (can_access =? 0)))
  end.

(** The outer loop over [i]. *)
Fixpoint peer_rows (prt : PeerRuntime) (gpu_count : Z) (rows : list Z)
    (pattern : list (list bool)) : bool * list (list bool) :=
  match rows with
  | [] => (true, pattern)
  | i :: rows' =>
      match peer_row prt i (zrange gpu_count) pattern with
      | (true, pattern') => peer_rows prt gpu_count rows' pattern'
      | (false, pattern') => (false, pattern')
      end
  end.

(** The result and what the pattern holds afterwards. *)
Definition GetHipPeerAccessPattern (prt : PeerRuntime) (pattern : list (list bool))
    : bool * list (list bool) :=
  match hipGetDeviceCount_answer prt with
  | (hipSuccess, gpu_count) =>
      let pattern := replicate gpu_count (replicate gpu_count false) in
      peer_rows prt (Z.of_nat gpu_count) (zrange (Z.of_nat gpu_count)) pattern
  | _ => (false, pattern)
  end.

(** [caffe2/python/pybind_state_hip.cc]: the Python function
    [get_hip_peer_access_pattern]. *)
Definition get_hip_peer_access_pattern (prt : PeerRuntime) : outcome (list (list bool)) :=
  let pattern := [] in
  match GetHipPeerAccessPattern prt pattern with
  | (true, pattern) => Ok pattern
  | (false, _) => Fatal "caffe2::GetHipPeerAccessPattern(&pattern)"
  end.

End HipDevice.

(** Notions used to state what [GetHipPeerAccessPattern] computes. *)
Module HipDeviceSpec.

Import CommonHip HipDevice.

(** The cell [(i, j)] of a pattern. *)
Definition cell (pattern : list (list bool)) (i j : Z) : bool :=
  load false (load [] pattern i) j.

(** The query for the pair [(i, j)] goes through: the diagonal is not
    asked, elsewhere the runtime must answer with [hipSuccess]. *)
Definition passes (prt : PeerRuntime) (ij : Z * Z) : bool :=
  (fst ij =? snd ij)
  || match fst (hipDeviceCanAccessPeer prt (fst ij) (snd ij)) with
     | hipSuccess => true
     | _ => false
     end.

(** What the pattern holds for the pair once it is filled in. *)
Definition access (prt : PeerRuntime) (ij : Z * Z) : bool :=
  if fst ij =? snd ij then true
  else negb (snd (hipDeviceCanAccessPeer prt (fst ij) (snd ij)) =? 0).

(** The two loops as one pass over the pairs in the order they are
    visited, stopping at the first query that fails. *)
Fixpoint scan (prt : PeerRuntime) (pairs : list (Z * Z)) (pattern : list (list bool))
    : bool * list (list bool) :=
  match pairs with
  | [] => (true, pattern)
  | ij :: pairs' =>
      if passes prt ij
      then scan prt pairs' (set_cell pattern (fst ij) (snd ij) (access prt ij))
      else (false, pattern)
  end.

Definition fill (prt : PeerRuntime) (pairs : list (Z * Z)) (pattern : list (list bool))
    : list (list bool) :=
  fold_left (fun p ij => set_cell p (fst ij) (snd ij) (access prt ij)) pairs pattern.

(** A pattern of [n] rows of [n] cells. *)
Definition square (n : Z) (pattern : list (list bool)) : Prop :=
  Z.of_nat (length pattern) = n /\
  forall i, 0 <= i < n -> Z.of_nat (length (load [] pattern i)) = n.

End HipDeviceSpec.

(** * [caffe2/operators/boolean_mask_ops_hip.cc]: BooleanMask *)

Module BooleanMask.

Import Hip.

(** [for (i = hipBlockIdx_x; i < numOfOutput; i += hipGridDim_x)], taken
    over all blocks; the same shape serves the threads of a block. *)
Definition strided (dim n : Z) : list Z :=
  flat_map (fun b => stride_loop (Z.to_nat n) b dim n) (zrange dim).

Definition BooleanMaskCopyKernel (gridDim blockDim : Z)
    (numOfOutput numBytes : Z) (indices : list Z)
    (src dest : list Byte.byte) : list Byte.byte :=
  run (fun i dest =>
         let srcBase := load 0 indices i * numBytes in
         let destBase := i * numBytes in
         run (fun j dest =>
                store dest (destBase + j) (load RawTensor.junk src (srcBase + j)))
             (strided blockDim numBytes) dest)
      (strided gridDim numOfOutput) dest.

(** [hipcub::DeviceSelect::Flagged] over a counting iterator that starts
    at [i]: the positions whose flag is set, in increasing order. *)
Fixpoint Flagged_from (i : Z) (flags : list bool) : list Z :=
  match flags with
  | [] => []
  | f :: flags' =>
      if f then i :: Flagged_from (i + 1) flags' else Flagged_from (i + 1) flags'
  end.

Definition Flagged (flags : list bool) (num_items : Z) : list Z :=
  Flagged_from 0 (take (Z.to_nat num_items) flags).

(** [d_selected_out] receives the selected items at its front. *)
Definition write_front {A : Type} (sel buf : list A) : list A :=
  sel ++ drop (length sel) buf.

(** The tensors the operator writes: its outputs and its two members. *)
Record Outputs : Type := mkOutputs {
  dest : RawTensor.t;
  indicesOut : Tensor.t Z;
  indices_ : Tensor.t Z;
  scratch_ : Tensor.t Z
}.

Definition set_dest (f : RawTensor.t -> RawTensor.t) (o : Outputs) : Outputs :=
  mkOutputs (f (dest o)) (indicesOut o) (indices_ o) (scratch_ o).
Definition set_indicesOut (f : Tensor.t Z -> Tensor.t Z) (o : Outputs) : Outputs :=
  mkOutputs (dest o) (f (indicesOut o)) (indices_ o) (scratch_ o).
Definition set_indices_ (f : Tensor.t Z -> Tensor.t Z) (o : Outputs) : Outputs :=
  mkOutputs (dest o) (indicesOut o) (f (indices_ o)) (scratch_ o).
Definition set_scratch_ (f : Tensor.t Z -> Tensor.t Z) (o : Outputs) : Outputs :=
  mkOutputs (dest o) (indicesOut o) (indices_ o) (f (scratch_ o)).

Definition set_data {T : Type} (d : list T) (x : Tensor.t T) : Tensor.t T :=
  Tensor.mk (Tensor.dims x) d.
Definition set_bytes (d : list Byte.byte) (x : RawTensor.t) : RawTensor.t :=
  RawTensor.mk (RawTensor.dims x) (RawTensor.itemsize x) d.

Definition sizeof_TIndex : Z := 8.

(** The shapes the operator requires: [src] of rank at least 1, [mask] of
    rank 1, and as many mask entries as [src] has slices. *)
Definition valid_inputs (src : RawTensor.t) (mask : Tensor.t bool) : bool :=
  (1 <=? RawTensor.ndim src) && (Tensor.ndim mask =? 1)
  && (RawTensor.dim src 0 =? Tensor.dim mask 0).

(** [temp_storage_bytes] is what the sizing call of
    [DeviceSelect::Flagged] asks for; [OutputSize] is 1 or 2. *)
Definition RunOnDevice (cfg : Config) (temp_storage_bytes OutputSize : Z)
    (src : RawTensor.t) (mask : Tensor.t bool) : Op (Ctx Outputs) bool :=
  (CAFFE_ENFORCE (1 <=? RawTensor.ndim src) "src.ndim() >= 1" ;;;
   CAFFE_ENFORCE (Tensor.ndim mask =? 1) "mask.ndim() == 1" ;;;
   CAFFE_ENFORCE (RawTensor.dim src 0 =? Tensor.dim mask 0)
     "src.dims()[0] == mask.dims()[0]" ;;;
   let maskData := Tensor.data mask in
   let outerSize := Tensor.dim mask 0 in
   on_outs (set_indices_ (Tensor.Resize 0 [outerSize])) ;;;
   let numBytes := temp_storage_bytes in
   let numTIndex := Z.quot (numBytes + sizeof_TIndex - 1) sizeof_TIndex in
   on_outs (set_scratch_ (Tensor.Resize 0 [numTIndex + 1])) ;;;
   let selected := Flagged maskData outerSize in
   on_outs (set_indices_ (fun x => set_data (write_front selected (Tensor.data x)) x)) ;;;
   on_outs (set_scratch_ (fun x =>
     set_data (store (Tensor.data x) numTIndex (Z.of_nat (length selected))) x)) ;;;
   numOfOutput <- read_outs (fun o => load 0 (Tensor.data (scratch_ o)) numTIndex) ;;
   on_outs (set_indices_ (Tensor.Resize 0 [numOfOutput])) ;;;
   let dims := numOfOutput :: tail (RawTensor.dims src) in
   on_outs (set_dest (RawTensor.Resize dims)) ;;;
   on_outs (set_dest (RawTensor.raw_mutable_data (RawTensor.itemsize src))) ;;;
   let srcData := RawTensor.bytes src in
   (if OutputSize =? 2
    then on_outs (set_indicesOut (Tensor.Resize 0 [numOfOutput]))
    else ret tt) ;;;
   (if 0 <? numOfOutput
    then
      hipLaunchKernelGGL "BooleanMaskCopyKernel"
        (Z.min numOfOutput (CAFFE_MAXIMUM_NUM_BLOCKS cfg)) (CAFFE_HIP_NUM_THREADS cfg)
        (fun o =>
           set_dest (set_bytes
             (BooleanMaskCopyKernel
                (Z.min numOfOutput (CAFFE_MAXIMUM_NUM_BLOCKS cfg))
                (CAFFE_HIP_NUM_THREADS cfg)
                numOfOutput
                (RawTensor.size_from_dim src 1 * RawTensor.itemsize src)
                (Tensor.data (indices_ o)) srcData
                (RawTensor.bytes (dest o)))) o) ;;;
      (if OutputSize =? 2
       then on_outs (fun o => set_indicesOut (fun _ => indices_ o) o)
       else ret tt)
    else ret tt) ;;;
   ret true)%op.

End BooleanMask.

(** * [caffe2/operators/boolean_mask_ops_hip.cc]: SequenceMask *)

Module SequenceMask.

Import Hip.

Section Kernels.

(** [T] is the element type ([float] or [float16]), [junk] an unspecified
    element; [F] stands for [float], [zeroF] for [0.0f] and [convert] for
    [convert::To<float, T>]. *)
Context {T F : Type} (junk : T) (zeroF : F) (convert : F -> T).

(** Decomposition of a flat index in the batched branch of every kernel. *)
Definition batch_k (M index : Z) : Z := Z.rem index M.
Definition batch_j (N M index : Z) : Z :=
  Z.rem (Z.quot (index - batch_k M index) M) N.
Definition batch_i (N M index : Z) : Z :=
  Z.quot (index - M * batch_j N M index - batch_k M index) (N * M).
Definition batch_ind (N M index : Z) : Z :=
  N * M * batch_i N M index + M * batch_j N M index + batch_k M index.

Definition sequenceMaskKernel (gridDim blockDim N M B : Z)
    (inp : list T) (seq_lengths : list Z) (fill_val : T) (out : list T) : list T :=
  if 0 <=? B
  then run (fun index out =>
              let k := batch_k M index in
              let j := batch_j N M index in
              let ind := batch_ind N M index in
              store out ind
                (if load 0 seq_lengths j <=? k then fill_val else load junk inp ind))
           (HIP_1D_KERNEL_LOOP gridDim blockDim (B * N * M)) out
  else run (fun index out =>
              let i := Z.quot index M in
              let j := Z.rem index M in
              store out index
                (if load 0 seq_lengths i <=? j then fill_val else load junk inp index))
           (HIP_1D_KERNEL_LOOP gridDim blockDim (N * M)) out.

Definition repeatedSequenceMaskKernel (gridDim blockDim N M D : Z)
    (inp : list T) (seq_lengths : list Z) (fill_val : T) (out : list T) : list T :=
  run (fun index out =>
         let i := Z.quot index (D * M) in
         let j := Z.rem (Z.quot index D) M in
         store out index
           (if load 0 seq_lengths i <=? j then fill_val else load junk inp index))
      (HIP_1D_KERNEL_LOOP gridDim blockDim (N * M * D)) out.

Definition windowMaskKernel (gridDim blockDim N M B : Z)
    (inp : list T) (window_centers : list Z) (radius : Z) (fill_val : T)
    (out : list T) : list T :=
  if 0 <=? B
  then run (fun index out =>
              let k := batch_k M index in
              let j := batch_j N M index in
              let ind := batch_ind N M index in
              store out ind
                (if (k <? load 0 window_centers j - radius)
                    || (load 0 window_centers j + radius <? k)
                 then fill_val else load junk inp ind))
           (HIP_1D_KERNEL_LOOP gridDim blockDim (B * N * M)) out
  else run (fun index out =>
              let i := Z.quot index M in
              let j := Z.rem index M in
              store out index
                (if (j <? load 0 window_centers i - radius)
                    || (load 0 window_centers i + radius <? j)
                 then fill_val else load junk inp index))
           (HIP_1D_KERNEL_LOOP gridDim blockDim (N * M)) out.

Definition upperMaskKernel (gridDim blockDim N M B : Z)
    (inp : list T) (fill_val : T) (out : list T) : list T :=
  if 0 <=? B
  then run (fun index out =>
              let k := batch_k M index in
              let j := batch_j N M index in
              let ind := batch_ind N M index in
              store out ind (if j <? k then fill_val else load junk inp ind))
           (HIP_1D_KERNEL_LOOP gridDim blockDim (B * N * M)) out
  else run (fun index out =>
              let i := Z.quot index M in
              let j := Z.rem index M in
              store out index (if i <? j then fill_val else load junk inp index))
           (HIP_1D_KERNEL_LOOP gridDim blockDim (N * M)) out.

Definition lowerMaskKernel (gridDim blockDim N M B : Z)
    (inp : list T) (fill_val : T) (out : list T) : list T :=
  if 0 <=? B
  then run (fun index out =>
              let k := batch_k M index in
              let j := batch_j N M index in
              let ind := batch_ind N M index in
              store out ind (if k <? j then fill_val else load junk inp ind))
           (HIP_1D_KERNEL_LOOP gridDim blockDim (B * N * M)) out
  else run (fun index out =>
              let i := Z.quot index M in
              let j := Z.rem index M in
              store out index (if j <? i then fill_val else load junk inp index))
           (HIP_1D_KERNEL_LOOP gridDim blockDim (N * M)) out.

Definition upperDiagMaskKernel (gridDim blockDim N M B : Z)
    (inp : list T) (fill_val : T) (out : list T) : list T :=
  if 0 <=? B
  then run (fun index out =>
              let k := batch_k M index in
              let j := batch_j N M index in
              let ind := batch_ind N M index in
              store out ind (if j <=? k then fill_val else load junk inp ind))
           (HIP_1D_KERNEL_LOOP gridDim blockDim (B * N * M)) out
  else run (fun index out =>
              let i := Z.quot index M in
              let j := Z.rem index M in
              store out index (if i <=? j then fill_val else load junk inp index))
           (HIP_1D_KERNEL_LOOP gridDim blockDim (N * M)) out.

Definition lowerDiagMaskKernel (gridDim blockDim N M B : Z)
    (inp : list T) (fill_val : T) (out : list T) : list T :=
  if 0 <=? B
  then run (fun index out =>
              let k := batch_k M index in
              let j := batch_j N M index in
              let ind := batch_ind N M index in
              store out ind (if k <=? j then fill_val else load junk inp ind))
           (HIP_1D_KERNEL_LOOP gridDim blockDim (B * N * M)) out
  else run (fun index out =>
              let i := Z.quot index M in
              let j := Z.rem index M in
              store out index (if j <=? i then fill_val else load junk inp index))
           (HIP_1D_KERNEL_LOOP gridDim blockDim (N * M)) out.

(** The operator's arguments.  [batch_] and [repeat_from_] are [None] when
    [HasArgument] says the argument is absent. *)
Record Args : Type := mkArgs {
  mode_ : string;
  axis_ : Z;
  batch_ : option Z;
  repeat_from_ : option Z;
  radius_ : Z;
  grad_ : bool;
  fill_val_ : F
}.

(** The same arguments with another [fill_val]. *)
Definition with_fill_val (f : F) (a : Args) : Args :=
  mkArgs (mode_ a) (axis_ a) (batch_ a) (repeat_from_ a) (radius_ a) (grad_ a) f.

(** The same arguments for a forward pass ([grad_] unset) that fills
    with [f]. *)
Definition as_forward (f : F) (a : Args) : Args :=
  mkArgs (mode_ a) (axis_ a) (batch_ a) (repeat_from_ a) (radius_ a) false f.

(** The six modes the operator knows. *)
Definition supported_mode (mode : string) : bool :=
  String.eqb mode "sequence" || String.eqb mode "window" || String.eqb mode "upper"
  || String.eqb mode "lower" || String.eqb mode "upperdiag"
  || String.eqb mode "lowerdiag".

(** The fill value the kernels receive: [fill_val] of [DoRunWithType]. *)
Definition effective_fill (a : Args) : T :=
  convert (if grad_ a then zeroF else fill_val_ a).

Definition set_data (d : list T) (x : Tensor.t T) : Tensor.t T :=
  Tensor.mk (Tensor.dims x) d.

(** [launch name kernel]: the kernel on [CAFFE_GET_BLOCKS(left * right)]
    blocks, writing the output buffer. *)
Definition launch (cfg : Config) (name : string) (left right : Z)
    (kernel : Z -> Z -> list T -> list T) : Op (Ctx (Tensor.t T)) unit :=
  hipLaunchKernelGGL name
    (CAFFE_GET_BLOCKS cfg (left * right)) (CAFFE_HIP_NUM_THREADS cfg)
    (fun output =>
       set_data (kernel (CAFFE_GET_BLOCKS cfg (left * right))
                        (CAFFE_HIP_NUM_THREADS cfg) (Tensor.data output))
                output).

(** [input] is [Input(0)], [input1] is [Input(1)] (sequence lengths or
    window centers); the state is [Output(0)]. *)
Definition DoRunWithType (cfg : Config) (a : Args)
    (input : Tensor.t T) (input1 : Tensor.t Z) : Op (Ctx (Tensor.t T)) bool :=
  (on_outs (Tensor.Resize junk (Tensor.dims input)) ;;;
   canonical_axis <- Tensor.canonical_axis_index input (axis_ a) ;;
   canonical_batch <-
     match batch_ a with
     | Some b => Tensor.canonical_axis_index input b
     | None => ret (-1)
     end ;;
   (if 0 <=? canonical_batch
    then CAFFE_ENFORCE (canonical_batch <? canonical_axis) "batch < axis"
    else ret tt) ;;;
   let left :=
     if 0 <=? canonical_batch
     then Tensor.size_between_dim input canonical_batch canonical_axis
     else Tensor.size_to_dim input canonical_axis in
   let right := Tensor.size_from_dim input canonical_axis in
   let batch_dim :=
     if 0 <=? canonical_batch
     then Tensor.size_to_dim input canonical_batch * Tensor.dim input canonical_batch
     else -1 in
   let fill_val := convert (if grad_ a then zeroF else fill_val_ a) in
   (if String.eqb (mode_ a) "sequence"
    then
      match repeat_from_ a with
      | Some repeat_from =>
          canonical_repeat_from <- Tensor.canonical_axis_index input repeat_from ;;
          let repeated_dims := Tensor.size_from_dim input canonical_repeat_from in
          let masked_dims := Z.quot right repeated_dims in
          launch cfg "repeatedSequenceMaskKernel" left right
            (fun g b out =>
               repeatedSequenceMaskKernel g b left masked_dims repeated_dims
                 (Tensor.data input) (Tensor.data input1) fill_val out)
      | None =>
          launch cfg "sequenceMaskKernel" left right
            (fun g b out =>
               sequenceMaskKernel g b left right batch_dim
                 (Tensor.data input) (Tensor.data input1) fill_val out)
      end
    else if String.eqb (mode_ a) "window"
    then launch cfg "windowMaskKernel" left right
           (fun g b out =>
              windowMaskKernel g b left right batch_dim
                (Tensor.data input) (Tensor.data input1) (radius_ a) fill_val out)
    else if String.eqb (mode_ a) "upper"
    then launch cfg "upperMaskKernel" left right
           (fun g b out =>
              upperMaskKernel g b left right batch_dim (Tensor.data input) fill_val out)
    else if String.eqb (mode_ a) "lower"
    then launch cfg "lowerMaskKernel" left right
           (fun g b out =>
              lowerMaskKernel g b left right batch_dim (Tensor.data input) fill_val out)
    else if String.eqb (mode_ a) "upperdiag"
    then launch cfg "upperDiagMaskKernel" left right
           (fun g b out =>
              upperDiagMaskKernel g b left right batch_dim (Tensor.data input) fill_val out)
    else if String.eqb (mode_ a) "lowerdiag"
    then launch cfg "lowerDiagMaskKernel" left right
           (fun g b out =>
              lowerDiagMaskKernel g b left right batch_dim (Tensor.data input) fill_val out)
    else CAFFE_ENFORCE false "Unsupported mode for SequenceMaskOp!") ;;;
   ret true)%op.

End Kernels.

End SequenceMask.

(** * [caffe2/operators/boolean_mask_ops_hip.cc]: the tests of the mask kernels *)

Module SequenceMaskModes.

(** The test of the assignment [out[...] = (test ? fill_val : in[...])] in
    the kernel of each mode, for the cell in row [r] and column [c] of the
    masked matrix ([i] and [j] without a batch, [j] and [k] with one);
    [aux] holds the sequence lengths or the window centers. *)
Definition masked (mode : string) (radius : Z) (aux : list Z) (r c : Z) : bool :=
  if String.eqb mode "sequence" then load 0 aux r <=? c
  else if String.eqb mode "window"
  then (c <? load 0 aux r - radius) || (load 0 aux r + radius <? c)
  else if String.eqb mode "upper" then r <? c
  else if String.eqb mode "lower" then c <? r
  else if String.eqb mode "upperdiag" then r <=? c
  else if String.eqb mode "lowerdiag" then c <=? r
  else false.

End SequenceMaskModes.

(** * [caffe2/operators/boolean_unmask_ops_hip.cc] *)

Module BooleanUnmask.

Import Hip.

(** The inner loop of [ComputeIndicesKernel]: the first mask, counted from
    [j], that is set at position [i]. *)
Fixpoint first_set (masks : list (list bool)) (i j : Z) : option Z :=
  match masks with
  | [] => None
  | m :: masks' => if load false m i then Some j else first_set masks' i (j + 1)
  end.

(** One thread of [ComputeIndicesKernel].  The [return] inside the loop
    ends the thread at its first index; when no mask is set there the
    device assertion fails. *)
Definition ComputeIndices_thread (numMasks : Z) (masks : list (list bool))
    (idxs : list Z) (indices : list Z) : option (list Z) :=
  match idxs with
  | [] => Some indices
  | i :: _ =>
      match first_set (take (Z.to_nat numMasks) masks) i 0 with
      | Some j => Some (store indices i j)
      | None => None
      end
  end.

Definition ComputeIndicesKernel (gridDim blockDim numMasks maskSize : Z)
    (masks : list (list bool)) (indices : list Z) : option (list Z) :=
  fold_left
    (fun acc bt =>
       match acc with
       | Some ind =>
           ComputeIndices_thread numMasks masks
             (thread_indices gridDim blockDim (fst bt) (snd bt) maskSize) ind
       | None => None
       end)
    (flat_map (fun b => map (fun t => (b, t)) (zrange blockDim)) (zrange gridDim))
    (Some indices).

(** The loops over [i] and [h] of [FillValuesKernel] for mask [j]:
    returns the final [k] and the destination. *)
Definition fill_row (maskSize itemSize : Z) (indices : list Z)
    (value : list Byte.byte) (j : Z) (dest : list Byte.byte) : Z * list Byte.byte :=
  fold_left
    (fun (st : Z * list Byte.byte) i =>
       let '(k, dest) := st in
       if load 0 indices i =? j
       then (k + 1,
             fold_left
               (fun dest h =>
                  store dest (i * itemSize + h)
                    (load RawTensor.junk value (k * itemSize + h)))
               (zrange itemSize) dest)
       else (k, dest))
    (zrange maskSize) (0, dest).

Definition FillValuesKernel (gridDim blockDim numMasks maskSize itemSize : Z)
    (indices : list Z) (values : list (list Byte.byte)) (valueSizes : list Z)
    (dest : list Byte.byte) : option (list Byte.byte) :=
  fold_left
    (fun acc j =>
       match acc with
       | Some dest =>
           let '(k, dest') :=
             fill_row maskSize itemSize indices (load [] values j) j dest in
           if load 0 valueSizes j =? k then Some dest' else None
       | None => None
       end)
    (HIP_1D_KERNEL_LOOP gridDim blockDim numMasks)
    (Some dest).

Record Outputs : Type := mkOutputs {
  out : RawTensor.t;
  indices_ : Tensor.t Z
}.

Definition set_out (f : RawTensor.t -> RawTensor.t) (o : Outputs) : Outputs :=
  mkOutputs (f (out o)) (indices_ o).
Definition set_indices_ (f : Tensor.t Z -> Tensor.t Z) (o : Outputs) : Outputs :=
  mkOutputs (out o) (f (indices_ o)).

(** The checks of the host loop for the pair [Input(2i)], [Input(2i+1)]. *)
Definition check_pair (maskSize : Z) (p : Tensor.t bool * RawTensor.t)
    : Op (Ctx Outputs) unit :=
  (CAFFE_ENFORCE (Tensor.ndim (fst p) =? 1) "mask.ndim() == 1" ;;;
   CAFFE_ENFORCE (Tensor.size (fst p) =? maskSize) "mask.size() == maskSize" ;;;
   CAFFE_ENFORCE (RawTensor.ndim (snd p) =? 1) "value.ndim() == 1")%op.

(** The shapes the operator requires: every mask of rank 1 and of the
    size of the first mask, every value tensor of rank 1. *)
Definition valid_pair (maskSize : Z) (p : Tensor.t bool * RawTensor.t) : bool :=
  (Tensor.ndim (fst p) =? 1) && (Tensor.size (fst p) =? maskSize)
  && (RawTensor.ndim (snd p) =? 1).

Definition valid_inputs (inputs : list (Tensor.t bool * RawTensor.t)) : bool :=
  match inputs with
  | [] => false
  | in0 :: _ => forallb (valid_pair (Tensor.size (fst in0))) inputs
  end.

(** The inputs come in pairs (mask, values): [Input(2i)], [Input(2i+1)].
    Both kernels are launched and [true] is returned whatever the device
    assertions find; [aborted] is the state a kernel leaves that stopped
    at its assertion. *)
Definition RunOnDevice (cfg : Config) (aborted : Outputs -> Outputs)
    (inputs : list (Tensor.t bool * RawTensor.t)) : Op (Ctx Outputs) bool :=
  match inputs with
  | [] => CAFFE_ENFORCE false "Input(0)" ;;; ret false
  | in0 :: _ =>
      let maskSize := Tensor.size (fst in0) in
      let numMasks := Z.of_nat (length inputs) in
      let meta_itemsize := RawTensor.itemsize (snd in0) in
      on_outs (set_out (RawTensor.Resize [maskSize])) ;;;
      on_outs (set_out (RawTensor.raw_mutable_data meta_itemsize)) ;;;
      for_each (check_pair maskSize) inputs ;;;
      let masks := map (fun p => Tensor.data (fst p)) inputs in
      let values := map (fun p => RawTensor.bytes (snd p)) inputs in
      let valueSizes := map (fun p => RawTensor.size (snd p)) inputs in
      on_outs (set_indices_ (Tensor.Resize 0 [maskSize])) ;;;
      hipLaunchKernelGGL_assert "ComputeIndicesKernel"
        (Z.min maskSize (CAFFE_MAXIMUM_NUM_BLOCKS cfg)) (CAFFE_HIP_NUM_THREADS cfg)
        (fun o =>
           match ComputeIndicesKernel
                   (Z.min maskSize (CAFFE_MAXIMUM_NUM_BLOCKS cfg))
                   (CAFFE_HIP_NUM_THREADS cfg) numMasks maskSize masks
                   (Tensor.data (indices_ o)) with
           | Some ind => Some (set_indices_ (fun x => Tensor.mk (Tensor.dims x) ind) o)
           | None => None
           end)
        aborted ;;;
      hipLaunchKernelGGL_assert "FillValuesKernel"
        (Z.min numMasks (CAFFE_MAXIMUM_NUM_BLOCKS cfg)) (CAFFE_HIP_NUM_THREADS cfg)
        (fun o =>
           match FillValuesKernel
                   (Z.min numMasks (CAFFE_MAXIMUM_NUM_BLOCKS cfg))
                   (CAFFE_HIP_NUM_THREADS cfg) numMasks maskSize meta_itemsize
                   (Tensor.data (indices_ o)) values valueSizes
                   (RawTensor.bytes (out o)) with
           | Some d =>
               Some (set_out (fun x =>
                       RawTensor.mk (RawTensor.dims x) (RawTensor.itemsize x) d) o)
           | None => None
           end)
        aborted ;;;
      ret true
  end%op.

End BooleanUnmask.

(** * [caffe2/operators/boolean_unmask_ops_hip.cc]: what the kernels compute *)

Module BooleanUnmaskSpec.

(** The mask that owns position [i]: the first one that is set there
    (what [ComputeIndicesKernel] stores in [indices[i]]). *)
Definition owner (masks : list (list bool)) (i : Z) : Z :=
  default 0 (BooleanUnmask.first_set masks i 0).

(** How many of the positions below [i] hold [j] in [indices]: the value
    of the counter [k] of [FillValuesKernel] for mask [j] when its loop
    reaches position [i]. *)
Definition count_before (indices : Z -> Z) (j i : Z) : Z :=
  Z.of_nat (length (List.filter (fun i' => indices i' =? j) (zrange i))).

End BooleanUnmaskSpec.

(** * [caffe2/operators/sparse_to_dense_op_hip.cc] *)

Module SparseToDense.

Import Hip.

Section WithData.

(** [TData] is [float] or [int32_t]: a type with a zero and an addition. *)
Context {TData : Type} (zero : TData) (add : TData -> TData -> TData).

(** [atomicAdd(&dst[p], v)] *)
Definition atomicAdd (dst : list TData) (p : Z) (v : TData) : list TData :=
  store dst p (add (load zero dst p) v).

Definition SparseToDenseKernel (gridDim blockDim N block_nitems : Z)
    (indices : list Z) (vals dst : list TData) : list TData :=
  run (fun i dst =>
         let idx := load 0 indices (Z.quot i block_nitems) in
         let dst_idx := block_nitems * idx + Z.rem i block_nitems in
         atomicAdd dst dst_idx (load zero vals i))
      (HIP_1D_KERNEL_LOOP gridDim blockDim N) dst.


(** The shapes the operator requires: indices of rank 1, values of rank
    at least 1, and one index per row of values. *)
Definition valid_inputs (sparse_indices : Tensor.t Z)
    (sparse_values : Tensor.t TData) : bool :=
  (Tensor.ndim sparse_indices =? 1) && (1 <=? Tensor.ndim sparse_values)
  && (Tensor.size sparse_indices =? Tensor.dim sparse_values 0).

(** [output_first_dim] is the value of [GetOutputFirstDim], declared in
    [sparse_to_dense_op.h] outside this fragment. *)
Definition DoRunWithType2 (cfg : Config) (output_first_dim : Z)
    (sparse_indices : Tensor.t Z) (sparse_values : Tensor.t TData)
    : Op (Ctx (Tensor.t TData)) bool :=
  (CAFFE_ENFORCE (Tensor.ndim sparse_indices =? 1) "sparse_indices.ndim() == 1" ;;;
   CAFFE_ENFORCE (1 <=? Tensor.ndim sparse_values) "sparse_values.ndim() >= 1" ;;;
   CAFFE_ENFORCE (Tensor.size sparse_indices =? Tensor.dim sparse_values 0)
     "sparse_indices.size() == sparse_values.dim(0)" ;;;
   let sparse_indices_vec := Tensor.data sparse_indices in
   let sparse_indices_len := Tensor.dim sparse_indices 0 in
   let shape := output_first_dim :: tail (Tensor.dims sparse_values) in
   on_outs (Tensor.Resize zero shape) ;;;
   on_outs (fun output =>
     Tensor.mk (Tensor.dims output)
       (math_Set (Tensor.size output) zero (Tensor.data output))) ;;;
   let block_nitems := Tensor.size_from_dim sparse_values 1 in
   let sparse_values_vec := Tensor.data sparse_values in
   let N := block_nitems * sparse_indices_len in
   output_size <- read_outs Tensor.size ;;
   CAFFE_ENFORCE (output_size =? output_first_dim * block_nitems)
     "output->size() == output_first_dim * block_nitems" ;;;
   hipLaunchKernelGGL "SparseToDenseKernel"
     (CAFFE_GET_BLOCKS cfg N) (CAFFE_HIP_NUM_THREADS cfg)
     (fun output =>
        Tensor.mk (Tensor.dims output)
          (SparseToDenseKernel (CAFFE_GET_BLOCKS cfg N) (CAFFE_HIP_NUM_THREADS cfg)
             N block_nitems sparse_indices_vec sparse_values_vec
             (Tensor.data output))) ;;;
   ret true)%op.

End WithData.

End SparseToDense.

(** * [caffe2/operators/layer_norm_op_hip.cc] *)

Module LayerNorm.

Import Hip.

Definition SqrTransform (v : R) : R := (v * v)%R.

(** [X = sqrt(X - Y^2 + epsilon)] *)
Definition sqrtXMinusYSquaredKernel (gridDim blockDim N : Z)
    (x y : list R) (epsilon : R) : list R :=
  run (fun i x =>
         store x i (sqrt (load 0%R x i - load 0%R y i * load 0%R y i + epsilon)))
      (HIP_1D_KERNEL_LOOP gridDim blockDim N) x.

(** [out[i, j] = (X[i, j] - mu[i]) / sigma[i]] *)
Definition normalizeKernel (gridDim blockDim row_dim N : Z)
    (x mu sigma out : list R) : list R :=
  run (fun i out =>
         store out i
           ((load 0%R x i - load 0%R mu (Z.quot i row_dim))
            / load 0%R sigma (Z.quot i row_dim))%R)
      (HIP_1D_KERNEL_LOOP gridDim blockDim N) out.

(** Sum of [input[b], ..., input[e-1]]. *)
Definition segment_sum (input : list R) (b e : Z) : R :=
  fold_left Rplus (map (fun k => load 0%R input (b + k)) (zrange (e - b))) 0%R.

(** [hipcub::DeviceSegmentedReduce::Sum] with begin offsets [seg] and end
    offsets [seg + 1]: [output[s]] is the sum of segment [s]. *)
Definition DeviceSegmentedReduce_Sum (input output : list R)
    (num_segments : Z) (seg : list Z) : list R :=
  fold_left
    (fun out s => store out s (segment_sum input (load 0 seg s) (load 0 seg (s + 1))))
    (zrange num_segments) output.

(** The sums the specification speaks of: over row [i] of the input seen
    as rows of [right] elements, of the elements and of their squares. *)
Definition row_sum (x : list R) (right i : Z) : R :=
  fold_left Rplus (map (fun j => load 0%R x (i * right + j)) (zrange right)) 0%R.

Definition row_sum_sq (x : list R) (right i : Z) : R :=
  fold_left Rplus
    (map (fun j => (load 0%R x (i * right + j) * load 0%R x (i * right + j))%R)
         (zrange right)) 0%R.

Record Outputs : Type := mkOutputs {
  output : Tensor.t R;
  mean : Tensor.t R;
  stdev : Tensor.t R;
  seg_indices_ : Tensor.t Z;
  scratch_ : Tensor.t R
}.

Definition set_output (f : Tensor.t R -> Tensor.t R) (o : Outputs) : Outputs :=
  mkOutputs (f (output o)) (mean o) (stdev o) (seg_indices_ o) (scratch_ o).
Definition set_mean (f : Tensor.t R -> Tensor.t R) (o : Outputs) : Outputs :=
  mkOutputs (output o) (f (mean o)) (stdev o) (seg_indices_ o) (scratch_ o).
Definition set_stdev (f : Tensor.t R -> Tensor.t R) (o : Outputs) : Outputs :=
  mkOutputs (output o) (mean o) (f (stdev o)) (seg_indices_ o) (scratch_ o).
Definition set_seg_indices_ (f : Tensor.t Z -> Tensor.t Z) (o : Outputs) : Outputs :=
  mkOutputs (output o) (mean o) (stdev o) (f (seg_indices_ o)) (scratch_ o).
Definition set_scratch_ (f : Tensor.t R -> Tensor.t R) (o : Outputs) : Outputs :=
  mkOutputs (output o) (mean o) (stdev o) (seg_indices_ o) (f (scratch_ o)).

Definition set_data {T : Type} (f : list T -> list T) (x : Tensor.t T) : Tensor.t T :=
  Tensor.mk (Tensor.dims x) (f (Tensor.data x)).

Definition sizeof_float : Z := 4.

(** [allocScratchAndReduce]: size the scratch tensor, then reduce into the
    tensor selected by [set_target].  [temp_storage_bytes] is what the
    sizing call returns. *)
Definition allocScratchAndReduce (temp_storage_bytes : Z) (input : list R)
    (set_target : (Tensor.t R -> Tensor.t R) -> Outputs -> Outputs)
    (num_segments : Z) : Op (Ctx Outputs) unit :=
  (let temp_storage_floats :=
     Z.quot temp_storage_bytes sizeof_float
     + (if Z.rem temp_storage_bytes sizeof_float =? 0 then 0 else 1) in
   on_outs (set_scratch_ (Tensor.Resize 0%R [temp_storage_floats])) ;;;
   on_outs (fun o =>
     set_target
       (set_data (fun out =>
          DeviceSegmentedReduce_Sum input out num_segments
            (Tensor.data (seg_indices_ o))))
       o))%op.

Definition DoRunWithType (cfg : Config) (temp_storage_bytes : Z)
    (axis_ : Z) (epsilon_ : R) (input : Tensor.t R) : Op (Ctx Outputs) bool :=
  (CAFFE_ENFORCE (2 <=? Tensor.ndim input) "LayerNorm requires input dim >= 2" ;;;
   canonical_axis <- Tensor.canonical_axis_index input axis_ ;;
   let left := Tensor.size_to_dim input canonical_axis in
   let right := Tensor.size_from_dim input canonical_axis in
   on_outs (set_output (Tensor.Resize 0%R (Tensor.dims input))) ;;;
   let stats_dims := take (Z.to_nat canonical_axis) (Tensor.dims input) ++ [1] in
   on_outs (set_mean (Tensor.Resize 0%R stats_dims)) ;;;
   on_outs (set_stdev (Tensor.Resize 0%R stats_dims)) ;;;
   let segs := map (fun x => right * x) (zrange (left + 1)) in
   on_outs (set_seg_indices_ (Tensor.Resize 0 [Z.of_nat (length segs)])) ;;;
   on_outs (set_seg_indices_ (set_data (fun _ => segs))) ;;;
   (if right =? 1
    then
      on_outs (set_mean (fun _ => input)) ;;;
      on_outs (set_mean (Tensor.Resize 0%R stats_dims)) ;;;
      on_outs (set_stdev (set_data (math_Set left (sqrt epsilon_))))
    else
      allocScratchAndReduce temp_storage_bytes (Tensor.data input) set_mean left ;;;
      on_outs (set_mean (set_data (fun m => math_Scale left (1 / IZR right)%R m m))) ;;;
      allocScratchAndReduce temp_storage_bytes
        (map SqrTransform (Tensor.data input)) set_stdev left ;;;
      on_outs (set_stdev (set_data (fun s => math_Scale left (1 / IZR right)%R s s))) ;;;
      hipLaunchKernelGGL "sqrtXMinusYSquaredKernel"
        (CAFFE_GET_BLOCKS cfg left) (CAFFE_HIP_NUM_THREADS cfg)
        (fun o =>
           set_stdev (set_data (fun x =>
             sqrtXMinusYSquaredKernel (CAFFE_GET_BLOCKS cfg left)
               (CAFFE_HIP_NUM_THREADS cfg) left x (Tensor.data (mean o)) epsilon_)) o)) ;;;
   hipLaunchKernelGGL "normalizeKernel"
     (CAFFE_GET_BLOCKS cfg left) (CAFFE_HIP_NUM_THREADS cfg)
     (fun o =>
        set_output (set_data (fun out =>
          normalizeKernel (CAFFE_GET_BLOCKS cfg left) (CAFFE_HIP_NUM_THREADS cfg)
            right (left * right) (Tensor.data input)
            (Tensor.data (mean o)) (Tensor.data (stdev o)) out)) o) ;;;
   ret true)%op.

End LayerNorm.

(** * [caffe2/operators/layer_norm_op_hip.cc]: LayerNormGradient *)

(** Modelled from the spec: [math::Mul] and [math::Add] of
    [caffe2/utils/math.h] (not part of this fragment), elementwise
    product and sum of the first [n] elements. *)
Definition math_Mul (n : Z) (a b y : list R) : list R :=
  fold_left (fun y i => store y i (load 0%R a i * load 0%R b i)%R) (zrange n) y.

Definition math_Add (n : Z) (a b y : list R) : list R :=
  fold_left (fun y i => store y i (load 0%R a i + load 0%R b i)%R) (zrange n) y.

Module LayerNormGradient.

Import Hip.

(** [(x - broadcast(y)) * z] *)
Definition zTimesXminusYbroadcast (gridDim blockDim N D : Z)
    (x y z out : list R) : list R :=
  run (fun i out =>
         store out i
           ((load 0%R x i - load 0%R y (Z.quot i D)) * load 0%R z i)%R)
      (HIP_1D_KERNEL_LOOP gridDim blockDim (N * D)) out.

Definition normalizeByNegStdev (gridDim blockDim N : Z) (var : bool)
    (x stdev out : list R) : list R :=
  if var
  then run (fun i out =>
              store out i
                ((-1 * load 0%R x i) / (load 0%R stdev i * load 0%R stdev i))%R)
           (HIP_1D_KERNEL_LOOP gridDim blockDim N) out
  else run (fun i out =>
              store out i ((-1 * load 0%R x i) / load 0%R stdev i)%R)
           (HIP_1D_KERNEL_LOOP gridDim blockDim N) out.

Definition gradientMegaKernel (gridDim blockDim N D : Z)
    (stdev X dstdev dmean dout out : list R) : list R :=
  run (fun i out =>
         store out i
           (1 / load 0%R stdev (Z.quot i D) * load 0%R dout i
            + load 0%R X i / (IZR D * load 0%R stdev (Z.quot i D))
              * load 0%R dstdev (Z.quot i D)
            + 1 / IZR D * load 0%R dmean (Z.quot i D))%R)
      (HIP_1D_KERNEL_LOOP gridDim blockDim (N * D)) out.

(** The sum over row [i] of [(x[i,j] - y[i]) * z[i,j]], rows of [right]
    elements. *)
Definition row_dot (x y z : list R) (right i : Z) : R :=
  fold_left Rplus
    (map (fun j => ((load 0%R x (i * right + j) - load 0%R y i)
                    * load 0%R z (i * right + j))%R)
         (zrange right)) 0%R.

(** The output [ginput] and the members of the operator. *)
Record Outputs : Type := mkOutputs {
  ginput : Tensor.t R;
  dmean_ : Tensor.t R;
  dstdev_ : Tensor.t R;
  gscratch_ : Tensor.t R;
  seg_indices_ : Tensor.t Z;
  scratch_ : Tensor.t R
}.

Definition set_ginput (f : Tensor.t R -> Tensor.t R) (o : Outputs) : Outputs :=
  mkOutputs (f (ginput o)) (dmean_ o) (dstdev_ o) (gscratch_ o) (seg_indices_ o)
    (scratch_ o).
Definition set_dmean_ (f : Tensor.t R -> Tensor.t R) (o : Outputs) : Outputs :=
  mkOutputs (ginput o) (f (dmean_ o)) (dstdev_ o) (gscratch_ o) (seg_indices_ o)
    (scratch_ o).
Definition set_dstdev_ (f : Tensor.t R -> Tensor.t R) (o : Outputs) : Outputs :=
  mkOutputs (ginput o) (dmean_ o) (f (dstdev_ o)) (gscratch_ o) (seg_indices_ o)
    (scratch_ o).
Definition set_gscratch_ (f : Tensor.t R -> Tensor.t R) (o : Outputs) : Outputs :=
  mkOutputs (ginput o) (dmean_ o) (dstdev_ o) (f (gscratch_ o)) (seg_indices_ o)
    (scratch_ o).
Definition set_seg_indices_ (f : Tensor.t Z -> Tensor.t Z) (o : Outputs) : Outputs :=
  mkOutputs (ginput o) (dmean_ o) (dstdev_ o) (gscratch_ o) (f (seg_indices_ o))
    (scratch_ o).
Definition set_scratch_ (f : Tensor.t R -> Tensor.t R) (o : Outputs) : Outputs :=
  mkOutputs (ginput o) (dmean_ o) (dstdev_ o) (gscratch_ o) (seg_indices_ o)
    (f (scratch_ o)).

(** [allocScratchAndReduce], here on the members of the gradient
    operator: [input] reads the buffer to reduce off the current state. *)
Definition allocScratchAndReduce (temp_storage_bytes : Z)
    (input : Outputs -> list R)
    (set_target : (Tensor.t R -> Tensor.t R) -> Outputs -> Outputs)
    (num_segments : Z) : Op (Ctx Outputs) unit :=
  (let temp_storage_floats :=
     Z.quot temp_storage_bytes LayerNorm.sizeof_float
     + (if Z.rem temp_storage_bytes LayerNorm.sizeof_float =? 0 then 0 else 1) in
   on_outs (set_scratch_ (Tensor.Resize 0%R [temp_storage_floats])) ;;;
   on_outs (fun o =>
     set_target
       (LayerNorm.set_data (fun out =>
          LayerNorm.DeviceSegmentedReduce_Sum (input o) out num_segments
            (Tensor.data (seg_indices_ o))))
       o))%op.

(** [dout], [means], [stdev] and [norm_inputs] are [Input(0)], [Input(2)],
    [Input(3)] and [Input(4)]; [Input(1)], the normalised output, is not
    read. *)
Definition DoRunWithType (cfg : Config) (temp_storage_bytes : Z) (axis_ : Z)
    (dout means stdev norm_inputs : Tensor.t R) : Op (Ctx Outputs) bool :=
  (canonical_axis <- Tensor.canonical_axis_index norm_inputs axis_ ;;
   let left := Tensor.size_to_dim norm_inputs canonical_axis in
   let right := Tensor.size_from_dim norm_inputs canonical_axis in
   on_outs (set_ginput (Tensor.Resize 0%R (Tensor.dims norm_inputs))) ;;;
   let stats_dims := take (Z.to_nat canonical_axis) (Tensor.dims norm_inputs) ++ [1] in
   on_outs (set_dmean_ (Tensor.Resize 0%R stats_dims)) ;;;
   on_outs (set_dstdev_ (Tensor.Resize 0%R stats_dims)) ;;;
   on_outs (set_gscratch_ (Tensor.Resize 0%R [left; right])) ;;;
   let segs := map (fun x => right * x) (zrange (left + 1)) in
   on_outs (set_seg_indices_ (Tensor.Resize 0 [Z.of_nat (length segs)])) ;;;
   on_outs (set_seg_indices_ (LayerNorm.set_data (fun _ => segs))) ;;;
   hipLaunchKernelGGL "zTimesXminusYbroadcast"
     (CAFFE_GET_BLOCKS cfg (left * right)) (CAFFE_HIP_NUM_THREADS cfg)
     (set_gscratch_ (LayerNorm.set_data (fun out =>
        zTimesXminusYbroadcast (CAFFE_GET_BLOCKS cfg (left * right))
          (CAFFE_HIP_NUM_THREADS cfg) left right
          (Tensor.data norm_inputs) (Tensor.data means) (Tensor.data dout) out))) ;;;
   on_outs (set_dstdev_ (Tensor.Resize 0%R [left; 1])) ;;;
   allocScratchAndReduce temp_storage_bytes
     (fun o => Tensor.data (gscratch_ o)) set_dstdev_ left ;;;
   hipLaunchKernelGGL "normalizeByNegStdev"
     (CAFFE_GET_BLOCKS cfg left) (CAFFE_HIP_NUM_THREADS cfg)
     (set_dstdev_ (LayerNorm.set_data (fun x =>
        normalizeByNegStdev (CAFFE_GET_BLOCKS cfg left) (CAFFE_HIP_NUM_THREADS cfg)
          left true x (Tensor.data stdev) x))) ;;;
   allocScratchAndReduce temp_storage_bytes
     (fun _ => Tensor.data dout) set_dmean_ left ;;;
   on_outs (fun o =>
     set_gscratch_ (LayerNorm.set_data (fun y =>
       math_Mul left (Tensor.data means) (Tensor.data (dstdev_ o)) y)) o) ;;;
   on_outs (fun o =>
     set_dmean_ (LayerNorm.set_data (fun y =>
       math_Add left y (Tensor.data (gscratch_ o)) y)) o) ;;;
   hipLaunchKernelGGL "normalizeByNegStdev"
     (CAFFE_GET_BLOCKS cfg left) (CAFFE_HIP_NUM_THREADS cfg)
     (set_dmean_ (LayerNorm.set_data (fun x =>
        normalizeByNegStdev (CAFFE_GET_BLOCKS cfg left) (CAFFE_HIP_NUM_THREADS cfg)
          left false x (Tensor.data stdev) x))) ;;;
   hipLaunchKernelGGL "gradientMegaKernel"
     (CAFFE_GET_BLOCKS cfg left) (CAFFE_HIP_NUM_THREADS cfg)
     (fun o =>
        set_ginput (LayerNorm.set_data (fun out =>
          gradientMegaKernel (CAFFE_GET_BLOCKS cfg left) (CAFFE_HIP_NUM_THREADS cfg)
            left right (Tensor.data stdev) (Tensor.data norm_inputs)
            (Tensor.data (dstdev_ o)) (Tensor.data (dmean_ o)) (Tensor.data dout)
            out)) o) ;;;
   ret true)%op.

End LayerNormGradient.

(** * [caffe2/sgd/adagrad_op_hip.cc]

    The Adagrad operators run in place: an output usually is the very
    buffer of an input.  Device memory is therefore one store of cells
    addressed by integers, and a tensor is a shape with a base address. *)

Module Adagrad.

Import Hip.

Definition Mem : Type := Z -> R.

(** [*p = v] *)
Definition poke (m : Mem) (p : Z) (v : R) : Mem :=
  fun q => if q =? p then v else m q.

Record DevTensor : Type := mkDevTensor {
  dims : list Z;
  dtype : DType;
  ptr : Z
}.

Definition size (x : DevTensor) : Z := Tensor.prod_dims (dims x).
Definition size_from_dim (x : DevTensor) (k : Z) : Z :=
  Tensor.prod_dims (drop (Z.to_nat k) (dims x)).
Definition dim32 (x : DevTensor) (i : Z) : Z := nth (Z.to_nat i) (dims x) 0.

(** The index tensor holds integers and is never written. *)
Record IndexTensor : Type := mkIndexTensor {
  idx_dtype : DType;
  idx : Tensor.t Z
}.

(** The cell ranges [p, p+n) and [q, q+n) do not meet. *)
Definition disjoint (p q n : Z) : Prop := p + n <= q \/ q + n <= p.

(** The cell [a] lies outside [p, p+n). *)
Definition outside (a p n : Z) : Prop := a < p \/ p + n <= a.

(** The body of the loop of [AdagradUpdate]; the arguments [w], [g], [h],
    [nw], [nh], [lr] are addresses. *)
Definition AdagradUpdate_body (w g h nw nh : Z) (epsilon decay : R) (lr : Z)
    (i : Z) (m : Mem) : Mem :=
  let gi := m (g + i) in
  let hi := (decay * m (h + i)%Z + gi * gi)%R in
  let m1 := poke m (nh + i) hi in
  poke m1 (nw + i) (m1 (w + i)%Z + m1 lr * gi / (sqrt hi + epsilon))%R.

Definition AdagradUpdate (gridDim blockDim N : Z) (w g h nw nh : Z)
    (epsilon decay : R) (lr : Z) (m : Mem) : Mem :=
  run (AdagradUpdate_body w g h nw nh epsilon decay lr)
      (HIP_1D_KERNEL_LOOP gridDim blockDim N) m.

(** [adagrad_update<HIPContext>] *)
Definition adagrad_update (cfg : Config) (N : Z) (w g h nw nh : Z)
    (epsilon decay : R) (lr : Z) : Op (Ctx Mem) unit :=
  hipLaunchKernelGGL "AdagradUpdate"
    (CAFFE_GET_BLOCKS cfg N) (CAFFE_HIP_NUM_THREADS cfg)
    (AdagradUpdate (CAFFE_GET_BLOCKS cfg N) (CAFFE_HIP_NUM_THREADS cfg)
       N w g h nw nh epsilon decay lr).

(** Modelled from the spec: [mixed_add] and [mixed_store] of
    [caffe2/utils/mixed_utils_hip.h] (not part of this fragment); with
    values read as reals they are the sum and the plain store. *)
Definition mixed_add (a b : R) : R := (a + b)%R.
Definition mixed_store (v : R) (p : Z) (m : Mem) : Mem := poke m p v.

(** All threads of a launch; each runs [thread] on the indices it owns. *)
Definition run_threads {S : Type} (gridDim blockDim n : Z)
    (thread : list Z -> S -> S) (s : S) : S :=
  fold_left
    (fun s bt => thread (thread_indices gridDim blockDim (fst bt) (snd bt) n) s)
    (flat_map (fun b => map (fun t => (b, t)) (zrange blockDim)) (zrange gridDim))
    s.

Definition SparseAdagradKernel (gridDim blockDim N grad_slice_sz : Z)
    (epsilon : R) (param param_mom : Z) (indices : list Z) (grad lr : Z)
    (m : Mem) : Mem :=
  run_threads gridDim blockDim N
    (fun idxs m =>
       let LR := m lr in
       run (fun i m =>
              let gradIdx := i in
              let index := load 0 indices (Z.quot i grad_slice_sz) in
              let paramIdx := index * grad_slice_sz + Z.rem i grad_slice_sz in
              let mom_new :=
                mixed_add (m (grad + gradIdx)%Z * m (grad + gradIdx)%Z)%R
                          (m (param_mom + paramIdx)) in
              let m := mixed_store mom_new (param_mom + paramIdx) m in
              let param_new :=
                mixed_add (LR * m (grad + gradIdx)%Z / (sqrt mom_new + epsilon))%R
                          (m (param + paramIdx)) in
              mixed_store param_new (param + paramIdx) m)
           idxs m)
    m.

(** One row [i] of [RowWiseSparseAdagradKernel], handled by one block. *)
Definition RowWise_row (blockDim N : Z) (epsilon : R) (param param_mom : Z)
    (indices : list Z) (grad lr : Z) (i : Z) (m : Mem) : Mem :=
  let index := load 0 indices i in
  let reduce_result :=
    fold_left
      (fun acc t =>
         (acc + fold_left
                  (fun sum_squares j =>
                     let x_ij := m (grad + (i * N + j))%Z in
                     (sum_squares + x_ij * x_ij)%R)
                  (stride_loop (Z.to_nat N) t blockDim N) 0%R)%R)
      (zrange blockDim) 0%R in
  let row_sum_squares_avg := (reduce_result / IZR N)%R in
  let m := poke m (param_mom + index) (m (param_mom + index)%Z + row_sum_squares_avg)%R in
  let step := (m lr / (sqrt (m (param_mom + index)%Z) + epsilon))%R in
  fold_left
    (fun m t =>
       run (fun j m =>
              poke m (param + (index * N + j))
                (m (param + (index * N + j))%Z + m (grad + (i * N + j))%Z * step)%R)
           (stride_loop (Z.to_nat N) t blockDim N) m)
    (zrange blockDim) m.

Definition RowWiseSparseAdagradKernel (gridDim blockDim M N : Z) (epsilon : R)
    (param param_mom : Z) (indices : list Z) (grad lr : Z) (m : Mem) : Mem :=
  fold_left
    (fun m b =>
       run (RowWise_row blockDim N epsilon param param_mom indices grad lr)
           (stride_loop (Z.to_nat M) b gridDim M) m)
    (zrange gridDim) m.

(** ** [HIPSparseAdagradOp<float, HIPContext>] *)

Record HIPSparseAdagradOp : Type := mkSparseOp { epsilon_ : R }.

(** The constructor; the arguments are [None] when the operator
    definition does not give them. *)
Definition HIPSparseAdagradOp_new (epsilon_arg decay_arg : option R)
    : outcome HIPSparseAdagradOp :=
  let epsilon := default (1 / 100000)%R epsilon_arg in
  let decay := default 1%R decay_arg in
  if Req_dec_T decay 1%R
  then Ok (mkSparseOp epsilon)
  else Fatal "Decay is not supported for SparseAdagradOp".

Record SparseInputs : Type := mkSparseInputs {
  PARAM : DevTensor;
  MOMENT_1 : DevTensor;
  INDICES : IndexTensor;
  GRAD : DevTensor;
  LR : DevTensor
}.

(** [OUTPUT_PARAM] and [OUTPUT_MOMENT_1] are given by their addresses. *)
Definition Sparse_DoRunWithType2 (cfg : Config) (op : HIPSparseAdagradOp)
    (inp : SparseInputs) (OUTPUT_PARAM OUTPUT_MOMENT_1 : Z) : Op (Ctx Mem) bool :=
  (let N := size (GRAD inp) in
   let grad_slice_sz :=
     size_from_dim (GRAD inp) (Tensor.ndim (idx (INDICES inp))) in
   if N =? 0
   then ret true
   else
     hipLaunchKernelGGL "SparseAdagradKernel"
       (CAFFE_GET_BLOCKS cfg N) (CAFFE_HIP_NUM_THREADS cfg)
       (SparseAdagradKernel (CAFFE_GET_BLOCKS cfg N) (CAFFE_HIP_NUM_THREADS cfg)
          N grad_slice_sz (epsilon_ op) OUTPUT_PARAM OUTPUT_MOMENT_1
          (Tensor.data (idx (INDICES inp))) (ptr (GRAD inp)) (ptr (LR inp))) ;;;
     ret true)%op.

Definition Sparse_DoRunWithType (cfg : Config) (op : HIPSparseAdagradOp)
    (inp : SparseInputs) (OUTPUT_PARAM OUTPUT_MOMENT_1 : Z) : Op (Ctx Mem) bool :=
  (let n := Tensor.size (idx (INDICES inp)) in
   if n =? 0
   then ret true
   else
     match dtype (PARAM inp) with
     | TFloat | TFloat16 =>
         Sparse_DoRunWithType2 cfg op inp OUTPUT_PARAM OUTPUT_MOMENT_1
     | _ => CAFFE_ENFORCE false "Unsupported type of tensor" ;;; ret false
     end)%op.

Definition Sparse_RunOnDevice (cfg : Config) (op : HIPSparseAdagradOp)
    (inp : SparseInputs) (OUTPUT_PARAM OUTPUT_MOMENT_1 : Z) : Op (Ctx Mem) bool :=
  (CAFFE_ENFORCE (size (PARAM inp) =? size (MOMENT_1 inp))
     "Input(PARAM).size() == Input(MOMENT_1).size()" ;;;
   CAFFE_ENFORCE (size (LR inp) =? 1) "Input(LR).size() == 1" ;;;
   CAFFE_ENFORCE
     (size_from_dim (PARAM inp) 1
      =? size_from_dim (GRAD inp) (Tensor.ndim (idx (INDICES inp))))
     "Input(PARAM).size_from_dim(1) == Input(GRAD).size_from_dim(Input(INDICES).ndim())" ;;;
   match idx_dtype (INDICES inp) with
   | TInt32 | TInt64 => Sparse_DoRunWithType cfg op inp OUTPUT_PARAM OUTPUT_MOMENT_1
   | _ => CAFFE_ENFORCE false "Unsupported type of tensor" ;;; ret false
   end)%op.

(** ** [RowWiseSparseAdagradOp<float, HIPContext>::DoRunWithType] *)

Definition RowWise_DoRunWithType (cfg : Config) (epsilon_ : R)
    (inp : SparseInputs) (OUTPUT_PARAM OUTPUT_MOMENT_1 : Z) : Op (Ctx Mem) bool :=
  (let N := size (GRAD inp) in
   if N =? 0
   then ret true
   else
     let GRAD_M := dim32 (GRAD inp) 0 in
     let GRAD_N := Z.quot N GRAD_M in
     hipLaunchKernelGGL "RowWiseSparseAdagradKernel"
       (Z.min GRAD_M (CAFFE_MAXIMUM_NUM_BLOCKS cfg)) (CAFFE_HIP_NUM_THREADS cfg)
       (RowWiseSparseAdagradKernel
          (Z.min GRAD_M (CAFFE_MAXIMUM_NUM_BLOCKS cfg)) (CAFFE_HIP_NUM_THREADS cfg)
          GRAD_M GRAD_N epsilon_ OUTPUT_PARAM OUTPUT_MOMENT_1
          (Tensor.data (idx (INDICES inp))) (ptr (GRAD inp)) (ptr (LR inp))) ;;;
     ret true)%op.

End Adagrad.

(** Notions used to state what the sparse Adagrad kernels compute. *)
Module AdagradSpec.

(** The cell ranges [p, p+n) and [q, q+k) do not meet. *)
Definition apart (p n q k : Z) : Prop := p + n <= q \/ q + k <= p.

(** The sum of the squares of row [i] of a gradient of [N] columns stored
    at [grad]. *)
Definition row_sum_squares (m : Adagrad.Mem) (grad N i : Z) : R :=
  fold_left Rplus
    (map (fun j => (m (grad + (i * N + j))%Z * m (grad + (i * N + j))%Z)%R) (zrange N))
    0%R.

End AdagradSpec.

(** * [float] and [double] *)

(** IEEE 754 binary32 numbers, as [SpecFloat] of the standard library
    specifies them: a sign, a mantissa and an exponent, or a zero, an
    infinity or NaN.  Every operation rounds its exact result to the
    nearest number of the format, ties to the even mantissa; no two
    operations are fused. *)
Module Float.

Definition float : Type := spec_float.

Definition prec : Z := 24.
Definition emax : Z := 128.

Definition zero : float := S754_zero false.

(** [(float)z] for an [int] [z]. *)
Definition of_int (z : Z) : float := binary_normalize prec emax z 0 false.

Definition mul : float -> float -> float := SFmul prec emax.
Definition sub : float -> float -> float := SFsub prec emax.
Definition div : float -> float -> float := SFdiv prec emax.
Definition fabsf : float -> float := SFabs.

(** [<] and [==]; both are false when a side is NaN. *)
Definition ltb : float -> float -> bool := SFltb.
Definition eqb : float -> float -> bool := SFeqb.

(** [isnan] *)
Definition is_nan (f : float) : bool :=
  match f with S754_nan => true | _ => false end.

Definition INT_MAX : Z := 2147483647.
Definition INT_MIN : Z := -2147483648.

(** [(int)f]: the fraction is dropped.  C++ leaves the conversion of a
    number outside the range of [int] undefined; here it is what the
    conversion instruction of the device gives, the nearest end of the
    range, and 0 for NaN. *)
Definition to_int (f : float) : Z :=
  match f with
  | S754_zero _ => 0
  | S754_nan => 0
  | S754_infinity s => if s then INT_MIN else INT_MAX
  | S754_finite s m e =>
      Z.max INT_MIN (Z.min INT_MAX (cond_Zopp s (Z.shiftl (Z.pos m) e)))
  end.

(** The place of a number in the order of [<]: its class (negative
    infinity, negative, zero, positive, positive infinity), then exponent
    and mantissa, both negated for a negative number.  NaN has none. *)
Definition rank (f : float) : option (Z * Z * Z) :=
  match f with
  | S754_nan => None
  | S754_infinity true => Some (-2, 0, 0)
  | S754_infinity false => Some (2, 0, 0)
  | S754_zero _ => Some (0, 0, 0)
  | S754_finite true m e => Some (-1, - e, Z.neg m)
  | S754_finite false m e => Some (1, e, Z.pos m)
  end.

Definition lex_compare (a b : Z * Z * Z) : comparison :=
  let '(a1, a2, a3) := a in
  let '(b1, b2, b3) := b in
  match a1 ?= b1 with
  | Eq => match a2 ?= b2 with Eq => a3 ?= b3 | c => c end
  | c => c
  end.

Definition lex_lt (a b : Z * Z * Z) : Prop :=
  let '(a1, a2, a3) := a in
  let '(b1, b2, b3) := b in
  a1 < b1 \/ (a1 = b1 /\ (a2 < b2 \/ (a2 = b2 /\ a3 < b3))).

(** [a <= b] *)
Definition le (a b : float) : Prop := ltb a b = true \/ eqb a b = true.


End Float.

(** IEEE 754 binary64 numbers. *)
Module Double.

Definition double : Type := spec_float.

Definition prec : Z := 53.
Definition emax : Z := 1024.

(** [(double)z] for an [int] [z]. *)
Definition of_int (z : Z) : double := binary_normalize prec emax z 0 false.

(** The literal [1.0]. *)
Definition one : double := of_int 1.

Definition mul : double -> double -> double := SFmul prec emax.
Definition div : double -> double -> double := SFdiv prec emax.

(** [(float)d]: the number is rounded to binary32. *)
Definition to_float (d : double) : Float.float :=
  match d with
  | S754_finite s m e => binary_round Float.prec Float.emax s m e
  | _ => d
  end.

End Double.

(** * [caffe2/operators/rmac_regions_op_hip.cc] *)

Module RMACRegions.

Import Hip.

(** [cub::KeyValuePair<int, float>]: <step, value> *)
Record KeyValuePair : Type := mkKV {
  key : Z;
  value : Float.float
}.

(** [operator<] on key-value pairs, as the file defines it. *)
Definition kv_lt (kv1 kv2 : KeyValuePair) : bool :=
  Float.ltb (value kv1) (value kv2)
  || (Float.eqb (value kv1) (value kv2) && (key kv2 <? key kv1)).

(** [cub::Min] *)
Definition kv_min (a b : KeyValuePair) : KeyValuePair :=
  if kv_lt b a then b else a.

(** The largest finite [float], [(2 ^ 24 - 1) * 2 ^ 104]. *)
Definition FLT_MAX : Float.float := S754_finite false 16777215 104.

(** The value the first loop of [NumRMACRegionsKernel] gives to a step.
    The quotient [diff / (1.0 * kv.key)] is a [double], rounded to [float]
    when it is stored in [b]; in the second line the [int] operands are
    converted to [float] and every operation is one of [float]. *)
Definition step_value (W H : Z) (overlap : Float.float) (step : Z) : Float.float :=
  let minW := Z.min H W in
  let diff := Z.max H W - minW in
  let b :=
    Double.to_float
      (Double.div (Double.of_int diff) (Double.mul Double.one (Double.of_int step))) in
  Float.fabsf
    (Float.sub
       (Float.div
          (Float.sub (Float.of_int (minW * minW)) (Float.mul (Float.of_int minW) b))
          (Float.of_int (minW * minW)))
       overlap).

(** One pass through the body of the first loop. *)
Definition argmin_step (W H min_step : Z) (overlap : Float.float)
    (min_kv : KeyValuePair) (index : Z) : KeyValuePair :=
  let kv := mkKV (min_step + index) (step_value W H overlap (min_step + index)) in
  if kv_lt kv min_kv then kv else min_kv.

(** The local reduction of one thread; [key0] is what its uninitialised
    [min_kv.key] happens to hold. *)
Definition local_argmin (W H min_step : Z) (overlap : Float.float) (key0 : Z)
    (idxs : list Z) : KeyValuePair :=
  fold_left (argmin_step W H min_step overlap) idxs (mkKV key0 FLT_MAX).

(** The second local reduction: the rois of the scales a thread owns. *)
Definition local_num_rois (minW Wd Hd : Z) (idxs : list Z) : Z :=
  fold_left
    (fun num_rois index =>
       let l := index + 1 in
       let region_size := Z.quot (2 * minW) (l + 1) in
       num_rois + (if 0 <? region_size then (l + Wd) * (l + Hd) else 0))
    idxs 0.

(** The kernel runs on one block of [blockDim] threads; thread 0 writes
    the three cells of [num_rois_data].  The block-wide reductions combine
    the threads' values in thread order. *)
Definition NumRMACRegionsKernel (blockDim W H min_step max_step : Z)
    (overlap : Float.float) (scales : Z) (key0 : Z -> Z) (num_rois_data : list Z) : list Z :=
  let minW := Z.min H W in
  let locals :=
    map (fun t =>
           local_argmin W H min_step overlap (key0 t)
             (thread_indices 1 blockDim 0 t (max_step - min_step + 1)))
        (zrange blockDim) in
  let min_kv :=
    match locals with
    | [] => mkKV (key0 0) FLT_MAX
    | kv :: rest => fold_left kv_min rest kv
    end in
  let step := key min_kv in
  let Wd := if H <? W then step else 0 in
  let Hd := if W <? H then step else 0 in
  let num_rois :=
    fold_left Z.add
      (map (fun t => local_num_rois minW Wd Hd (thread_indices 1 blockDim 0 t scales))
           (zrange blockDim))
      0 in
  store (store (store num_rois_data 0 num_rois) 1 Wd) 2 Hd.

(** The [do ... while] loop that finds the scale [l] of a roi: entered
    with the current [roi_id], [l] and [num_rois_at_scale], it returns the
    final [roi_id] and [l]. *)
Fixpoint find_scale (fuel : nat) (Wd Hd roi_id l num_rois_at_scale : Z) : Z * Z :=
  let roi_id := roi_id - num_rois_at_scale in
  let l := l + 1 in
  let num_rois_at_scale := (l + Wd) * (l + Hd) in
  match fuel with
  | O => (roi_id, l)
  | S fuel' =>
      if 0 <=? roi_id - num_rois_at_scale
      then find_scale fuel' Wd Hd roi_id l num_rois_at_scale
      else (roi_id, l)
  end.



(** The body of the loop of [RMACRegionsKernel] up to the five entries of
    [roi].  The quotients are [double]s rounded to [float] when they are
    stored in [bw] and [bh]; [bw * i] is a product of [float]s, converted
    to [int] when it is stored in [roi[1]]. *)
Definition roi_of_index (W H num_rois Wd Hd index : Z) : list Z :=
  let batch_id := Z.quot index num_rois in
  let roi_id := Z.rem index num_rois in
  let '(roi_id, l) := find_scale (Z.to_nat roi_id) Wd Hd roi_id 0 0 in
  let region_size := Z.quot (2 * Z.min H W) (l + 1) in
  let bw : Float.float :=
    Double.to_float
      (if 0 <? l + Wd - 1
       then Double.div (Double.of_int (W - region_size))
                       (Double.mul Double.one (Double.of_int (l + Wd - 1)))
       else Double.of_int 0) in
  let bh : Float.float :=
    Double.to_float
      (if 0 <? l + Hd - 1
       then Double.div (Double.of_int (H - region_size))
                       (Double.mul Double.one (Double.of_int (l + Hd - 1)))
       else Double.of_int 0) in
  let i := Z.quot roi_id (l + Hd) in
  let j := Z.rem roi_id (l + Hd) in
  let roi1 := Float.to_int (Float.mul bw (Float.of_int i)) in
  let roi2 := Float.to_int (Float.mul bh (Float.of_int j)) in
  let roi1 :=
    if W <? roi1 + region_size then roi1 - (roi1 + region_size - W) else roi1 in
  let roi2 :=
    if H <? roi2 + region_size then roi2 - (roi2 + region_size - H) else roi2 in
  [batch_id; roi1; roi2; roi1 + region_size - 1; roi2 + region_size - 1].

(** Entry [p] of the output as the specification describes it: entry
    [p % 5] of the roi of row [p / 5], converted to [float]. *)
Definition roi_cell (W H num_rois Wd Hd p : Z) : Float.float :=
  Float.of_int (load 0 (roi_of_index W H num_rois Wd Hd (Z.quot p 5)) (Z.rem p 5)).

(** One pass of a block through the loop body.  [offset] is the index of
    its thread 0; the threads [t] with [offset + t < N] are in the loop.
    They fill [output_shared], meet at the barrier, and copy the block's
    rois to the output in one contiguous piece. *)
Definition block_pass (blockDim W H N num_rois Wd Hd offset : Z)
    (st : list Float.float * list Float.float) : list Float.float * list Float.float :=
  let '(output_shared, output) := st in
  let active := List.filter (fun t => offset + t <? N) (zrange blockDim) in
  let output_shared :=
    fold_left
      (fun sh t =>
         let roi := roi_of_index W H num_rois Wd Hd (offset + t) in
         fold_left (fun sh i => store sh (t * 5 + i) (Float.of_int (load 0 roi i)))
                   (zrange 5) sh)
      active output_shared in
  let num_threads := Z.min blockDim (N - offset) in
  let output :=
    fold_left
      (fun out t =>
         fold_left
           (fun out i =>
              store out (offset * 5 + (num_threads * i + t))
                    (load Float.zero output_shared (num_threads * i + t)))
           (zrange 5) out)
      active output in
  (output_shared, output).

Definition RMACRegionsKernel (gridDim blockDim W H N : Z)
    (num_rois_data : list Z) (output : list Float.float) : list Float.float :=
  let num_rois := load 0 num_rois_data 0 in
  let Wd := load 0 num_rois_data 1 in
  let Hd := load 0 num_rois_data 2 in
  fold_left
    (fun output b =>
       snd (fold_left
              (fun st offset => block_pass blockDim W H N num_rois Wd Hd offset st)
              (thread_indices gridDim blockDim b 0 N)
              (replicate (Z.to_nat (blockDim * 5)) Float.zero, output)))
    (zrange gridDim) output.

Record Outputs : Type := mkOutputs {
  output : Tensor.t Float.float;
  num_rois_ : Tensor.t Z
}.

Definition set_output (f : Tensor.t Float.float -> Tensor.t Float.float) (o : Outputs) : Outputs :=
  mkOutputs (f (output o)) (num_rois_ o).
Definition set_num_rois_ (f : Tensor.t Z -> Tensor.t Z) (o : Outputs) : Outputs :=
  mkOutputs (output o) (f (num_rois_ o)).

(** [X.dim32(i)]: the index must be below the rank. *)
Definition dim32 {S : Type} (X_dims : list Z) (i : Z) : Op S Z :=
  (CAFFE_ENFORCE (i <? Z.of_nat (length X_dims)) "i < dims_.size()" ;;;
   ret (nth (Z.to_nat i) X_dims 0))%op.

(** [X_dims] is the shape of the input; its contents are not read. *)
Definition RunOnDevice (cfg : Config) (overlap_ : Float.float) (scales_ : Z)
    (key0 : Z -> Z) (X_dims : list Z) : Op (Ctx Outputs) bool :=
  (if Tensor.prod_dims X_dims =? 0
   then ret true
   else
     batch_size <- dim32 X_dims 0 ;;
     H <- dim32 X_dims 2 ;;
     W <- dim32 X_dims 3 ;;
     let min_step := 1 in
     let max_step := 6 in
     on_outs (set_num_rois_ (Tensor.Resize 0 [3])) ;;;
     hipLaunchKernelGGL "NumRMACRegionsKernel" 1 (CAFFE_HIP_NUM_THREADS cfg)
       (set_num_rois_ (fun x =>
          Tensor.mk (Tensor.dims x)
            (NumRMACRegionsKernel (CAFFE_HIP_NUM_THREADS cfg) W H min_step max_step
               overlap_ scales_ key0 (Tensor.data x)))) ;;;
     num_rois <- read_outs (fun o => load 0 (Tensor.data (num_rois_ o)) 0) ;;
     let N := batch_size * num_rois in
     on_outs (set_output (Tensor.Resize Float.zero [N; 5])) ;;;
     hipLaunchKernelGGL "RMACRegionsKernel"
       (CAFFE_GET_BLOCKS cfg N) (CAFFE_HIP_NUM_THREADS cfg)
       (fun o =>
          set_output (fun x =>
            Tensor.mk (Tensor.dims x)
              (RMACRegionsKernel (CAFFE_GET_BLOCKS cfg N) (CAFFE_HIP_NUM_THREADS cfg)
                 W H N (Tensor.data (num_rois_ o)) (Tensor.data x))) o) ;;;
     ret true)%op.

End RMACRegions.

(** Notions used to state what [NumRMACRegionsKernel] computes. *)
Module RMACSpec.

Import RMACRegions.

(** The number of rois at the scale [l = index + 1]: none when the region
    size [2 * minW / (l + 1)] is zero. *)
Definition rois_at_scale (minW Wd Hd index : Z) : Z :=
  let l := index + 1 in
  let region_size := Z.quot (2 * minW) (l + 1) in
  if 0 <? region_size then (l + Wd) * (l + Hd) else 0.

(** The rois of the scales [1 .. scales]. *)
Definition total_rois (minW Wd Hd scales : Z) : Z :=
  fold_left Z.add (map (rois_at_scale minW Wd Hd) (zrange scales)) 0.

(** A step with its score. *)
Definition kv_of_step (W H : Z) (overlap : Float.float) (step : Z) : KeyValuePair :=
  mkKV step (step_value W H overlap step).

End RMACSpec.

(** * Lemmas on buffers and schedules *)

Section Buffers.

Context {A : Type}.
Implicit Types (buf : list A) (p q : Z) (v junk : A).

Lemma store_length buf p v : length (store buf p v) = length buf.
Proof. unfold store. destruct (p <? 0); [reflexivity | apply length_insert]. Qed.

Lemma load_store_same junk buf p v :
  0 <= p < Z.of_nat (length buf) -> load junk (store buf p v) p = v.
Proof.
  intros Hp. unfold load, store.
  destruct (p <? 0) eqn:E; [lia |].
  rewrite list_lookup_insert_eq by lia. reflexivity.
Qed.

Lemma load_store_other junk buf p q v :
  p <> q -> load junk (store buf p v) q = load junk buf q.
Proof.
  intros Hne. unfold load, store.
  destruct (q <? 0) eqn:Eq; [reflexivity |].
  destruct (p <? 0) eqn:Ep; [reflexivity |].
  rewrite list_lookup_insert_ne by lia. reflexivity.
Qed.

Lemma store_commute buf p q v w :
  p <> q -> store (store buf p v) q w = store (store buf q w) p v.
Proof.
  intros Hne. unfold store.
  destruct (p <? 0) eqn:Ep, (q <? 0) eqn:Eq; try reflexivity.
  apply list_insert_insert_ne. lia.
Qed.

Lemma load_nth junk buf p :
  0 <= p < Z.of_nat (length buf) -> buf !! Z.to_nat p = Some (load junk buf p).
Proof.
  intros Hp. unfold load. destruct (p <? 0) eqn:E; [lia |].
  destruct (buf !! Z.to_nat p) eqn:L; [reflexivity |].
  apply lookup_ge_None in L. lia.
Qed.

End Buffers.

Lemma zrange_length n : length (zrange n) = Z.to_nat n.
Proof. unfold zrange. rewrite length_map, length_seq. reflexivity. Qed.

Lemma in_zrange n x : In x (zrange n) <-> 0 <= x < n.
Proof.
  unfold zrange. rewrite in_map_iff. split.
  - intros (k & <- & Hk). apply in_seq in Hk. lia.
  - intros Hx. exists (Z.to_nat x). split; [lia |]. apply in_seq. lia.
Qed.

Lemma NoDup_zrange n : List.NoDup (zrange n).
Proof.
  unfold zrange. apply Finite.Injective_map_NoDup; [intros a b; lia | apply List.seq_NoDup].
Qed.

Lemma zrange_succ n : 0 <= n -> zrange (n + 1) = zrange n ++ [n].
Proof.
  intros Hn. unfold zrange.
  replace (Z.to_nat (n + 1)) with (Z.to_nat n + 1)%nat by lia.
  rewrite seq_app, map_app. simpl. f_equal. f_equal. lia.
Qed.

Lemma zrange_nonpos n : n <= 0 -> zrange n = [].
Proof. intros Hn. unfold zrange. replace (Z.to_nat n) with 0%nat by lia. reflexivity. Qed.

Section Schedules.

Import Hip.

Lemma in_stride_loop fuel i stride n x :
  0 < stride ->
  In x (stride_loop fuel i stride n) <->
  exists k : nat, (k < fuel)%nat /\ x = i + Z.of_nat k * stride /\ x < n.
Proof.
  intros Hs. revert i. induction fuel as [| fuel IH]; intros i; simpl.
  - split; [intros [] | intros (k & Hk & _); lia].
  - destruct (i <? n) eqn:E.
    + simpl. rewrite IH. split.
      * intros [-> | (k & Hk & -> & Hlt)].
        -- exists 0%nat. split; [lia |]. split; lia.
        -- exists (S k). split; [lia |]. split; lia.
      * intros ([| k] & Hk & -> & Hlt).
        -- left. lia.
        -- right. exists k. split; [lia |]. split; lia.
    + split; [intros [] |]. intros (k & Hk & -> & Hlt). nia.
Qed.

Lemma stride_loop_lower fuel i stride n x :
  0 < stride -> In x (stride_loop fuel i stride n) -> i <= x.
Proof.
  intros Hs Hin. apply in_stride_loop in Hin as (k & _ & -> & _); [nia | exact Hs].
Qed.

Lemma NoDup_stride_loop fuel i stride n :
  0 < stride -> List.NoDup (stride_loop fuel i stride n).
Proof.
  intros Hs. revert i. induction fuel as [| fuel IH]; intros i; simpl.
  - constructor.
  - destruct (i <? n); [| constructor].
    constructor; [| apply IH].
    intros Hin. apply stride_loop_lower in Hin; lia.
Qed.

Lemma NoDup_flat_map {X Y : Type} (f : X -> list Y) (l : list X) :
  List.NoDup l ->
  (forall x, In x l -> List.NoDup (f x)) ->
  (forall x y z, In x l -> In y l -> In z (f x) -> In z (f y) -> x = y) ->
  List.NoDup (flat_map f l).
Proof.
  induction l as [| a l IH]; intros Hl Hf Hdisj; simpl.
  - constructor.
  - inversion Hl as [| ? ? Ha Hl']; subst.
    apply NoDup_ListNoDup, NoDup_app. split; [apply NoDup_ListNoDup, Hf; left; reflexivity |]. split.
    + intros z Hz1 Hz2. apply list_elem_of_In in Hz1, Hz2.
      apply in_flat_map in Hz2 as (y & Hy & Hzy).
      assert (a = y) as -> by (apply (Hdisj a y z); simpl; auto).
      apply Ha. exact Hy.
    + apply NoDup_ListNoDup, IH; [exact Hl' | intros; apply Hf; right; assumption |].
      intros x y z Hx Hy. apply Hdisj; right; assumption.
Qed.

(** The threads of a launch, numbered [tid = 0 .. T-1], each striding by [T],
    visit every index below [n] exactly once. *)
Lemma strided_threads_perm (T n : Z) (start : Z -> Z) :
  0 < T -> (forall tid, 0 <= tid < T -> start tid = tid) ->
  Permutation
    (flat_map (fun tid => stride_loop (Z.to_nat n) (start tid) T n) (zrange T))
    (zrange n).
Proof.
  intros HT Hstart. apply Permutation.NoDup_Permutation.
  - apply NoDup_flat_map.
    + apply NoDup_zrange.
    + intros x _. apply NoDup_stride_loop. exact HT.
    + intros x y z Hx Hy Hzx Hzy.
      apply in_zrange in Hx, Hy.
      apply in_stride_loop in Hzx as (k1 & _ & E1 & _); [| exact HT].
      apply in_stride_loop in Hzy as (k2 & _ & E2 & _); [| exact HT].
      rewrite Hstart in E1, E2 by assumption.
      assert (x = z mod T) by (rewrite E1, Z_mod_plus_full; symmetry; apply Z.mod_small; lia).
      assert (y = z mod T) by (rewrite E2, Z_mod_plus_full; symmetry; apply Z.mod_small; lia).
      congruence.
  - apply NoDup_zrange.
  - intros x. rewrite in_flat_map, in_zrange. split.
    + intros (tid & Htid & Hin). apply in_zrange in Htid.
      apply in_stride_loop in Hin as (k & _ & -> & Hlt); [| exact HT].
      rewrite Hstart by assumption. split; [nia | rewrite Hstart in Hlt by assumption; lia].
    + intros Hx. exists (x mod T).
      assert (0 <= x mod T < T) by (apply Z.mod_pos_bound; lia).
      split; [apply in_zrange; assumption |].
      apply in_stride_loop; [exact HT |].
      exists (Z.to_nat (x / T)).
      assert (0 <= x / T) by (apply Z.div_pos; lia).
      assert (x = T * (x / T) + x mod T) by (apply Z.div_mod; lia).
      rewrite Hstart by assumption.
      split; [| split; [ | lia]].
      * assert (x / T <= x) by (apply Z.div_le_upper_bound; nia). lia.
      * rewrite Z2Nat.id by assumption. lia.
Qed.

Lemma flat_map_flat_map_zrange {Y : Type} (G B : Z) (f : Z -> list Y) :
  0 <= G -> 0 <= B ->
  flat_map (fun b => flat_map (fun t => f (b * B + t)) (zrange B)) (zrange G)
  = flat_map f (zrange (G * B)).
Proof.
  intros HG HB. pattern G. apply natlike_ind; [| | exact HG].
  - rewrite Z.mul_0_l. reflexivity.
  - intros g Hg IH. unfold Z.succ.
    rewrite zrange_succ, flat_map_app, IH by assumption. simpl. rewrite app_nil_r.
    replace ((g + 1) * B) with (g * B + B) by lia.
    assert (forall m, 0 <= m -> zrange (g * B + m) = zrange (g * B) ++ map (fun t => g * B + t) (zrange m)) as Hsplit.
    { intros m Hm. pattern m. apply natlike_ind; [| | exact Hm].
      - rewrite Z.add_0_r. simpl. rewrite app_nil_r. reflexivity.
      - intros k Hk IHk. unfold Z.succ.
        rewrite Z.add_assoc, zrange_succ, IHk by nia.
        rewrite (zrange_succ k), map_app, app_assoc by assumption. reflexivity. }
    rewrite Hsplit, flat_map_app by assumption. f_equal.
    clear. induction (zrange B) as [| t l IHl]; simpl; [reflexivity | rewrite IHl; reflexivity].
Qed.

(** The grid-stride loop visits every index below [n] exactly once. *)
Lemma HIP_1D_KERNEL_LOOP_perm gridDim blockDim n :
  0 < gridDim -> 0 < blockDim ->
  Permutation (HIP_1D_KERNEL_LOOP gridDim blockDim n) (zrange n).
Proof.
  intros HG HB. unfold HIP_1D_KERNEL_LOOP, thread_indices.
  rewrite (flat_map_flat_map_zrange gridDim blockDim
             (fun tid => stride_loop (Z.to_nat n) tid (blockDim * gridDim) n)) by lia.
  rewrite (Z.mul_comm blockDim gridDim).
  apply (strided_threads_perm (gridDim * blockDim) n (fun tid => tid)); [nia | reflexivity].
Qed.

(** With no block the loop visits nothing; it is launched so only for
    [n = 0]. *)
Lemma HIP_1D_KERNEL_LOOP_empty gridDim blockDim n :
  n <= 0 -> HIP_1D_KERNEL_LOOP gridDim blockDim n = [].
Proof.
  intros Hn. unfold HIP_1D_KERNEL_LOOP, thread_indices.
  replace (Z.to_nat n) with 0%nat by lia. simpl.
  induction (zrange gridDim) as [| b l IH]; simpl; [reflexivity |].
  rewrite IH, app_nil_r. induction (zrange blockDim); simpl; auto.
Qed.

Lemma launch_perm cfg gridArg n :
  config_ok cfg -> (0 < n -> 0 < gridArg) ->
  Permutation (HIP_1D_KERNEL_LOOP gridArg (CAFFE_HIP_NUM_THREADS cfg) n) (zrange n).
Proof.
  intros (HT & _ & _) Hg.
  destruct (Z_lt_le_dec 0 n) as [Hn | Hn].
  - apply HIP_1D_KERNEL_LOOP_perm; auto.
  - rewrite HIP_1D_KERNEL_LOOP_empty, zrange_nonpos by assumption. constructor.
Qed.

Lemma default_config_ok : config_ok default_config.
Proof.
  unfold config_ok, default_config. simpl. split; [lia |]. split; [lia |].
  intros n Hn. apply Z.min_glb_lt; [| lia].
  apply Z.div_str_pos. lia.
Qed.

Lemma run_app {S : Type} (body : Z -> S -> S) l1 l2 s :
  run body (l1 ++ l2) s = run body l2 (run body l1 s).
Proof. unfold run. apply fold_left_app. Qed.

Lemma run_cons {S : Type} (body : Z -> S -> S) x l s :
  run body (x :: l) s = run body l (body x s).
Proof. reflexivity. Qed.

Lemma run_ext_in {S : Type} (body1 body2 : Z -> S -> S) l s :
  (forall i s, In i l -> body1 i s = body2 i s) ->
  run body1 l s = run body2 l s.
Proof.
  unfold run. revert s. induction l as [| a l IH]; intros s Hext; simpl; [reflexivity |].
  rewrite Hext by (left; reflexivity). apply IH. intros; apply Hext; right; assumption.
Qed.

(** Loop bodies that commute can be run in any order. *)
Lemma run_permutation {S : Type} (body : Z -> S -> S) l1 l2 :
  Permutation l1 l2 ->
  (forall i j s, In i l1 -> In j l1 -> i <> j -> body i (body j s) = body j (body i s)) ->
  forall s, run body l1 s = run body l2 s.
Proof.
  unfold run. induction 1 as [| x l l' HP IH | x y l | l l' l'' HP1 IH1 HP2 IH2];
    intros Hc s; simpl.
  - reflexivity.
  - apply IH. intros; apply Hc; simpl; auto.
  - destruct (Z.eq_dec x y) as [-> | Hne]; [reflexivity |].
    rewrite (Hc x y) by (simpl; auto). reflexivity.
  - rewrite IH1 by assumption. apply IH2.
    intros i j s' Hi Hj. apply Hc; eapply Permutation_in; try eassumption;
      apply Permutation_sym; assumption.
Qed.

End Schedules.

Section UpdateKernels.

Import Hip.

Context {A : Type} (junk : A).

(** A loop whose iteration [i] rewrites cell [i] from its old content
    only: in index order. *)
Lemma run_update_zrange (g : Z -> A -> A) n buf :
  let r := run (fun i b => store b i (g i (load junk b i))) (zrange n) buf in
  length r = length buf /\
  forall i, 0 <= i < Z.of_nat (length buf) ->
    load junk r i = if i <? n then g i (load junk buf i) else load junk buf i.
Proof.
  destruct (Z_lt_le_dec n 0) as [Hneg | Hn].
  - rewrite zrange_nonpos by lia. simpl. split; [reflexivity |].
    intros i Hi. destruct (Z.ltb_spec i n); [lia | reflexivity].
  - pattern n. apply natlike_ind; [| | exact Hn].
    + simpl. split; [reflexivity |]. intros i Hi.
      destruct (Z.ltb_spec i 0); [lia | reflexivity].
    + intros k Hk [IHlen IH]. unfold Z.succ. rewrite zrange_succ by assumption.
      rewrite run_app. simpl. rewrite store_length. split; [exact IHlen |].
      intros i Hi. destruct (Z.eq_dec i k) as [-> | Hne].
      * rewrite load_store_same by (rewrite IHlen; exact Hi).
        rewrite (IH k Hi). destruct (Z.ltb_spec k k); [lia |].
        destruct (Z.ltb_spec k (k + 1)); [reflexivity | lia].
      * rewrite load_store_other by congruence. rewrite (IH i Hi).
        destruct (Z.ltb_spec i k), (Z.ltb_spec i (k + 1)); try reflexivity; lia.
Qed.

(** The same under any schedule that visits each index once. *)
Lemma run_update_spec (g : Z -> A -> A) sched n buf :
  Permutation sched (zrange n) ->
  let r := run (fun i b => store b i (g i (load junk b i))) sched buf in
  length r = length buf /\
  forall i, 0 <= i < Z.of_nat (length buf) ->
    load junk r i = if i <? n then g i (load junk buf i) else load junk buf i.
Proof.
  intros HP. cbv zeta.
  rewrite (run_permutation _ sched (zrange n) HP).
  - apply run_update_zrange.
  - intros i j s _ _ Hne.
    rewrite (load_store_other junk s j i) by congruence.
    rewrite (load_store_other junk s i j) by congruence.
    apply store_commute. congruence.
Qed.

End UpdateKernels.

Section Monad.

Context {S A B : Type}.

Lemma bind_ok (m : Op S A) (k : A -> Op S B) s a s' :
  m s = (Ok a, s') -> bind m k s = k a s'.
Proof. intros E. unfold bind. rewrite E. reflexivity. Qed.

Lemma bind_fatal (m : Op S A) (k : A -> Op S B) s msg s' :
  m s = (Fatal msg, s') -> bind m k s = (Fatal msg, s').
Proof. intros E. unfold bind. rewrite E. reflexivity. Qed.

Lemma bind_inv (m : Op S A) (k : A -> Op S B) s b s' :
  bind m k s = (Ok b, s') ->
  exists a s1, m s = (Ok a, s1) /\ k a s1 = (Ok b, s').
Proof.
  unfold bind. destruct (m s) as [[a | msg] s1]; [eauto | discriminate].
Qed.

(** A computation that ends in a failing step is fatal whatever precedes. *)
Lemma bind_is_fatal (m : Op S A) (k : A -> Op S B) s :
  (forall a s', is_fatal (fst (k a s')) = true) ->
  is_fatal (fst (bind m k s)) = true.
Proof.
  intros Hk. unfold bind. destruct (m s) as [[a | msg] s']; [apply Hk | reflexivity].
Qed.

End Monad.

Lemma canonical_axis_index_ok {S T : Type} (x : Tensor.t T) (axis : Z) (s : S) :
  - Tensor.ndim x <= axis < Tensor.ndim x ->
  Tensor.canonical_axis_index x axis s
  = (Ok (if axis <? 0 then axis + Tensor.ndim x else axis), s).
Proof.
  intros [H1 H2]. unfold Tensor.canonical_axis_index, bind, CAFFE_ENFORCE, ret.
  destruct (Z.leb_spec (- Tensor.ndim x) axis); [| lia].
  destruct (Z.ltb_spec axis (Tensor.ndim x)); [| lia]. reflexivity.
Qed.

Lemma canonical_axis_index_state {S T : Type} (x : Tensor.t T) (axis : Z) (s s' : S) o :
  Tensor.canonical_axis_index x axis s = (o, s') -> s' = s.
Proof.
  unfold Tensor.canonical_axis_index, bind, CAFFE_ENFORCE, ret.
  destruct (- Tensor.ndim x <=? axis); [| intros E; inversion E; reflexivity].
  destruct (axis <? Tensor.ndim x); intros E; inversion E; reflexivity.
Qed.

Lemma Resize_dims {T : Type} (junk : T) d (x : Tensor.t T) :
  Tensor.dims (Tensor.Resize junk d x) = d.
Proof. reflexivity. Qed.

Lemma Resize_length {T : Type} (junk : T) d (x : Tensor.t T) :
  length (Tensor.data (Tensor.Resize junk d x)) = Z.to_nat (Tensor.prod_dims d).
Proof. unfold Tensor.Resize. simpl. apply length_resize. Qed.

Lemma prod_dims_app l1 l2 :
  Tensor.prod_dims (l1 ++ l2) = Tensor.prod_dims l1 * Tensor.prod_dims l2.
Proof.
  unfold Tensor.prod_dims. induction l1 as [| a l1 IH]; simpl.
  - destruct (fold_right Z.mul 1 l2); reflexivity.
  - rewrite IH. lia.
Qed.

Lemma prod_dims_nonneg l : Forall (fun d => 0 <= d) l -> 0 <= Tensor.prod_dims l.
Proof.
  unfold Tensor.prod_dims. induction 1 as [| a l Ha _ IH]; simpl; [lia | nia].
Qed.

Lemma size_split {T : Type} (x : Tensor.t T) k :
  Tensor.size x = Tensor.size_to_dim x k * Tensor.size_from_dim x k.
Proof.
  unfold Tensor.size, Tensor.size_to_dim, Tensor.size_from_dim.
  rewrite <- prod_dims_app, take_drop. reflexivity.
Qed.

(** * NumHipDevices *)

Section NumHipDevicesFacts.

Import CommonHip.

(** Once [count] is known, a call answers from the cache: it asks the
    runtime nothing and leaves [count] as it is. *)
Lemma NumHipDevices_cached asan dbg rt w :
  0 <= count w ->
  exists w',
    NumHipDevices asan dbg rt w = (Ok (count w), w') /\
    count w' = count w /\ queries w' = queries w.
Proof.
  intros Hc. unfold NumHipDevices, bind, get_state, modify, ret.
  destruct dbg; simpl.
  - destruct (first w); simpl.
    + destruct (Z.ltb_spec (count w) 0); [lia |]. simpl. eauto.
    + destruct (Z.ltb_spec (count w) 0); [lia |]. simpl. eauto.
  - destruct (Z.ltb_spec (count w) 0); [lia |]. simpl. eauto.
Qed.

Lemma calls_cached asan dbg rt n : forall w,
  0 <= count w ->
  exists w',
    calls asan dbg rt n w = (Ok (repeat (count w) n), w') /\
    count w' = count w /\ queries w' = queries w.
Proof.
  induction n as [| n IH]; intros w Hc; simpl.
  - exists w. auto.
  - destruct (NumHipDevices_cached asan dbg rt w Hc) as (w1 & E1 & Hc1 & Hq1).
    destruct (IH w1) as (w2 & E2 & Hc2 & Hq2); [lia |].
    exists w2. unfold bind at 1. rewrite E1. unfold bind at 1. rewrite E2.
    unfold ret. rewrite Hc1. split; [reflexivity |]. split; congruence.
Qed.

Lemma NumHipDevices_first asan dbg rt w :
  count w < 0 ->
  exists w',
    NumHipDevices asan dbg rt w
    = (first_call_result asan (fst (rt (queries w))) (snd (rt (queries w))), w') /\
    queries w' = S (queries w) /\
    (forall c, first_call_result asan (fst (rt (queries w))) (snd (rt (queries w))) = Ok c ->
               count w' = c).
Proof.
  intros Hc. unfold NumHipDevices, bind, get_state, modify, ret, hipGetDeviceCount, LOG_FATAL.
  destruct dbg; simpl.
  - destruct (first w); simpl;
      (destruct (Z.ltb_spec (count w) 0); [| lia]); simpl;
      destruct (rt (queries w)) as [[] n]; simpl;
      try destruct asan; simpl; eexists; (split; [reflexivity |]);
      (split; [reflexivity |]); intros c Hcq; simpl; try (inversion Hcq; reflexivity).
  - destruct (Z.ltb_spec (count w) 0); [| lia]; simpl;
      destruct (rt (queries w)) as [[] n]; simpl;
      try destruct asan; simpl; eexists; (split; [reflexivity |]);
      (split; [reflexivity |]); intros c Hcq; simpl; try (inversion Hcq; reflexivity).
Qed.

End NumHipDevicesFacts.

(** C4, as the specification words it, fails: an unknown error of the
    device-count query is not one of the three named conditions, and yet
    the call is not fatal but answers 0. *)
Lemma NumHipDevices_unknown_error_not_fatal :
  ~ (forall asan dbg rt err,
       fst (rt 0%nat) = err ->
       err <> CommonHip.hipSuccess ->
       err <> CommonHip.hipErrorNoDevice ->
       err <> CommonHip.hipErrorInsufficientDriver ->
       err <> CommonHip.hipErrorInitializationError ->
       is_fatal (fst (CommonHip.NumHipDevices asan dbg rt CommonHip.initial)) = true).
Proof.
  intros Hclaim.
  specialize (Hclaim false false (fun _ => (CommonHip.hipErrorUnknown, 0%nat))
                CommonHip.hipErrorUnknown eq_refl).
  simpl in Hclaim. discriminate Hclaim; discriminate.
Qed.

(** C4, amended: started from the initial state, [NumHipDevices] asks the
    runtime once; success yields the reported count; no-device,
    insufficient-driver, initialization-error and unknown-error answers
    (and a memory-allocation error in an ASAN build) yield 0; every other
    error is fatal; and after a call that returned [c], any number of
    further calls return [c] without asking the runtime again. *)
Theorem NumHipDevices_queries_once_and_degrades asan dbg rt :
  exists w1,
    CommonHip.NumHipDevices asan dbg rt CommonHip.initial
    = (match fst (rt 0%nat) with
       | CommonHip.hipSuccess => Ok (Z.of_nat (snd (rt 0%nat)))
       | CommonHip.hipErrorNoDevice
       | CommonHip.hipErrorInsufficientDriver
       | CommonHip.hipErrorInitializationError
       | CommonHip.hipErrorUnknown => Ok 0
       | CommonHip.hipErrorMemoryAllocation =>
           if asan then Ok 0 else Fatal "Unexpected error from hipGetDeviceCount()."
       | CommonHip.hipErrorOther _ => Fatal "Unexpected error from hipGetDeviceCount()."
       end, w1) /\
    CommonHip.queries w1 = 1%nat /\
    forall c, fst (CommonHip.NumHipDevices asan dbg rt CommonHip.initial) = Ok c ->
      forall asan' dbg' rt' n, exists w2,
        CommonHip.calls asan' dbg' rt' n w1 = (Ok (repeat c n), w2) /\
        CommonHip.queries w2 = 1%nat.
Proof.
  destruct (NumHipDevices_first asan dbg rt CommonHip.initial) as (w1 & E & Hq & Hc);
    [simpl; lia |].
  exists w1. split; [exact E |]. split; [exact Hq |].
  intros c Hres asan' dbg' rt' n. rewrite E in Hres. simpl in Hres.
  specialize (Hc c Hres).
  assert (0 <= c) as Hc0.
  { unfold CommonHip.first_call_result in Hres. simpl in Hres.
    destruct (fst (rt 0%nat)); try destruct asan; inversion Hres; lia. }
  destruct (calls_cached asan' dbg' rt' n w1) as (w2 & E2 & _ & Hq2); [lia |].
  exists w2. rewrite E2, Hc. split; [reflexivity | rewrite Hq2, Hq; reflexivity].
Qed.

(** * Dense Adagrad *)

Section AdagradFacts.

Import Hip Adagrad.

Variables (w g h nw nh lr N : Z) (epsilon decay : R) (m0 : Mem).

(** The buffers as the operator is used: the outputs may be the inputs
    themselves ([nw = w], [nh = h]) or separate buffers; the gradient and
    the learning rate are never overwritten. *)
Hypothesis w_nw : nw = w \/ disjoint w nw N.
Hypothesis h_nh : nh = h \/ disjoint h nh N.
Hypothesis w_nh : disjoint w nh N.
Hypothesis h_nw : disjoint h nw N.
Hypothesis g_nw : disjoint g nw N.
Hypothesis g_nh : disjoint g nh N.
Hypothesis nw_nh : disjoint nw nh N.
Hypothesis lr_nw : outside lr nw N.
Hypothesis lr_nh : outside lr nh N.

Let new_h (i : Z) : R := (decay * m0 (h + i)%Z + m0 (g + i)%Z * m0 (g + i)%Z)%R.
Let new_w (i : Z) : R :=
  (m0 (w + i)%Z + m0 lr * m0 (g + i)%Z / (sqrt (new_h i) + epsilon))%R.

Let frame (m : Mem) : Prop :=
  forall q, outside q nw N -> outside q nh N -> m q = m0 q.
Let untouched (m : Mem) (i : Z) : Prop :=
  m (nh + i) = m0 (nh + i) /\ m (nw + i) = m0 (nw + i).
Let updated (m : Mem) (i : Z) : Prop :=
  m (nh + i) = new_h i /\ m (nw + i) = new_w i.

Lemma poke_same m p v : poke m p v p = v.
Proof. unfold poke. rewrite Z.eqb_refl. reflexivity. Qed.

Lemma poke_other m p v q : q <> p -> poke m p v q = m q.
Proof. intros Hne. unfold poke. destruct (Z.eqb_spec q p); [contradiction | reflexivity]. Qed.

Lemma AdagradUpdate_body_step m x :
  0 <= x < N -> frame m -> untouched m x ->
  let m' := AdagradUpdate_body w g h nw nh epsilon decay lr x m in
  frame m' /\ updated m' x /\
  (forall i, 0 <= i < N -> i <> x ->
     m' (nh + i) = m (nh + i) /\ m' (nw + i) = m (nw + i)).
Proof.
  intros Hx Hfr [Hunh Hunw]. unfold AdagradUpdate_body.
  unfold disjoint, outside in *.
  assert (m (g + x) = m0 (g + x)) as Eg by (apply Hfr; lia).
  assert (m (h + x) = m0 (h + x)) as Eh.
  { destruct h_nh as [<- | Hd]; [exact Hunh | apply Hfr; lia]. }
  assert (m (w + x) = m0 (w + x)) as Ew.
  { destruct w_nw as [<- | Hd]; [exact Hunw | apply Hfr; lia]. }
  assert (m lr = m0 lr) as Elr by (apply Hfr; lia).
  cbv zeta. split; [| split].
  - intros q Hq1 Hq2. rewrite !poke_other by lia. apply Hfr; assumption.
  - split.
    + rewrite poke_other by lia. rewrite poke_same. unfold new_h.
      rewrite Eg, Eh. reflexivity.
    + rewrite poke_same. rewrite !poke_other by lia. unfold new_w, new_h.
      rewrite Eg, Eh, Ew, Elr. reflexivity.
  - intros i Hi Hne. rewrite !poke_other by lia. split; reflexivity.
Qed.

Lemma AdagradUpdate_run l : forall m,
  List.NoDup l -> (forall x, In x l -> 0 <= x < N) ->
  frame m ->
  (forall i, 0 <= i < N -> (In i l -> untouched m i) /\ (~ In i l -> updated m i)) ->
  frame (run (AdagradUpdate_body w g h nw nh epsilon decay lr) l m) /\
  forall i, 0 <= i < N ->
    updated (run (AdagradUpdate_body w g h nw nh epsilon decay lr) l m) i.
Proof.
  induction l as [| x l IH]; intros m Hnd Hrange Hfr Hst.
  - split; [exact Hfr |]. intros i Hi. apply Hst; auto.
  - inversion Hnd as [| ? ? Hx Hnd']; subst.
    assert (0 <= x < N) as Hx0 by (apply Hrange; left; reflexivity).
    destruct (AdagradUpdate_body_step m x Hx0 Hfr) as (Hfr' & Hup & Hoth).
    { apply Hst; [assumption | left; reflexivity]. }
    unfold run. simpl. apply IH.
    + exact Hnd'.
    + intros y Hy. apply Hrange. right. exact Hy.
    + exact Hfr'.
    + intros i Hi. destruct (Z.eq_dec i x) as [-> | Hne].
      * split; [intros Hin; contradiction | intros _; exact Hup].
      * destruct (Hoth i Hi Hne) as [E1 E2]. split.
        -- intros Hin. destruct (proj1 (Hst i Hi)) as [U1 U2]; [right; exact Hin |].
           split; congruence.
        -- intros Hnin. destruct (proj2 (Hst i Hi)) as [U1 U2].
           { intros [-> | Hin]; [congruence | contradiction]. }
           split; congruence.
Qed.

Lemma AdagradUpdate_spec gridDim blockDim :
  Permutation (HIP_1D_KERNEL_LOOP gridDim blockDim N) (zrange N) ->
  let m' := AdagradUpdate gridDim blockDim N w g h nw nh epsilon decay lr m0 in
  (forall i, 0 <= i < N -> m' (nh + i) = new_h i /\ m' (nw + i) = new_w i) /\
  (forall q, outside q nw N -> outside q nh N -> m' q = m0 q).
Proof.
  intros HP. unfold AdagradUpdate.
  destruct (AdagradUpdate_run (HIP_1D_KERNEL_LOOP gridDim blockDim N) m0) as [Hfr Hup].
  - eapply Permutation_NoDup; [apply Permutation_sym; exact HP | apply NoDup_zrange].
  - intros x Hx. apply in_zrange. eapply Permutation_in; eassumption.
  - intros q _ _. reflexivity.
  - intros i Hi. split; [intros _; split; reflexivity |].
    intros Hnin. exfalso. apply Hnin.
    eapply Permutation_in; [apply Permutation_sym; exact HP | apply in_zrange; exact Hi].
  - split; [exact Hup | exact Hfr].
Qed.

End AdagradFacts.

(** C7.  [adagrad_update] launches one kernel, and afterwards, for every
    element [i < N], the new moment is [nh[i] = decay * h[i] + g[i]^2] and
    the new parameter is [nw[i] = w[i] + lr[0] * g[i] / (sqrt(nh[i]) +
    epsilon)], where [w], [g], [h], [lr] are the contents before the call;
    the update may run in place.  And the constructor of the SparseAdagrad
    operator fails for every decay argument other than 1, while it
    accepts decay 1 and a missing decay argument. *)
Theorem adagrad_update_computes_and_sparse_rejects_decay
    (cfg : Hip.Config) (w g h nw nh lr N : Z) (epsilon decay : R)
    (c : Hip.Ctx Adagrad.Mem) :
  Hip.config_ok cfg ->
  (nw = w \/ Adagrad.disjoint w nw N) ->
  (nh = h \/ Adagrad.disjoint h nh N) ->
  Adagrad.disjoint w nh N -> Adagrad.disjoint h nw N ->
  Adagrad.disjoint g nw N -> Adagrad.disjoint g nh N ->
  Adagrad.disjoint nw nh N ->
  Adagrad.outside lr nw N -> Adagrad.outside lr nh N ->
  (exists c',
     Adagrad.adagrad_update cfg N w g h nw nh epsilon decay lr c = (Ok tt, c') /\
     Hip.launches c' =
       Hip.launches c ++
       [Hip.mkLaunch "AdagradUpdate" (Hip.CAFFE_GET_BLOCKS cfg N)
          (Hip.CAFFE_HIP_NUM_THREADS cfg)] /\
     forall i, 0 <= i < N ->
       Hip.outs c' (nh + i)
       = (decay * Hip.outs c (h + i)%Z
          + Hip.outs c (g + i)%Z * Hip.outs c (g + i)%Z)%R /\
       Hip.outs c' (nw + i)
       = (Hip.outs c (w + i)%Z
          + Hip.outs c lr * Hip.outs c (g + i)%Z
            / (sqrt (Hip.outs c' (nh + i)%Z) + epsilon))%R) /\
  (forall eps_arg d, d <> 1%R ->
     Adagrad.HIPSparseAdagradOp_new eps_arg (Some d)
     = Fatal "Decay is not supported for SparseAdagradOp") /\
  (forall eps_arg, is_fatal (Adagrad.HIPSparseAdagradOp_new eps_arg (Some 1%R)) = false) /\
  (forall eps_arg, is_fatal (Adagrad.HIPSparseAdagradOp_new eps_arg None) = false).
Proof.
  intros Hcfg H1 H2 H3 H4 H5 H6 H7 H8 H9. split; [| split; [| split]].
  - eexists. split; [reflexivity |]. split; [reflexivity |].
    simpl. intros i Hi.
    destruct (AdagradUpdate_spec w g h nw nh lr N epsilon decay (Hip.outs c)
                H1 H2 H3 H4 H5 H6 H7 H8 H9
                (Hip.CAFFE_GET_BLOCKS cfg N) (Hip.CAFFE_HIP_NUM_THREADS cfg)) as [Hup _].
    { apply launch_perm; [exact Hcfg |]. destruct Hcfg as (_ & _ & Hg). apply Hg. }
    destruct (Hup i Hi) as [E1 E2]. rewrite E1, E2. split; reflexivity.
  - intros eps_arg d Hd. unfold Adagrad.HIPSparseAdagradOp_new. simpl.
    destruct (Req_dec_T d 1); [contradiction | reflexivity].
  - intros eps_arg. unfold Adagrad.HIPSparseAdagradOp_new. simpl.
    destruct (Req_dec_T 1 1); [reflexivity | contradiction].
  - intros eps_arg. unfold Adagrad.HIPSparseAdagradOp_new. simpl.
    destruct (Req_dec_T 1 1); [reflexivity | contradiction].
Qed.

(** * Empty inputs *)

(** C10.  On empty input the operators return [true] at once and leave
    the state as it was: no kernel is launched and no output cell (for
    RMACRegions not even the output's shape) changes.  This holds for
    SparseAdagrad when INDICES is empty ([DoRunWithType]) or GRAD has size
    0 ([DoRunWithType2], also when reached through [DoRunWithType] and
    [RunOnDevice]), for RowWiseSparseAdagrad when GRAD has size 0, and for
    RMACRegions when the input has size 0. *)
Theorem empty_input_returns_without_launch
    (cfg : Hip.Config) (op : Adagrad.HIPSparseAdagradOp) (epsilon_ : R)
    (inp : Adagrad.SparseInputs) (OUTPUT_PARAM OUTPUT_MOMENT_1 : Z)
    (c : Hip.Ctx Adagrad.Mem)
    (overlap_ : Float.float) (scales_ : Z) (key0 : Z -> Z) (X_dims : list Z)
    (cr : Hip.Ctx RMACRegions.Outputs) :
  (Tensor.size (Adagrad.idx (Adagrad.INDICES inp)) = 0 ->
   Adagrad.Sparse_DoRunWithType cfg op inp OUTPUT_PARAM OUTPUT_MOMENT_1 c = (Ok true, c)) /\
  (Adagrad.size (Adagrad.GRAD inp) = 0 ->
   Adagrad.Sparse_DoRunWithType2 cfg op inp OUTPUT_PARAM OUTPUT_MOMENT_1 c = (Ok true, c)) /\
  (Adagrad.size (Adagrad.GRAD inp) = 0 ->
   Adagrad.dtype (Adagrad.PARAM inp) = TFloat \/ Adagrad.dtype (Adagrad.PARAM inp) = TFloat16 ->
   Adagrad.Sparse_DoRunWithType cfg op inp OUTPUT_PARAM OUTPUT_MOMENT_1 c = (Ok true, c)) /\
  (Tensor.size (Adagrad.idx (Adagrad.INDICES inp)) = 0 \/
   Adagrad.size (Adagrad.GRAD inp) = 0 /\
   (Adagrad.dtype (Adagrad.PARAM inp) = TFloat \/
    Adagrad.dtype (Adagrad.PARAM inp) = TFloat16) ->
   Adagrad.size (Adagrad.PARAM inp) = Adagrad.size (Adagrad.MOMENT_1 inp) ->
   Adagrad.size (Adagrad.LR inp) = 1 ->
   Adagrad.size_from_dim (Adagrad.PARAM inp) 1
   = Adagrad.size_from_dim (Adagrad.GRAD inp)
       (Tensor.ndim (Adagrad.idx (Adagrad.INDICES inp))) ->
   Adagrad.idx_dtype (Adagrad.INDICES inp) = TInt32 \/
   Adagrad.idx_dtype (Adagrad.INDICES inp) = TInt64 ->
   Adagrad.Sparse_RunOnDevice cfg op inp OUTPUT_PARAM OUTPUT_MOMENT_1 c = (Ok true, c)) /\
  (Adagrad.size (Adagrad.GRAD inp) = 0 ->
   Adagrad.RowWise_DoRunWithType cfg epsilon_ inp OUTPUT_PARAM OUTPUT_MOMENT_1 c
   = (Ok true, c)) /\
  (Tensor.prod_dims X_dims = 0 ->
   RMACRegions.RunOnDevice cfg overlap_ scales_ key0 X_dims cr = (Ok true, cr)).
Proof.
  assert (Hn : Tensor.size (Adagrad.idx (Adagrad.INDICES inp)) = 0 ->
     Adagrad.Sparse_DoRunWithType cfg op inp OUTPUT_PARAM OUTPUT_MOMENT_1 c = (Ok true, c)).
  { intros Hn. unfold Adagrad.Sparse_DoRunWithType. rewrite Hn. reflexivity. }
  assert (HN : Adagrad.size (Adagrad.GRAD inp) = 0 ->
     Adagrad.Sparse_DoRunWithType2 cfg op inp OUTPUT_PARAM OUTPUT_MOMENT_1 c = (Ok true, c)).
  { intros HN. unfold Adagrad.Sparse_DoRunWithType2. rewrite HN. reflexivity. }
  assert (HN' : Adagrad.size (Adagrad.GRAD inp) = 0 ->
     Adagrad.dtype (Adagrad.PARAM inp) = TFloat \/
     Adagrad.dtype (Adagrad.PARAM inp) = TFloat16 ->
     Adagrad.Sparse_DoRunWithType cfg op inp OUTPUT_PARAM OUTPUT_MOMENT_1 c = (Ok true, c)).
  { intros HN0 Hty. unfold Adagrad.Sparse_DoRunWithType.
    destruct (Tensor.size (Adagrad.idx (Adagrad.INDICES inp)) =? 0); [reflexivity |].
    destruct Hty as [-> | ->]; apply HN; exact HN0. }
  repeat split.
  - exact Hn.
  - exact HN.
  - exact HN'.
  - intros Hempty E1 E2 E3 Hidx. unfold Adagrad.Sparse_RunOnDevice, bind, CAFFE_ENFORCE.
    rewrite E1, E2, E3, !Z.eqb_refl.
    assert (Adagrad.Sparse_DoRunWithType cfg op inp OUTPUT_PARAM OUTPUT_MOMENT_1 c
            = (Ok true, c)) as E.
    { destruct Hempty as [H0 | [H0 Hty]]; [apply Hn | apply HN']; assumption. }
    destruct Hidx as [-> | ->]; exact E.
  - intros HN0. unfold Adagrad.RowWise_DoRunWithType. rewrite HN0. reflexivity.
  - intros HX. unfold RMACRegions.RunOnDevice. rewrite HX. reflexivity.
Qed.

(** * SequenceMask *)

Lemma quot_rem_row i j M :
  0 <= i -> 0 <= j < M -> Z.quot (i * M + j) M = i /\ Z.rem (i * M + j) M = j.
Proof.
  intros Hi Hj.
  rewrite Z.quot_div_nonneg, Z.rem_mod_nonneg by nia. split.
  - symmetry. apply (Z.div_unique _ _ i j); lia.
  - symmetry. apply (Z.mod_unique _ _ i j); lia.
Qed.

Section SequenceMaskFacts.

Import Hip SequenceMask.

Context {T F : Type} (junk : T) (zeroF : F) (convert : F -> T).

Lemma unsupported_mode_fatal cfg (a : @Args F) input input1 c :
  supported_mode (mode_ a) = false ->
  is_fatal (fst (DoRunWithType junk zeroF convert cfg a input input1 c)) = true.
Proof.
  intros Hmode. unfold supported_mode in Hmode.
  repeat (apply orb_false_iff in Hmode; destruct Hmode as [Hmode ?]).
  unfold DoRunWithType.
  apply bind_is_fatal. intros _ s1.
  apply bind_is_fatal. intros ca s2.
  apply bind_is_fatal. intros cb s3.
  apply bind_is_fatal. intros _ s4.
  repeat match goal with H : String.eqb _ _ = false |- _ => rewrite H; clear H end.
  reflexivity.
Qed.

Lemma sequence_mode_run cfg (a : @Args F) input seq_lengths c :
  config_ok cfg ->
  mode_ a = "sequence"%string -> batch_ a = None -> repeat_from_ a = None ->
  Tensor.well_formed input ->
  - Tensor.ndim input <= axis_ a < Tensor.ndim input ->
  let canonical_axis := if axis_ a <? 0 then axis_ a + Tensor.ndim input else axis_ a in
  let N := Tensor.size_to_dim input canonical_axis in
  let M := Tensor.size_from_dim input canonical_axis in
  let fill := convert (if grad_ a then zeroF else fill_val_ a) in
  exists c',
    DoRunWithType junk zeroF convert cfg a input seq_lengths c = (Ok true, c') /\
    Tensor.dims (outs c') = Tensor.dims input /\
    Z.of_nat (length (Tensor.data (outs c'))) = Tensor.size input /\
    forall i j, 0 <= i < N -> 0 <= j < M ->
      load junk (Tensor.data (outs c')) (i * M + j)
      = if j <? load 0 (Tensor.data seq_lengths) i
        then load junk (Tensor.data input) (i * M + j)
        else fill.
Proof.
  intros Hcfg Hmode Hbatch Hrep [Hdims Hlen] Haxis ca N M fill.
  unfold DoRunWithType. rewrite Hmode, Hbatch, Hrep.
  erewrite bind_ok by reflexivity.
  erewrite bind_ok by (apply canonical_axis_index_ok; exact Haxis).
  erewrite bind_ok by reflexivity.
  change (0 <=? -1) with false. cbv iota.
  erewrite bind_ok by reflexivity.
  change (String.eqb "sequence" "sequence") with true. cbv iota.
  erewrite bind_ok by reflexivity.
  eexists. split; [reflexivity |].
  fold ca. fold N. fold M. fold fill.
  cbn [outs set_data Tensor.dims Tensor.data].
  assert (0 <= Tensor.size input) as Hsz by (apply prod_dims_nonneg; exact Hdims).
  assert (Tensor.size input = N * M) as HNM by apply size_split.
  unfold sequenceMaskKernel. change (0 <=? -1) with false. cbv iota.
  pose proof (run_update_spec junk
    (fun index (_ : T) =>
       if load 0 (Tensor.data seq_lengths) (Z.quot index M) <=? Z.rem index M
       then fill else load junk (Tensor.data input) index)
    (HIP_1D_KERNEL_LOOP (CAFFE_GET_BLOCKS cfg (N * M)) (CAFFE_HIP_NUM_THREADS cfg) (N * M))
    (N * M)
    (Tensor.data (Tensor.Resize junk (Tensor.dims input) (outs c)))) as Hrun.
  cbv zeta in Hrun. destruct Hrun as [Hrlen Hcells].
  { apply launch_perm; [exact Hcfg |]. destruct Hcfg as (_ & _ & Hg). apply Hg. }
  rewrite Resize_length in Hrlen, Hcells.
  split; [reflexivity |]. split.
  - rewrite Hrlen. unfold Tensor.size in Hsz |- *. lia.
  - intros i j Hi Hj.
    assert (0 <= i * M + j < N * M) as Hp by nia.
    rewrite Hcells by (unfold Tensor.size in *; lia).
    destruct (Z.ltb_spec (i * M + j) (N * M)) as [_ | ?]; [| lia].
    destruct (quot_rem_row i j M) as [-> ->]; [lia | lia |].
    destruct (Z.leb_spec (load 0 (Tensor.data seq_lengths) i) j),
             (Z.ltb_spec j (load 0 (Tensor.data seq_lengths) i)); try reflexivity; lia.
Qed.

End SequenceMaskFacts.

(** C6, as the specification words it, fails when the operator is given a
    [repeat_from_axis] argument: sequence mode, no batch, input of shape
    [1, 2, 2] masked around axis 1 (one row of four elements), sequence
    length 1, elements repeated from axis 2.  The element [i = 0, j = 1]
    has [j >= seq_lengths[0]], so the claim wants the fill value 99 there,
    but the operator keeps the input element. *)
Lemma sequence_mode_repeat_from_axis_counterexample :
  let a := SequenceMask.mkArgs "sequence" 1 None (Some 2) 0 false 99 in
  let input := Tensor.mk [1; 2; 2] [11; 12; 13; 14] in
  let seq_lengths := Tensor.mk [1] [1] in
  let r := SequenceMask.DoRunWithType 0 0 (fun f : Z => f) Hip.default_config
             a input seq_lengths (Hip.mkCtx (Tensor.mk [] []) []) in
  fst r = Ok true /\
  Tensor.dims (Hip.outs (snd r)) = [1; 2; 2] /\
  load 0 (Tensor.data (Hip.outs (snd r))) (0 * 4 + 1) = 12 /\
  load 0 (Tensor.data (Hip.outs (snd r))) (0 * 4 + 1)
  <> (if 1 <? load 0 (Tensor.data seq_lengths) 0
      then load 0 (Tensor.data input) (0 * 4 + 1)
      else 99).
Proof.
  vm_compute. repeat split; discriminate.
Qed.

(** C6, amended: in "sequence" mode without a batch argument and without
    a [repeat_from_axis] argument, the operator returns an output of the
    input's shape which, seen as an N x M matrix around the canonical
    axis, has [out[i,j] = in[i,j]] when [j < seq_lengths[i]] and the fill
    value otherwise; and a mode string other than the six supported ones
    is a fatal error, whatever the other arguments and inputs. *)
Theorem sequence_mask_sequence_mode {T F : Type} (junk : T) (zeroF : F)
    (convert : F -> T) (cfg : Hip.Config) (a : @SequenceMask.Args F)
    (input : Tensor.t T) (seq_lengths : Tensor.t Z) (c : Hip.Ctx (Tensor.t T)) :
  (Hip.config_ok cfg ->
   SequenceMask.mode_ a = "sequence"%string ->
   SequenceMask.batch_ a = None ->
   SequenceMask.repeat_from_ a = None ->
   Tensor.well_formed input ->
   - Tensor.ndim input <= SequenceMask.axis_ a < Tensor.ndim input ->
   let canonical_axis :=
     if SequenceMask.axis_ a <? 0
     then SequenceMask.axis_ a + Tensor.ndim input else SequenceMask.axis_ a in
   let N := Tensor.size_to_dim input canonical_axis in
   let M := Tensor.size_from_dim input canonical_axis in
   N <= Z.of_nat (length (Tensor.data seq_lengths)) ->
   exists c',
     SequenceMask.DoRunWithType junk zeroF convert cfg a input seq_lengths c
     = (Ok true, c') /\
     Tensor.dims (Hip.outs c') = Tensor.dims input /\
     Z.of_nat (length (Tensor.data (Hip.outs c'))) = Tensor.size input /\
     forall i j, 0 <= i < N -> 0 <= j < M ->
       load junk (Tensor.data (Hip.outs c')) (i * M + j)
       = if j <? load 0 (Tensor.data seq_lengths) i
         then load junk (Tensor.data input) (i * M + j)
         else SequenceMask.effective_fill zeroF convert a) /\
  (SequenceMask.supported_mode (SequenceMask.mode_ a) = false ->
   is_fatal (fst (SequenceMask.DoRunWithType junk zeroF convert cfg a input seq_lengths c))
   = true).
Proof.
  split.
  - intros Hcfg Hmode Hbatch Hrep Hwf Haxis ca N M _.
    exact (sequence_mode_run junk zeroF convert cfg a input seq_lengths c
             Hcfg Hmode Hbatch Hrep Hwf Haxis).
  - apply unsupported_mode_fatal.
Qed.

(** * BooleanMask *)

Section WriteLoops.

Import Hip.

Context {A : Type} (junk : A).

(** A loop of plain writes [out[pos x] = val x]: when writes to one cell
    agree, the cell ends with the value of any of them. *)
Lemma fold_writes {X : Type} (pos : X -> Z) (val : X -> A) (xs : list X) :
  (forall x x', In x xs -> In x' xs -> pos x = pos x' -> val x = val x') ->
  forall out,
  let r := fold_left (fun out x => store out (pos x) (val x)) xs out in
  length r = length out /\
  forall p, 0 <= p < Z.of_nat (length out) ->
    (forall x, In x xs -> pos x = p -> load junk r p = val x) /\
    ((forall x, In x xs -> pos x <> p) -> load junk r p = load junk out p).
Proof.
  induction xs as [| x l IH]; intros Hcons out; simpl.
  - split; [reflexivity |]. intros p Hp. split; [intros i [] | reflexivity].
  - destruct (IH (fun i i' Hi Hi' => Hcons i i' (or_intror Hi) (or_intror Hi'))
                (store out (pos x) (val x))) as [Hlen Hcells].
    rewrite store_length in Hlen, Hcells. split; [exact Hlen |].
    intros p Hp. destruct (Hcells p Hp) as [Hin Hout].
    assert ((exists i', In i' l /\ pos i' = p) \/ (forall i', In i' l -> pos i' <> p))
      as [(i' & Hi' & Hpi') | Hnone].
    { clear. induction l as [| a l IHl]; [right; intros i' [] |].
      destruct (Z.eq_dec (pos a) p) as [E | NE]; [left; exists a; simpl; auto |].
      destruct IHl as [(i' & Hi' & E) | Hn]; [left; exists i'; simpl; auto |].
      right. intros i' [<- | Hi']; auto. }
    + split.
      * intros i [<- | Hi] Hpi.
        -- rewrite (Hin i' Hi' Hpi').
           symmetry. apply Hcons; simpl; auto. congruence.
        -- apply Hin; assumption.
      * intros Hno. exfalso. apply (Hno i'); simpl; auto.
    + split.
      * intros i [<- | Hi] Hpi; [| apply Hin; assumption].
        rewrite (Hout Hnone). subst p.
        apply load_store_same. exact Hp.
      * intros Hno. rewrite (Hout Hnone).
        apply load_store_other. apply Hno. left. reflexivity.
Qed.

Lemma run_writes (pos : Z -> Z) (val : Z -> A) sched :
  (forall i i', In i sched -> In i' sched -> pos i = pos i' -> val i = val i') ->
  forall out,
  let r := run (fun i out => store out (pos i) (val i)) sched out in
  length r = length out /\
  forall p, 0 <= p < Z.of_nat (length out) ->
    (forall i, In i sched -> pos i = p -> load junk r p = val i) /\
    ((forall i, In i sched -> pos i <> p) -> load junk r p = load junk out p).
Proof. exact (fold_writes pos val sched). Qed.

(** Two nested loops are one loop over the pairs of their indices. *)
Lemma fold_left_pairs {S X Y : Type} (f : S -> X * Y -> S) (xs : list X) (ys : list Y) :
  forall s,
  fold_left (fun s x => fold_left (fun s y => f s (x, y)) ys s) xs s
  = fold_left f (flat_map (fun x => map (pair x) ys) xs) s.
Proof.
  induction xs as [| x xs IH]; intros s; simpl; [reflexivity |].
  rewrite fold_left_app, <- IH. f_equal.
  clear. revert s. induction ys as [| y ys IHy]; intros s; simpl; [reflexivity | apply IHy].
Qed.

(** Steps that each overwrite a region of the buffer with the same
    position-determined contents [target], and carry some state of their
    own: a cell covered by any step ends as [target], the others stay. *)
Lemma region_fold {X St : Type} (step : X -> St * list A -> St * list A)
    (inv : St -> Prop) (covers : X -> Z -> bool) (target : Z -> A) (xs : list X) :
  (forall x st out, In x xs -> inv st ->
     inv (fst (step x (st, out))) /\
     length (snd (step x (st, out))) = length out /\
     forall p, 0 <= p < Z.of_nat (length out) ->
       load junk (snd (step x (st, out))) p
       = if covers x p then target p else load junk out p) ->
  forall st out, inv st ->
    let r := fold_left (fun s x => step x s) xs (st, out) in
    inv (fst r) /\ length (snd r) = length out /\
    forall p, 0 <= p < Z.of_nat (length out) ->
      load junk (snd r) p
      = if existsb (fun x => covers x p) xs then target p else load junk out p.
Proof.
  induction xs as [| x l IH]; intros Hstep st out Hinv; cbn [fold_left existsb].
  - split; [exact Hinv |]. split; [reflexivity |]. intros; reflexivity.
  - destruct (Hstep x st out (or_introl eq_refl) Hinv) as (Hi1 & Hl1 & Hc1).
    destruct (step x (st, out)) as [st1 out1] eqn:E. cbn [fst snd] in *.
    destruct (IH (fun y st' out' Hy => Hstep y st' out' (or_intror Hy)) st1 out1 Hi1)
      as (Hi2 & Hl2 & Hc2).
    split; [exact Hi2 |]. split; [congruence |].
    intros p Hp. rewrite Hc2 by (rewrite Hl1; exact Hp).
    destruct (existsb (fun y => covers y p) l); [rewrite orb_true_r; reflexivity |].
    rewrite orb_false_r. apply Hc1. exact Hp.
Qed.

End WriteLoops.

Section BooleanMaskFacts.

Import Hip BooleanMask.

Lemma strided_perm dim n : 0 < dim -> Permutation (strided dim n) (zrange n).
Proof.
  intros Hd. unfold strided.
  apply (strided_threads_perm dim n (fun b => b)); [exact Hd | reflexivity].
Qed.

Lemma in_strided dim n x : 0 < dim -> In x (strided dim n) <-> 0 <= x < n.
Proof.
  intros Hd. rewrite <- in_zrange. split; apply Permutation_in;
    [| apply Permutation_sym]; apply strided_perm; exact Hd.
Qed.

(** The threads of one block copy one slice. *)
Lemma copy_row blockDim numBytes srcBase destBase (src dest : list Byte.byte) :
  0 < blockDim -> 0 <= destBase ->
  let r := run (fun j dest =>
                  store dest (destBase + j) (load RawTensor.junk src (srcBase + j)))
               (strided blockDim numBytes) dest in
  length r = length dest /\
  forall p, 0 <= p < Z.of_nat (length dest) ->
    load RawTensor.junk r p
    = if (destBase <=? p) && (p <? destBase + numBytes)
      then load RawTensor.junk src (srcBase + (p - destBase))
      else load RawTensor.junk dest p.
Proof.
  intros Hb Hd.
  pose proof (run_writes RawTensor.junk (fun j => destBase + j)
                (fun j => load RawTensor.junk src (srcBase + j))
                (strided blockDim numBytes)) as Hw.
  cbv zeta in Hw |- *.
  destruct (Hw (fun i i' _ _ (E : destBase + i = destBase + i') =>
                  f_equal (fun z => load RawTensor.junk src (srcBase + z))
                    (Z.add_reg_l _ _ _ E)) dest) as [Hlen Hcells].
  split; [exact Hlen |]. intros p Hp. destruct (Hcells p Hp) as [Hin Hout].
  destruct (Z.leb_spec destBase p), (Z.ltb_spec p (destBase + numBytes)); simpl.
  - rewrite (Hin (p - destBase)); [reflexivity | | lia].
    apply in_strided; [exact Hb | lia].
  - apply Hout. intros i Hi. apply in_strided in Hi; [lia | exact Hb].
  - apply Hout. intros i Hi. apply in_strided in Hi; [lia | exact Hb].
  - apply Hout. intros i Hi. apply in_strided in Hi; [lia | exact Hb].
Qed.

(** The kernel copies slice [indices[k]] of the source to slice [k] of the
    destination, for every [k] below [numOfOutput]. *)
Lemma BooleanMaskCopyKernel_spec gridDim blockDim numOfOutput numBytes indices
    (src dest : list Byte.byte) :
  0 < gridDim -> 0 < blockDim -> 0 <= numBytes ->
  let r := BooleanMaskCopyKernel gridDim blockDim numOfOutput numBytes indices src dest in
  length r = length dest /\
  forall k j, 0 <= k < numOfOutput -> 0 <= j < numBytes ->
    k * numBytes + j < Z.of_nat (length dest) ->
    load RawTensor.junk r (k * numBytes + j)
    = load RawTensor.junk src (load 0 indices k * numBytes + j).
Proof.
  intros Hg Hb Hnb. cbv zeta. unfold BooleanMaskCopyKernel.
  assert (forall sched dest0,
    (forall x, In x sched -> 0 <= x) ->
    let r := run (fun i dest =>
                    run (fun j dest =>
                           store dest (i * numBytes + j)
                             (load RawTensor.junk src (load 0 indices i * numBytes + j)))
                        (strided blockDim numBytes) dest) sched dest0 in
    length r = length dest0 /\
    forall k j, 0 <= k -> 0 <= j < numBytes ->
      k * numBytes + j < Z.of_nat (length dest0) ->
      load RawTensor.junk r (k * numBytes + j)
      = if existsb (Z.eqb k) sched
        then load RawTensor.junk src (load 0 indices k * numBytes + j)
        else load RawTensor.junk dest0 (k * numBytes + j)) as Hgen.
  { induction sched as [| x l IH]; intros dest0 Hpos.
    - split; [reflexivity |]. intros. reflexivity.
    - destruct (copy_row blockDim numBytes (load 0 indices x * numBytes)
                  (x * numBytes) src dest0 Hb) as [Hlen1 Hrow].
      { assert (0 <= x) by (apply Hpos; left; reflexivity). nia. }
      cbv zeta in IH |- *. rewrite run_cons.
      destruct (IH (run (fun j dest2 =>
                           store dest2 (x * numBytes + j)
                             (load RawTensor.junk src (load 0 indices x * numBytes + j)))
                        (strided blockDim numBytes) dest0)
                   (fun y Hy => Hpos y (or_intror Hy))) as [Hlen Hcells].
      rewrite Hlen1 in Hlen, Hcells. split; [exact Hlen |].
      intros k j Hk Hj Hp. rewrite (Hcells k j Hk Hj Hp). simpl existsb.
      destruct (existsb (Z.eqb k) l); [rewrite orb_true_r; reflexivity |].
      rewrite orb_false_r. rewrite Hrow by nia.
      destruct (Z.eqb_spec k x) as [-> | Hne].
      * destruct (Z.leb_spec (x * numBytes) (x * numBytes + j)); [| lia].
        destruct (Z.ltb_spec (x * numBytes + j) (x * numBytes + numBytes)); [| lia].
        simpl. f_equal. lia.
      * destruct (Z.leb_spec (x * numBytes) (k * numBytes + j)),
                 (Z.ltb_spec (k * numBytes + j) (x * numBytes + numBytes));
          simpl; try reflexivity. exfalso. nia. }
  destruct (Hgen (strided gridDim numOfOutput) dest) as [Hlen Hcells].
  { intros x Hx. apply in_strided in Hx; [lia | exact Hg]. }
  split; [exact Hlen |]. intros k j Hk Hj Hp.
  rewrite (Hcells k j) by lia.
  destruct (existsb (Z.eqb k) (strided gridDim numOfOutput)) eqn:Ex; [reflexivity |].
  exfalso. apply Bool.not_true_iff_false in Ex. apply Ex.
  apply existsb_exists. exists k. split; [| apply Z.eqb_refl].
  apply in_strided; [exact Hg | exact Hk].
Qed.

Lemma in_Flagged_from flags : forall i x,
  In x (Flagged_from i flags) <->
  exists k : nat, x = i + Z.of_nat k /\ flags !! k = Some true.
Proof.
  induction flags as [| f flags IH]; intros i x; simpl.
  - split; [intros [] | intros (k & _ & E); discriminate].
  - assert (In x (Flagged_from (i + 1) flags) <->
            exists k : nat, x = i + Z.of_nat (S k) /\ flags !! k = Some true) as IH'.
    { rewrite IH. split; intros (k & -> & E); exists k; split; try exact E; lia. }
    destruct f; simpl; rewrite ?IH'; split.
    + intros [<- | (k & -> & E)]; [exists 0%nat; split; [lia | reflexivity] |].
      exists (S k). split; [reflexivity | exact E].
    + intros ([| k] & -> & E); [left; lia | right; exists k; split; [reflexivity | exact E]].
    + intros (k & -> & E). exists (S k). split; [reflexivity | exact E].
    + intros ([| k] & -> & E); [discriminate | exists k; split; [reflexivity | exact E]].
Qed.

Lemma Flagged_from_sorted flags : forall i, StronglySorted Z.lt (Flagged_from i flags).
Proof.
  induction flags as [| f flags IH]; intros i; simpl; [constructor |].
  destruct f; [| apply IH]. constructor; [apply IH |].
  apply List.Forall_forall. intros x Hx.
  apply in_Flagged_from in Hx as (k & -> & _). lia.
Qed.

Lemma Flagged_from_length flags : forall i,
  length (Flagged_from i flags) = length (List.filter (fun b : bool => b) flags).
Proof.
  induction flags as [| f flags IH]; intros i; simpl; [reflexivity |].
  destruct f; simpl; rewrite IH; reflexivity.
Qed.

Lemma filter_length_le {X : Type} (P : X -> bool) (l : list X) :
  (length (List.filter P l) <= length l)%nat.
Proof. induction l as [| a l IH]; simpl; [lia |]. destruct (P a); simpl; lia. Qed.

End BooleanMaskFacts.

Section BooleanMaskRun.

Import Hip BooleanMask.

Lemma enforce_true {S : Type} (b : bool) msg (s : S) :
  b = true -> CAFFE_ENFORCE b msg s = (Ok tt, s).
Proof. intros ->. reflexivity. Qed.

Lemma prod_dims_single d : Tensor.prod_dims [d] = d.
Proof. unfold Tensor.prod_dims. simpl. lia. Qed.

Lemma prod_dims_cons d l : Tensor.prod_dims (d :: l) = d * Tensor.prod_dims l.
Proof. reflexivity. Qed.

Lemma Flagged_length_le flags n :
  0 <= n -> Z.of_nat (length (Flagged flags n)) <= n.
Proof.
  intros Hn. unfold Flagged. rewrite Flagged_from_length.
  pose proof (filter_length_le (fun b : bool => b) (take (Z.to_nat n) flags)) as H1.
  pose proof (length_take flags (Z.to_nat n)) as H2. lia.
Qed.

Lemma BooleanMask_run cfg temp_storage_bytes OutputSize src mask c :
  config_ok cfg -> 0 <= temp_storage_bytes ->
  RawTensor.well_formed src -> Tensor.well_formed mask ->
  1 <= RawTensor.ndim src -> Tensor.ndim mask = 1 ->
  RawTensor.dim src 0 = Tensor.dim mask 0 ->
  let selected := Flagged (Tensor.data mask) (Tensor.dim mask 0) in
  let numOfOutput := Z.of_nat (length selected) in
  let numBytes := RawTensor.size_from_dim src 1 * RawTensor.itemsize src in
  exists c',
    RunOnDevice cfg temp_storage_bytes OutputSize src mask c = (Ok true, c') /\
    RawTensor.dims (dest (outs c')) = numOfOutput :: tail (RawTensor.dims src) /\
    RawTensor.itemsize (dest (outs c')) = RawTensor.itemsize src /\
    Z.of_nat (length (RawTensor.bytes (dest (outs c')))) = numOfOutput * numBytes /\
    (forall k j, 0 <= k < numOfOutput -> 0 <= j < numBytes ->
       load RawTensor.junk (RawTensor.bytes (dest (outs c'))) (k * numBytes + j)
       = load RawTensor.junk (RawTensor.bytes src) (load 0 selected k * numBytes + j)) /\
    (OutputSize = 2 -> indicesOut (outs c') = Tensor.mk [numOfOutput] selected) /\
    (OutputSize <> 2 -> indicesOut (outs c') = indicesOut (outs c)).
Proof.
  intros Hcfg Htsb [Hsd [Hsi Hsl]] [Hmd Hml] Hr1 Hr2 Hd0 selected numOfOutput numBytes.
  assert (0 <= Tensor.dim mask 0) as HouterSize.
  { unfold Tensor.dim, Tensor.ndim in *. change (Z.to_nat 0) with 0%nat.
    destruct (Tensor.dims mask) as [| d [| ? ?]]; cbn [length nth] in *;
      [lia | inversion Hmd; assumption | lia]. }
  assert (numOfOutput <= Tensor.dim mask 0) as Hnle by (apply Flagged_length_le; exact HouterSize).
  assert (0 <= RawTensor.size_from_dim src 1) as Hsfd.
  { unfold RawTensor.size_from_dim. apply prod_dims_nonneg.
    apply Forall_drop. apply List.Forall_forall. intros x Hx.
    rewrite List.Forall_forall in Hsd. auto. }
  assert (0 <= numBytes) as Hnb by (unfold numBytes; nia).
  assert (Tensor.prod_dims (numOfOutput :: tail (RawTensor.dims src))
          = numOfOutput * RawTensor.size_from_dim src 1) as Hprod.
  { rewrite prod_dims_cons. unfold RawTensor.size_from_dim.
    destruct (RawTensor.dims src); reflexivity. }
  unfold RunOnDevice.
  erewrite bind_ok by (apply enforce_true, Z.leb_le; exact Hr1).
  erewrite bind_ok by (apply enforce_true, Z.eqb_eq; exact Hr2).
  erewrite bind_ok by (apply enforce_true, Z.eqb_eq; exact Hd0).
  do 4 (erewrite bind_ok by reflexivity).
  erewrite bind_ok by reflexivity.
  fold selected.
  match goal with
  | |- context [load 0 (Tensor.data (scratch_ ?o)) ?p] =>
      assert (load 0 (Tensor.data (scratch_ o)) p = numOfOutput) as Hnum
  end.
  { cbn [outs scratch_ set_scratch_ set_indices_ set_data Tensor.data Tensor.dims].
    apply load_store_same. rewrite Resize_length, prod_dims_single.
    assert (0 <= Z.quot (temp_storage_bytes + sizeof_TIndex - 1) sizeof_TIndex)
      by (apply Z.quot_pos; unfold sizeof_TIndex; lia).
    lia. }
  rewrite Hnum. clear Hnum.
  do 3 (erewrite bind_ok by reflexivity).
  assert (forall old : Tensor.t Z,
            Tensor.Resize 0 [numOfOutput]
              (set_data
                 (write_front selected
                    (Tensor.data (Tensor.Resize 0 [Tensor.dim mask 0] old)))
                 (Tensor.Resize 0 [Tensor.dim mask 0] old))
            = Tensor.mk [numOfOutput] selected) as Hind.
  { intros old. unfold Tensor.Resize, set_data. cbn [Tensor.dims Tensor.data].
    f_equal. unfold write_front. apply resize_app.
    rewrite prod_dims_single. unfold numOfOutput. lia. }
  assert (forall b0 : RawTensor.t,
            let d := RawTensor.raw_mutable_data (RawTensor.itemsize src)
                       (RawTensor.Resize (numOfOutput :: tail (RawTensor.dims src)) b0) in
            RawTensor.dims d = numOfOutput :: tail (RawTensor.dims src) /\
            RawTensor.itemsize d = RawTensor.itemsize src /\
            Z.of_nat (length (RawTensor.bytes d)) = numOfOutput * numBytes) as Hdest.
  { intros b0. cbv zeta. unfold RawTensor.raw_mutable_data, RawTensor.Resize, RawTensor.size.
    cbn [RawTensor.dims RawTensor.itemsize RawTensor.bytes].
    split; [reflexivity |]. split; [reflexivity |].
    rewrite length_resize, Hprod. unfold numBytes, numOfOutput. nia. }
  destruct (Z.eqb_spec OutputSize 2) as [Hos | Hos];
    (erewrite bind_ok by reflexivity);
    destruct (Z.ltb_spec 0 numOfOutput) as [Hpos | Hzero].
  - repeat (erewrite bind_ok by reflexivity).
    eexists. split; [reflexivity |].
    cbn [outs dest indicesOut indices_ set_dest set_indicesOut set_indices_ set_scratch_
         set_data set_bytes Tensor.data Tensor.dims RawTensor.dims RawTensor.itemsize
         RawTensor.bytes].
    destruct (Hdest (dest (outs c))) as (Hd1 & Hd2 & Hd3). cbv zeta in Hd1, Hd2, Hd3.
    rewrite Hind.
    match goal with
    | |- context [BooleanMaskCopyKernel ?g ?b ?n ?nb ?ind ?s ?d] =>
        destruct (BooleanMaskCopyKernel_spec g b n nb ind s d) as [Hklen Hkcells]
    end.
    { destruct Hcfg as (_ & Hmax & _). lia. }
    { destruct Hcfg as (Hth & _). exact Hth. }
    { exact Hnb. }
    split; [exact Hd1 |]. split; [exact Hd2 |]. split; [rewrite Hklen; exact Hd3 |].
    split; [| split; [intros _; reflexivity | intros; contradiction]].
    intros k j Hk Hj. apply Hkcells; [exact Hk | exact Hj |].
    fold numBytes. rewrite Hd3. nia.
  - repeat (erewrite bind_ok by reflexivity).
    eexists. split; [reflexivity |].
    cbn [outs dest indicesOut indices_ set_dest set_indicesOut set_indices_ set_scratch_
         set_data set_bytes Tensor.data Tensor.dims RawTensor.dims RawTensor.itemsize
         RawTensor.bytes].
    destruct (Hdest (dest (outs c))) as (Hd1 & Hd2 & Hd3). cbv zeta in Hd1, Hd2, Hd3.
    split; [exact Hd1 |]. split; [exact Hd2 |]. split; [exact Hd3 |].
    split; [intros k j Hk; lia |].
    split; [| intros; contradiction]. intros _.
    unfold Tensor.Resize. cbn [Tensor.dims Tensor.data]. f_equal.
    rewrite prod_dims_single.
    assert (selected = []) as Hsel.
    { unfold numOfOutput in Hzero. destruct selected; [reflexivity | simpl in Hzero; lia]. }
    rewrite Hsel. replace (Z.to_nat numOfOutput) with 0%nat; [apply resize_0 |].
    unfold numOfOutput. rewrite Hsel. reflexivity.
  - repeat (erewrite bind_ok by reflexivity).
    eexists. split; [reflexivity |].
    cbn [outs dest indicesOut indices_ set_dest set_indicesOut set_indices_ set_scratch_
         set_data set_bytes Tensor.data Tensor.dims RawTensor.dims RawTensor.itemsize
         RawTensor.bytes].
    destruct (Hdest (dest (outs c))) as (Hd1 & Hd2 & Hd3). cbv zeta in Hd1, Hd2, Hd3.
    rewrite Hind.
    match goal with
    | |- context [BooleanMaskCopyKernel ?g ?b ?n ?nb ?ind ?s ?d] =>
        destruct (BooleanMaskCopyKernel_spec g b n nb ind s d) as [Hklen Hkcells]
    end.
    { destruct Hcfg as (_ & Hmax & _). lia. }
    { destruct Hcfg as (Hth & _). exact Hth. }
    { exact Hnb. }
    split; [exact Hd1 |]. split; [exact Hd2 |]. split; [rewrite Hklen; exact Hd3 |].
    split; [| split; [intros; contradiction | intros _; reflexivity]].
    intros k j Hk Hj. apply Hkcells; [exact Hk | exact Hj |].
    fold numBytes. rewrite Hd3. nia.
  - repeat (erewrite bind_ok by reflexivity).
    eexists. split; [reflexivity |].
    cbn [outs dest indicesOut indices_ set_dest set_indicesOut set_indices_ set_scratch_
         set_data set_bytes Tensor.data Tensor.dims RawTensor.dims RawTensor.itemsize
         RawTensor.bytes].
    destruct (Hdest (dest (outs c))) as (Hd1 & Hd2 & Hd3). cbv zeta in Hd1, Hd2, Hd3.
    split; [exact Hd1 |]. split; [exact Hd2 |]. split; [exact Hd3 |].
    split; [intros k j Hk; lia |].
    split; [intros; contradiction | intros _; reflexivity].
Qed.

End BooleanMaskRun.

(** C2.  For a source of rank at least 1 and a mask of rank 1 as long as
    the source's dimension 0, BooleanMask returns [true]; with
    [i_0 < i_1 < ...] the positions where the mask is true, the output
    has the source's shape with dimension 0 replaced by the number of true
    entries, its [k]-th slice is the source's [i_k]-th slice (byte by
    byte), and the second output, when there is one, holds the [i_k]. *)
Theorem boolean_mask_selects_slices (cfg : Hip.Config)
    (temp_storage_bytes OutputSize : Z) (src : RawTensor.t)
    (mask : Tensor.t bool) (c : Hip.Ctx BooleanMask.Outputs) :
  Hip.config_ok cfg -> 0 <= temp_storage_bytes ->
  RawTensor.well_formed src -> Tensor.well_formed mask ->
  1 <= RawTensor.ndim src -> Tensor.ndim mask = 1 ->
  RawTensor.dim src 0 = Tensor.dim mask 0 ->
  exists c' positions,
    BooleanMask.RunOnDevice cfg temp_storage_bytes OutputSize src mask c = (Ok true, c') /\
    StronglySorted Z.lt positions /\
    (forall x, In x positions <->
               0 <= x /\ Tensor.data mask !! Z.to_nat x = Some true) /\
    length positions = length (List.filter (fun b : bool => b) (Tensor.data mask)) /\
    let numOfOutput := Z.of_nat (length positions) in
    let slice := RawTensor.size_from_dim src 1 * RawTensor.itemsize src in
    RawTensor.dims (BooleanMask.dest (Hip.outs c'))
    = numOfOutput :: tail (RawTensor.dims src) /\
    RawTensor.itemsize (BooleanMask.dest (Hip.outs c')) = RawTensor.itemsize src /\
    Z.of_nat (length (RawTensor.bytes (BooleanMask.dest (Hip.outs c'))))
    = numOfOutput * slice /\
    (forall k j, 0 <= k < numOfOutput -> 0 <= j < slice ->
       load RawTensor.junk (RawTensor.bytes (BooleanMask.dest (Hip.outs c')))
         (k * slice + j)
       = load RawTensor.junk (RawTensor.bytes src) (load 0 positions k * slice + j)) /\
    (OutputSize = 2 ->
     BooleanMask.indicesOut (Hip.outs c') = Tensor.mk [numOfOutput] positions).
Proof.
  intros Hcfg Htsb Hsrc Hmask Hr1 Hr2 Hd0.
  destruct (BooleanMask_run cfg temp_storage_bytes OutputSize src mask c
              Hcfg Htsb Hsrc Hmask Hr1 Hr2 Hd0)
    as (c' & Hrun & Hdims & Hitem & Hlen & Hcells & Hout2 & _).
  assert (BooleanMask.Flagged (Tensor.data mask) (Tensor.dim mask 0)
          = BooleanMask.Flagged_from 0 (Tensor.data mask)) as Hsel.
  { unfold BooleanMask.Flagged. f_equal. apply take_ge.
    destruct Hmask as [_ Hml]. unfold Tensor.size, Tensor.dim, Tensor.ndim in *.
    change (Z.to_nat 0) with 0%nat.
    destruct (Tensor.dims mask) as [| d [| ? ?]]; cbn [length nth] in *; try lia.
    rewrite prod_dims_single in Hml. lia. }
  rewrite Hsel in *.
  exists c', (BooleanMask.Flagged_from 0 (Tensor.data mask)).
  split; [exact Hrun |].
  split; [apply Flagged_from_sorted |].
  split.
  { intros x. rewrite in_Flagged_from. split.
    - intros (k & -> & E). split; [lia |]. rewrite Z.add_0_l, Nat2Z.id. exact E.
    - intros [Hx E]. exists (Z.to_nat x). split; [lia | exact E]. }
  split; [apply Flagged_from_length |].
  cbv zeta. repeat split; assumption.
Qed.

(** * SparseToDense *)

Section SparseToDenseFacts.

Import Hip SparseToDense.

Context {TData : Type} (zero : TData) (add : TData -> TData -> TData).
Hypothesis add_comm : forall a b, add a b = add b a.
Hypothesis add_assoc : forall a b c, add a (add b c) = add (add a b) c.








Lemma math_Set_all {A : Type} (v : A) (y : list A) n :
  Z.of_nat (length y) = n -> math_Set n v y = replicate (Z.to_nat n) v.
Proof.
  intros Hn. unfold math_Set. rewrite drop_ge by lia. apply app_nil_r.
Qed.

Lemma load_replicate {A : Type} (junk v : A) n p :
  0 <= p < Z.of_nat n -> load junk (replicate n v) p = v.
Proof.
  intros Hp. unfold load. destruct (Z.ltb_spec p 0); [lia |].
  rewrite lookup_replicate_2 by lia. reflexivity.
Qed.


End SparseToDenseFacts.


(** * Shape checks *)

Section ShapeChecks.

Import Hip.

Lemma BooleanMask_invalid cfg tsb OutputSize src mask c :
  BooleanMask.valid_inputs src mask = false ->
  exists msg, BooleanMask.RunOnDevice cfg tsb OutputSize src mask c = (Fatal msg, c).
Proof.
  unfold BooleanMask.valid_inputs, BooleanMask.RunOnDevice, bind, CAFFE_ENFORCE.
  intros Hv.
  destruct (1 <=? RawTensor.ndim src); [| eauto].
  destruct (Tensor.ndim mask =? 1); [| eauto].
  destruct (RawTensor.dim src 0 =? Tensor.dim mask 0); [discriminate | eauto].
Qed.

Lemma BooleanMask_valid cfg tsb OutputSize src mask c :
  BooleanMask.valid_inputs src mask = true ->
  fst (BooleanMask.RunOnDevice cfg tsb OutputSize src mask c) = Ok true.
Proof.
  unfold BooleanMask.valid_inputs. intros Hv.
  apply andb_true_iff in Hv as [Hv H3]. apply andb_true_iff in Hv as [H1 H2].
  unfold BooleanMask.RunOnDevice.
  erewrite bind_ok by (apply enforce_true; exact H1).
  erewrite bind_ok by (apply enforce_true; exact H2).
  erewrite bind_ok by (apply enforce_true; exact H3).
  do 8 (erewrite bind_ok by reflexivity).
  match goal with |- context [if ?b then on_outs _ else ret tt] => destruct b end;
    (erewrite bind_ok by reflexivity);
    match goal with |- context [if ?b then _ else ret tt] => destruct b end;
    repeat (erewrite bind_ok by reflexivity); reflexivity.
Qed.

Lemma SparseToDense_invalid {TData : Type} (zero : TData) add cfg ofd indices values c :
  SparseToDense.valid_inputs indices values = false ->
  exists msg,
    SparseToDense.DoRunWithType2 zero add cfg ofd indices values c = (Fatal msg, c).
Proof.
  unfold SparseToDense.valid_inputs, SparseToDense.DoRunWithType2, bind, CAFFE_ENFORCE.
  intros Hv.
  destruct (Tensor.ndim indices =? 1); [| eauto].
  destruct (1 <=? Tensor.ndim values); [| eauto].
  destruct (Tensor.size indices =? Tensor.dim values 0); [discriminate | eauto].
Qed.

Lemma SparseToDense_valid {TData : Type} (zero : TData) add cfg ofd indices values c :
  SparseToDense.valid_inputs indices values = true ->
  fst (SparseToDense.DoRunWithType2 zero add cfg ofd indices values c) = Ok true.
Proof.
  unfold SparseToDense.valid_inputs. intros Hv.
  apply andb_true_iff in Hv as [Hv H3]. apply andb_true_iff in Hv as [H1 H2].
  unfold SparseToDense.DoRunWithType2.
  erewrite bind_ok by (apply enforce_true; exact H1).
  erewrite bind_ok by (apply enforce_true; exact H2).
  erewrite bind_ok by (apply enforce_true; exact H3).
  do 3 (erewrite bind_ok by reflexivity).
  erewrite bind_ok.
  2:{ apply enforce_true, Z.eqb_eq. cbn [outs]. unfold Tensor.size.
      rewrite Resize_dims, prod_dims_cons. unfold Tensor.size_from_dim.
      destruct (Tensor.dims values); reflexivity. }
  erewrite bind_ok by reflexivity. reflexivity.
Qed.

Lemma check_pair_result maskSize p (c : Ctx BooleanUnmask.Outputs) :
  (BooleanUnmask.valid_pair maskSize p = true /\
   BooleanUnmask.check_pair maskSize p c = (Ok tt, c)) \/
  (BooleanUnmask.valid_pair maskSize p = false /\
   exists msg, BooleanUnmask.check_pair maskSize p c = (Fatal msg, c)).
Proof.
  unfold BooleanUnmask.valid_pair, BooleanUnmask.check_pair, bind, CAFFE_ENFORCE.
  destruct (Tensor.ndim (fst p) =? 1); simpl; [| right; eauto].
  destruct (Tensor.size (fst p) =? maskSize); simpl; [| right; eauto].
  destruct (RawTensor.ndim (snd p) =? 1); simpl; [left; auto | right; eauto].
Qed.

Lemma check_pairs maskSize inputs (c : Ctx BooleanUnmask.Outputs) :
  (forallb (BooleanUnmask.valid_pair maskSize) inputs = true /\
   for_each (BooleanUnmask.check_pair maskSize) inputs c = (Ok tt, c)) \/
  (forallb (BooleanUnmask.valid_pair maskSize) inputs = false /\
   exists msg, for_each (BooleanUnmask.check_pair maskSize) inputs c = (Fatal msg, c)).
Proof.
  induction inputs as [| p l IH]; cbn [forallb for_each].
  - left. split; reflexivity.
  - destruct (check_pair_result maskSize p c) as [[Hv E] | [Hv [msg E]]]; rewrite Hv.
    + erewrite bind_ok by exact E. exact IH.
    + right. split; [reflexivity |]. exists msg. apply bind_fatal. exact E.
Qed.

(** With an invalid input BooleanUnmask fails after it has resized and
    typed its output, and before any launch. *)
Lemma BooleanUnmask_invalid cfg aborted in0 rest c :
  BooleanUnmask.valid_inputs (in0 :: rest) = false ->
  exists msg,
    BooleanUnmask.RunOnDevice cfg aborted (in0 :: rest) c
    = (Fatal msg,
       mkCtx
         (BooleanUnmask.set_out
            (fun o => RawTensor.raw_mutable_data (RawTensor.itemsize (snd in0))
                        (RawTensor.Resize [Tensor.size (fst in0)] o))
            (outs c))
         (launches c)).
Proof.
  unfold BooleanUnmask.valid_inputs. intros Hv.
  unfold BooleanUnmask.RunOnDevice.
  do 2 (erewrite bind_ok by reflexivity).
  match goal with
  | |- context [for_each ?f ?l] =>
      match goal with
      | |- context [bind (for_each f l) ?k ?s] =>
          destruct (check_pairs (Tensor.size (fst in0)) l s) as [[Hok _] | [_ [msg E]]]
      end
  end.
  - congruence.
  - exists msg. erewrite bind_fatal by exact E. reflexivity.
Qed.

(** With valid inputs the checks pass and the first kernel is launched. *)
Lemma BooleanUnmask_valid cfg aborted inputs c :
  BooleanUnmask.valid_inputs inputs = true ->
  exists l,
    launches (snd (BooleanUnmask.RunOnDevice cfg aborted inputs c))
    = launches c ++
      mkLaunch "ComputeIndicesKernel"
        (Z.min (match inputs with [] => 0 | in0 :: _ => Tensor.size (fst in0) end)
               (CAFFE_MAXIMUM_NUM_BLOCKS cfg))
        (CAFFE_HIP_NUM_THREADS cfg) :: l.
Proof.
  unfold BooleanUnmask.valid_inputs. destruct inputs as [| in0 rest]; [discriminate |].
  intros Hv. unfold BooleanUnmask.RunOnDevice.
  do 2 (erewrite bind_ok by reflexivity).
  erewrite bind_ok.
  2:{ match goal with
      | |- for_each ?f ?l ?s = _ =>
          destruct (check_pairs (Tensor.size (fst in0)) l s) as [[_ E] | [Hbad _]];
            [exact E | congruence]
      end. }
  erewrite bind_ok by reflexivity.
  do 2 (erewrite bind_ok by reflexivity).
  cbn [snd ret launches]. rewrite <- app_assoc. eexists. reflexivity.
Qed.

End ShapeChecks.

(** C5, as the specification words it, fails for BooleanUnmask: given a
    mask of rank 2 the operator stops with a fatal check, but by then it
    has resized its output (here from no element to two). *)
Lemma boolean_unmask_resizes_output_before_checks :
  let mask := Tensor.mk [1; 2] [true; false] in
  let value := RawTensor.mk [1] 1 [Byte.x01] in
  let c := Hip.mkCtx
             (BooleanUnmask.mkOutputs (RawTensor.mk [0] 1 []) (Tensor.mk [0] [])) [] in
  let r := BooleanUnmask.RunOnDevice Hip.default_config (fun o => o) [(mask, value)] c in
  BooleanUnmask.valid_inputs [(mask, value)] = false /\
  fst r = Fatal "mask.ndim() == 1" /\
  BooleanUnmask.out (Hip.outs (snd r)) = RawTensor.mk [2] 1 [Byte.x00; Byte.x00] /\
  BooleanUnmask.out (Hip.outs (snd r)) <> BooleanUnmask.out (Hip.outs c).
Proof.
  vm_compute. repeat split; discriminate.
Qed.

(** C5, amended.  BooleanMask (source of rank at least 1, mask of rank 1,
    equal first dimensions) and SparseToDense (indices of rank 1, values
    of rank at least 1, one index per value row) reject other shapes by a
    fatal check at entry that leaves outputs and stream untouched, and
    accept these.  BooleanUnmask (every mask of rank 1 and of the first
    mask's size, every value tensor of rank 1) rejects other shapes by a
    fatal check made before any kernel is launched, when the only change
    is that the output has been resized to the mask size; with valid
    shapes it goes on to launch its first kernel. *)
Theorem shape_checks_reject_invalid_inputs {TData : Type} (cfg : Hip.Config)
    (temp_storage_bytes OutputSize : Z) (src : RawTensor.t) (mask : Tensor.t bool)
    (cm : Hip.Ctx BooleanMask.Outputs)
    (zero : TData) (add : TData -> TData -> TData) (output_first_dim : Z)
    (sparse_indices : Tensor.t Z) (sparse_values : Tensor.t TData)
    (cs : Hip.Ctx (Tensor.t TData))
    (in0 : Tensor.t bool * RawTensor.t) (rest : list (Tensor.t bool * RawTensor.t))
    (aborted : BooleanUnmask.Outputs -> BooleanUnmask.Outputs)
    (cu : Hip.Ctx BooleanUnmask.Outputs) :
  (BooleanMask.valid_inputs src mask = false ->
   exists msg,
     BooleanMask.RunOnDevice cfg temp_storage_bytes OutputSize src mask cm
     = (Fatal msg, cm)) /\
  (BooleanMask.valid_inputs src mask = true ->
   fst (BooleanMask.RunOnDevice cfg temp_storage_bytes OutputSize src mask cm) = Ok true) /\
  (SparseToDense.valid_inputs sparse_indices sparse_values = false ->
   exists msg,
     SparseToDense.DoRunWithType2 zero add cfg output_first_dim
       sparse_indices sparse_values cs = (Fatal msg, cs)) /\
  (SparseToDense.valid_inputs sparse_indices sparse_values = true ->
   fst (SparseToDense.DoRunWithType2 zero add cfg output_first_dim
          sparse_indices sparse_values cs) = Ok true) /\
  (BooleanUnmask.valid_inputs (in0 :: rest) = false ->
   exists msg,
     BooleanUnmask.RunOnDevice cfg aborted (in0 :: rest) cu
     = (Fatal msg,
        Hip.mkCtx
          (BooleanUnmask.set_out
             (fun o => RawTensor.raw_mutable_data (RawTensor.itemsize (snd in0))
                         (RawTensor.Resize [Tensor.size (fst in0)] o))
             (Hip.outs cu))
          (Hip.launches cu))) /\
  (BooleanUnmask.valid_inputs (in0 :: rest) = true ->
   exists l,
     Hip.launches (snd (BooleanUnmask.RunOnDevice cfg aborted (in0 :: rest) cu))
     = Hip.launches cu ++
       Hip.mkLaunch "ComputeIndicesKernel"
         (Z.min (Tensor.size (fst in0)) (Hip.CAFFE_MAXIMUM_NUM_BLOCKS cfg))
         (Hip.CAFFE_HIP_NUM_THREADS cfg) :: l).
Proof.
  split; [apply BooleanMask_invalid |].
  split; [apply BooleanMask_valid |].
  split; [apply SparseToDense_invalid |].
  split; [apply SparseToDense_valid |].
  split; [apply BooleanUnmask_invalid |].
  intros Hv. exact (BooleanUnmask_valid cfg aborted (in0 :: rest) cu Hv).
Qed.

(** * LayerNorm *)

Section LayerNormFacts.

Import Hip LayerNorm.

Lemma writes_zrange {A : Type} (junk : A) (val : Z -> A) n buf :
  let r := fold_left (fun out s => store out s (val s)) (zrange n) buf in
  length r = length buf /\
  forall i, 0 <= i < Z.of_nat (length buf) ->
    load junk r i = if i <? n then val i else load junk buf i.
Proof.
  exact (run_update_zrange junk (fun i _ => val i) n buf).
Qed.

Lemma DeviceSegmentedReduce_Sum_spec input output num_segments seg :
  let r := DeviceSegmentedReduce_Sum input output num_segments seg in
  length r = length output /\
  forall s, 0 <= s < num_segments -> s < Z.of_nat (length output) ->
    load 0%R r s = segment_sum input (load 0 seg s) (load 0 seg (s + 1)).
Proof.
  cbv zeta. unfold DeviceSegmentedReduce_Sum.
  destruct (writes_zrange 0%R
              (fun s => segment_sum input (load 0 seg s) (load 0 seg (s + 1)))
              num_segments output) as [Hlen Hcells].
  split; [exact Hlen |]. intros s Hs Hs'. rewrite Hcells by lia.
  destruct (Z.ltb_spec s num_segments); [reflexivity | lia].
Qed.

Lemma math_Scale_spec n alpha x y :
  let r := math_Scale n alpha x y in
  length r = length y /\
  forall i, 0 <= i < n -> i < Z.of_nat (length y) ->
    load 0%R r i = (load 0%R x i * alpha)%R.
Proof.
  cbv zeta. unfold math_Scale.
  destruct (writes_zrange 0%R (fun i => (load 0%R x i * alpha)%R) n y) as [Hlen Hcells].
  split; [exact Hlen |]. intros i Hi Hi'. rewrite Hcells by lia.
  destruct (Z.ltb_spec i n); [reflexivity | lia].
Qed.

Lemma load_map {A B : Type} (ja : A) (jb : B) (f : A -> B) l p :
  f ja = jb -> load jb (map f l) p = f (load ja l p).
Proof.
  intros Hj. unfold load. destruct (p <? 0); [symmetry; exact Hj |].
  change (map f l) with (f <$> l). rewrite list_lookup_fmap.
  destruct (l !! Z.to_nat p); simpl; [reflexivity | symmetry; exact Hj].
Qed.

Lemma load_segs right left s :
  0 <= s <= left ->
  load 0 (map (fun x => right * x) (zrange (left + 1))) s = right * s.
Proof.
  intros Hs. rewrite (load_map 0 0 (fun x => right * x)) by lia.
  f_equal. unfold load, zrange. destruct (Z.ltb_spec s 0); [lia |].
  change (map Z.of_nat ?l) with (Z.of_nat <$> l). rewrite list_lookup_fmap.
  rewrite lookup_seq_lt by lia. simpl. lia.
Qed.

Lemma segment_sum_row x right i :
  segment_sum x (right * i) (right * (i + 1)) = row_sum x right i.
Proof.
  unfold segment_sum, row_sum.
  replace (right * (i + 1) - right * i) with right by lia.
  f_equal. apply map_ext. intros j. f_equal. lia.
Qed.

Lemma segment_sum_row_sq x right i :
  segment_sum (map SqrTransform x) (right * i) (right * (i + 1))
  = row_sum_sq x right i.
Proof.
  unfold segment_sum, row_sum_sq.
  replace (right * (i + 1) - right * i) with right by lia.
  f_equal. apply map_ext. intros j.
  rewrite (load_map 0%R 0%R SqrTransform) by (unfold SqrTransform; lra).
  unfold SqrTransform. f_equal; f_equal; lia.
Qed.

Lemma row_sum_one x i : row_sum x 1 i = load 0%R x i.
Proof.
  unfold row_sum. change (zrange 1) with [0]. simpl.
  replace (i * 1 + 0) with i by lia. lra.
Qed.

Lemma row_sum_sq_one x i : row_sum_sq x 1 i = (load 0%R x i * load 0%R x i)%R.
Proof.
  unfold row_sum_sq. change (zrange 1) with [0]. simpl.
  replace (i * 1 + 0) with i by lia. lra.
Qed.

Lemma normalizeKernel_spec gridDim blockDim row_dim N x mu sigma out :
  Permutation (HIP_1D_KERNEL_LOOP gridDim blockDim N) (zrange N) ->
  let r := normalizeKernel gridDim blockDim row_dim N x mu sigma out in
  length r = length out /\
  forall p, 0 <= p < N -> p < Z.of_nat (length out) ->
    load 0%R r p
    = ((load 0%R x p - load 0%R mu (Z.quot p row_dim))
       / load 0%R sigma (Z.quot p row_dim))%R.
Proof.
  intros HP. cbv zeta. unfold normalizeKernel.
  destruct (run_update_spec 0%R
              (fun i (_ : R) =>
                 ((load 0%R x i - load 0%R mu (Z.quot i row_dim))
                  / load 0%R sigma (Z.quot i row_dim))%R)
              _ N out HP) as [Hlen Hcells].
  split; [exact Hlen |]. intros p Hp Hp'. rewrite Hcells by lia.
  destruct (Z.ltb_spec p N); [reflexivity | lia].
Qed.

Lemma sqrtXMinusYSquaredKernel_spec gridDim blockDim N x y epsilon :
  Permutation (HIP_1D_KERNEL_LOOP gridDim blockDim N) (zrange N) ->
  let r := sqrtXMinusYSquaredKernel gridDim blockDim N x y epsilon in
  length r = length x /\
  forall i, 0 <= i < N -> i < Z.of_nat (length x) ->
    load 0%R r i = sqrt (load 0%R x i - load 0%R y i * load 0%R y i + epsilon).
Proof.
  intros HP. cbv zeta. unfold sqrtXMinusYSquaredKernel.
  destruct (run_update_spec 0%R
              (fun i (xi : R) => sqrt (xi - load 0%R y i * load 0%R y i + epsilon))
              _ N x HP) as [Hlen Hcells].
  split; [exact Hlen |]. intros i Hi Hi'. rewrite Hcells by lia.
  destruct (Z.ltb_spec i N); [reflexivity | lia].
Qed.

End LayerNormFacts.

Section LayerNormRun.

Import Hip LayerNorm.

Lemma size_to_dim_nonneg {T : Type} (x : Tensor.t T) k :
  Forall (fun d => 0 <= d) (Tensor.dims x) -> 0 <= Tensor.size_to_dim x k.
Proof.
  intros H. unfold Tensor.size_to_dim. apply prod_dims_nonneg. apply Forall_take.
  exact H.
Qed.

Lemma size_from_dim_nonneg {T : Type} (x : Tensor.t T) k :
  Forall (fun d => 0 <= d) (Tensor.dims x) -> 0 <= Tensor.size_from_dim x k.
Proof.
  intros H. unfold Tensor.size_from_dim. apply prod_dims_nonneg. apply Forall_drop.
  exact H.
Qed.

Lemma LayerNorm_run cfg temp_storage_bytes axis_ epsilon_ input c :
  config_ok cfg -> Tensor.well_formed input ->
  2 <= Tensor.ndim input ->
  - Tensor.ndim input <= axis_ < Tensor.ndim input ->
  let canonical_axis := if axis_ <? 0 then axis_ + Tensor.ndim input else axis_ in
  let left := Tensor.size_to_dim input canonical_axis in
  let right := Tensor.size_from_dim input canonical_axis in
  let stats_dims := take (Z.to_nat canonical_axis) (Tensor.dims input) ++ [1] in
  exists c',
    DoRunWithType cfg temp_storage_bytes axis_ epsilon_ input c = (Ok true, c') /\
    Tensor.dims (output (outs c')) = Tensor.dims input /\
    Tensor.dims (mean (outs c')) = stats_dims /\
    Tensor.dims (stdev (outs c')) = stats_dims /\
    forall i, 0 <= i < left ->
      load 0%R (Tensor.data (mean (outs c'))) i
      = (1 / IZR right * row_sum (Tensor.data input) right i)%R /\
      load 0%R (Tensor.data (stdev (outs c'))) i
      = sqrt (1 / IZR right * row_sum_sq (Tensor.data input) right i
              - load 0%R (Tensor.data (mean (outs c'))) i
                * load 0%R (Tensor.data (mean (outs c'))) i
              + epsilon_)%R /\
      forall j, 0 <= j < right ->
        load 0%R (Tensor.data (output (outs c'))) (i * right + j)
        = ((load 0%R (Tensor.data input) (i * right + j)
            - load 0%R (Tensor.data (mean (outs c'))) i)
           / load 0%R (Tensor.data (stdev (outs c'))) i)%R.
Proof.
  intros Hcfg [Hdims Hlen] Hrank Haxis ca left right stats_dims.
  assert (0 <= left) as Hleft by (apply size_to_dim_nonneg; exact Hdims).
  assert (0 <= right) as Hright by (apply size_from_dim_nonneg; exact Hdims).
  assert (Tensor.size input = left * right) as Hsize by apply size_split.
  assert (Tensor.prod_dims stats_dims = left) as Hstats.
  { unfold stats_dims. rewrite prod_dims_app, prod_dims_single.
    unfold left, Tensor.size_to_dim. lia. }
  unfold DoRunWithType.
  erewrite bind_ok by (apply enforce_true, Z.leb_le; exact Hrank).
  erewrite bind_ok by (apply canonical_axis_index_ok; exact Haxis).
  fold ca. fold left. fold right. fold stats_dims.
  do 5 (erewrite bind_ok by reflexivity).
  assert (Permutation
            (HIP_1D_KERNEL_LOOP (CAFFE_GET_BLOCKS cfg left) (CAFFE_HIP_NUM_THREADS cfg)
               (left * right)) (zrange (left * right))) as HPn.
  { apply launch_perm; [exact Hcfg |]. intros Hpos. destruct Hcfg as (_ & _ & Hg).
    apply Hg. nia. }
  assert (Permutation
            (HIP_1D_KERNEL_LOOP (CAFFE_GET_BLOCKS cfg left) (CAFFE_HIP_NUM_THREADS cfg)
               left) (zrange left)) as HPs.
  { apply launch_perm; [exact Hcfg |]. destruct Hcfg as (_ & _ & Hg). apply Hg. }
  assert (forall (mu sigma : list R) (out0 : Tensor.t R) i j,
            0 <= i < left -> 0 <= j < right ->
            load 0%R
              (normalizeKernel (CAFFE_GET_BLOCKS cfg left) (CAFFE_HIP_NUM_THREADS cfg)
                 right (left * right) (Tensor.data input) mu sigma
                 (Tensor.data (Tensor.Resize 0%R (Tensor.dims input) out0)))
              (i * right + j)
            = ((load 0%R (Tensor.data input) (i * right + j) - load 0%R mu i)
               / load 0%R sigma i)%R) as Hnorm.
  { intros mu sigma out0 i j Hi Hj.
    destruct (normalizeKernel_spec (CAFFE_GET_BLOCKS cfg left) (CAFFE_HIP_NUM_THREADS cfg)
                right (left * right) (Tensor.data input) mu sigma
                (Tensor.data (Tensor.Resize 0%R (Tensor.dims input) out0)) HPn)
      as [_ Hcells].
    rewrite Resize_length in Hcells. unfold Tensor.size in Hsize.
    rewrite Hcells by nia.
    destruct (quot_rem_row i j right) as [-> _]; [lia | lia | reflexivity]. }
  destruct (Z.eqb_spec right 1) as [Hr1 | Hr1].
  - do 2 (erewrite bind_ok by reflexivity).
    eexists. split; [reflexivity |].
    cbn [outs output mean stdev seg_indices_ scratch_ set_output set_mean set_stdev
         set_seg_indices_ set_scratch_].
    unfold set_data. cbn [Tensor.dims Tensor.data].
    rewrite !Resize_dims.
    split; [reflexivity |]. split; [reflexivity |]. split; [reflexivity |].
    assert (Tensor.data (Tensor.Resize 0%R stats_dims input) = Tensor.data input) as Hmean.
    { unfold Tensor.Resize. cbn [Tensor.data]. apply resize_all_alt.
      rewrite Hstats. unfold Tensor.size in *. nia. }
    rewrite Hmean.
    rewrite math_Set_all by (rewrite Resize_length, Hstats; lia).
    intros i Hi. rewrite load_replicate by lia.
    rewrite Hr1, row_sum_one, row_sum_sq_one.
    split; [lra |]. split.
    + f_equal. lra.
    + intros j Hj. rewrite <- Hr1. rewrite Hnorm by lia.
      rewrite load_replicate by lia. reflexivity.
  - erewrite bind_ok by reflexivity.
    unfold allocScratchAndReduce.
    repeat (erewrite bind_ok by reflexivity).
    eexists. split; [reflexivity |].
    cbn [outs output mean stdev seg_indices_ scratch_ set_output set_mean set_stdev
         set_seg_indices_ set_scratch_].
    unfold set_data. cbn [Tensor.dims Tensor.data].
    rewrite !Resize_dims.
    split; [reflexivity |]. split; [reflexivity |]. split; [reflexivity |].
    set (segs := map (fun x => right * x) (zrange (left + 1))).
    set (mean1 := DeviceSegmentedReduce_Sum (Tensor.data input)
                    (Tensor.data (Tensor.Resize 0%R stats_dims (mean (outs c)))) left segs).
    set (mean2 := math_Scale left (1 / IZR right) mean1 mean1).
    set (std1 := DeviceSegmentedReduce_Sum (map SqrTransform (Tensor.data input))
                   (Tensor.data (Tensor.Resize 0%R stats_dims (stdev (outs c)))) left segs).
    set (std2 := math_Scale left (1 / IZR right) std1 std1).
    assert (length mean1 = Z.to_nat left /\
            forall i, 0 <= i < left ->
              load 0%R mean1 i = row_sum (Tensor.data input) right i) as [Hm1l Hm1].
    { destruct (DeviceSegmentedReduce_Sum_spec (Tensor.data input)
                  (Tensor.data (Tensor.Resize 0%R stats_dims (mean (outs c)))) left segs)
        as [Hl Hc]. rewrite Resize_length, Hstats in Hl, Hc.
      split; [exact Hl |]. intros i Hi. unfold mean1. rewrite Hc by lia.
      unfold segs. rewrite !load_segs by lia. apply segment_sum_row. }
    assert (length mean2 = Z.to_nat left /\
            forall i, 0 <= i < left ->
              load 0%R mean2 i
              = (1 / IZR right * row_sum (Tensor.data input) right i)%R) as [Hm2l Hm2].
    { destruct (math_Scale_spec left (1 / IZR right) mean1 mean1) as [Hl Hc].
      rewrite Hm1l in Hl, Hc. split; [exact Hl |]. intros i Hi. unfold mean2.
      rewrite Hc by lia. rewrite Hm1 by lia. lra. }
    assert (length std1 = Z.to_nat left /\
            forall i, 0 <= i < left ->
              load 0%R std1 i = row_sum_sq (Tensor.data input) right i) as [Hs1l Hs1].
    { destruct (DeviceSegmentedReduce_Sum_spec (map SqrTransform (Tensor.data input))
                  (Tensor.data (Tensor.Resize 0%R stats_dims (stdev (outs c)))) left segs)
        as [Hl Hc]. rewrite Resize_length, Hstats in Hl, Hc.
      split; [exact Hl |]. intros i Hi. unfold std1. rewrite Hc by lia.
      unfold segs. rewrite !load_segs by lia. apply segment_sum_row_sq. }
    assert (length std2 = Z.to_nat left /\
            forall i, 0 <= i < left ->
              load 0%R std2 i
              = (1 / IZR right * row_sum_sq (Tensor.data input) right i)%R) as [Hs2l Hs2].
    { destruct (math_Scale_spec left (1 / IZR right) std1 std1) as [Hl Hc].
      rewrite Hs1l in Hl, Hc. split; [exact Hl |]. intros i Hi. unfold std2.
      rewrite Hc by lia. rewrite Hs1 by lia. lra. }
    destruct (sqrtXMinusYSquaredKernel_spec (CAFFE_GET_BLOCKS cfg left)
                (CAFFE_HIP_NUM_THREADS cfg) left std2 mean2 epsilon_ HPs) as [_ Hsq].
    rewrite Hs2l in Hsq.
    intros i Hi. split; [apply Hm2; exact Hi |]. split.
    + rewrite Hsq by lia. rewrite Hs2 by lia. reflexivity.
    + intros j Hj. apply Hnorm; assumption.
Qed.

End LayerNormRun.

(** C1.  For an input of rank at least 2, seen around the canonical axis
    as [left] rows of [right] elements, LayerNorm returns [true] with
    three outputs: [mean[i]] is [1/right] times the sum of row [i],
    [stdev[i]] is the square root of [1/right] times the sum of the
    squares of row [i], minus [mean[i]^2], plus epsilon, and
    [output[i,j] = (X[i,j] - mean[i]) / stdev[i]].  An input of rank
    below 2 is rejected by the first check, before anything is touched. *)
Theorem layer_norm_mean_stdev_output (cfg : Hip.Config) (temp_storage_bytes axis_ : Z)
    (epsilon_ : R) (X : Tensor.t R) (c : Hip.Ctx LayerNorm.Outputs) :
  (Hip.config_ok cfg -> Tensor.well_formed X ->
   2 <= Tensor.ndim X ->
   - Tensor.ndim X <= axis_ < Tensor.ndim X ->
   let canonical_axis := if axis_ <? 0 then axis_ + Tensor.ndim X else axis_ in
   let left := Tensor.size_to_dim X canonical_axis in
   let right := Tensor.size_from_dim X canonical_axis in
   let stats_dims := take (Z.to_nat canonical_axis) (Tensor.dims X) ++ [1] in
   exists c',
     LayerNorm.DoRunWithType cfg temp_storage_bytes axis_ epsilon_ X c = (Ok true, c') /\
     Tensor.dims (LayerNorm.output (Hip.outs c')) = Tensor.dims X /\
     Tensor.dims (LayerNorm.mean (Hip.outs c')) = stats_dims /\
     Tensor.dims (LayerNorm.stdev (Hip.outs c')) = stats_dims /\
     forall i, 0 <= i < left ->
       let mean_i := load 0%R (Tensor.data (LayerNorm.mean (Hip.outs c'))) i in
       let stdev_i := load 0%R (Tensor.data (LayerNorm.stdev (Hip.outs c'))) i in
       mean_i = (1 / IZR right * LayerNorm.row_sum (Tensor.data X) right i)%R /\
       stdev_i
       = sqrt (1 / IZR right * LayerNorm.row_sum_sq (Tensor.data X) right i
               - mean_i * mean_i + epsilon_)%R /\
       forall j, 0 <= j < right ->
         load 0%R (Tensor.data (LayerNorm.output (Hip.outs c'))) (i * right + j)
         = ((load 0%R (Tensor.data X) (i * right + j) - mean_i) / stdev_i)%R) /\
  (Tensor.ndim X < 2 ->
   LayerNorm.DoRunWithType cfg temp_storage_bytes axis_ epsilon_ X c
   = (Fatal "LayerNorm requires input dim >= 2", c)).
Proof.
  split.
  - intros Hcfg Hwf Hrank Haxis.
    exact (LayerNorm_run cfg temp_storage_bytes axis_ epsilon_ X c Hcfg Hwf Hrank Haxis).
  - intros Hrank. unfold LayerNorm.DoRunWithType.
    apply bind_fatal. unfold CAFFE_ENFORCE.
    destruct (Z.leb_spec 2 (Tensor.ndim X)); [lia | reflexivity].
Qed.

(** * [float]: the order of [<] and the sign of results *)

Section FloatOrder.

Import Float.

(** [SFcompare] is the comparison of ranks. *)
Lemma SFcompare_rank (a b : float) :
  SFcompare a b
  = match rank a, rank b with
    | Some x, Some y => Some (lex_compare x y)
    | _, _ => None
    end.
Proof.
  destruct a as [sa | sa | | sa ma ea], b as [sb | sb | | sb mb eb];
    try destruct sa; try destruct sb; try reflexivity.
  cbn. rewrite Z.compare_opp, (Z.compare_antisym ea eb).
  destruct (ea ?= eb); reflexivity.
Qed.

Lemma lex_compare_spec (x y : Z * Z * Z) :
  match lex_compare x y with
  | Lt => lex_lt x y
  | Eq => x = y
  | Gt => lex_lt y x
  end.
Proof.
  destruct x as [[x1 x2] x3], y as [[y1 y2] y3]. unfold lex_compare, lex_lt.
  destruct (Z.compare_spec x1 y1); [| lia | lia].
  destruct (Z.compare_spec x2 y2); [| lia | lia].
  destruct (Z.compare_spec x3 y3); [congruence | lia | lia].
Qed.

Lemma lex_lt_irrefl x : ~ lex_lt x x.
Proof. destruct x as [[x1 x2] x3]. unfold lex_lt. lia. Qed.

Lemma lex_lt_trans x y z : lex_lt x y -> lex_lt y z -> lex_lt x z.
Proof.
  destruct x as [[x1 x2] x3], y as [[y1 y2] y3], z as [[z1 z2] z3]. unfold lex_lt. lia.
Qed.

Lemma lex_lt_asym x y : lex_lt x y -> ~ lex_lt y x.
Proof. intros H1 H2. exact (lex_lt_irrefl x (lex_lt_trans _ _ _ H1 H2)). Qed.

Lemma ltb_rank a b :
  ltb a b = true <-> exists x y, rank a = Some x /\ rank b = Some y /\ lex_lt x y.
Proof.
  unfold ltb, SFltb. rewrite SFcompare_rank.
  destruct (rank a) as [x |], (rank b) as [y |].
  - pose proof (lex_compare_spec x y) as Hs. split.
    + intros Hc. exists x, y. split; [reflexivity |]. split; [reflexivity |].
      destruct (lex_compare x y); [discriminate | exact Hs | discriminate].
    + intros (x' & y' & Ex & Ey & Hlt). inversion Ex; inversion Ey; subst x' y'.
      destruct (lex_compare x y); [| reflexivity |].
      * subst y. exfalso. exact (lex_lt_irrefl x Hlt).
      * exfalso. exact (lex_lt_asym _ _ Hlt Hs).
  - split; [discriminate | intros (x' & y' & _ & E & _); discriminate E].
  - split; [discriminate | intros (x' & y' & E & _ & _); discriminate E].
  - split; [discriminate | intros (x' & y' & E & _ & _); discriminate E].
Qed.

Lemma eqb_rank a b :
  eqb a b = true <-> exists x, rank a = Some x /\ rank b = Some x.
Proof.
  unfold eqb, SFeqb. rewrite SFcompare_rank.
  destruct (rank a) as [x |], (rank b) as [y |].
  - pose proof (lex_compare_spec x y) as Hs. split.
    + intros Hc. exists x. split; [reflexivity |].
      destruct (lex_compare x y); [subst y; reflexivity | discriminate | discriminate].
    + intros (x' & Ex & Ey). inversion Ex; inversion Ey; subst x' y.
      destruct (lex_compare x x); [reflexivity | |]; exfalso; exact (lex_lt_irrefl x Hs).
  - split; [discriminate | intros (x' & _ & E); discriminate E].
  - split; [discriminate | intros (x' & E & _); discriminate E].
  - split; [discriminate | intros (x' & E & _); discriminate E].
Qed.

(** [a <= b] through the ranks. *)
Lemma le_rank a b :
  le a b <-> exists x y, rank a = Some x /\ rank b = Some y /\ (lex_lt x y \/ x = y).
Proof.
  unfold le. rewrite ltb_rank, eqb_rank. split.
  - intros [(x & y & Ex & Ey & Hlt) | (x & Ex & Ey)].
    + exists x, y. auto.
    + exists x, x. auto.
  - intros (x & y & Ex & Ey & [Hlt | <-]).
    + left. exists x, y. auto.
    + right. exists x. auto.
Qed.

Lemma ltb_irrefl a : ltb a a = false.
Proof.
  destruct (ltb a a) eqn:E; [| reflexivity].
  apply ltb_rank in E as (x & y & Ex & Ey & Hlt). rewrite Ex in Ey.
  inversion Ey; subst y. exfalso. exact (lex_lt_irrefl x Hlt).
Qed.



Lemma lt_le a b : ltb a b = true -> le a b.
Proof. intros H. left. exact H. Qed.

(** A number that is below another is not NaN, and equals itself. *)
Lemma le_refl_of_lt a b : ltb a b = true -> le a a.
Proof.
  intros H. apply ltb_rank in H as (x & _ & Ex & _).
  apply le_rank. exists x, x. auto.
Qed.

End FloatOrder.

Section FloatSigns.

Import Float.








End FloatSigns.

(** * RMAC regions *)

Section RMACArithmetic.

Import RMACRegions.







End RMACArithmetic.

Section RMACSteps.

Import Hip RMACRegions.





Lemma thread_indices_range gridDim blockDim b t n x :
  0 < blockDim * gridDim -> 0 <= b * blockDim + t ->
  In x (thread_indices gridDim blockDim b t n) -> 0 <= x < n.
Proof.
  intros Hs H0 Hin. unfold thread_indices in Hin.
  apply in_stride_loop in Hin as (k & _ & -> & Hlt); [| exact Hs]. split; [nia | exact Hlt].
Qed.


End RMACSteps.

Section RMACKernel.

Import Hip RMACRegions.

Variables (blockDim W H N num_rois Wd Hd : Z).
Hypothesis blockDim_pos : 0 < blockDim.

Let roi (index : Z) : list Z := roi_of_index W H num_rois Wd Hd index.
Let target (p : Z) : Float.float := roi_cell W H num_rois Wd Hd p.

(** The rows a pass starting at [offset] writes. *)
Let covers (offset p : Z) : bool :=
  (offset * 5 <=? p) && (p <? offset * 5 + Z.min blockDim (N - offset) * 5).

Lemma in_active offset t :
  In t (List.filter (fun t => offset + t <? N) (zrange blockDim))
  <-> 0 <= t < Z.min blockDim (N - offset).
Proof.
  rewrite filter_In, in_zrange, Z.ltb_lt. lia.
Qed.

Lemma in_pairs {X Y : Type} (xs : list X) (ys : list Y) x y :
  In (x, y) (flat_map (fun x => map (pair x) ys) xs) <-> In x xs /\ In y ys.
Proof.
  rewrite in_flat_map. split.
  - intros (x' & Hx' & Hin). apply in_map_iff in Hin as (y' & E & Hy').
    inversion E; subst. auto.
  - intros [Hx Hy]. exists x. split; [exact Hx |]. apply in_map. exact Hy.
Qed.

Lemma block_pass_spec offset (sh out : list Float.float) :
  0 <= offset < N -> Z.of_nat (length sh) = blockDim * 5 ->
  let r := block_pass blockDim W H N num_rois Wd Hd offset (sh, out) in
  Z.of_nat (length (fst r)) = blockDim * 5 /\
  length (snd r) = length out /\
  forall p, 0 <= p < Z.of_nat (length out) ->
    load Float.zero (snd r) p = if covers offset p then target p else load Float.zero out p.
Proof.
  intros Ho Hsh. cbv zeta. unfold block_pass.
  set (active := List.filter (fun t => offset + t <? N) (zrange blockDim)).
  set (nt := Z.min blockDim (N - offset)).
  set (pairs := flat_map (fun t => map (pair t) (zrange 5)) active).
  assert (forall t i, In (t, i) pairs <-> 0 <= t < nt /\ 0 <= i < 5) as Hpairs.
  { intros t i. unfold pairs. rewrite in_pairs. unfold active.
    rewrite in_active, in_zrange. reflexivity. }
  (* phase 1: the shared buffer *)
  set (sh1 := fold_left
                (fun sh t =>
                   let roi := roi_of_index W H num_rois Wd Hd (offset + t) in
                   fold_left (fun sh i => store sh (t * 5 + i) (Float.of_int (load 0 roi i)))
                             (zrange 5) sh)
                active sh).
  assert (sh1 = fold_left
                  (fun sh (ti : Z * Z) =>
                     store sh (fst ti * 5 + snd ti)
                       (Float.of_int (load 0 (roi (offset + fst ti)) (snd ti))))
                  pairs sh) as Hsh1.
  { unfold sh1, pairs.
    exact (fold_left_pairs
             (fun sh (ti : Z * Z) =>
                store sh (fst ti * 5 + snd ti)
                  (Float.of_int (load 0 (roi (offset + fst ti)) (snd ti))))
             active (zrange 5) sh). }
  destruct (fold_writes Float.zero (fun ti : Z * Z => fst ti * 5 + snd ti)
              (fun ti : Z * Z => Float.of_int (load 0 (roi (offset + fst ti)) (snd ti)))
              pairs) with (out := sh) as [Hl1 Hc1].
  { intros [t i] [t' i'] Hin Hin' E. apply Hpairs in Hin, Hin'. cbn [fst snd] in *.
    assert (t = t' /\ i = i') as [-> ->] by lia. reflexivity. }
  rewrite <- Hsh1 in Hl1, Hc1.
  assert (forall k, 0 <= k < nt * 5 ->
            load Float.zero sh1 k
            = Float.of_int (load 0 (roi (offset + Z.quot k 5)) (Z.rem k 5))) as Hshared.
  { intros k Hk.
    assert (0 <= Z.rem k 5 < 5 /\ 0 <= Z.quot k 5 < nt /\ k = Z.quot k 5 * 5 + Z.rem k 5)
      as (Hr & Hq & Hkk).
    { rewrite Z.quot_div_nonneg, Z.rem_mod_nonneg by lia.
      pose proof (Z.div_mod k 5 ltac:(lia)). pose proof (Z.mod_pos_bound k 5 ltac:(lia)).
      split; [lia |]. split; [| lia].
      split; [apply Z.div_pos; lia | apply Z.div_lt_upper_bound; lia]. }
    destruct (Hc1 k) as [Hin _]; [unfold nt in *; lia |].
    apply (Hin (Z.quot k 5, Z.rem k 5)); [apply Hpairs; lia | cbn [fst snd]; lia]. }
  (* phase 2: the copy to the output *)
  set (out1 := fold_left
                 (fun out t =>
                    fold_left
                      (fun out i =>
                         store out (offset * 5 + (nt * i + t))
                               (load Float.zero sh1 (nt * i + t)))
                      (zrange 5) out)
                 active out).
  assert (out1 = fold_left
                   (fun out (ti : Z * Z) =>
                      store out (offset * 5 + (nt * snd ti + fst ti))
                            (load Float.zero sh1 (nt * snd ti + fst ti)))
                   pairs out) as Hout1.
  { unfold out1, pairs.
    exact (fold_left_pairs
             (fun out (ti : Z * Z) =>
                store out (offset * 5 + (nt * snd ti + fst ti))
                      (load Float.zero sh1 (nt * snd ti + fst ti)))
             active (zrange 5) out). }
  destruct (fold_writes Float.zero (fun ti : Z * Z => offset * 5 + (nt * snd ti + fst ti))
              (fun ti : Z * Z => load Float.zero sh1 (nt * snd ti + fst ti))
              pairs) with (out := out) as [Hl2 Hc2].
  { intros [t i] [t' i'] _ _ E. cbn [fst snd] in *. f_equal. lia. }
  rewrite <- Hout1 in Hl2, Hc2.
  cbn [fst snd]. split; [rewrite Hl1; exact Hsh |]. split; [exact Hl2 |].
  intros p Hp. destruct (Hc2 p Hp) as [Hin Hnot]. unfold covers. fold nt.
  destruct (Z.leb_spec (offset * 5) p) as [Hlo | Hlo];
    [destruct (Z.ltb_spec p (offset * 5 + nt * 5)) as [Hhi | Hhi] |]; cbn [andb].
  - set (k := p - offset * 5).
    assert (0 <= k < nt * 5) as Hk by (unfold k; lia).
    assert (0 < nt) as Hnt by (unfold nt; lia).
    assert (0 <= k mod nt < nt) as Hm by (apply Z.mod_pos_bound; lia).
    assert (0 <= k / nt < 5) as Hdv
      by (split; [apply Z.div_pos; lia | apply Z.div_lt_upper_bound; lia]).
    pose proof (Z.div_mod k nt ltac:(lia)) as Hdm.
    rewrite (Hin (k mod nt, k / nt)); [| apply Hpairs; lia | cbn [fst snd]; unfold k in *; lia].
    cbn [fst snd]. replace (nt * (k / nt) + k mod nt) with k by lia.
    rewrite (Hshared k Hk). unfold target, roi_cell, roi.
    assert (Z.quot p 5 = offset + Z.quot k 5 /\ Z.rem p 5 = Z.rem k 5) as [-> ->];
      [| reflexivity].
    rewrite !Z.quot_div_nonneg, !Z.rem_mod_nonneg by lia.
    replace p with (k + offset * 5) by (unfold k; lia).
    rewrite Z.div_add, Z.mod_add by lia. lia.
  - apply Hnot. intros [t i] Hti. apply Hpairs in Hti. cbn [fst snd]. nia.
  - apply Hnot. intros [t i] Hti. apply Hpairs in Hti. cbn [fst snd]. nia.
Qed.

End RMACKernel.

Section RMACOutput.

Import Hip RMACRegions.

Lemma region_fold_plain {A X : Type} (junk : A) (step : X -> list A -> list A)
    (covers : X -> Z -> bool) (target : Z -> A) (xs : list X) :
  (forall x out, In x xs ->
     length (step x out) = length out /\
     forall p, 0 <= p < Z.of_nat (length out) ->
       load junk (step x out) p = if covers x p then target p else load junk out p) ->
  forall out,
    let r := fold_left (fun out x => step x out) xs out in
    length r = length out /\
    forall p, 0 <= p < Z.of_nat (length out) ->
      load junk r p
      = if existsb (fun x => covers x p) xs then target p else load junk out p.
Proof.
  induction xs as [| x l IH]; intros Hstep out; cbn [fold_left existsb].
  - split; [reflexivity |]. intros; reflexivity.
  - destruct (Hstep x out (or_introl eq_refl)) as [Hl1 Hc1].
    destruct (IH (fun y out' Hy => Hstep y out' (or_intror Hy)) (step x out))
      as [Hl2 Hc2].
    split; [congruence |]. intros p Hp. rewrite Hc2 by (rewrite Hl1; exact Hp).
    destruct (existsb (fun y => covers y p) l); [rewrite orb_true_r; reflexivity |].
    rewrite orb_false_r. apply Hc1. exact Hp.
Qed.

(** The kernel leaves in every entry of the [N] output rows the entry of
    the roi of that row. *)
Lemma RMACRegionsKernel_spec gridDim blockDim W H N num_rois Wd Hd data (out : list Float.float) :
  0 < gridDim -> 0 < blockDim ->
  load 0 data 0 = num_rois -> load 0 data 1 = Wd -> load 0 data 2 = Hd ->
  let r := RMACRegionsKernel gridDim blockDim W H N data out in
  length r = length out /\
  forall p, 0 <= p < N * 5 -> p < Z.of_nat (length out) ->
    load Float.zero r p = roi_cell W H num_rois Wd Hd p.
Proof.
  intros Hg Hb E0 E1 E2. cbv zeta. unfold RMACRegionsKernel. rewrite E0, E1, E2.
  set (covers := fun offset p : Z =>
         (offset * 5 <=? p) && (p <? offset * 5 + Z.min blockDim (N - offset) * 5)).
  destruct (region_fold_plain Float.zero
              (fun b output =>
                 snd (fold_left
                        (fun st offset =>
                           block_pass blockDim W H N num_rois Wd Hd offset st)
                        (thread_indices gridDim blockDim b 0 N)
                        (replicate (Z.to_nat (blockDim * 5)) Float.zero, output)))
              (fun b p => existsb (fun o => covers o p)
                            (thread_indices gridDim blockDim b 0 N))
              (roi_cell W H num_rois Wd Hd) (zrange gridDim)) with (out := out)
    as [Hlen Hcells].
  { intros b out0 Hb0. apply in_zrange in Hb0.
    destruct (region_fold Float.zero
                (fun offset st => block_pass blockDim W H N num_rois Wd Hd offset st)
                (fun sh => Z.of_nat (length sh) = blockDim * 5)
                covers (roi_cell W H num_rois Wd Hd)
                (thread_indices gridDim blockDim b 0 N))
      with (st := replicate (Z.to_nat (blockDim * 5)) Float.zero) (out := out0)
      as (_ & Hl & Hc).
    - intros o st out1 Ho Hinv.
      apply thread_indices_range in Ho; [| nia | nia].
      exact (block_pass_spec blockDim W H N num_rois Wd Hd Hb o st out1 Ho Hinv).
    - rewrite length_replicate. lia.
    - split; [exact Hl | exact Hc]. }
  split; [exact Hlen |]. intros p Hp Hp'.
  rewrite Hcells by lia.
  match goal with |- (if ?b then _ else _) = _ => assert (b = true) as -> end;
    [| reflexivity].
  (* the pass that covers row [p / 5] *)
  set (r := p / 5).
  assert (0 <= r < N) as Hr
    by (unfold r; split; [apply Z.div_pos; lia | apply Z.div_lt_upper_bound; lia]).
  assert (5 * r <= p < 5 * r + 5) as Hpr.
  { unfold r. pose proof (Z.div_mod p 5 ltac:(lia)).
    pose proof (Z.mod_pos_bound p 5 ltac:(lia)). lia. }
  set (q := r / blockDim).
  assert (0 <= q) as Hq by (unfold q; apply Z.div_pos; lia).
  assert (blockDim * q <= r < blockDim * q + blockDim) as Hqr.
  { unfold q. pose proof (Z.div_mod r blockDim ltac:(lia)).
    pose proof (Z.mod_pos_bound r blockDim ltac:(lia)). lia. }
  assert (q <= r) as Hqle by nia.
  pose proof (Z.div_mod q gridDim ltac:(lia)) as Hdm.
  pose proof (Z.mod_pos_bound q gridDim ltac:(lia)) as Hmb.
  assert (0 <= q / gridDim) as Hqg by (apply Z.div_pos; lia).
  apply existsb_exists. exists (q mod gridDim). split; [apply in_zrange; lia |].
  apply existsb_exists. exists (blockDim * q). split.
  - unfold thread_indices. apply in_stride_loop; [nia |].
    exists (Z.to_nat (q / gridDim)). split; [| split].
    + assert (q / gridDim <= q) by (apply Z.div_le_upper_bound; nia). lia.
    + rewrite Z2Nat.id by lia. nia.
    + nia.
  - unfold covers. apply andb_true_iff. split; [apply Z.leb_le; nia | apply Z.ltb_lt; nia].
Qed.

Lemma dim32_ok {S : Type} (X_dims : list Z) (i : Z) (s : S) :
  i < Z.of_nat (length X_dims) ->
  dim32 X_dims i s = (Ok (nth (Z.to_nat i) X_dims 0), s).
Proof.
  intros Hi. unfold dim32. erewrite bind_ok; [reflexivity |].
  apply enforce_true, Z.ltb_lt. exact Hi.
Qed.

End RMACOutput.


(** * The operators on small inputs *)

Example boolean_mask_example :
  let r := BooleanMask.RunOnDevice Hip.default_config 100 2
             (RawTensor.mk [3; 2] 1
                [Byte.x01; Byte.x02; Byte.x03; Byte.x04; Byte.x05; Byte.x06])
             (Tensor.mk [3] [true; false; true])
             (Hip.mkCtx (BooleanMask.mkOutputs (RawTensor.mk [0] 1 []) (Tensor.mk [0] [])
                           (Tensor.mk [0] []) (Tensor.mk [0] [])) []) in
  fst r = Ok true /\
  BooleanMask.dest (Hip.outs (snd r))
  = RawTensor.mk [2; 2] 1 [Byte.x01; Byte.x02; Byte.x05; Byte.x06] /\
  BooleanMask.indicesOut (Hip.outs (snd r)) = Tensor.mk [2] [0; 2].
Proof. vm_compute. repeat split. Qed.

Example boolean_unmask_example :
  let r := BooleanUnmask.RunOnDevice Hip.default_config (fun o => o)
             [(Tensor.mk [3] [true; false; true], RawTensor.mk [2] 1 [Byte.x01; Byte.x02]);
              (Tensor.mk [3] [false; true; false], RawTensor.mk [1] 1 [Byte.x09])]
             (Hip.mkCtx (BooleanUnmask.mkOutputs (RawTensor.mk [0] 1 []) (Tensor.mk [0] []))
                []) in
  fst r = Ok true /\
  BooleanUnmask.out (Hip.outs (snd r))
  = RawTensor.mk [3] 1 [Byte.x01; Byte.x09; Byte.x02].
Proof. vm_compute. repeat split. Qed.

(** Rows 0 and 2 of the values go to row 2 of the output and add up. *)
Example sparse_to_dense_example :
  SparseToDense.DoRunWithType2 0 Z.add Hip.default_config 3
    (Tensor.mk [3] [2; 0; 2]) (Tensor.mk [3; 2] [1; 2; 3; 4; 5; 6])
    (Hip.mkCtx (Tensor.mk [0] []) [])
  = (Ok true,
     Hip.mkCtx (Tensor.mk [3; 2] [3; 4; 0; 0; 6; 8])
       [Hip.mkLaunch "SparseToDenseKernel" 1 512]).
Proof. vm_compute. reflexivity. Qed.

Example sequence_mask_upper_example :
  let r := SequenceMask.DoRunWithType 0 0 (fun f : Z => f) Hip.default_config
             (SequenceMask.mkArgs "upper" 1 None None 0 false 99)
             (Tensor.mk [3; 3] [1; 2; 3; 4; 5; 6; 7; 8; 9]) (Tensor.mk [0] [])
             (Hip.mkCtx (Tensor.mk [0] []) []) in
  fst r = Ok true /\
  Hip.outs (snd r) = Tensor.mk [3; 3] [1; 99; 99; 4; 5; 99; 7; 8; 9].
Proof. vm_compute. repeat split. Qed.

(** A 4 x 6 feature map at overlap 0.4 and three scales: step 1 along
    the width, and 2 + 6 + 12 regions per image. *)
Example rmac_num_rois_example :
  let r := RMACRegions.RunOnDevice Hip.default_config
             (Float.div (Float.of_int 2) (Float.of_int 5)) 3 (fun _ => -7)
             [2; 1; 4; 6]
             (Hip.mkCtx (RMACRegions.mkOutputs (Tensor.mk [0] []) (Tensor.mk [0] [])) []) in
  fst r = Ok true /\
  Tensor.data (RMACRegions.num_rois_ (Hip.outs (snd r))) = [20; 1; 0] /\
  Tensor.dims (RMACRegions.output (Hip.outs (snd r))) = [40; 5] /\
  firstn 10 (Tensor.data (RMACRegions.output (Hip.outs (snd r))))
  = map Float.of_int [0; 0; 0; 3; 3; 0; 2; 0; 5; 3].
Proof. vm_compute. repeat split. Qed.

(** A 3 x 5 feature map at overlap 0.5.  The scores of the steps 1 and 2
    are [|1/3 - 1/2|] and [|2/3 - 1/2|]; rounded to [float] the first is
    the smaller one, and the kernel settles on step 1. *)
Example rmac_step_rounding_example :
  let overlap := Float.div (Float.of_int 1) (Float.of_int 2) in
  let r := RMACRegions.RunOnDevice Hip.default_config overlap 3 (fun _ => -7)
             [1; 1; 3; 5]
             (Hip.mkCtx (RMACRegions.mkOutputs (Tensor.mk [0] []) (Tensor.mk [0] [])) []) in
  RMACRegions.step_value 5 3 overlap 1 = S754_finite false 11184810 (-26) /\
  RMACRegions.step_value 5 3 overlap 2 = S754_finite false 11184812 (-26) /\
  Tensor.data (RMACRegions.num_rois_ (Hip.outs (snd r))) = [20; 1; 0].
Proof. vm_compute. repeat split. Qed.

(** A 2 x 32 feature map: at scale 2 the regions are 7 steps of
    [bw = 31 / 7] apart; in [float], [bw * 7] is just below 31 and the
    last corner is 30. *)
Example rmac_corner_rounding_example :
  Float.mul
    (Double.to_float
       (Double.div (Double.of_int 31) (Double.mul Double.one (Double.of_int 7))))
    (Float.of_int 7)
  = S754_finite false 16252927 (-19) /\
  RMACRegions.roi_of_index 32 2 50 6 0 (7 + 14) = [0; 30; 0; 30; 0].
Proof. vm_compute. repeat split. Qed.

(** * Instances of the theorems *)

Lemma layer_norm_witness :
  exists c',
    LayerNorm.DoRunWithType Hip.default_config 16 1 1%R
      (Tensor.mk [2; 2] [1; 3; 5; 7]%R)
      (Hip.mkCtx (LayerNorm.mkOutputs (Tensor.mk [0] []) (Tensor.mk [0] [])
                    (Tensor.mk [0] []) (Tensor.mk [0] []) (Tensor.mk [0] [])) [])
    = (Ok true, c').
Proof.
  destruct (proj1 (layer_norm_mean_stdev_output Hip.default_config 16 1 1%R
                     (Tensor.mk [2; 2] [1; 3; 5; 7]%R)
                     (Hip.mkCtx (LayerNorm.mkOutputs (Tensor.mk [0] []) (Tensor.mk [0] [])
                                   (Tensor.mk [0] []) (Tensor.mk [0] []) (Tensor.mk [0] []))
                        [])))
    as (c' & E & _).
  - exact default_config_ok.
  - split; [repeat constructor; lia | reflexivity].
  - vm_compute. discriminate.
  - vm_compute. split; discriminate || reflexivity.
  - exists c'. exact E.
Defined.

Lemma boolean_mask_witness :
  exists c' positions,
    BooleanMask.RunOnDevice Hip.default_config 100 2
      (RawTensor.mk [3; 2] 1
         [Byte.x01; Byte.x02; Byte.x03; Byte.x04; Byte.x05; Byte.x06])
      (Tensor.mk [3] [true; false; true])
      (Hip.mkCtx (BooleanMask.mkOutputs (RawTensor.mk [0] 1 []) (Tensor.mk [0] [])
                    (Tensor.mk [0] []) (Tensor.mk [0] [])) [])
    = (Ok true, c') /\
    StronglySorted Z.lt positions.
Proof.
  destruct (boolean_mask_selects_slices Hip.default_config 100 2
              (RawTensor.mk [3; 2] 1
                 [Byte.x01; Byte.x02; Byte.x03; Byte.x04; Byte.x05; Byte.x06])
              (Tensor.mk [3] [true; false; true])
              (Hip.mkCtx (BooleanMask.mkOutputs (RawTensor.mk [0] 1 []) (Tensor.mk [0] [])
                            (Tensor.mk [0] []) (Tensor.mk [0] [])) []))
    as (c' & positions & E & Hs & _).
  - exact default_config_ok.
  - lia.
  - split; [repeat constructor; lia | split; [simpl; lia | reflexivity]].
  - split; [repeat constructor; lia | reflexivity].
  - vm_compute. discriminate.
  - reflexivity.
  - reflexivity.
  - exists c', positions. split; assumption.
Defined.


Lemma shape_checks_witness :
  exists msg,
    BooleanMask.RunOnDevice Hip.default_config 100 1
      (RawTensor.mk [3; 2] 1 []) (Tensor.mk [2] [true; false])
      (Hip.mkCtx (BooleanMask.mkOutputs (RawTensor.mk [0] 1 []) (Tensor.mk [0] [])
                    (Tensor.mk [0] []) (Tensor.mk [0] [])) [])
    = (Fatal msg,
       Hip.mkCtx (BooleanMask.mkOutputs (RawTensor.mk [0] 1 []) (Tensor.mk [0] [])
                    (Tensor.mk [0] []) (Tensor.mk [0] [])) []).
Proof.
  apply (proj1 (shape_checks_reject_invalid_inputs Hip.default_config 100 1
                  (RawTensor.mk [3; 2] 1 []) (Tensor.mk [2] [true; false])
                  (Hip.mkCtx (BooleanMask.mkOutputs (RawTensor.mk [0] 1 [])
                                (Tensor.mk [0] []) (Tensor.mk [0] []) (Tensor.mk [0] []))
                     [])
                  0 Z.add 0 (Tensor.mk [0] []) (Tensor.mk [0] [])
                  (Hip.mkCtx (Tensor.mk [0] []) [])
                  (Tensor.mk [0] [], RawTensor.mk [0] 1 []) [] (fun o => o)
                  (Hip.mkCtx (BooleanUnmask.mkOutputs (RawTensor.mk [0] 1 [])
                                (Tensor.mk [0] [])) []))).
  reflexivity.
Defined.

Lemma sequence_mask_witness :
  exists c',
    SequenceMask.DoRunWithType 0 0 (fun f : Z => f) Hip.default_config
      (SequenceMask.mkArgs "sequence" 1 None None 0 false 99)
      (Tensor.mk [2; 2] [1; 2; 3; 4]) (Tensor.mk [2] [1; 2])
      (Hip.mkCtx (Tensor.mk [0] []) [])
    = (Ok true, c').
Proof.
  destruct (proj1 (sequence_mask_sequence_mode 0 0 (fun f : Z => f) Hip.default_config
                     (SequenceMask.mkArgs "sequence" 1 None None 0 false 99)
                     (Tensor.mk [2; 2] [1; 2; 3; 4]) (Tensor.mk [2] [1; 2])
                     (Hip.mkCtx (Tensor.mk [0] []) [])))
    as (c' & E & _).
  - exact default_config_ok.
  - reflexivity.
  - reflexivity.
  - reflexivity.
  - split; [repeat constructor; lia | reflexivity].
  - vm_compute. split; discriminate || reflexivity.
  - vm_compute. discriminate.
  - exists c'. exact E.
Defined.

Lemma adagrad_update_witness :
  exists c',
    Adagrad.adagrad_update Hip.default_config 2 0 10 20 0 20 1 1 30
      (Hip.mkCtx (fun _ => 1%R) []) = (Ok tt, c').
Proof.
  destruct (adagrad_update_computes_and_sparse_rejects_decay
              Hip.default_config 0 10 20 0 20 30 2 1%R 1%R
              (Hip.mkCtx (fun _ => 1%R) [])) as [(c' & E & _) _].
  - exact default_config_ok.
  - left. reflexivity.
  - left. reflexivity.
  - unfold Adagrad.disjoint. lia.
  - unfold Adagrad.disjoint. lia.
  - unfold Adagrad.disjoint. lia.
  - unfold Adagrad.disjoint. lia.
  - unfold Adagrad.disjoint. lia.
  - unfold Adagrad.outside. lia.
  - unfold Adagrad.outside. lia.
  - exists c'. exact E.
Defined.


Lemma empty_input_witness :
  RMACRegions.RunOnDevice Hip.default_config Float.zero 3 (fun _ => 0) [2; 0; 4; 6]
    (Hip.mkCtx (RMACRegions.mkOutputs (Tensor.mk [7] []) (Tensor.mk [0] [])) [])
  = (Ok true,
     Hip.mkCtx (RMACRegions.mkOutputs (Tensor.mk [7] []) (Tensor.mk [0] [])) []).
Proof.
  apply (empty_input_returns_without_launch Hip.default_config
           (Adagrad.mkSparseOp 0%R) 0%R
           (Adagrad.mkSparseInputs
              (Adagrad.mkDevTensor [0] TFloat 0) (Adagrad.mkDevTensor [0] TFloat 0)
              (Adagrad.mkIndexTensor TInt32 (Tensor.mk [0] []))
              (Adagrad.mkDevTensor [0] TFloat 0) (Adagrad.mkDevTensor [1] TFloat 0))
           0 0 (Hip.mkCtx (fun _ => 0%R) [])
           Float.zero 3 (fun _ => 0) [2; 0; 4; 6]
           (Hip.mkCtx (RMACRegions.mkOutputs (Tensor.mk [7] []) (Tensor.mk [0] [])) [])).
  reflexivity.
Defined.

(** * Further properties of the operators *)

(** Closed arithmetic goals over the dimensions of a concrete tensor. *)
Ltac dims_lia :=
  first
    [ unfold Tensor.ndim, Tensor.size, Tensor.size_to_dim, Tensor.size_from_dim,
        Tensor.size_between_dim, Tensor.dim;
      simpl; lia
    | split; [apply Z.leb_le | apply Z.ltb_lt]; vm_compute; reflexivity
    | apply Z.ltb_lt; vm_compute; reflexivity
    | apply Z.leb_le; vm_compute; reflexivity ].


(** * SequenceMask: every mode *)

Lemma list_eq_load {A : Type} (junk : A) (l1 l2 : list A) :
  length l1 = length l2 ->
  (forall p, 0 <= p < Z.of_nat (length l1) -> load junk l1 p = load junk l2 p) ->
  l1 = l2.
Proof.
  intros Hlen Hcells. apply list_eq. intros i.
  destruct (Nat.lt_ge_cases i (length l1)) as [Hi | Hi].
  - specialize (Hcells (Z.of_nat i) ltac:(lia)).
    rewrite <- (Nat2Z.id i).
    rewrite (load_nth junk l1), (load_nth junk l2) by lia.
    f_equal. exact Hcells.
  - rewrite !lookup_ge_None_2 by lia. reflexivity.
Qed.

Lemma batch_ind_id N M p :
  0 < N -> 0 < M -> 0 <= p -> SequenceMask.batch_ind N M p = p.
Proof.
  intros HN HM Hp.
  unfold SequenceMask.batch_ind, SequenceMask.batch_i, SequenceMask.batch_j,
    SequenceMask.batch_k.
  rewrite (Z.rem_mod_nonneg p M) by lia.
  assert (p - p mod M = M * (p / M)) as E1 by (pose proof (Z.div_mod p M); lia).
  rewrite E1. rewrite (Z.mul_comm M (p / M)), Z.quot_mul by lia.
  assert (0 <= p / M) as Hq by (apply Z.div_pos; lia).
  rewrite (Z.rem_mod_nonneg (p / M) N) by lia.
  replace (p - M * ((p / M) mod N) - p mod M) with ((p / M / N) * (N * M))
    by (pose proof (Z.div_mod p M); pose proof (Z.div_mod (p / M) N); nia).
  rewrite Z.quot_mul by nia.
  pose proof (Z.div_mod p M). pose proof (Z.div_mod (p / M) N). nia.
Qed.

Lemma batch_cell N M b j k :
  0 <= b -> 0 <= j < N -> 0 <= k < M ->
  SequenceMask.batch_j N M ((b * N + j) * M + k) = j /\
  SequenceMask.batch_k M ((b * N + j) * M + k) = k.
Proof.
  intros Hb Hj Hk. unfold SequenceMask.batch_j, SequenceMask.batch_k.
  destruct (quot_rem_row (b * N + j) k M) as [Eq Er]; [nia | lia |].
  rewrite Er. replace ((b * N + j) * M + k - k) with ((b * N + j) * M) by lia.
  rewrite Z.quot_mul by lia.
  destruct (quot_rem_row b j N) as [_ Er2]; [lia | lia |].
  rewrite Er2. split; reflexivity.
Qed.

Lemma prod_dims_drop_split (l : list Z) (k m : nat) :
  Tensor.prod_dims (drop k l)
  = Tensor.prod_dims (take m (drop k l)) * Tensor.prod_dims (drop (k + m) l).
Proof.
  rewrite <- (take_drop m (drop k l)) at 1.
  rewrite prod_dims_app, drop_drop. reflexivity.
Qed.

Lemma size_batch_split {T : Type} (x : Tensor.t T) cb ca :
  0 <= cb < ca -> ca < Tensor.ndim x ->
  Tensor.size x
  = Tensor.size_to_dim x cb * Tensor.dim x cb
    * Tensor.size_between_dim x cb ca * Tensor.size_from_dim x ca.
Proof.
  intros Hcb Hca.
  unfold Tensor.size, Tensor.size_to_dim, Tensor.dim, Tensor.size_between_dim,
    Tensor.size_from_dim, Tensor.ndim in *.
  set (l := Tensor.dims x) in *.
  rewrite <- (take_drop (Z.to_nat cb) l) at 1. rewrite prod_dims_app.
  assert (drop (Z.to_nat cb) l = nth (Z.to_nat cb) l 0 :: drop (S (Z.to_nat cb)) l) as E.
  { destruct (lookup_lt_is_Some_2 l (Z.to_nat cb) ltac:(lia)) as [d Hd].
    rewrite (drop_S _ _ _ Hd). f_equal.
    symmetry. apply nth_lookup_Some with (d := 0) in Hd. exact Hd. }
  rewrite E, prod_dims_cons.
  rewrite (prod_dims_drop_split l (S (Z.to_nat cb)) (Z.to_nat (ca - cb - 1))).
  replace (Z.to_nat (cb + 1)) with (S (Z.to_nat cb)) by lia.
  replace (S (Z.to_nat cb) + Z.to_nat (ca - cb - 1))%nat with (Z.to_nat ca) by lia.
  ring.
Qed.

Lemma size_from_dim_split {T : Type} (x : Tensor.t T) ca crf :
  0 <= ca <= crf ->
  Tensor.size_from_dim x ca
  = Tensor.prod_dims (take (Z.to_nat (crf - ca)) (drop (Z.to_nat ca) (Tensor.dims x)))
    * Tensor.size_from_dim x crf.
Proof.
  intros H. unfold Tensor.size_from_dim.
  rewrite (prod_dims_drop_split (Tensor.dims x) (Z.to_nat ca) (Z.to_nat (crf - ca))).
  replace (Z.to_nat ca + Z.to_nat (crf - ca))%nat with (Z.to_nat crf) by lia.
  reflexivity.
Qed.

Lemma canonical_axis_index_bad {S T : Type} (x : Tensor.t T) (axis : Z) :
  ~ (- Tensor.ndim x <= axis < Tensor.ndim x) ->
  exists msg, forall s : S, Tensor.canonical_axis_index x axis s = (Fatal msg, s).
Proof.
  intros Hbad. unfold Tensor.canonical_axis_index, bind, CAFFE_ENFORCE.
  destruct (Z.leb_spec (- Tensor.ndim x) axis) as [H1 | H1].
  - destruct (Z.ltb_spec axis (Tensor.ndim x)) as [H2 | H2]; [lia |].
    eexists. intros s. reflexivity.
  - eexists. intros s. reflexivity.
Qed.

(** A loop of masked writes, run again on its own result, changes
    nothing: whatever the schedule and the index map. *)
Section MaskIdempotent.

Import Hip.

Context {A : Type} (junk : A).

Lemma run_last_writer (ind : Z -> Z) (val : Z -> A) sched : forall out,
  let r := run (fun i o => store o (ind i) (val i)) sched out in
  length r = length out /\
  forall q, 0 <= q < Z.of_nat (length out) ->
    load junk r q
    = match find (fun i => ind i =? q) (rev sched) with
      | Some i => val i
      | None => load junk out q
      end.
Proof.
  induction sched as [| x l IH] using rev_ind; intros out; cbv zeta.
  - split; [reflexivity |]. intros q Hq. reflexivity.
  - assert (run (fun i o => store o (ind i) (val i)) (l ++ [x]) out
            = store (run (fun i o => store o (ind i) (val i)) l out) (ind x) (val x)) as ->
      by (rewrite run_app; reflexivity).
    destruct (IH out) as [Hlen Hcells]. split.
    + rewrite store_length. exact Hlen.
    + intros q Hq. rewrite rev_app_distr. cbn [rev app find].
      destruct (Z.eqb_spec (ind x) q) as [-> | Hne].
      * apply load_store_same. rewrite Hlen. exact Hq.
      * rewrite load_store_other by exact Hne. apply Hcells. exact Hq.
Qed.

Lemma mask_kernel_idem (ind : Z -> Z) (cond : Z -> bool) (fill : A) (inp : list A)
    sched out :
  let body inp := fun index out =>
    store out (ind index) (if cond index then fill else load junk inp (ind index)) in
  let r1 := run (body inp) sched out in
  run (body r1) sched r1 = r1.
Proof.
  intros body r1.
  destruct (run_last_writer ind
              (fun i => if cond i then fill else load junk inp (ind i)) sched out)
    as [Hlen1 Hc1].
  destruct (run_last_writer ind
              (fun i => if cond i then fill else load junk r1 (ind i)) sched r1)
    as [Hlen2 Hc2].
  fold (body inp) in Hlen1, Hc1. fold r1 in Hlen1, Hc1.
  fold (body r1) in Hlen2, Hc2.
  apply (list_eq_load junk); [exact Hlen2 |].
  intros q Hq. rewrite Hlen2 in Hq.
  rewrite Hc2 by exact Hq.
  rewrite Hlen1 in Hq. specialize (Hc1 q Hq).
  destruct (find (fun i => ind i =? q) (rev sched)) as [i |] eqn:Ef; [| reflexivity].
  apply find_some in Ef as [_ Ei]. apply Z.eqb_eq in Ei.
  rewrite Ei. destruct (cond i); [| reflexivity].
  symmetry. exact Hc1.
Qed.

End MaskIdempotent.

Section SequenceMaskModesFacts.

Import Hip SequenceMask SequenceMaskModes.

Context {T F : Type} (junk : T) (zeroF : F) (convert : F -> T).

(** The loop bodies of the mask kernels, without and with a batch. *)
Let plain_body (mode : string) (radius M : Z) (aux : list Z) (fill : T)
    (inp : list T) (index : Z) (out : list T) : list T :=
  store out index
    (if masked mode radius aux (Z.quot index M) (Z.rem index M)
     then fill else load junk inp index).

Let batch_body (mode : string) (radius N M : Z) (aux : list Z) (fill : T)
    (inp : list T) (index : Z) (out : list T) : list T :=
  store out (batch_ind N M index)
    (if masked mode radius aux (batch_j N M index) (batch_k M index)
     then fill else load junk inp (batch_ind N M index)).

Let repeat_body (M D : Z) (aux : list Z) (fill : T)
    (inp : list T) (index : Z) (out : list T) : list T :=
  store out index
    (if load 0 aux (Z.quot index (D * M)) <=? Z.rem (Z.quot index D) M
     then fill else load junk inp index).

Ltac mode_cases a :=
  let E := fresh "E" in
  destruct (String.eqb (mode_ a) "sequence") eqn:E;
  [| clear E; destruct (String.eqb (mode_ a) "window") eqn:E;
     [| clear E; destruct (String.eqb (mode_ a) "upper") eqn:E;
        [| clear E; destruct (String.eqb (mode_ a) "lower") eqn:E;
           [| clear E; destruct (String.eqb (mode_ a) "upperdiag") eqn:E;
              [| clear E; destruct (String.eqb (mode_ a) "lowerdiag") eqn:E ]]]]].

(** Without a batch (and without [repeat_from_axis] in sequence mode) and
    with a valid axis, the operator resizes the output and launches the
    kernel of its mode over [left * right] cells. *)
Lemma mask_fwd_plain cfg (a : @Args F) input input1 c :
  supported_mode (mode_ a) = true ->
  batch_ a = None ->
  (String.eqb (mode_ a) "sequence" = true -> repeat_from_ a = None) ->
  - Tensor.ndim input <= axis_ a < Tensor.ndim input ->
  let ca := if axis_ a <? 0 then axis_ a + Tensor.ndim input else axis_ a in
  let N := Tensor.size_to_dim input ca in
  let M := Tensor.size_from_dim input ca in
  let grid := CAFFE_GET_BLOCKS cfg (N * M) in
  exists name,
    DoRunWithType junk zeroF convert cfg a input input1 c
    = (Ok true,
       mkCtx
         (Tensor.mk (Tensor.dims input)
            (run (plain_body (mode_ a) (radius_ a) M (Tensor.data input1)
                    (effective_fill zeroF convert a) (Tensor.data input))
                 (HIP_1D_KERNEL_LOOP grid (CAFFE_HIP_NUM_THREADS cfg) (N * M))
                 (Tensor.data (Tensor.Resize junk (Tensor.dims input) (outs c)))))
         (launches c ++ [mkLaunch name grid (CAFFE_HIP_NUM_THREADS cfg)])).
Proof.
  intros Hsup Hbatch Hrep Haxis ca N M grid.
  unfold DoRunWithType. rewrite Hbatch.
  erewrite bind_ok by reflexivity.
  erewrite bind_ok by (apply canonical_axis_index_ok; exact Haxis).
  erewrite bind_ok by reflexivity.
  change (0 <=? -1) with false. cbv iota.
  erewrite bind_ok by reflexivity.
  fold ca. fold N. fold M. fold grid.
  unfold supported_mode in Hsup. unfold plain_body, masked, effective_fill.
  mode_cases a.
  - rewrite (Hrep eq_refl). erewrite bind_ok by reflexivity.
    eexists. unfold sequenceMaskKernel. reflexivity.
  - erewrite bind_ok by reflexivity. eexists. unfold windowMaskKernel. reflexivity.
  - erewrite bind_ok by reflexivity. eexists. unfold upperMaskKernel. reflexivity.
  - erewrite bind_ok by reflexivity. eexists. unfold lowerMaskKernel. reflexivity.
  - erewrite bind_ok by reflexivity. eexists. unfold upperDiagMaskKernel. reflexivity.
  - erewrite bind_ok by reflexivity. eexists. unfold lowerDiagMaskKernel. reflexivity.
  - simpl in Hsup. discriminate Hsup.
Qed.

(** With a batch axis before the masked axis the kernel runs over all
    [batch_dim * left * right] cells. *)
Lemma mask_fwd_batch cfg (a : @Args F) input input1 c b :
  supported_mode (mode_ a) = true ->
  batch_ a = Some b ->
  (String.eqb (mode_ a) "sequence" = true -> repeat_from_ a = None) ->
  Forall (fun d => 0 <= d) (Tensor.dims input) ->
  - Tensor.ndim input <= axis_ a < Tensor.ndim input ->
  - Tensor.ndim input <= b < Tensor.ndim input ->
  let ca := if axis_ a <? 0 then axis_ a + Tensor.ndim input else axis_ a in
  let cb := if b <? 0 then b + Tensor.ndim input else b in
  cb < ca ->
  let N := Tensor.size_between_dim input cb ca in
  let M := Tensor.size_from_dim input ca in
  let B := Tensor.size_to_dim input cb * Tensor.dim input cb in
  let grid := CAFFE_GET_BLOCKS cfg (N * M) in
  exists name,
    DoRunWithType junk zeroF convert cfg a input input1 c
    = (Ok true,
       mkCtx
         (Tensor.mk (Tensor.dims input)
            (run (batch_body (mode_ a) (radius_ a) N M (Tensor.data input1)
                    (effective_fill zeroF convert a) (Tensor.data input))
                 (HIP_1D_KERNEL_LOOP grid (CAFFE_HIP_NUM_THREADS cfg) (B * N * M))
                 (Tensor.data (Tensor.Resize junk (Tensor.dims input) (outs c)))))
         (launches c ++ [mkLaunch name grid (CAFFE_HIP_NUM_THREADS cfg)])).
Proof.
  intros Hsup Hbatch Hrep Hdims Haxis Hb ca cb Hlt N M B grid.
  unfold DoRunWithType. rewrite Hbatch.
  erewrite bind_ok by reflexivity.
  erewrite bind_ok by (apply canonical_axis_index_ok; exact Haxis).
  erewrite bind_ok by (apply canonical_axis_index_ok; exact Hb).
  fold ca. fold cb.
  assert (0 <= cb) as Hcb.
  { unfold cb. destruct (Z.ltb_spec b 0); lia. }
  assert (0 <= B) as HB.
  { unfold B, Tensor.dim. apply Z.mul_nonneg_nonneg.
    - apply size_to_dim_nonneg. exact Hdims.
    - destruct (nth_in_or_default (Z.to_nat cb) (Tensor.dims input) 0) as [Hin | ->];
        [| lia].
      rewrite List.Forall_forall in Hdims. apply Hdims. exact Hin. }
  destruct (Z.leb_spec 0 cb) as [_ | ?]; [| lia].
  erewrite bind_ok by (apply enforce_true, Z.ltb_lt; exact Hlt).
  fold N. fold M. fold B. fold grid.
  unfold supported_mode in Hsup. unfold batch_body, masked, effective_fill.
  mode_cases a.
  - rewrite (Hrep eq_refl). erewrite bind_ok by reflexivity.
    eexists. unfold sequenceMaskKernel.
    destruct (Z.leb_spec 0 B) as [_ | ?]; [reflexivity | lia].
  - erewrite bind_ok by reflexivity. eexists. unfold windowMaskKernel.
    destruct (Z.leb_spec 0 B) as [_ | ?]; [reflexivity | lia].
  - erewrite bind_ok by reflexivity. eexists. unfold upperMaskKernel.
    destruct (Z.leb_spec 0 B) as [_ | ?]; [reflexivity | lia].
  - erewrite bind_ok by reflexivity. eexists. unfold lowerMaskKernel.
    destruct (Z.leb_spec 0 B) as [_ | ?]; [reflexivity | lia].
  - erewrite bind_ok by reflexivity. eexists. unfold upperDiagMaskKernel.
    destruct (Z.leb_spec 0 B) as [_ | ?]; [reflexivity | lia].
  - erewrite bind_ok by reflexivity. eexists. unfold lowerDiagMaskKernel.
    destruct (Z.leb_spec 0 B) as [_ | ?]; [reflexivity | lia].
  - simpl in Hsup. discriminate Hsup.
Qed.

(** Sequence mode with [repeat_from_axis] (and no batch). *)
Lemma mask_fwd_repeat cfg (a : @Args F) input input1 c rf :
  mode_ a = "sequence"%string ->
  batch_ a = None ->
  repeat_from_ a = Some rf ->
  - Tensor.ndim input <= axis_ a < Tensor.ndim input ->
  - Tensor.ndim input <= rf < Tensor.ndim input ->
  let ca := if axis_ a <? 0 then axis_ a + Tensor.ndim input else axis_ a in
  let crf := if rf <? 0 then rf + Tensor.ndim input else rf in
  let N := Tensor.size_to_dim input ca in
  let right := Tensor.size_from_dim input ca in
  let D := Tensor.size_from_dim input crf in
  let M := Z.quot right D in
  let grid := CAFFE_GET_BLOCKS cfg (N * right) in
  DoRunWithType junk zeroF convert cfg a input input1 c
  = (Ok true,
     mkCtx
       (Tensor.mk (Tensor.dims input)
          (run (repeat_body M D (Tensor.data input1)
                  (effective_fill zeroF convert a) (Tensor.data input))
               (HIP_1D_KERNEL_LOOP grid (CAFFE_HIP_NUM_THREADS cfg) (N * M * D))
               (Tensor.data (Tensor.Resize junk (Tensor.dims input) (outs c)))))
       (launches c ++
        [mkLaunch "repeatedSequenceMaskKernel" grid (CAFFE_HIP_NUM_THREADS cfg)])).
Proof.
  intros Hmode Hbatch Hrep Haxis Hrf ca crf N right D M grid.
  unfold DoRunWithType. rewrite Hbatch, Hmode, Hrep.
  erewrite bind_ok by reflexivity.
  erewrite bind_ok by (apply canonical_axis_index_ok; exact Haxis).
  erewrite bind_ok by reflexivity.
  change (0 <=? -1) with false. cbv iota.
  erewrite bind_ok by reflexivity.
  change (String.eqb "sequence" "sequence") with true. cbv iota.
  erewrite bind_ok; [reflexivity |].
  erewrite bind_ok by (apply canonical_axis_index_ok; exact Hrf).
  reflexivity.
Qed.

(** What a mask kernel leaves in the cells, when its schedule visits each
    index below [n] once and [ind] is the identity there. *)
Lemma mask_kernel_cells (ind : Z -> Z) (cond : Z -> bool) (fill : T) (inp : list T)
    sched n out :
  Permutation sched (zrange n) ->
  (forall i, 0 <= i < n -> ind i = i) ->
  let r := run (fun index out =>
                  store out (ind index)
                    (if cond index then fill else load junk inp (ind index)))
               sched out in
  length r = length out /\
  forall p, 0 <= p < Z.of_nat (length out) ->
    load junk r p
    = if p <? n then (if cond p then fill else load junk inp p) else load junk out p.
Proof.
  intros Hperm Hind r.
  assert (r = run (fun i b => store b i ((fun i (_ : T) =>
                     if cond i then fill else load junk inp i) i (load junk b i)))
                  sched out) as ->.
  { unfold r. apply run_ext_in. intros i s Hi.
    rewrite Hind; [reflexivity |].
    apply in_zrange. eapply Permutation_in; [exact Hperm | exact Hi]. }
  exact (run_update_spec junk
           (fun i (_ : T) => if cond i then fill else load junk inp i)
           sched n out Hperm).
Qed.

Lemma mask_cells_plain cfg (a : @Args F) input input1 c :
  config_ok cfg ->
  supported_mode (mode_ a) = true ->
  batch_ a = None ->
  (String.eqb (mode_ a) "sequence" = true -> repeat_from_ a = None) ->
  Forall (fun d => 0 <= d) (Tensor.dims input) ->
  - Tensor.ndim input <= axis_ a < Tensor.ndim input ->
  let ca := if axis_ a <? 0 then axis_ a + Tensor.ndim input else axis_ a in
  let N := Tensor.size_to_dim input ca in
  let M := Tensor.size_from_dim input ca in
  exists c',
    DoRunWithType junk zeroF convert cfg a input input1 c = (Ok true, c') /\
    Tensor.dims (outs c') = Tensor.dims input /\
    Z.of_nat (length (Tensor.data (outs c'))) = Tensor.size input /\
    forall i j, 0 <= i < N -> 0 <= j < M ->
      load junk (Tensor.data (outs c')) (i * M + j)
      = if masked (mode_ a) (radius_ a) (Tensor.data input1) i j
        then effective_fill zeroF convert a
        else load junk (Tensor.data input) (i * M + j).
Proof.
  intros Hcfg Hsup Hbatch Hrep Hdims Haxis ca N M.
  destruct (mask_fwd_plain cfg a input input1 c Hsup Hbatch Hrep Haxis) as [name E].
  fold ca N M in E. eexists. split; [exact E |].
  cbn [outs Tensor.dims Tensor.data].
  assert (0 <= Tensor.size input) as Hsz by (apply prod_dims_nonneg; exact Hdims).
  assert (Tensor.size input = N * M) as HNM by apply size_split.
  destruct (mask_kernel_cells (fun i => i)
              (fun index => masked (mode_ a) (radius_ a) (Tensor.data input1)
                              (Z.quot index M) (Z.rem index M))
              (effective_fill zeroF convert a) (Tensor.data input)
              (HIP_1D_KERNEL_LOOP (CAFFE_GET_BLOCKS cfg (N * M))
                 (CAFFE_HIP_NUM_THREADS cfg) (N * M))
              (N * M)
              (Tensor.data (Tensor.Resize junk (Tensor.dims input) (outs c))))
    as [Hlen Hcells].
  { apply launch_perm; [exact Hcfg |]. destruct Hcfg as (_ & _ & Hg). apply Hg. }
  { reflexivity. }
  rewrite Resize_length in Hlen, Hcells.
  split; [reflexivity |]. split.
  - unfold plain_body. rewrite Hlen. unfold Tensor.size in *. lia.
  - intros i j Hi Hj. unfold plain_body.
    rewrite Hcells by (unfold Tensor.size in *; nia).
    destruct (Z.ltb_spec (i * M + j) (N * M)) as [_ | ?]; [| nia].
    destruct (quot_rem_row i j M) as [-> ->]; [lia | lia |]. reflexivity.
Qed.

Lemma mask_cells_batch cfg (a : @Args F) input input1 c b :
  config_ok cfg ->
  supported_mode (mode_ a) = true ->
  batch_ a = Some b ->
  (String.eqb (mode_ a) "sequence" = true -> repeat_from_ a = None) ->
  Forall (fun d => 0 <= d) (Tensor.dims input) ->
  - Tensor.ndim input <= axis_ a < Tensor.ndim input ->
  - Tensor.ndim input <= b < Tensor.ndim input ->
  let ca := if axis_ a <? 0 then axis_ a + Tensor.ndim input else axis_ a in
  let cb := if b <? 0 then b + Tensor.ndim input else b in
  cb < ca ->
  let N := Tensor.size_between_dim input cb ca in
  let M := Tensor.size_from_dim input ca in
  let B := Tensor.size_to_dim input cb * Tensor.dim input cb in
  exists c',
    DoRunWithType junk zeroF convert cfg a input input1 c = (Ok true, c') /\
    Tensor.dims (outs c') = Tensor.dims input /\
    Z.of_nat (length (Tensor.data (outs c'))) = Tensor.size input /\
    Tensor.size input = B * N * M /\
    forall i j k, 0 <= i < B -> 0 <= j < N -> 0 <= k < M ->
      load junk (Tensor.data (outs c')) ((i * N + j) * M + k)
      = if masked (mode_ a) (radius_ a) (Tensor.data input1) j k
        then effective_fill zeroF convert a
        else load junk (Tensor.data input) ((i * N + j) * M + k).
Proof.
  intros Hcfg Hsup Hbatch Hrep Hdims Haxis Hb ca cb Hlt N M B.
  destruct (mask_fwd_batch cfg a input input1 c b Hsup Hbatch Hrep Hdims Haxis Hb Hlt)
    as [name E].
  fold ca cb N M B in E. eexists. split; [exact E |].
  cbn [outs Tensor.dims Tensor.data].
  assert (0 <= cb) as Hcb by (unfold cb; destruct (Z.ltb_spec b 0); lia).
  assert (ca < Tensor.ndim input) as Hca by (unfold ca; destruct (Z.ltb_spec (axis_ a) 0); lia).
  assert (0 <= Tensor.size input) as Hsz by (apply prod_dims_nonneg; exact Hdims).
  assert (Tensor.size input = B * N * M) as HNM.
  { unfold B, N, M. apply size_batch_split; lia. }
  assert (0 <= N) as HN.
  { unfold N, Tensor.size_between_dim. apply prod_dims_nonneg.
    apply Forall_take, Forall_drop. exact Hdims. }
  assert (0 <= M) as HM by (apply size_from_dim_nonneg; exact Hdims).
  assert (0 <= B) as HB.
  { unfold B, Tensor.dim. apply Z.mul_nonneg_nonneg.
    - apply size_to_dim_nonneg. exact Hdims.
    - destruct (nth_in_or_default (Z.to_nat cb) (Tensor.dims input) 0) as [Hin | ->];
        [| lia].
      rewrite List.Forall_forall in Hdims. apply Hdims. exact Hin. }
  destruct (mask_kernel_cells (batch_ind N M)
              (fun index => masked (mode_ a) (radius_ a) (Tensor.data input1)
                              (batch_j N M index) (batch_k M index))
              (effective_fill zeroF convert a) (Tensor.data input)
              (HIP_1D_KERNEL_LOOP (CAFFE_GET_BLOCKS cfg (N * M))
                 (CAFFE_HIP_NUM_THREADS cfg) (B * N * M))
              (B * N * M)
              (Tensor.data (Tensor.Resize junk (Tensor.dims input) (outs c))))
    as [Hlen Hcells].
  { apply launch_perm; [exact Hcfg |]. destruct Hcfg as (_ & _ & Hg).
    intros Hpos.
    assert (N <> 0) by (intros E0; rewrite E0 in Hpos; lia).
    assert (M <> 0) by (intros E0; rewrite E0 in Hpos; lia).
    apply Hg. nia. }
  { intros i Hi.
    assert (N <> 0) by (intros E0; rewrite E0 in Hi; lia).
    assert (M <> 0) by (intros E0; rewrite E0 in Hi; lia).
    apply batch_ind_id; lia. }
  rewrite Resize_length in Hlen, Hcells.
  split; [reflexivity |]. split; [| split; [exact HNM |]].
  - unfold batch_body. rewrite Hlen. unfold Tensor.size in *. lia.
  - intros i j k Hi Hj Hk. unfold batch_body.
    assert (0 <= i * N + j /\ i * N + j + 1 <= B * N) as [Hr0 Hr1] by nia.
    assert (0 <= (i * N + j) * M + k < B * N * M) as Hp by nia.
    rewrite Hcells by (unfold Tensor.size in *; lia).
    destruct (Z.ltb_spec ((i * N + j) * M + k) (B * N * M)) as [_ | ?]; [| lia].
    destruct (batch_cell N M i j k) as [-> ->]; [lia | lia | lia |]. reflexivity.
Qed.

Lemma mask_cells_repeat cfg (a : @Args F) input input1 c rf :
  config_ok cfg ->
  mode_ a = "sequence"%string ->
  batch_ a = None ->
  repeat_from_ a = Some rf ->
  Forall (fun d => 0 <= d) (Tensor.dims input) ->
  - Tensor.ndim input <= axis_ a < Tensor.ndim input ->
  - Tensor.ndim input <= rf < Tensor.ndim input ->
  let ca := if axis_ a <? 0 then axis_ a + Tensor.ndim input else axis_ a in
  let crf := if rf <? 0 then rf + Tensor.ndim input else rf in
  ca <= crf ->
  let N := Tensor.size_to_dim input ca in
  let D := Tensor.size_from_dim input crf in
  let M := Z.quot (Tensor.size_from_dim input ca) D in
  0 < D ->
  exists c',
    DoRunWithType junk zeroF convert cfg a input input1 c = (Ok true, c') /\
    Tensor.dims (outs c') = Tensor.dims input /\
    Z.of_nat (length (Tensor.data (outs c'))) = Tensor.size input /\
    Tensor.size input = N * M * D /\
    forall i j d, 0 <= i < N -> 0 <= j < M -> 0 <= d < D ->
      load junk (Tensor.data (outs c')) ((i * M + j) * D + d)
      = if j <? load 0 (Tensor.data input1) i
        then load junk (Tensor.data input) ((i * M + j) * D + d)
        else effective_fill zeroF convert a.
Proof.
  intros Hcfg Hmode Hbatch Hrep Hdims Haxis Hrf ca crf Hle N D M HD.
  pose proof (mask_fwd_repeat cfg a input input1 c rf Hmode Hbatch Hrep Haxis Hrf) as E.
  cbv zeta in E. fold ca crf N D M in E.
  eexists. split; [exact E |].
  cbn [outs Tensor.dims Tensor.data].
  assert (0 <= ca) as Hca by (unfold ca; destruct (Z.ltb_spec (axis_ a) 0); lia).
  assert (0 <= Tensor.size input) as Hsz by (apply prod_dims_nonneg; exact Hdims).
  assert (Tensor.size_from_dim input ca = M * D) as Hright.
  { unfold M. rewrite (size_from_dim_split input ca crf) by lia.
    fold D. rewrite Z.quot_mul by lia. reflexivity. }
  assert (Tensor.size input = N * M * D) as HNM.
  { rewrite (size_split input ca). fold N. rewrite Hright. ring. }
  assert (0 <= M) as HM.
  { assert (0 <= Tensor.size_from_dim input ca)
      by (apply size_from_dim_nonneg; exact Hdims).
    nia. }
  assert (0 <= N) as HN by (apply size_to_dim_nonneg; exact Hdims).
  destruct (mask_kernel_cells (fun i => i)
              (fun index =>
                 load 0 (Tensor.data input1) (Z.quot index (D * M))
                 <=? Z.rem (Z.quot index D) M)
              (effective_fill zeroF convert a) (Tensor.data input)
              (HIP_1D_KERNEL_LOOP
                 (CAFFE_GET_BLOCKS cfg (N * Tensor.size_from_dim input ca))
                 (CAFFE_HIP_NUM_THREADS cfg) (N * M * D))
              (N * M * D)
              (Tensor.data (Tensor.Resize junk (Tensor.dims input) (outs c))))
    as [Hlen Hcells].
  { apply launch_perm; [exact Hcfg |]. destruct Hcfg as (_ & _ & Hg).
    intros Hpos. apply Hg. rewrite Hright. lia. }
  { reflexivity. }
  rewrite Resize_length in Hlen, Hcells.
  split; [reflexivity |]. split; [| split; [exact HNM |]].
  - unfold repeat_body. rewrite Hlen. unfold Tensor.size in *. lia.
  - intros i j d Hi Hj Hd. unfold repeat_body.
    assert (0 <= i * M + j /\ i * M + j + 1 <= N * M) as [Hr0 Hr1] by nia.
    assert (0 <= (i * M + j) * D + d < N * M * D) as Hp by nia.
    rewrite Hcells by (unfold Tensor.size in *; lia).
    destruct (Z.ltb_spec ((i * M + j) * D + d) (N * M * D)) as [_ | ?]; [| lia].
    destruct (quot_rem_row (i * M + j) d D) as [Eq _]; [lia | lia |].
    rewrite Eq.
    destruct (quot_rem_row i j M) as [_ Er]; [lia | lia |].
    rewrite Er.
    replace ((i * M + j) * D + d) with (i * (D * M) + (j * D + d)) at 1 by ring.
    destruct (quot_rem_row i (j * D + d) (D * M)) as [Eq2 _]; [lia | nia |].
    rewrite Eq2.
    destruct (Z.leb_spec (load 0 (Tensor.data input1) i) j),
             (Z.ltb_spec j (load 0 (Tensor.data input1) i)); try reflexivity; lia.
Qed.

(** Sequence mode with [repeat_from_axis] and a batch: the kernel still
    runs over [left * masked_dims * repeated_dims] cells only. *)
Lemma mask_fwd_repeat_batch cfg (a : @Args F) input input1 c rf b :
  mode_ a = "sequence"%string ->
  batch_ a = Some b ->
  repeat_from_ a = Some rf ->
  - Tensor.ndim input <= axis_ a < Tensor.ndim input ->
  - Tensor.ndim input <= b < Tensor.ndim input ->
  - Tensor.ndim input <= rf < Tensor.ndim input ->
  let ca := if axis_ a <? 0 then axis_ a + Tensor.ndim input else axis_ a in
  let cb := if b <? 0 then b + Tensor.ndim input else b in
  let crf := if rf <? 0 then rf + Tensor.ndim input else rf in
  cb < ca ->
  let N := Tensor.size_between_dim input cb ca in
  let right := Tensor.size_from_dim input ca in
  let D := Tensor.size_from_dim input crf in
  let M := Z.quot right D in
  let grid := CAFFE_GET_BLOCKS cfg (N * right) in
  DoRunWithType junk zeroF convert cfg a input input1 c
  = (Ok true,
     mkCtx
       (Tensor.mk (Tensor.dims input)
          (run (repeat_body M D (Tensor.data input1)
                  (effective_fill zeroF convert a) (Tensor.data input))
               (HIP_1D_KERNEL_LOOP grid (CAFFE_HIP_NUM_THREADS cfg) (N * M * D))
               (Tensor.data (Tensor.Resize junk (Tensor.dims input) (outs c)))))
       (launches c ++
        [mkLaunch "repeatedSequenceMaskKernel" grid (CAFFE_HIP_NUM_THREADS cfg)])).
Proof.
  intros Hmode Hbatch Hrep Haxis Hb Hrf ca cb crf Hlt N right D M grid.
  unfold DoRunWithType. rewrite Hbatch, Hmode, Hrep.
  erewrite bind_ok by reflexivity.
  erewrite bind_ok by (apply canonical_axis_index_ok; exact Haxis).
  erewrite bind_ok by (apply canonical_axis_index_ok; exact Hb).
  fold ca. fold cb.
  assert (0 <= cb) as Hcb.
  { unfold cb. destruct (Z.ltb_spec b 0); lia. }
  destruct (Z.leb_spec 0 cb) as [_ | ?]; [| lia].
  erewrite bind_ok by (apply enforce_true, Z.ltb_lt; exact Hlt).
  change (String.eqb "sequence" "sequence") with true. cbv iota.
  erewrite bind_ok; [reflexivity |].
  erewrite bind_ok by (apply canonical_axis_index_ok; exact Hrf).
  reflexivity.
Qed.

Ltac form_done E :=
  cbv zeta in E;
  cbv [plain_body batch_body repeat_body Tensor.size_from_dim Tensor.size_to_dim
       Tensor.size_between_dim Tensor.dim Tensor.ndim] in E;
  cbn [Tensor.dims Tensor.data] in E;
  exact E.

(** The operator reads the input tensor's contents in the kernel only:
    for given arguments and a given input shape it either fails on every
    input of that shape, or runs one loop of masked writes whose schedule,
    index map and test do not depend on the contents. *)
Lemma mask_run_form cfg (a : @Args F) (dims : list Z) (input1 : Tensor.t Z) :
  Forall (fun d => 0 <= d) dims ->
  (forall d c,
     is_fatal (fst (DoRunWithType junk zeroF convert cfg a (Tensor.mk dims d) input1 c))
     = true) \/
  (exists (ind : Z -> Z) (cond : Z -> bool) (sched : list Z),
     forall d c, exists l,
       DoRunWithType junk zeroF convert cfg a (Tensor.mk dims d) input1 c
       = (Ok true,
          mkCtx
            (Tensor.mk dims
               (run (fun index out =>
                       store out (ind index)
                         (if cond index then effective_fill zeroF convert a
                          else load junk d (ind index)))
                    sched
                    (Tensor.data (Tensor.Resize junk dims (outs c)))))
            (launches c ++ [l]))).
Proof.
  intros Hdims.
  set (nd := Z.of_nat (length dims)).
  assert (forall d : list T, Tensor.ndim (Tensor.mk dims d) = nd) as Hnd by reflexivity.
  destruct (decide (- nd <= axis_ a < nd)) as [Haxis | Haxis].
  2: { left. intros d c.
       destruct (canonical_axis_index_bad (S := Ctx (Tensor.t T)) (Tensor.mk dims d)
                   (axis_ a) Haxis) as [msg Hm].
       unfold DoRunWithType. erewrite bind_ok by reflexivity.
       erewrite bind_fatal by apply Hm. reflexivity. }
  destruct (supported_mode (mode_ a)) eqn:Hsup.
  2: { left. intros d c. apply unsupported_mode_fatal. exact Hsup. }
  destruct (batch_ a) as [b |] eqn:Hbatch.
  - destruct (decide (- nd <= b < nd)) as [Hb | Hb].
    2: { left. intros d c.
         destruct (canonical_axis_index_bad (S := Ctx (Tensor.t T)) (Tensor.mk dims d)
                     b Hb) as [msg Hm].
         unfold DoRunWithType. rewrite Hbatch. erewrite bind_ok by reflexivity.
         erewrite bind_ok by (apply canonical_axis_index_ok; exact Haxis).
         erewrite bind_fatal by apply Hm. reflexivity. }
    set (ca := if axis_ a <? 0 then axis_ a + nd else axis_ a).
    set (cb := if b <? 0 then b + nd else b).
    assert (0 <= cb) as Hcb by (unfold cb; destruct (Z.ltb_spec b 0); lia).
    destruct (decide (cb < ca)) as [Hlt | Hlt].
    2: { left. intros d c.
         unfold DoRunWithType. rewrite Hbatch. erewrite bind_ok by reflexivity.
         erewrite bind_ok by (apply canonical_axis_index_ok; exact Haxis).
         erewrite bind_ok by (apply canonical_axis_index_ok; exact Hb).
         rewrite !Hnd. fold ca cb.
         destruct (Z.leb_spec 0 cb) as [_ | ?]; [| lia].
         unfold CAFFE_ENFORCE at 1.
         destruct (Z.ltb_spec cb ca) as [? | _]; [lia |]. reflexivity. }
    destruct (String.eqb (mode_ a) "sequence") eqn:Hseq.
    + apply String.eqb_eq in Hseq.
      destruct (repeat_from_ a) as [rf |] eqn:Hrep.
      * destruct (decide (- nd <= rf < nd)) as [Hrf | Hrf].
        2: { left. intros d c.
             destruct (canonical_axis_index_bad (S := Ctx (Tensor.t T))
                         (Tensor.mk dims d) rf Hrf) as [msg Hm].
             unfold DoRunWithType. rewrite Hbatch, Hseq, Hrep.
             erewrite bind_ok by reflexivity.
             erewrite bind_ok by (apply canonical_axis_index_ok; exact Haxis).
             erewrite bind_ok by (apply canonical_axis_index_ok; exact Hb).
             rewrite !Hnd. fold ca cb.
             destruct (Z.leb_spec 0 cb) as [_ | ?]; [| lia].
             erewrite bind_ok by (apply enforce_true, Z.ltb_lt; exact Hlt).
             change (String.eqb "sequence" "sequence") with true. cbv iota.
             erewrite bind_fatal; [reflexivity |].
             erewrite bind_fatal by apply Hm. reflexivity. }
        right. do 3 eexists. intros d c. eexists.
        pose proof (mask_fwd_repeat_batch cfg a (Tensor.mk dims d) input1 c rf b
                      Hseq Hbatch Hrep Haxis Hb Hrf Hlt) as E.
        form_done E.
      * right. do 3 eexists. intros d c.
        destruct (mask_fwd_batch cfg a (Tensor.mk dims d) input1 c b Hsup Hbatch
                    (fun _ => Hrep) Hdims Haxis Hb Hlt) as [name E].
        eexists. form_done E.
    + right. do 3 eexists. intros d c.
      destruct (mask_fwd_batch cfg a (Tensor.mk dims d) input1 c b Hsup Hbatch
                  (fun H => False_ind _ (eq_true_false_abs _ H Hseq))
                  Hdims Haxis Hb Hlt) as [name E].
      eexists. form_done E.
  - destruct (String.eqb (mode_ a) "sequence") eqn:Hseq.
    + apply String.eqb_eq in Hseq.
      destruct (repeat_from_ a) as [rf |] eqn:Hrep.
      * destruct (decide (- nd <= rf < nd)) as [Hrf | Hrf].
        2: { left. intros d c.
             destruct (canonical_axis_index_bad (S := Ctx (Tensor.t T))
                         (Tensor.mk dims d) rf Hrf) as [msg Hm].
             unfold DoRunWithType. rewrite Hbatch, Hseq, Hrep.
             erewrite bind_ok by reflexivity.
             erewrite bind_ok by (apply canonical_axis_index_ok; exact Haxis).
             erewrite bind_ok by reflexivity.
             change (0 <=? -1) with false. cbv iota.
             erewrite bind_ok by reflexivity.
             change (String.eqb "sequence" "sequence") with true. cbv iota.
             erewrite bind_fatal; [reflexivity |].
             erewrite bind_fatal by apply Hm. reflexivity. }
        right. do 3 eexists. intros d c. eexists.
        pose proof (mask_fwd_repeat cfg a (Tensor.mk dims d) input1 c rf
                      Hseq Hbatch Hrep Haxis Hrf) as E.
        form_done E.
      * right. do 3 eexists. intros d c.
        destruct (mask_fwd_plain cfg a (Tensor.mk dims d) input1 c Hsup Hbatch
                    (fun _ => Hrep) Haxis) as [name E].
        eexists. form_done E.
    + right. do 3 eexists. intros d c.
      destruct (mask_fwd_plain cfg a (Tensor.mk dims d) input1 c Hsup Hbatch
                  (fun H => False_ind _ (eq_true_false_abs _ H Hseq)) Haxis) as [name E].
      eexists. form_done E.
Qed.

Lemma mask_run_idem cfg (a : @Args F) input input1 c c1 :
  Forall (fun d => 0 <= d) (Tensor.dims input) ->
  DoRunWithType junk zeroF convert cfg a input input1 c = (Ok true, c1) ->
  Tensor.dims (outs c1) = Tensor.dims input /\
  exists l,
    DoRunWithType junk zeroF convert cfg a (outs c1) input1 c1
    = (Ok true, mkCtx (outs c1) (launches c1 ++ [l])).
Proof.
  destruct input as [dims d]. cbn [Tensor.dims]. intros Hdims E.
  destruct (mask_run_form cfg a dims input1 Hdims) as [Hf | (ind & cond & sched & Hform)].
  { specialize (Hf d c). rewrite E in Hf. discriminate Hf. }
  destruct (Hform d c) as [l E1]. rewrite E in E1. inversion E1; subst c1; clear E1.
  cbn [outs Tensor.dims]. split; [reflexivity |].
  match goal with
  | |- context [Tensor.mk dims ?r] => set (r1 := r)
  end.
  destruct (Hform r1 (mkCtx (Tensor.mk dims r1) (launches c ++ [l]))) as [l2 E2].
  exists l2. rewrite E2. cbn [outs launches].
  assert (Tensor.data (Tensor.Resize junk dims (Tensor.mk dims r1)) = r1) as ->.
  { unfold Tensor.Resize. cbn [Tensor.data].
    assert (length r1 = Z.to_nat (Tensor.prod_dims dims)) as <-.
    { unfold r1.
      destruct (run_last_writer junk ind
                  (fun i => if cond i then effective_fill zeroF convert a
                            else load junk d (ind i))
                  sched (Tensor.data (Tensor.Resize junk dims (outs c)))) as [Hlen _].
      etransitivity; [exact Hlen | apply Resize_length]. }
    apply resize_all. }
  f_equal. f_equal. f_equal.
  exact (mask_kernel_idem junk ind cond (effective_fill zeroF convert a) d sched
           (Tensor.data (Tensor.Resize junk dims (outs c)))).
Qed.

(** The checks on the axis and on the batch come after [ResizeLike]. *)
Lemma mask_run_bad_axis cfg (a : @Args F) input input1 c :
  ~ (- Tensor.ndim input <= axis_ a < Tensor.ndim input) ->
  exists msg,
    DoRunWithType junk zeroF convert cfg a input input1 c
    = (Fatal msg, mkCtx (Tensor.Resize junk (Tensor.dims input) (outs c)) (launches c)).
Proof.
  intros Hbad.
  destruct (canonical_axis_index_bad (S := Ctx (Tensor.t T)) input (axis_ a) Hbad)
    as [msg Hm].
  exists msg. unfold DoRunWithType. erewrite bind_ok by reflexivity.
  erewrite bind_fatal by apply Hm. reflexivity.
Qed.

Lemma mask_run_bad_batch cfg (a : @Args F) input input1 c b :
  - Tensor.ndim input <= axis_ a < Tensor.ndim input ->
  batch_ a = Some b ->
  let ca := if axis_ a <? 0 then axis_ a + Tensor.ndim input else axis_ a in
  let cb := if b <? 0 then b + Tensor.ndim input else b in
  ~ (- Tensor.ndim input <= b < Tensor.ndim input) \/ ca <= cb ->
  exists msg,
    DoRunWithType junk zeroF convert cfg a input input1 c
    = (Fatal msg, mkCtx (Tensor.Resize junk (Tensor.dims input) (outs c)) (launches c)).
Proof.
  intros Haxis Hbatch ca cb Hbad.
  unfold DoRunWithType. rewrite Hbatch. erewrite bind_ok by reflexivity.
  erewrite bind_ok by (apply canonical_axis_index_ok; exact Haxis).
  destruct (decide (- Tensor.ndim input <= b < Tensor.ndim input)) as [Hb | Hb].
  - destruct Hbad as [Hbad | Hge]; [contradiction |].
    erewrite bind_ok by (apply canonical_axis_index_ok; exact Hb).
    fold ca cb.
    assert (0 <= cb) as Hcb by (unfold cb; destruct (Z.ltb_spec b 0); lia).
    destruct (Z.leb_spec 0 cb) as [_ | ?]; [| lia].
    eexists. erewrite bind_fatal; [reflexivity |].
    unfold CAFFE_ENFORCE. destruct (Z.ltb_spec cb ca) as [? | _]; [lia |]. reflexivity.
  - destruct (canonical_axis_index_bad (S := Ctx (Tensor.t T)) input b Hb) as [msg Hm].
    exists msg. erewrite bind_fatal by apply Hm. reflexivity.
Qed.

End SequenceMaskModesFacts.

(** X1.  Window mode, no batch: seen as an N x M matrix around the axis,
    the output keeps the input cell [(i, j)] when [j] lies within
    [radius] of the window center of row [i], that is
    [centers[i] - radius <= j <= centers[i] + radius], and holds the fill
    value elsewhere. *)
Theorem sequence_mask_window_mode {T F : Type} (junk : T) (zeroF : F)
    (convert : F -> T) (cfg : Hip.Config) (a : @SequenceMask.Args F)
    (input : Tensor.t T) (window_centers : Tensor.t Z) (c : Hip.Ctx (Tensor.t T)) :
  Hip.config_ok cfg ->
  SequenceMask.mode_ a = "window"%string ->
  SequenceMask.batch_ a = None ->
  Forall (fun d => 0 <= d) (Tensor.dims input) ->
  - Tensor.ndim input <= SequenceMask.axis_ a < Tensor.ndim input ->
  let canonical_axis :=
    if SequenceMask.axis_ a <? 0
    then SequenceMask.axis_ a + Tensor.ndim input else SequenceMask.axis_ a in
  let N := Tensor.size_to_dim input canonical_axis in
  let M := Tensor.size_from_dim input canonical_axis in
  exists c',
    SequenceMask.DoRunWithType junk zeroF convert cfg a input window_centers c
    = (Ok true, c') /\
    Tensor.dims (Hip.outs c') = Tensor.dims input /\
    Z.of_nat (length (Tensor.data (Hip.outs c'))) = Tensor.size input /\
    forall i j, 0 <= i < N -> 0 <= j < M ->
      let center := load 0 (Tensor.data window_centers) i in
      load junk (Tensor.data (Hip.outs c')) (i * M + j)
      = if (center - SequenceMask.radius_ a <=? j) && (j <=? center + SequenceMask.radius_ a)
        then load junk (Tensor.data input) (i * M + j)
        else SequenceMask.effective_fill zeroF convert a.
Proof.
  intros Hcfg Hmode Hbatch Hdims Haxis ca N M.
  destruct (mask_cells_plain junk zeroF convert cfg a input window_centers c Hcfg)
    as (c' & E & Hd & Hlen & Hcells); try assumption.
  { rewrite Hmode. reflexivity. }
  { rewrite Hmode. discriminate. }
  exists c'. split; [exact E |]. split; [exact Hd |]. split; [exact Hlen |].
  intros i j Hi Hj center.
  etransitivity; [exact (Hcells i j Hi Hj) |].
  unfold SequenceMaskModes.masked. rewrite Hmode. cbn [String.eqb Ascii.eqb Bool.eqb].
  fold center.
  destruct (Z.ltb_spec j (center - SequenceMask.radius_ a)),
           (Z.ltb_spec (center + SequenceMask.radius_ a) j),
           (Z.leb_spec (center - SequenceMask.radius_ a) j),
           (Z.leb_spec j (center + SequenceMask.radius_ a)); try reflexivity; lia.
Qed.

(** X2.  The triangle modes, no batch: seen as an N x M matrix around the
    axis, the output holds the fill value in the cells [(i, j)] with
    [j > i] (upper), [j < i] (lower), [j >= i] (upperdiag), [j <= i]
    (lowerdiag), and the input cell elsewhere. *)
Theorem sequence_mask_triangle_modes {T F : Type} (junk : T) (zeroF : F)
    (convert : F -> T) (cfg : Hip.Config) (a : @SequenceMask.Args F)
    (input : Tensor.t T) (input1 : Tensor.t Z) (c : Hip.Ctx (Tensor.t T)) :
  Hip.config_ok cfg ->
  SequenceMask.mode_ a = "upper"%string \/ SequenceMask.mode_ a = "lower"%string \/
  SequenceMask.mode_ a = "upperdiag"%string \/ SequenceMask.mode_ a = "lowerdiag"%string ->
  SequenceMask.batch_ a = None ->
  Forall (fun d => 0 <= d) (Tensor.dims input) ->
  - Tensor.ndim input <= SequenceMask.axis_ a < Tensor.ndim input ->
  let canonical_axis :=
    if SequenceMask.axis_ a <? 0
    then SequenceMask.axis_ a + Tensor.ndim input else SequenceMask.axis_ a in
  let N := Tensor.size_to_dim input canonical_axis in
  let M := Tensor.size_from_dim input canonical_axis in
  exists c',
    SequenceMask.DoRunWithType junk zeroF convert cfg a input input1 c = (Ok true, c') /\
    Tensor.dims (Hip.outs c') = Tensor.dims input /\
    Z.of_nat (length (Tensor.data (Hip.outs c'))) = Tensor.size input /\
    forall i j, 0 <= i < N -> 0 <= j < M ->
      let out := load junk (Tensor.data (Hip.outs c')) (i * M + j) in
      let inp := load junk (Tensor.data input) (i * M + j) in
      let fill := SequenceMask.effective_fill zeroF convert a in
      (SequenceMask.mode_ a = "upper"%string -> out = if i <? j then fill else inp) /\
      (SequenceMask.mode_ a = "lower"%string -> out = if j <? i then fill else inp) /\
      (SequenceMask.mode_ a = "upperdiag"%string -> out = if i <=? j then fill else inp) /\
      (SequenceMask.mode_ a = "lowerdiag"%string -> out = if j <=? i then fill else inp).
Proof.
  intros Hcfg Hmode Hbatch Hdims Haxis ca N M.
  destruct (mask_cells_plain junk zeroF convert cfg a input input1 c Hcfg)
    as (c' & E & Hd & Hlen & Hcells); try assumption.
  { destruct Hmode as [-> | [-> | [-> | ->]]]; reflexivity. }
  { destruct Hmode as [-> | [-> | [-> | ->]]]; discriminate. }
  exists c'. split; [exact E |]. split; [exact Hd |]. split; [exact Hlen |].
  intros i j Hi Hj out inp fill.
  assert (out = if SequenceMaskModes.masked (SequenceMask.mode_ a) (SequenceMask.radius_ a)
                     (Tensor.data input1) i j then fill else inp) as ->
    by exact (Hcells i j Hi Hj).
  unfold SequenceMaskModes.masked.
  repeat split; intros Hm; rewrite Hm; reflexivity.
Qed.

(** X3.  With a batch axis before the masked axis the input is cut into
    [B] slices of [N] rows and [M] columns ([B] the product of the
    dimensions up to and including the batch axis, [N] of those between
    batch and axis, [M] of those from the axis on), and the mask of the
    mode is applied to every slice: cell [(j, k)] of slice [i] is the fill
    value when the mode's test holds for row [j] and column [k].  The
    sequence lengths and window centers are indexed by the row within the
    slice, the same for all slices. *)
Theorem sequence_mask_batched {T F : Type} (junk : T) (zeroF : F)
    (convert : F -> T) (cfg : Hip.Config) (a : @SequenceMask.Args F)
    (input : Tensor.t T) (input1 : Tensor.t Z) (c : Hip.Ctx (Tensor.t T)) (b : Z) :
  Hip.config_ok cfg ->
  SequenceMask.supported_mode (SequenceMask.mode_ a) = true ->
  SequenceMask.batch_ a = Some b ->
  SequenceMask.repeat_from_ a = None ->
  Forall (fun d => 0 <= d) (Tensor.dims input) ->
  - Tensor.ndim input <= SequenceMask.axis_ a < Tensor.ndim input ->
  - Tensor.ndim input <= b < Tensor.ndim input ->
  let canonical_axis :=
    if SequenceMask.axis_ a <? 0
    then SequenceMask.axis_ a + Tensor.ndim input else SequenceMask.axis_ a in
  let canonical_batch := if b <? 0 then b + Tensor.ndim input else b in
  canonical_batch < canonical_axis ->
  let B := Tensor.size_to_dim input canonical_batch * Tensor.dim input canonical_batch in
  let N := Tensor.size_between_dim input canonical_batch canonical_axis in
  let M := Tensor.size_from_dim input canonical_axis in
  exists c',
    SequenceMask.DoRunWithType junk zeroF convert cfg a input input1 c = (Ok true, c') /\
    Tensor.dims (Hip.outs c') = Tensor.dims input /\
    Tensor.size input = B * N * M /\
    forall i j k, 0 <= i < B -> 0 <= j < N -> 0 <= k < M ->
      load junk (Tensor.data (Hip.outs c')) ((i * N + j) * M + k)
      = if SequenceMaskModes.masked (SequenceMask.mode_ a) (SequenceMask.radius_ a)
             (Tensor.data input1) j k
        then SequenceMask.effective_fill zeroF convert a
        else load junk (Tensor.data input) ((i * N + j) * M + k).
Proof.
  intros Hcfg Hsup Hbatch Hrep Hdims Haxis Hb ca cb Hlt B N M.
  destruct (mask_cells_batch junk zeroF convert cfg a input input1 c b Hcfg Hsup Hbatch
              (fun _ => Hrep) Hdims Haxis Hb Hlt)
    as (c' & E & Hd & Hlen & Hsz & Hcells).
  exists c'. split; [exact E |]. split; [exact Hd |]. split; [exact Hsz |].
  exact Hcells.
Qed.

(** X4.  Sequence mode with [repeat_from_axis] at or after the masked
    axis, on a tensor with [D > 0] elements from that axis on: the input
    is seen as [N] rows of [M] groups of [D] elements, and group [j] of
    row [i] is kept when [j < seq_lengths[i]] and filled otherwise, all
    [D] elements alike. *)
Theorem sequence_mask_repeat_from_axis {T F : Type} (junk : T) (zeroF : F)
    (convert : F -> T) (cfg : Hip.Config) (a : @SequenceMask.Args F)
    (input : Tensor.t T) (seq_lengths : Tensor.t Z) (c : Hip.Ctx (Tensor.t T)) (rf : Z) :
  Hip.config_ok cfg ->
  SequenceMask.mode_ a = "sequence"%string ->
  SequenceMask.batch_ a = None ->
  SequenceMask.repeat_from_ a = Some rf ->
  Forall (fun d => 0 <= d) (Tensor.dims input) ->
  - Tensor.ndim input <= SequenceMask.axis_ a < Tensor.ndim input ->
  - Tensor.ndim input <= rf < Tensor.ndim input ->
  let canonical_axis :=
    if SequenceMask.axis_ a <? 0
    then SequenceMask.axis_ a + Tensor.ndim input else SequenceMask.axis_ a in
  let canonical_repeat_from := if rf <? 0 then rf + Tensor.ndim input else rf in
  canonical_axis <= canonical_repeat_from ->
  let N := Tensor.size_to_dim input canonical_axis in
  let D := Tensor.size_from_dim input canonical_repeat_from in
  let M := Z.quot (Tensor.size_from_dim input canonical_axis) D in
  0 < D ->
  exists c',
    SequenceMask.DoRunWithType junk zeroF convert cfg a input seq_lengths c
    = (Ok true, c') /\
    Tensor.dims (Hip.outs c') = Tensor.dims input /\
    Tensor.size input = N * M * D /\
    forall i j d, 0 <= i < N -> 0 <= j < M -> 0 <= d < D ->
      load junk (Tensor.data (Hip.outs c')) ((i * M + j) * D + d)
      = if j <? load 0 (Tensor.data seq_lengths) i
        then load junk (Tensor.data input) ((i * M + j) * D + d)
        else SequenceMask.effective_fill zeroF convert a.
Proof.
  intros Hcfg Hmode Hbatch Hrep Hdims Haxis Hrf ca crf Hle N D M HD.
  destruct (mask_cells_repeat junk zeroF convert cfg a input seq_lengths c rf
              Hcfg Hmode Hbatch Hrep Hdims Haxis Hrf Hle HD)
    as (c' & E & Hd & Hlen & Hsz & Hcells).
  exists c'. split; [exact E |]. split; [exact Hd |]. split; [exact Hsz |].
  exact Hcells.
Qed.

(** X5.  An axis outside [-ndim, ndim), a batch axis outside that range,
    or a batch axis that is not before the masked axis, stops the
    operator with a fatal check; no kernel is launched, but the output
    has by then been resized to the input's shape. *)
Theorem sequence_mask_rejects_bad_axes {T F : Type} (junk : T) (zeroF : F)
    (convert : F -> T) (cfg : Hip.Config) (a : @SequenceMask.Args F)
    (input : Tensor.t T) (input1 : Tensor.t Z) (c : Hip.Ctx (Tensor.t T)) :
  let ndim := Tensor.ndim input in
  let canonical (x : Z) := if x <? 0 then x + ndim else x in
  ~ (- ndim <= SequenceMask.axis_ a < ndim) \/
  (exists b, SequenceMask.batch_ a = Some b /\
             (~ (- ndim <= b < ndim) \/ canonical (SequenceMask.axis_ a) <= canonical b)) ->
  exists msg,
    SequenceMask.DoRunWithType junk zeroF convert cfg a input input1 c
    = (Fatal msg,
       Hip.mkCtx (Tensor.Resize junk (Tensor.dims input) (Hip.outs c)) (Hip.launches c)).
Proof.
  intros ndim canonical Hbad.
  destruct (decide (- ndim <= SequenceMask.axis_ a < ndim)) as [Haxis | Haxis].
  - destruct Hbad as [Hbad | (b & Hbatch & Hb)]; [contradiction |].
    exact (mask_run_bad_batch junk zeroF convert cfg a input input1 c b Haxis Hbatch Hb).
  - exact (mask_run_bad_axis junk zeroF convert cfg a input input1 c Haxis).
Qed.

(** X6.  Masking is idempotent: when a run of the operator succeeds, a
    second run with the same arguments on the output of the first
    succeeds as well and leaves that output as it is, in every mode, with
    or without batch and [repeat_from_axis]. *)
Theorem sequence_mask_idempotent {T F : Type} (junk : T) (zeroF : F)
    (convert : F -> T) (cfg : Hip.Config) (a : @SequenceMask.Args F)
    (input : Tensor.t T) (input1 : Tensor.t Z) (c c1 : Hip.Ctx (Tensor.t T)) :
  Forall (fun d => 0 <= d) (Tensor.dims input) ->
  SequenceMask.DoRunWithType junk zeroF convert cfg a input input1 c = (Ok true, c1) ->
  exists c2,
    SequenceMask.DoRunWithType junk zeroF convert cfg a (Hip.outs c1) input1 c1
    = (Ok true, c2) /\
    Hip.outs c2 = Hip.outs c1.
Proof.
  intros Hdims E.
  destruct (mask_run_idem junk zeroF convert cfg a input input1 c c1 Hdims E)
    as (_ & l & E2).
  eexists. split; [exact E2 |]. reflexivity.
Qed.

Lemma sequence_mask_window_witness :
  exists c',
    SequenceMask.DoRunWithType 0 0 (fun f : Z => f) Hip.default_config
      (SequenceMask.mkArgs "window" 1 None None 1 false 99)
      (Tensor.mk [2; 3] [1; 2; 3; 4; 5; 6]) (Tensor.mk [2] [0; 2])
      (Hip.mkCtx (Tensor.mk [0] []) [])
    = (Ok true, c') /\
    load 0 (Tensor.data (Hip.outs c')) 2 = 99 /\
    load 0 (Tensor.data (Hip.outs c')) 4 = 5.
Proof.
  destruct (sequence_mask_window_mode 0 0 (fun f : Z => f) Hip.default_config
              (SequenceMask.mkArgs "window" 1 None None 1 false 99)
              (Tensor.mk [2; 3] [1; 2; 3; 4; 5; 6]) (Tensor.mk [2] [0; 2])
              (Hip.mkCtx (Tensor.mk [0] []) []))
    as (c' & E & _ & _ & Hcells).
  - exact default_config_ok.
  - reflexivity.
  - reflexivity.
  - repeat constructor; lia.
  - dims_lia.
  - exists c'. split; [exact E |]. split.
    + exact (Hcells 0 2 ltac:(dims_lia) ltac:(dims_lia)).
    + exact (Hcells 1 1 ltac:(dims_lia) ltac:(dims_lia)).
Defined.

Lemma sequence_mask_triangle_witness :
  exists c',
    SequenceMask.DoRunWithType 0 0 (fun f : Z => f) Hip.default_config
      (SequenceMask.mkArgs "lowerdiag" 1 None None 0 false 99)
      (Tensor.mk [2; 3] [1; 2; 3; 4; 5; 6]) (Tensor.mk [0] [])
      (Hip.mkCtx (Tensor.mk [0] []) [])
    = (Ok true, c') /\
    load 0 (Tensor.data (Hip.outs c')) 4 = 99 /\
    load 0 (Tensor.data (Hip.outs c')) 5 = 6.
Proof.
  destruct (sequence_mask_triangle_modes 0 0 (fun f : Z => f) Hip.default_config
              (SequenceMask.mkArgs "lowerdiag" 1 None None 0 false 99)
              (Tensor.mk [2; 3] [1; 2; 3; 4; 5; 6]) (Tensor.mk [0] [])
              (Hip.mkCtx (Tensor.mk [0] []) []))
    as (c' & E & _ & _ & Hcells).
  - exact default_config_ok.
  - right. right. right. reflexivity.
  - reflexivity.
  - repeat constructor; lia.
  - dims_lia.
  - exists c'. split; [exact E |]. split.
    + exact (proj2 (proj2 (proj2 (Hcells 1 1 ltac:(dims_lia) ltac:(dims_lia)))) eq_refl).
    + exact (proj2 (proj2 (proj2 (Hcells 1 2 ltac:(dims_lia) ltac:(dims_lia)))) eq_refl).
Defined.

Lemma sequence_mask_batched_witness :
  exists c',
    SequenceMask.DoRunWithType 0 0 (fun f : Z => f) Hip.default_config
      (SequenceMask.mkArgs "upper" 2 (Some 0) None 0 false 99)
      (Tensor.mk [2; 2; 2] [1; 2; 3; 4; 5; 6; 7; 8]) (Tensor.mk [0] [])
      (Hip.mkCtx (Tensor.mk [0] []) [])
    = (Ok true, c') /\
    load 0 (Tensor.data (Hip.outs c')) 5 = 99 /\
    load 0 (Tensor.data (Hip.outs c')) 7 = 8.
Proof.
  destruct (sequence_mask_batched 0 0 (fun f : Z => f) Hip.default_config
              (SequenceMask.mkArgs "upper" 2 (Some 0) None 0 false 99)
              (Tensor.mk [2; 2; 2] [1; 2; 3; 4; 5; 6; 7; 8]) (Tensor.mk [0] [])
              (Hip.mkCtx (Tensor.mk [0] []) []) 0)
    as (c' & E & _ & _ & Hcells).
  - exact default_config_ok.
  - reflexivity.
  - reflexivity.
  - reflexivity.
  - repeat constructor; lia.
  - dims_lia.
  - dims_lia.
  - dims_lia.
  - exists c'. split; [exact E |]. split.
    + exact (Hcells 1 0 1 ltac:(dims_lia) ltac:(dims_lia) ltac:(dims_lia)).
    + exact (Hcells 1 1 1 ltac:(dims_lia) ltac:(dims_lia) ltac:(dims_lia)).
Defined.

Lemma sequence_mask_repeat_witness :
  exists c',
    SequenceMask.DoRunWithType 0 0 (fun f : Z => f) Hip.default_config
      (SequenceMask.mkArgs "sequence" 1 None (Some 2) 0 false 99)
      (Tensor.mk [1; 2; 2] [11; 12; 13; 14]) (Tensor.mk [1] [1])
      (Hip.mkCtx (Tensor.mk [0] []) [])
    = (Ok true, c') /\
    load 0 (Tensor.data (Hip.outs c')) 1 = 12 /\
    load 0 (Tensor.data (Hip.outs c')) 2 = 99.
Proof.
  destruct (sequence_mask_repeat_from_axis 0 0 (fun f : Z => f) Hip.default_config
              (SequenceMask.mkArgs "sequence" 1 None (Some 2) 0 false 99)
              (Tensor.mk [1; 2; 2] [11; 12; 13; 14]) (Tensor.mk [1] [1])
              (Hip.mkCtx (Tensor.mk [0] []) []) 2)
    as (c' & E & _ & _ & Hcells).
  - exact default_config_ok.
  - reflexivity.
  - reflexivity.
  - reflexivity.
  - repeat constructor; lia.
  - dims_lia.
  - dims_lia.
  - dims_lia.
  - dims_lia.
  - exists c'. split; [exact E |]. split.
    + exact (Hcells 0 0 1 ltac:(dims_lia) ltac:(dims_lia) ltac:(dims_lia)).
    + exact (Hcells 0 1 0 ltac:(dims_lia) ltac:(dims_lia) ltac:(dims_lia)).
Defined.

Lemma sequence_mask_bad_axes_witness :
  exists msg,
    SequenceMask.DoRunWithType 0 0 (fun f : Z => f) Hip.default_config
      (SequenceMask.mkArgs "upper" 1 (Some 1) None 0 false 99)
      (Tensor.mk [2; 2] [1; 2; 3; 4]) (Tensor.mk [0] [])
      (Hip.mkCtx (Tensor.mk [0] []) [])
    = (Fatal msg, Hip.mkCtx (Tensor.mk [2; 2] [0; 0; 0; 0]) []).
Proof.
  apply (sequence_mask_rejects_bad_axes 0 0 (fun f : Z => f) Hip.default_config
           (SequenceMask.mkArgs "upper" 1 (Some 1) None 0 false 99)
           (Tensor.mk [2; 2] [1; 2; 3; 4]) (Tensor.mk [0] [])
           (Hip.mkCtx (Tensor.mk [0] []) [])).
  right. exists 1. split; [reflexivity |]. right. dims_lia.
Defined.

Lemma sequence_mask_idempotent_witness :
  exists c2,
    SequenceMask.DoRunWithType 0 0 (fun f : Z => f) Hip.default_config
      (SequenceMask.mkArgs "upper" 1 None None 0 false 99)
      (Tensor.mk [2; 2] [1; 99; 3; 4]) (Tensor.mk [0] [])
      (Hip.mkCtx (Tensor.mk [2; 2] [1; 99; 3; 4])
         [Hip.mkLaunch "upperMaskKernel" 1 512])
    = (Ok true, c2) /\
    Hip.outs c2 = Tensor.mk [2; 2] [1; 99; 3; 4].
Proof.
  apply (sequence_mask_idempotent 0 0 (fun f : Z => f) Hip.default_config
           (SequenceMask.mkArgs "upper" 1 None None 0 false 99)
           (Tensor.mk [2; 2] [1; 2; 3; 4]) (Tensor.mk [0] [])
           (Hip.mkCtx (Tensor.mk [0] []) [])
           (Hip.mkCtx (Tensor.mk [2; 2] [1; 99; 3; 4])
              [Hip.mkLaunch "upperMaskKernel" 1 512])).
  - repeat constructor; lia.
  - vm_compute. reflexivity.
Defined.

(** * SequenceMask: the fill value of the gradient *)

(** C9.  The value written to the masked cells is 0 when [grad_] is set,
    whatever [fill_val] the operator was given, and the configured
    [fill_val] in the forward pass.  This holds in every mode and for
    every layout: without a batch axis, with a batch axis, and with
    [repeat_from_axis]; in each the operator returns [true], the cells for
    which the test of the mode holds contain [convert 0] (gradient) or
    [convert fill_val] (forward), and the other cells contain the input.
    A run in gradient mode does not depend on [fill_val] at all: it is the
    run of a forward pass that fills with 0, in every mode and layout. *)
Theorem sequence_mask_gradient_fill_is_zero {T F : Type} (junk : T) (zeroF : F)
    (convert : F -> T) (cfg : Hip.Config) (a : @SequenceMask.Args F)
    (input : Tensor.t T) (input1 : Tensor.t Z) (c : Hip.Ctx (Tensor.t T)) :
  Hip.config_ok cfg ->
  Forall (fun d => 0 <= d) (Tensor.dims input) ->
  - Tensor.ndim input <= SequenceMask.axis_ a < Tensor.ndim input ->
  let fill :=
    if SequenceMask.grad_ a then convert zeroF else convert (SequenceMask.fill_val_ a) in
  let canonical_axis :=
    if SequenceMask.axis_ a <? 0
    then SequenceMask.axis_ a + Tensor.ndim input else SequenceMask.axis_ a in
  (SequenceMask.grad_ a = true ->
   (forall f,
      SequenceMask.DoRunWithType junk zeroF convert cfg
        (SequenceMask.with_fill_val f a) input input1 c
      = SequenceMask.DoRunWithType junk zeroF convert cfg a input input1 c) /\
   SequenceMask.DoRunWithType junk zeroF convert cfg a input input1 c
   = SequenceMask.DoRunWithType junk zeroF convert cfg
       (SequenceMask.as_forward zeroF a) input input1 c) /\
  (SequenceMask.supported_mode (SequenceMask.mode_ a) = true ->
   SequenceMask.batch_ a = None ->
   (String.eqb (SequenceMask.mode_ a) "sequence" = true ->
    SequenceMask.repeat_from_ a = None) ->
   let N := Tensor.size_to_dim input canonical_axis in
   let M := Tensor.size_from_dim input canonical_axis in
   exists c',
     SequenceMask.DoRunWithType junk zeroF convert cfg a input input1 c = (Ok true, c') /\
     forall i j, 0 <= i < N -> 0 <= j < M ->
       load junk (Tensor.data (Hip.outs c')) (i * M + j)
       = if SequenceMaskModes.masked (SequenceMask.mode_ a) (SequenceMask.radius_ a)
              (Tensor.data input1) i j
         then fill
         else load junk (Tensor.data input) (i * M + j)) /\
  (forall b,
   SequenceMask.supported_mode (SequenceMask.mode_ a) = true ->
   SequenceMask.batch_ a = Some b ->
   (String.eqb (SequenceMask.mode_ a) "sequence" = true ->
    SequenceMask.repeat_from_ a = None) ->
   - Tensor.ndim input <= b < Tensor.ndim input ->
   let canonical_batch := if b <? 0 then b + Tensor.ndim input else b in
   canonical_batch < canonical_axis ->
   let B := Tensor.size_to_dim input canonical_batch * Tensor.dim input canonical_batch in
   let N := Tensor.size_between_dim input canonical_batch canonical_axis in
   let M := Tensor.size_from_dim input canonical_axis in
   exists c',
     SequenceMask.DoRunWithType junk zeroF convert cfg a input input1 c = (Ok true, c') /\
     forall i j k, 0 <= i < B -> 0 <= j < N -> 0 <= k < M ->
       load junk (Tensor.data (Hip.outs c')) ((i * N + j) * M + k)
       = if SequenceMaskModes.masked (SequenceMask.mode_ a) (SequenceMask.radius_ a)
              (Tensor.data input1) j k
         then fill
         else load junk (Tensor.data input) ((i * N + j) * M + k)) /\
  (forall rf,
   SequenceMask.mode_ a = "sequence"%string ->
   SequenceMask.batch_ a = None ->
   SequenceMask.repeat_from_ a = Some rf ->
   - Tensor.ndim input <= rf < Tensor.ndim input ->
   let canonical_repeat_from := if rf <? 0 then rf + Tensor.ndim input else rf in
   canonical_axis <= canonical_repeat_from ->
   let N := Tensor.size_to_dim input canonical_axis in
   let D := Tensor.size_from_dim input canonical_repeat_from in
   let M := Z.quot (Tensor.size_from_dim input canonical_axis) D in
   0 < D ->
   exists c',
     SequenceMask.DoRunWithType junk zeroF convert cfg a input input1 c = (Ok true, c') /\
     forall i j d, 0 <= i < N -> 0 <= j < M -> 0 <= d < D ->
       load junk (Tensor.data (Hip.outs c')) ((i * M + j) * D + d)
       = if j <? load 0 (Tensor.data input1) i
         then load junk (Tensor.data input) ((i * M + j) * D + d)
         else fill).
Proof.
  intros Hcfg Hdims Haxis fill ca.
  assert (SequenceMask.effective_fill zeroF convert a = fill) as Hfill
    by (unfold SequenceMask.effective_fill, fill; destruct (SequenceMask.grad_ a);
        reflexivity).
  split; [| split; [| split]].
  - intros Hgrad. split.
    + intros f. unfold SequenceMask.DoRunWithType, SequenceMask.with_fill_val.
      cbn [SequenceMask.mode_ SequenceMask.axis_ SequenceMask.batch_
           SequenceMask.repeat_from_ SequenceMask.radius_ SequenceMask.grad_
           SequenceMask.fill_val_].
      rewrite Hgrad. reflexivity.
    + unfold SequenceMask.DoRunWithType, SequenceMask.as_forward.
      cbn [SequenceMask.mode_ SequenceMask.axis_ SequenceMask.batch_
           SequenceMask.repeat_from_ SequenceMask.radius_ SequenceMask.grad_
           SequenceMask.fill_val_].
      rewrite Hgrad. reflexivity.
  - intros Hsup Hbatch Hrep N M.
    destruct (mask_cells_plain junk zeroF convert cfg a input input1 c Hcfg Hsup Hbatch
                Hrep Hdims Haxis) as (c' & E & _ & _ & Hcells).
    exists c'. split; [exact E |]. rewrite <- Hfill. exact Hcells.
  - intros b Hsup Hbatch Hrep Hb cb Hlt B N M.
    destruct (mask_cells_batch junk zeroF convert cfg a input input1 c b Hcfg Hsup Hbatch
                Hrep Hdims Haxis Hb Hlt) as (c' & E & _ & _ & _ & Hcells).
    exists c'. split; [exact E |]. rewrite <- Hfill. exact Hcells.
  - intros rf Hmode Hbatch Hrep Hrf crf Hle N D M HD.
    destruct (mask_cells_repeat junk zeroF convert cfg a input input1 c rf Hcfg Hmode
                Hbatch Hrep Hdims Haxis Hrf Hle HD) as (c' & E & _ & _ & _ & Hcells).
    exists c'. split; [exact E |]. rewrite <- Hfill. exact Hcells.
Qed.

(** A gradient run in "upper" mode with [fill_val = 99]: the cell above
    the diagonal becomes 0, the others keep the input. *)
Lemma sequence_mask_gradient_witness :
  exists c',
    SequenceMask.DoRunWithType 0 0 (fun f : Z => f) Hip.default_config
      (SequenceMask.mkArgs "upper" 1 None None 0 true 99)
      (Tensor.mk [2; 2] [1; 2; 3; 4]) (Tensor.mk [0] [])
      (Hip.mkCtx (Tensor.mk [0] []) [])
    = (Ok true, c') /\
    map (load 0 (Tensor.data (Hip.outs c'))) [0; 1; 2; 3] = [1; 0; 3; 4].
Proof.
  destruct (sequence_mask_gradient_fill_is_zero 0 0 (fun f : Z => f) Hip.default_config
              (SequenceMask.mkArgs "upper" 1 None None 0 true 99)
              (Tensor.mk [2; 2] [1; 2; 3; 4]) (Tensor.mk [0] [])
              (Hip.mkCtx (Tensor.mk [0] []) []))
    as (_ & Hplain & _).
  - exact default_config_ok.
  - repeat constructor; lia.
  - vm_compute. split; [discriminate | reflexivity].
  - destruct Hplain as (c' & E & Hcells); [reflexivity | reflexivity | discriminate |].
    exists c'. split; [exact E |].
    assert (forall i j : Z, (i = 0 \/ i = 1) -> (j = 0 \/ j = 1) -> 0 <= i < 2 /\ 0 <= j < 2)
      as Hrange by lia.
    pose proof (fun i j Hi Hj =>
                  Hcells i j (proj1 (Hrange i j Hi Hj)) (proj2 (Hrange i j Hi Hj)))
      as Hcell.
    exact (f_equal2 cons (Hcell 0 0 (or_introl eq_refl) (or_introl eq_refl))
             (f_equal2 cons (Hcell 0 1 (or_introl eq_refl) (or_intror eq_refl))
                (f_equal2 cons (Hcell 1 0 (or_intror eq_refl) (or_introl eq_refl))
                   (f_equal2 cons (Hcell 1 1 (or_intror eq_refl) (or_intror eq_refl))
                      eq_refl)))).
Defined.

(** * Sums of reals *)

Section RowSums.

Lemma fold_Rplus_acc (l : list R) (a : R) :
  fold_left Rplus l a = (a + fold_left Rplus l 0)%R.
Proof.
  revert a. induction l as [| x l IH]; intros a; simpl.
  - lra.
  - rewrite (IH (a + x)%R), (IH (0 + x)%R). lra.
Qed.

Lemma sum_ext_in {X : Type} (f g : X -> R) (l : list X) :
  (forall x, In x l -> f x = g x) ->
  fold_left Rplus (map f l) 0%R = fold_left Rplus (map g l) 0%R.
Proof.
  intros H. f_equal. apply map_ext_in. exact H.
Qed.

End RowSums.

(** * LayerNormGradient *)

Section LayerNormGradientFacts.

Import Hip LayerNormGradient.

Lemma math_Mul_spec n a b y :
  let r := math_Mul n a b y in
  length r = length y /\
  forall i, 0 <= i < n -> i < Z.of_nat (length y) ->
    load 0%R r i = (load 0%R a i * load 0%R b i)%R.
Proof.
  cbv zeta. unfold math_Mul.
  destruct (writes_zrange 0%R (fun i => (load 0%R a i * load 0%R b i)%R) n y)
    as [Hlen Hcells].
  split; [exact Hlen |]. intros i Hi Hi'. rewrite Hcells by lia.
  destruct (Z.ltb_spec i n); [reflexivity | lia].
Qed.

(** [math::Add] into its own first argument. *)
Lemma math_Add_spec n b y :
  let r := math_Add n y b y in
  length r = length y /\
  forall i, 0 <= i < n -> i < Z.of_nat (length y) ->
    load 0%R r i = (load 0%R y i + load 0%R b i)%R.
Proof.
  cbv zeta. unfold math_Add.
  destruct (writes_zrange 0%R (fun i => (load 0%R y i + load 0%R b i)%R) n y)
    as [Hlen Hcells].
  split; [exact Hlen |]. intros i Hi Hi'. rewrite Hcells by lia.
  destruct (Z.ltb_spec i n); [reflexivity | lia].
Qed.

Lemma zTimesXminusYbroadcast_spec gridDim blockDim N D x y z out :
  Permutation (HIP_1D_KERNEL_LOOP gridDim blockDim (N * D)) (zrange (N * D)) ->
  let r := zTimesXminusYbroadcast gridDim blockDim N D x y z out in
  length r = length out /\
  forall p, 0 <= p < N * D -> p < Z.of_nat (length out) ->
    load 0%R r p = ((load 0%R x p - load 0%R y (Z.quot p D)) * load 0%R z p)%R.
Proof.
  intros HP. cbv zeta. unfold zTimesXminusYbroadcast.
  destruct (run_update_spec 0%R
              (fun i (_ : R) =>
                 ((load 0%R x i - load 0%R y (Z.quot i D)) * load 0%R z i)%R)
              _ (N * D) out HP) as [Hlen Hcells].
  split; [exact Hlen |]. intros p Hp Hp'. rewrite Hcells by lia.
  destruct (Z.ltb_spec p (N * D)); [reflexivity | lia].
Qed.

(** [normalizeByNegStdev] in place: [x] and [out] are one buffer. *)
Lemma normalizeByNegStdev_spec gridDim blockDim N var stdev x :
  Permutation (HIP_1D_KERNEL_LOOP gridDim blockDim N) (zrange N) ->
  let r := normalizeByNegStdev gridDim blockDim N var x stdev x in
  length r = length x /\
  forall i, 0 <= i < N -> i < Z.of_nat (length x) ->
    load 0%R r i
    = if var
      then ((-1 * load 0%R x i) / (load 0%R stdev i * load 0%R stdev i))%R
      else ((-1 * load 0%R x i) / load 0%R stdev i)%R.
Proof.
  intros HP. cbv zeta. unfold normalizeByNegStdev. destruct var.
  - destruct (run_update_spec 0%R
                (fun i (_ : R) =>
                   ((-1 * load 0%R x i) / (load 0%R stdev i * load 0%R stdev i))%R)
                _ N x HP) as [Hlen Hcells].
    split; [exact Hlen |]. intros i Hi Hi'. rewrite Hcells by lia.
    destruct (Z.ltb_spec i N); [reflexivity | lia].
  - destruct (run_update_spec 0%R
                (fun i (_ : R) => ((-1 * load 0%R x i) / load 0%R stdev i)%R)
                _ N x HP) as [Hlen Hcells].
    split; [exact Hlen |]. intros i Hi Hi'. rewrite Hcells by lia.
    destruct (Z.ltb_spec i N); [reflexivity | lia].
Qed.

Lemma gradientMegaKernel_spec gridDim blockDim N D stdev X dstdev dmean dout out :
  Permutation (HIP_1D_KERNEL_LOOP gridDim blockDim (N * D)) (zrange (N * D)) ->
  let r := gradientMegaKernel gridDim blockDim N D stdev X dstdev dmean dout out in
  length r = length out /\
  forall p, 0 <= p < N * D -> p < Z.of_nat (length out) ->
    load 0%R r p
    = (1 / load 0%R stdev (Z.quot p D) * load 0%R dout p
       + load 0%R X p / (IZR D * load 0%R stdev (Z.quot p D))
         * load 0%R dstdev (Z.quot p D)
       + 1 / IZR D * load 0%R dmean (Z.quot p D))%R.
Proof.
  intros HP. cbv zeta. unfold gradientMegaKernel.
  destruct (run_update_spec 0%R
              (fun p (_ : R) =>
                 (1 / load 0%R stdev (Z.quot p D) * load 0%R dout p
                  + load 0%R X p / (IZR D * load 0%R stdev (Z.quot p D))
                    * load 0%R dstdev (Z.quot p D)
                  + 1 / IZR D * load 0%R dmean (Z.quot p D))%R)
              _ (N * D) out HP) as [Hlen Hcells].
  split; [exact Hlen |]. intros p Hp Hp'. rewrite Hcells by lia.
  destruct (Z.ltb_spec p (N * D)); [reflexivity | lia].
Qed.

Lemma LayerNormGradient_run cfg temp_storage_bytes axis_ dout means stdev X c :
  config_ok cfg -> Tensor.well_formed X ->
  - Tensor.ndim X <= axis_ < Tensor.ndim X ->
  let canonical_axis := if axis_ <? 0 then axis_ + Tensor.ndim X else axis_ in
  let left := Tensor.size_to_dim X canonical_axis in
  let right := Tensor.size_from_dim X canonical_axis in
  0 < right ->
  exists c',
    DoRunWithType cfg temp_storage_bytes axis_ dout means stdev X c = (Ok true, c') /\
    Tensor.dims (ginput (outs c')) = Tensor.dims X /\
    forall i, 0 <= i < left ->
      load 0%R (Tensor.data (dstdev_ (outs c'))) i
      = ((-1 * row_dot (Tensor.data X) (Tensor.data means) (Tensor.data dout) right i)
         / (load 0%R (Tensor.data stdev) i * load 0%R (Tensor.data stdev) i))%R /\
      load 0%R (Tensor.data (dmean_ (outs c'))) i
      = ((-1 * (LayerNorm.row_sum (Tensor.data dout) right i
                + load 0%R (Tensor.data means) i
                  * load 0%R (Tensor.data (dstdev_ (outs c'))) i))
         / load 0%R (Tensor.data stdev) i)%R /\
      forall j, 0 <= j < right ->
        load 0%R (Tensor.data (ginput (outs c'))) (i * right + j)
        = (1 / load 0%R (Tensor.data stdev) i * load 0%R (Tensor.data dout) (i * right + j)
           + load 0%R (Tensor.data X) (i * right + j)
             / (IZR right * load 0%R (Tensor.data stdev) i)
             * load 0%R (Tensor.data (dstdev_ (outs c'))) i
           + 1 / IZR right * load 0%R (Tensor.data (dmean_ (outs c'))) i)%R.
Proof.
  intros Hcfg [Hdims Hlen] Haxis ca left right Hright.
  assert (0 <= left) as Hleft by (apply size_to_dim_nonneg; exact Hdims).
  assert (Tensor.size X = left * right) as Hsize by apply size_split.
  set (stats_dims := take (Z.to_nat ca) (Tensor.dims X) ++ [1]).
  assert (Tensor.prod_dims stats_dims = left) as Hstats.
  { unfold stats_dims. rewrite prod_dims_app, prod_dims_single.
    unfold left, Tensor.size_to_dim. lia. }
  destruct c as [[gi0 dm0 ds0 gs0 si0 sc0] ls0].
  unfold DoRunWithType.
  erewrite bind_ok by (apply canonical_axis_index_ok; exact Haxis).
  fold ca. fold left. fold right. fold stats_dims.
  cbv [bind on_outs hipLaunchKernelGGL ret allocScratchAndReduce set_ginput set_dmean_
       set_dstdev_ set_gscratch_ set_seg_indices_ set_scratch_ outs launches ginput
       dmean_ dstdev_ gscratch_ seg_indices_ scratch_ LayerNorm.set_data].
  eexists. split; [reflexivity |].
  cbv [outs ginput dmean_ dstdev_].
  cbn [Tensor.dims Tensor.data].
  rewrite !Resize_dims.
  split; [reflexivity |].
  assert (Permutation
            (HIP_1D_KERNEL_LOOP (CAFFE_GET_BLOCKS cfg (left * right))
               (CAFFE_HIP_NUM_THREADS cfg) (left * right)) (zrange (left * right))) as HPz.
  { apply launch_perm; [exact Hcfg |]. destruct Hcfg as (_ & _ & Hg). apply Hg. }
  assert (Permutation
            (HIP_1D_KERNEL_LOOP (CAFFE_GET_BLOCKS cfg left) (CAFFE_HIP_NUM_THREADS cfg)
               (left * right)) (zrange (left * right))) as HPn.
  { apply launch_perm; [exact Hcfg |]. intros Hpos. destruct Hcfg as (_ & _ & Hg).
    apply Hg. nia. }
  assert (Permutation
            (HIP_1D_KERNEL_LOOP (CAFFE_GET_BLOCKS cfg left) (CAFFE_HIP_NUM_THREADS cfg)
               left) (zrange left)) as HPs.
  { apply launch_perm; [exact Hcfg |]. destruct Hcfg as (_ & _ & Hg). apply Hg. }
  set (segs := map (fun x => right * x) (zrange (left + 1))).
  set (g1 := zTimesXminusYbroadcast (CAFFE_GET_BLOCKS cfg (left * right))
               (CAFFE_HIP_NUM_THREADS cfg) left right (Tensor.data X) (Tensor.data means)
               (Tensor.data dout)
               (Tensor.data (Tensor.Resize 0%R [left; right] gs0))).
  set (ds1 := LayerNorm.DeviceSegmentedReduce_Sum g1
                (Tensor.data (Tensor.Resize 0%R [left; 1]
                                (Tensor.Resize 0%R stats_dims ds0)))
                left segs).
  set (ds2 := normalizeByNegStdev (CAFFE_GET_BLOCKS cfg left) (CAFFE_HIP_NUM_THREADS cfg)
                left true ds1 (Tensor.data stdev) ds1).
  set (dm1 := LayerNorm.DeviceSegmentedReduce_Sum (Tensor.data dout)
                (Tensor.data (Tensor.Resize 0%R stats_dims dm0)) left segs).
  set (gs2 := math_Mul left (Tensor.data means) ds2 g1).
  set (dm2 := math_Add left dm1 gs2 dm1).
  set (dm3 := normalizeByNegStdev (CAFFE_GET_BLOCKS cfg left) (CAFFE_HIP_NUM_THREADS cfg)
                left false dm2 (Tensor.data stdev) dm2).
  assert (Tensor.prod_dims [left; right] = left * right) as Hlr
    by (unfold Tensor.prod_dims; simpl; lia).
  assert (Tensor.prod_dims [left; 1] = left) as Hl1
    by (unfold Tensor.prod_dims; simpl; lia).
  assert (length g1 = Z.to_nat (left * right) /\
          forall i j, 0 <= i < left -> 0 <= j < right ->
            load 0%R g1 (i * right + j)
            = ((load 0%R (Tensor.data X) (i * right + j) - load 0%R (Tensor.data means) i)
               * load 0%R (Tensor.data dout) (i * right + j))%R) as [Hg1l Hg1].
  { destruct (zTimesXminusYbroadcast_spec (CAFFE_GET_BLOCKS cfg (left * right))
                (CAFFE_HIP_NUM_THREADS cfg) left right (Tensor.data X)
                (Tensor.data means) (Tensor.data dout)
                (Tensor.data (Tensor.Resize 0%R [left; right] gs0)) HPz)
      as [Hl Hc]. rewrite Resize_length, Hlr in Hl, Hc.
    split; [exact Hl |]. intros i j Hi Hj. unfold g1. rewrite Hc by nia.
    destruct (quot_rem_row i j right) as [-> _]; [lia | lia | reflexivity]. }
  assert (length ds1 = Z.to_nat left /\
          forall i, 0 <= i < left ->
            load 0%R ds1 i
            = row_dot (Tensor.data X) (Tensor.data means) (Tensor.data dout) right i)
    as [Hds1l Hds1].
  { destruct (DeviceSegmentedReduce_Sum_spec g1
                (Tensor.data (Tensor.Resize 0%R [left; 1]
                                (Tensor.Resize 0%R stats_dims ds0)))
                left segs) as [Hl Hc].
    rewrite Resize_length, Hl1 in Hl, Hc.
    split; [exact Hl |]. intros i Hi. unfold ds1. rewrite Hc by lia.
    unfold segs. rewrite !load_segs by lia.
    unfold LayerNorm.segment_sum, row_dot.
    replace (right * (i + 1) - right * i) with right by lia.
    apply sum_ext_in. intros j Hj. apply in_zrange in Hj.
    replace (right * i + j) with (i * right + j) by lia. apply Hg1; lia. }
  assert (length ds2 = Z.to_nat left /\
          forall i, 0 <= i < left ->
            load 0%R ds2 i
            = ((-1 * row_dot (Tensor.data X) (Tensor.data means) (Tensor.data dout) right i)
               / (load 0%R (Tensor.data stdev) i * load 0%R (Tensor.data stdev) i))%R)
    as [Hds2l Hds2].
  { destruct (normalizeByNegStdev_spec (CAFFE_GET_BLOCKS cfg left)
                (CAFFE_HIP_NUM_THREADS cfg) left true (Tensor.data stdev) ds1 HPs)
      as [Hl Hc]. rewrite Hds1l in Hl, Hc.
    split; [exact Hl |]. intros i Hi. unfold ds2. rewrite Hc by lia.
    rewrite Hds1 by lia. reflexivity. }
  assert (length dm1 = Z.to_nat left /\
          forall i, 0 <= i < left ->
            load 0%R dm1 i = LayerNorm.row_sum (Tensor.data dout) right i) as [Hdm1l Hdm1].
  { destruct (DeviceSegmentedReduce_Sum_spec (Tensor.data dout)
                (Tensor.data (Tensor.Resize 0%R stats_dims dm0)) left segs)
      as [Hl Hc]. rewrite Resize_length, Hstats in Hl, Hc.
    split; [exact Hl |]. intros i Hi. unfold dm1. rewrite Hc by lia.
    unfold segs. rewrite !load_segs by lia. apply segment_sum_row. }
  assert (forall i, 0 <= i < left ->
            load 0%R gs2 i = (load 0%R (Tensor.data means) i * load 0%R ds2 i)%R) as Hgs2.
  { destruct (math_Mul_spec left (Tensor.data means) ds2 g1) as [_ Hc].
    rewrite Hg1l in Hc. intros i Hi. apply Hc; nia. }
  assert (length dm2 = Z.to_nat left /\
          forall i, 0 <= i < left ->
            load 0%R dm2 i
            = (LayerNorm.row_sum (Tensor.data dout) right i
               + load 0%R (Tensor.data means) i * load 0%R ds2 i)%R) as [Hdm2l Hdm2].
  { destruct (math_Add_spec left gs2 dm1) as [Hl Hc]. rewrite Hdm1l in Hl, Hc.
    split; [exact Hl |]. intros i Hi. unfold dm2. rewrite Hc by lia.
    rewrite Hdm1, Hgs2 by lia. reflexivity. }
  assert (forall i, 0 <= i < left ->
            load 0%R dm3 i
            = ((-1 * (LayerNorm.row_sum (Tensor.data dout) right i
                      + load 0%R (Tensor.data means) i * load 0%R ds2 i))
               / load 0%R (Tensor.data stdev) i)%R) as Hdm3.
  { destruct (normalizeByNegStdev_spec (CAFFE_GET_BLOCKS cfg left)
                (CAFFE_HIP_NUM_THREADS cfg) left false (Tensor.data stdev) dm2 HPs)
      as [_ Hc]. rewrite Hdm2l in Hc.
    intros i Hi. unfold dm3. rewrite Hc by lia. rewrite Hdm2 by lia. reflexivity. }
  intros i Hi. split; [apply Hds2; exact Hi |]. split; [apply Hdm3; exact Hi |].
  intros j Hj.
  destruct (gradientMegaKernel_spec (CAFFE_GET_BLOCKS cfg left) (CAFFE_HIP_NUM_THREADS cfg)
              left right (Tensor.data stdev) (Tensor.data X) ds2 dm3 (Tensor.data dout)
              (Tensor.data (Tensor.Resize 0%R (Tensor.dims X) gi0)) HPn)
    as [_ Hc].
  rewrite Resize_length in Hc. unfold Tensor.size in Hsize.
  rewrite Hc by nia.
  destruct (quot_rem_row i j right) as [-> _]; [lia | lia | reflexivity].
Qed.

End LayerNormGradientFacts.

(** X8.  LayerNormGradient, for an input seen as [left] rows of
    [right > 0] elements around the canonical axis:
    [dstdev[i] = - (sum_j (X[i,j] - mean[i]) * dout[i,j]) / stdev[i]^2],
    [dmean[i] = - (sum_j dout[i,j] + mean[i] * dstdev[i]) / stdev[i]], and
    the output is
    [ginput[i,j] = dout[i,j] / stdev[i] + X[i,j] / (right * stdev[i]) * dstdev[i]
                   + dmean[i] / right].
    The operator makes no check on the rank of its inputs. *)
Theorem layer_norm_gradient_computes (cfg : Hip.Config) (temp_storage_bytes axis_ : Z)
    (dout means stdev X : Tensor.t R) (c : Hip.Ctx LayerNormGradient.Outputs) :
  Hip.config_ok cfg -> Tensor.well_formed X ->
  - Tensor.ndim X <= axis_ < Tensor.ndim X ->
  let canonical_axis := if axis_ <? 0 then axis_ + Tensor.ndim X else axis_ in
  let left := Tensor.size_to_dim X canonical_axis in
  let right := Tensor.size_from_dim X canonical_axis in
  0 < right ->
  exists c',
    LayerNormGradient.DoRunWithType cfg temp_storage_bytes axis_ dout means stdev X c
    = (Ok true, c') /\
    Tensor.dims (LayerNormGradient.ginput (Hip.outs c')) = Tensor.dims X /\
    forall i, 0 <= i < left ->
      let mean_i := load 0%R (Tensor.data means) i in
      let stdev_i := load 0%R (Tensor.data stdev) i in
      let dstdev_i := load 0%R (Tensor.data (LayerNormGradient.dstdev_ (Hip.outs c'))) i in
      let dmean_i := load 0%R (Tensor.data (LayerNormGradient.dmean_ (Hip.outs c'))) i in
      dstdev_i
      = (- LayerNormGradient.row_dot (Tensor.data X) (Tensor.data means) (Tensor.data dout)
             right i / (stdev_i * stdev_i))%R /\
      dmean_i
      = (- (LayerNorm.row_sum (Tensor.data dout) right i + mean_i * dstdev_i) / stdev_i)%R /\
      forall j, 0 <= j < right ->
        load 0%R (Tensor.data (LayerNormGradient.ginput (Hip.outs c'))) (i * right + j)
        = (load 0%R (Tensor.data dout) (i * right + j) / stdev_i
           + load 0%R (Tensor.data X) (i * right + j) / (IZR right * stdev_i) * dstdev_i
           + dmean_i / IZR right)%R.
Proof.
  intros Hcfg Hwf Haxis ca left right Hright.
  pose proof (LayerNormGradient_run cfg temp_storage_bytes axis_ dout means stdev X c
                Hcfg Hwf Haxis Hright) as Hrun.
  cbv zeta in Hrun. fold ca left right in Hrun.
  destruct Hrun as (c' & E & Hd & Hrows).
  exists c'. split; [exact E |]. split; [exact Hd |].
  intros i Hi mean_i stdev_i dstdev_i dmean_i.
  destruct (Hrows i Hi) as (Hds & Hdm & Hg).
  split; [| split].
  - unfold dstdev_i. rewrite Hds. fold stdev_i. unfold Rdiv. ring.
  - unfold dmean_i. rewrite Hdm. fold stdev_i mean_i dstdev_i. unfold Rdiv. ring.
  - intros j Hj. rewrite (Hg j Hj). fold stdev_i dstdev_i dmean_i. unfold Rdiv. ring.
Qed.

Lemma layer_norm_gradient_witness :
  exists c',
    LayerNormGradient.DoRunWithType Hip.default_config 16 1
      (Tensor.mk [1; 2] [1; 1]%R) (Tensor.mk [1; 1] [2]%R) (Tensor.mk [1; 1] [1]%R)
      (Tensor.mk [1; 2] [1; 3]%R)
      (Hip.mkCtx (LayerNormGradient.mkOutputs (Tensor.mk [0] []) (Tensor.mk [0] [])
                    (Tensor.mk [0] []) (Tensor.mk [0] []) (Tensor.mk [0] [])
                    (Tensor.mk [0] [])) [])
    = (Ok true, c') /\
    Tensor.dims (LayerNormGradient.ginput (Hip.outs c')) = [1; 2].
Proof.
  destruct (layer_norm_gradient_computes Hip.default_config 16 1
              (Tensor.mk [1; 2] [1; 1]%R) (Tensor.mk [1; 1] [2]%R) (Tensor.mk [1; 1] [1]%R)
              (Tensor.mk [1; 2] [1; 3]%R)
              (Hip.mkCtx (LayerNormGradient.mkOutputs (Tensor.mk [0] []) (Tensor.mk [0] [])
                            (Tensor.mk [0] []) (Tensor.mk [0] []) (Tensor.mk [0] [])
                            (Tensor.mk [0] [])) []))
    as (c' & E & Hd & _).
  - exact default_config_ok.
  - split; [repeat constructor; lia | reflexivity].
  - dims_lia.
  - dims_lia.
  - exists c'. split; [exact E | exact Hd].
Defined.

(** * BooleanUnmask *)

Section BooleanUnmaskKernels.

Import Hip BooleanUnmask BooleanUnmaskSpec.

Lemma count_before_succ indices j i :
  0 <= i ->
  count_before indices j (i + 1)
  = count_before indices j i + (if indices i =? j then 1 else 0).
Proof.
  intros Hi. unfold count_before. rewrite zrange_succ by exact Hi.
  rewrite List.filter_app, length_app. cbn [List.filter].
  destruct (indices i =? j); cbn [length]; lia.
Qed.

Lemma count_before_nonneg indices j i : 0 <= count_before indices j i.
Proof. unfold count_before. lia. Qed.

(** The threads of a launch, block after block, are the global thread
    numbers in increasing order. *)
Lemma thread_pairs_global (gridDim blockDim : Z) :
  0 <= gridDim -> 0 <= blockDim ->
  map (fun bt : Z * Z => fst bt * blockDim + snd bt)
      (flat_map (fun b => map (fun t => (b, t)) (zrange blockDim)) (zrange gridDim))
  = zrange (gridDim * blockDim).
Proof.
  intros Hg Hb.
  transitivity (flat_map (fun g => [g]) (zrange (gridDim * blockDim))).
  2: { induction (zrange (gridDim * blockDim)) as [| g l IH]; [reflexivity |].
       cbn [flat_map app]. f_equal. exact IH. }
  rewrite <- (flat_map_flat_map_zrange gridDim blockDim (fun g => [g]) Hg Hb).
  assert (forall b lt,
            map (fun bt : Z * Z => fst bt * blockDim + snd bt) (map (fun t => (b, t)) lt)
            = flat_map (fun t => [b * blockDim + t]) lt) as Hinner.
  { intros b lt. induction lt as [| t lt IHt]; [reflexivity |].
    cbn [map flat_map app fst snd]. f_equal. exact IHt. }
  induction (zrange gridDim) as [| b lb IHb]; [reflexivity |].
  cbn [flat_map]. rewrite map_app, IHb, Hinner. reflexivity.
Qed.

(** A thread owns its global number, when that is a position. *)
Lemma thread_indices_head gridDim blockDim b t n :
  0 <= b * blockDim + t ->
  match thread_indices gridDim blockDim b t n with
  | [] => n <= b * blockDim + t
  | i :: _ => i = b * blockDim + t /\ i < n
  end.
Proof.
  intros Hpos. unfold thread_indices.
  destruct (Z.to_nat n) as [| fuel] eqn:En.
  - cbn [stride_loop]. lia.
  - cbn [stride_loop]. destruct (Z.ltb_spec (b * blockDim + t) n); [split; [reflexivity | lia] | lia].
Qed.

Lemma fold_left_ext_in {S X : Type} (f g : S -> X -> S) (l : list X) :
  (forall x s, In x l -> f s x = g s x) ->
  forall s, fold_left f l s = fold_left g l s.
Proof.
  induction l as [| x l IH]; intros H s; [reflexivity |].
  cbn [fold_left]. rewrite (H x s) by (left; reflexivity).
  apply IH. intros y s' Hy. apply H. right. exact Hy.
Qed.

Lemma fold_left_map_list {S X Y : Type} (f : S -> Y -> S) (h : X -> Y) (l : list X) :
  forall s, fold_left f (map h l) s = fold_left (fun s x => f s (h x)) l s.
Proof.
  induction l as [| x l IH]; intros s; [reflexivity |]. cbn [map fold_left]. apply IH.
Qed.

(** What the thread with global number [g] does in [ComputeIndicesKernel]. *)
Let index_step (ms : list (list bool)) (maskSize : Z)
    (acc : option (list Z)) (g : Z) : option (list Z) :=
  match acc with
  | Some ind =>
      if g <? maskSize
      then match first_set ms g 0 with
           | Some j => Some (store ind g j)
           | None => None
           end
      else Some ind
  | None => None
  end.

Lemma ComputeIndicesKernel_fold gridDim blockDim numMasks maskSize masks indices :
  0 <= gridDim -> 0 <= blockDim ->
  ComputeIndicesKernel gridDim blockDim numMasks maskSize masks indices
  = fold_left (index_step (take (Z.to_nat numMasks) masks) maskSize)
      (zrange (gridDim * blockDim)) (Some indices).
Proof.
  intros Hg Hb. unfold ComputeIndicesKernel.
  rewrite <- (thread_pairs_global gridDim blockDim Hg Hb), fold_left_map_list.
  apply fold_left_ext_in. intros [b t] acc Hin. cbn [fst snd].
  apply in_flat_map in Hin as (b' & Hb' & Hin). apply in_map_iff in Hin as (t' & E & Ht').
  inversion E; subst b' t'; clear E.
  apply in_zrange in Hb', Ht'.
  unfold index_step. destruct acc as [ind |]; [| reflexivity].
  unfold ComputeIndices_thread.
  pose proof (thread_indices_head gridDim blockDim b t maskSize ltac:(nia)) as Hhd.
  destruct (thread_indices gridDim blockDim b t maskSize) as [| i l].
  - destruct (Z.ltb_spec (b * blockDim + t) maskSize); [lia | reflexivity].
  - destruct Hhd as [-> Hlt].
    destruct (Z.ltb_spec (b * blockDim + t) maskSize); [reflexivity | lia].
Qed.

Lemma index_steps ms maskSize indices T :
  0 <= T ->
  (forall g, 0 <= g < T -> g < maskSize -> first_set ms g 0 <> None) ->
  exists ind',
    fold_left (index_step ms maskSize) (zrange T) (Some indices) = Some ind' /\
    length ind' = length indices /\
    forall p, 0 <= p < Z.of_nat (length indices) ->
      load 0 ind' p
      = if (p <? T) && (p <? maskSize) then owner ms p else load 0 indices p.
Proof.
  intros HT. pattern T. apply natlike_ind; [| | exact HT]; clear T HT.
  - intros _. exists indices. split; [reflexivity |]. split; [reflexivity |].
    intros p Hp. destruct (Z.ltb_spec p 0); [lia | reflexivity].
  - intros T HT IH Hcov. unfold Z.succ. rewrite zrange_succ by exact HT.
    rewrite fold_left_app.
    destruct IH as (ind & E & Hlen & Hcells).
    { intros g Hg. apply Hcov. lia. }
    rewrite E. cbn [fold_left index_step].
    destruct (Z.ltb_spec T maskSize) as [Hlt | Hge].
    + destruct (first_set ms T 0) as [j |] eqn:Ej.
      2: { exfalso. apply (Hcov T); [lia | lia | exact Ej]. }
      eexists. split; [reflexivity |]. split; [rewrite store_length; exact Hlen |].
      intros p Hp. destruct (Z.eq_dec p T) as [-> | Hne].
      * rewrite load_store_same by lia.
        destruct (Z.ltb_spec T (T + 1)); [| lia].
        destruct (Z.ltb_spec T maskSize); [| lia].
        unfold owner. rewrite Ej. reflexivity.
      * rewrite load_store_other by lia. rewrite Hcells by exact Hp.
        destruct (Z.ltb_spec p T), (Z.ltb_spec p (T + 1)); try lia; reflexivity.
    + exists ind. split; [reflexivity |]. split; [exact Hlen |].
      intros p Hp. rewrite Hcells by exact Hp.
      destruct (Z.ltb_spec p T), (Z.ltb_spec p (T + 1)), (Z.ltb_spec p maskSize);
        try lia; reflexivity.
Qed.

Lemma index_steps_fail ms maskSize indices T :
  0 <= T ->
  (exists g, 0 <= g < T /\ g < maskSize /\ first_set ms g 0 = None) ->
  fold_left (index_step ms maskSize) (zrange T) (Some indices) = None.
Proof.
  intros HT. pattern T. apply natlike_ind; [| | exact HT]; clear T HT.
  - intros (g & Hg & _). lia.
  - intros T HT IH (g & Hg & Hlt & Eg). unfold Z.succ in *.
    rewrite zrange_succ by exact HT. rewrite fold_left_app.
    destruct (Z.eq_dec g T) as [-> | Hne].
    + destruct (fold_left (index_step ms maskSize) (zrange T) (Some indices)) as [ind |];
        [| reflexivity].
      cbn [fold_left index_step].
      destruct (Z.ltb_spec T maskSize); [| lia]. rewrite Eg. reflexivity.
    + rewrite IH; [reflexivity |]. exists g. repeat split; try lia. exact Eg.
Qed.

End BooleanUnmaskKernels.

Section FillValues.

Import Hip BooleanUnmask BooleanUnmaskSpec.

Variables (maskSize itemSize : Z) (indices : list Z).
Hypothesis HmaskSize : 0 <= maskSize.
Hypothesis HitemSize : 0 <= itemSize.

Let idx (i : Z) : Z := load 0 indices i.

Lemma cell_injective i h i' h' :
  0 <= h < itemSize -> 0 <= h' < itemSize ->
  i * itemSize + h = i' * itemSize + h' -> i = i'.
Proof. intros Hh Hh' E. nia. Qed.

(** The loops over [i] and [h] for one mask [j]. *)
Lemma fill_row_spec (value : list Byte.byte) (j : Z) (dest : list Byte.byte) :
  let r := fill_row maskSize itemSize indices value j dest in
  fst r = count_before idx j maskSize /\
  length (snd r) = length dest /\
  (forall i h, 0 <= i < maskSize -> 0 <= h < itemSize -> idx i = j ->
     i * itemSize + h < Z.of_nat (length dest) ->
     load RawTensor.junk (snd r) (i * itemSize + h)
     = load RawTensor.junk value (count_before idx j i * itemSize + h)) /\
  (forall p, 0 <= p < Z.of_nat (length dest) ->
     (forall i h, 0 <= i < maskSize -> 0 <= h < itemSize -> idx i = j ->
        p <> i * itemSize + h) ->
     load RawTensor.junk (snd r) p = load RawTensor.junk dest p).
Proof.
  cbv zeta. unfold fill_row.
  generalize HmaskSize. pattern maskSize. apply natlike_ind; [| | exact HmaskSize].
  - intros _. cbn [fold_left fst snd]. split; [reflexivity |]. split; [reflexivity |].
    split; [intros; lia | intros; reflexivity].
  - intros n Hn IH _. specialize (IH Hn). unfold Z.succ.
    rewrite zrange_succ by exact Hn. rewrite fold_left_app.
    destruct (fold_left _ (zrange n) (0, dest)) as [k d] eqn:Efold.
    cbn [fst snd] in IH. destruct IH as (Hk & Hlen & Ha & Hb).
    cbn [fold_left]. fold (idx n).
    rewrite count_before_succ by exact Hn.
    destruct (Z.eqb_spec (idx n) j) as [Ej | Ej]; cbn [fst snd].
    + destruct (fold_writes RawTensor.junk (fun h => n * itemSize + h)
                  (fun h => load RawTensor.junk value (k * itemSize + h))
                  (zrange itemSize)
                  ltac:(intros x x' _ _ E; cbv beta in E; f_equal; lia) d) as [Hwl Hw].
      rewrite Hlen in Hwl, Hw.
      split; [lia |]. split; [exact Hwl |]. split.
      * intros i h Hi Hh Hidx Hp.
        destruct (Z.eq_dec i n) as [-> | Hne].
        -- destruct (Hw (n * itemSize + h) ltac:(nia)) as [Hin _].
           rewrite (Hin h); [rewrite Hk; reflexivity | apply in_zrange; lia | reflexivity].
        -- destruct (Hw (i * itemSize + h) ltac:(nia)) as [_ Hout].
           rewrite Hout.
           ++ apply Ha; try assumption. lia.
           ++ intros h' Hh' E. apply in_zrange in Hh'.
              apply Hne. symmetry. apply (cell_injective n h' i h); lia.
      * intros p Hp Hfree.
        destruct (Hw p Hp) as [_ Hout]. rewrite Hout.
        -- apply Hb; [exact Hp |]. intros i h Hi Hh Hidx. apply Hfree; try assumption. lia.
        -- intros h Hh E. apply in_zrange in Hh.
           apply (Hfree n h); [lia | lia | exact Ej | lia].
    + split; [lia |]. split; [exact Hlen |]. split.
      * intros i h Hi Hh Hidx Hp.
        assert (i <> n) by (intros ->; contradiction).
        apply Ha; try assumption. lia.
      * intros p Hp Hfree. apply Hb; [exact Hp |].
        intros i h Hi Hh Hidx. apply Hfree; try assumption. lia.
Qed.

(** The masks of a schedule, one after the other. *)
Let fill_step (values : list (list Byte.byte)) (valueSizes : list Z)
    (acc : option (list Byte.byte)) (j : Z) : option (list Byte.byte) :=
  match acc with
  | Some dest =>
      let '(k, dest') := fill_row maskSize itemSize indices (load [] values j) j dest in
      if load 0 valueSizes j =? k then Some dest' else None
  | None => None
  end.

Lemma fill_steps values valueSizes sched : forall dest,
  (forall j, In j sched -> load 0 valueSizes j = count_before idx j maskSize) ->
  exists d,
    fold_left (fill_step values valueSizes) sched (Some dest) = Some d /\
    length d = length dest /\
    (forall i h, 0 <= i < maskSize -> 0 <= h < itemSize -> In (idx i) sched ->
       i * itemSize + h < Z.of_nat (length dest) ->
       load RawTensor.junk d (i * itemSize + h)
       = load RawTensor.junk (load [] values (idx i))
           (count_before idx (idx i) i * itemSize + h)) /\
    (forall p, 0 <= p < Z.of_nat (length dest) ->
       (forall i h, 0 <= i < maskSize -> 0 <= h < itemSize -> In (idx i) sched ->
          p <> i * itemSize + h) ->
       load RawTensor.junk d p = load RawTensor.junk dest p).
Proof.
  induction sched as [| j l IH]; intros dest Hsizes.
  - exists dest. split; [reflexivity |]. split; [reflexivity |].
    split; [intros i h _ _ [] | intros; reflexivity].
  - cbn [fold_left fill_step].
    pose proof (fill_row_spec (load [] values j) j dest) as Hrow. cbv zeta in Hrow.
    destruct (fill_row maskSize itemSize indices (load [] values j) j dest) as [k d1].
    cbn [fst snd] in Hrow. destruct Hrow as (Hk & Hlen1 & Ha1 & Hb1).
    rewrite (Hsizes j (or_introl eq_refl)), Hk, Z.eqb_refl.
    destruct (IH d1 (fun j' Hj' => Hsizes j' (or_intror Hj'))) as (d & E & Hlen & Ha & Hb).
    rewrite Hlen1 in Hlen, Ha, Hb.
    exists d. split; [exact E |]. split; [exact Hlen |]. split.
    + intros i h Hi Hh Hin Hp.
      destruct (in_dec Z.eq_dec (idx i) l) as [Hl | Hl].
      * apply Ha; assumption.
      * destruct Hin as [Ej | Hin]; [| contradiction].
        rewrite Hb.
        -- rewrite <- Ej. apply Ha1; try assumption. symmetry. exact Ej.
        -- nia.
        -- intros i' h' Hi' Hh' Hin' E'.
           apply Hl. rewrite (cell_injective i h i' h' Hh Hh' E'). exact Hin'.
    + intros p Hp Hfree. rewrite Hb.
      * apply Hb1; [exact Hp |]. intros i h Hi Hh Hidx.
        apply Hfree; try assumption. left. symmetry. exact Hidx.
      * exact Hp.
      * intros i h Hi Hh Hin. apply Hfree; try assumption. right. exact Hin.
Qed.

Lemma fill_steps_fail values valueSizes sched : forall dest,
  (exists j, In j sched /\ load 0 valueSizes j <> count_before idx j maskSize) ->
  fold_left (fill_step values valueSizes) sched (Some dest) = None.
Proof.
  assert (forall l, fold_left (fill_step values valueSizes) l None = None) as Hnone.
  { induction l as [| x l IHl]; [reflexivity | exact IHl]. }
  induction sched as [| j l IH]; intros dest (j0 & Hin & Hne).
  - destruct Hin.
  - cbn [fold_left fill_step].
    pose proof (fill_row_spec (load [] values j) j dest) as Hrow. cbv zeta in Hrow.
    destruct (fill_row maskSize itemSize indices (load [] values j) j dest) as [k d1].
    cbn [fst snd] in Hrow. destruct Hrow as (Hk & _).
    destruct (Z.eqb_spec (load 0 valueSizes j) k) as [Ek | Ek]; [| apply Hnone].
    destruct Hin as [-> | Hin]; [exfalso; apply Hne; congruence |].
    apply IH. exists j0. split; assumption.
Qed.

Lemma FillValuesKernel_fold gridDim blockDim numMasks values valueSizes dest :
  FillValuesKernel gridDim blockDim numMasks maskSize itemSize indices values
    valueSizes dest
  = fold_left (fill_step values valueSizes)
      (HIP_1D_KERNEL_LOOP gridDim blockDim numMasks) (Some dest).
Proof. reflexivity. Qed.

End FillValues.

Section BooleanUnmaskRun.

Import Hip BooleanUnmask BooleanUnmaskSpec.

Lemma first_set_range ms i : forall j0 j,
  first_set ms i j0 = Some j -> j0 <= j < j0 + Z.of_nat (length ms).
Proof.
  induction ms as [| m ms IH]; intros j0 j E; cbn [first_set] in E; [discriminate |].
  cbn [length]. destruct (load false m i).
  - inversion E. lia.
  - apply IH in E. lia.
Qed.

Lemma owner_range ms i :
  first_set ms i 0 <> None -> 0 <= owner ms i < Z.of_nat (length ms).
Proof.
  intros Hcov. unfold owner.
  destruct (first_set ms i 0) as [j |] eqn:E; [| contradiction].
  apply first_set_range in E. cbn. lia.
Qed.

Lemma count_before_ext f g j n :
  (forall i, 0 <= i < n -> f i = g i) -> count_before f j n = count_before g j n.
Proof.
  intros H. unfold count_before. do 2 f_equal.
  apply List.filter_ext_in. intros i Hi. apply in_zrange in Hi. rewrite (H i Hi).
  reflexivity.
Qed.

Lemma load_map_nth {X Y : Type} (jy : Y) (f : X -> Y) (l : list X) (dx : X) j :
  0 <= j < Z.of_nat (length l) ->
  load jy (map f l) j = f (nth (Z.to_nat j) l dx).
Proof.
  intros Hj. unfold load. destruct (Z.ltb_spec j 0); [lia |].
  change (map f l) with (f <$> l). rewrite list_lookup_fmap.
  destruct (lookup_lt_is_Some_2 l (Z.to_nat j) ltac:(lia)) as [x Hx].
  rewrite Hx. cbn. f_equal. symmetry. apply nth_lookup_Some with (d := dx) in Hx.
  exact Hx.
Qed.

Lemma BooleanUnmask_run cfg aborted in0 rest c :
  let inputs := in0 :: rest in
  let maskSize := Tensor.size (fst in0) in
  let numMasks := Z.of_nat (length inputs) in
  let itemsize := RawTensor.itemsize (snd in0) in
  let masks := map (fun p => Tensor.data (fst p)) inputs in
  let values := map (fun p => RawTensor.bytes (snd p)) inputs in
  config_ok cfg ->
  valid_inputs inputs = true ->
  0 <= maskSize -> 0 <= itemsize ->
  maskSize <= CAFFE_MAXIMUM_NUM_BLOCKS cfg * CAFFE_HIP_NUM_THREADS cfg ->
  (forall i, 0 <= i < maskSize -> first_set masks i 0 <> None) ->
  (forall j, 0 <= j < numMasks ->
     RawTensor.size (snd (nth (Z.to_nat j) inputs in0))
     = count_before (owner masks) j maskSize) ->
  exists c',
    RunOnDevice cfg aborted inputs c = (Ok true, c') /\
    RawTensor.dims (out (outs c')) = [maskSize] /\
    RawTensor.itemsize (out (outs c')) = itemsize /\
    Z.of_nat (length (RawTensor.bytes (out (outs c')))) = maskSize * itemsize /\
    forall i h, 0 <= i < maskSize -> 0 <= h < itemsize ->
      load RawTensor.junk (RawTensor.bytes (out (outs c'))) (i * itemsize + h)
      = load RawTensor.junk (load [] values (owner masks i))
          (count_before (owner masks) (owner masks i) i * itemsize + h).
Proof.
  intros inputs maskSize numMasks itemsize masks values
    Hcfg Hvalid HmaskSize Hitemsize Hthreads Hcov Hsizes.
  destruct c as [[out0 ind0] ls0].
  pose proof Hcfg as (Hthr & Hmaxb & _).
  set (valueSizes := map (fun p => RawTensor.size (snd p)) inputs).
  subst inputs.
  unfold RunOnDevice. fold maskSize numMasks itemsize masks values valueSizes.
  do 2 (erewrite bind_ok by reflexivity).
  erewrite bind_ok.
  2:{ match goal with
      | |- for_each ?f ?l ?s = _ =>
          destruct (check_pairs maskSize l s) as [[_ E] | [Hbad _]];
            [exact E | unfold valid_inputs in Hvalid; fold maskSize in Hvalid; congruence]
      end. }
  erewrite bind_ok by reflexivity.
  cbv [on_outs outs launches set_out set_indices_ out indices_].
  cbn [Tensor.data Tensor.dims].
  set (grid1 := Z.min maskSize (CAFFE_MAXIMUM_NUM_BLOCKS cfg)).
  set (ind1 := Tensor.data (Tensor.Resize 0 [maskSize] ind0)).
  assert (length ind1 = Z.to_nat maskSize) as Hind1.
  { unfold ind1. rewrite Resize_length, prod_dims_single. reflexivity. }
  assert (take (Z.to_nat numMasks) masks = masks) as Htake.
  { apply take_ge. unfold masks, numMasks. rewrite length_map. lia. }
  destruct (index_steps masks maskSize ind1 (grid1 * CAFFE_HIP_NUM_THREADS cfg))
    as (ind2 & Eind & Hind2l & Hind2).
  { unfold grid1. nia. }
  { intros g Hg0 Hg. apply Hcov. lia. }
  assert (forall i, 0 <= i < maskSize -> load 0 ind2 i = owner masks i) as Hidx.
  { intros i Hi. rewrite Hind2 by lia.
    destruct (Z.ltb_spec i (grid1 * CAFFE_HIP_NUM_THREADS cfg)) as [_ | Hge].
    - destruct (Z.ltb_spec i maskSize); [reflexivity | lia].
    - exfalso. unfold grid1 in Hge.
      destruct (Z.min_spec maskSize (CAFFE_MAXIMUM_NUM_BLOCKS cfg)) as [[_ E] | [_ E]];
        rewrite E in Hge; nia. }
  unfold bind at 1. unfold hipLaunchKernelGGL_assert at 1. cbn [outs launches indices_ out].
  rewrite ComputeIndicesKernel_fold by (unfold grid1; lia).
  rewrite Htake. fold ind1. rewrite Eind.
  set (dest0 := RawTensor.bytes
                  (RawTensor.raw_mutable_data itemsize (RawTensor.Resize [maskSize] out0))).
  assert (length dest0 = Z.to_nat (maskSize * itemsize)) as Hdest0.
  { unfold dest0, RawTensor.raw_mutable_data. cbn [RawTensor.bytes].
    rewrite length_resize. unfold RawTensor.size, RawTensor.Resize. cbn [RawTensor.dims].
    rewrite prod_dims_single. reflexivity. }
  set (grid2 := Z.min numMasks (CAFFE_MAXIMUM_NUM_BLOCKS cfg)).
  destruct (fill_steps maskSize itemsize ind2 HmaskSize Hitemsize values valueSizes
              (HIP_1D_KERNEL_LOOP grid2 (CAFFE_HIP_NUM_THREADS cfg) numMasks) dest0)
    as (d & Efill & Hdl & Ha & _).
  { intros j Hj.
    assert (0 <= j < numMasks) as Hjr.
    { apply in_zrange. eapply Permutation_in; [| exact Hj].
      apply launch_perm; [exact Hcfg |]. unfold grid2. lia. }
    unfold valueSizes. rewrite (load_map_nth 0 _ (in0 :: rest) in0) by (fold numMasks; lia).
    rewrite (Hsizes j Hjr). apply count_before_ext. intros i Hi. symmetry.
    apply Hidx. exact Hi. }
  unfold bind at 1. unfold hipLaunchKernelGGL_assert at 1. cbn [outs launches indices_ out].
  cbn [Tensor.data]. fold dest0.
  rewrite FillValuesKernel_fold. rewrite Efill.
  eexists. split; [reflexivity |].
  cbn [outs out RawTensor.dims RawTensor.itemsize RawTensor.bytes].
  split; [reflexivity |]. split; [reflexivity |]. split; [rewrite Hdl, Hdest0; nia |].
  intros i h Hi Hh.
  rewrite Ha; try assumption.
  - rewrite (Hidx i Hi). f_equal. f_equal. f_equal.
    apply count_before_ext. intros i' Hi'. apply Hidx. lia.
  - rewrite (Hidx i Hi).
    pose proof (owner_range masks i (Hcov i Hi)) as Hown.
    eapply Permutation_in.
    + symmetry. apply (launch_perm cfg grid2 numMasks Hcfg). unfold grid2. lia.
    + apply in_zrange. unfold masks in Hown. rewrite length_map in Hown.
      fold numMasks in Hown. exact Hown.
  - rewrite Hdest0. nia.
Qed.

End BooleanUnmaskRun.

(** X10.  BooleanUnmask puts every value back at the position its mask
    took it from.  Given pairs (mask, values) of valid shapes, a mask size
    of at most (maximum blocks) x (threads per block), every position set
    in some mask, and for every mask as many values as there are
    positions that it is the first mask to set: the output has
    [maskSize] elements, and element [i] is element [k] of the values of
    mask [j], where [j] is the first mask set at [i] and [k] counts the
    positions below [i] with the same first mask. *)
Theorem boolean_unmask_places_values (cfg : Hip.Config)
    (aborted : BooleanUnmask.Outputs -> BooleanUnmask.Outputs)
    (in0 : Tensor.t bool * RawTensor.t) (rest : list (Tensor.t bool * RawTensor.t))
    (c : Hip.Ctx BooleanUnmask.Outputs) :
  let inputs := in0 :: rest in
  let maskSize := Tensor.size (fst in0) in
  let numMasks := Z.of_nat (length inputs) in
  let itemsize := RawTensor.itemsize (snd in0) in
  let masks := map (fun p => Tensor.data (fst p)) inputs in
  let values := map (fun p => RawTensor.bytes (snd p)) inputs in
  Hip.config_ok cfg ->
  BooleanUnmask.valid_inputs inputs = true ->
  0 <= maskSize -> 0 <= itemsize ->
  maskSize <= Hip.CAFFE_MAXIMUM_NUM_BLOCKS cfg * Hip.CAFFE_HIP_NUM_THREADS cfg ->
  (forall i, 0 <= i < maskSize -> BooleanUnmask.first_set masks i 0 <> None) ->
  (forall j, 0 <= j < numMasks ->
     RawTensor.size (snd (nth (Z.to_nat j) inputs in0))
     = BooleanUnmaskSpec.count_before (BooleanUnmaskSpec.owner masks) j maskSize) ->
  exists c',
    BooleanUnmask.RunOnDevice cfg aborted inputs c = (Ok true, c') /\
    RawTensor.dims (BooleanUnmask.out (Hip.outs c')) = [maskSize] /\
    RawTensor.itemsize (BooleanUnmask.out (Hip.outs c')) = itemsize /\
    forall i h, 0 <= i < maskSize -> 0 <= h < itemsize ->
      let j := BooleanUnmaskSpec.owner masks i in
      let k := BooleanUnmaskSpec.count_before (BooleanUnmaskSpec.owner masks) j i in
      load RawTensor.junk (RawTensor.bytes (BooleanUnmask.out (Hip.outs c')))
        (i * itemsize + h)
      = load RawTensor.junk (load [] values j) (k * itemsize + h).
Proof.
  intros inputs maskSize numMasks itemsize masks values
    Hcfg Hvalid HmaskSize Hitemsize Hthreads Hcov Hsizes.
  destruct (BooleanUnmask_run cfg aborted in0 rest c Hcfg Hvalid HmaskSize Hitemsize Hthreads
              Hcov Hsizes) as (c' & E & Hd & Hi & _ & Hcells).
  exists c'. split; [exact E |]. split; [exact Hd |]. split; [exact Hi |].
  intros i h Hir Hh j k. exact (Hcells i h Hir Hh).
Qed.

(** X11.  A thread of [ComputeIndicesKernel] leaves the kernel at its
    first position (the [return] inside the loop): the kernel never
    writes a position from [gridDim * blockDim] on, even one below
    [maskSize].  With the operator's grid of at most
    [CAFFE_MAXIMUM_NUM_BLOCKS] blocks, the indices of a longer mask are
    not computed beyond (maximum blocks) x (threads per block). *)
Theorem compute_indices_stops_at_thread_count (gridDim blockDim numMasks maskSize : Z)
    (masks : list (list bool)) (indices indices' : list Z) :
  0 <= gridDim -> 0 <= blockDim ->
  BooleanUnmask.ComputeIndicesKernel gridDim blockDim numMasks maskSize masks indices
  = Some indices' ->
  length indices' = length indices /\
  forall p, gridDim * blockDim <= p -> load 0 indices' p = load 0 indices p.
Proof.
  intros Hg Hb E.
  rewrite ComputeIndicesKernel_fold in E by assumption.
  set (ms := take (Z.to_nat numMasks) masks) in *.
  assert (forall g, 0 <= g < gridDim * blockDim -> g < maskSize ->
            BooleanUnmask.first_set ms g 0 <> None) as Hcov.
  { intros g Hgr Hlt Hnone.
    rewrite (index_steps_fail ms maskSize indices (gridDim * blockDim)) in E
      by (try nia; exists g; auto).
    discriminate E. }
  destruct (index_steps ms maskSize indices (gridDim * blockDim) ltac:(nia) Hcov)
    as (ind & E' & Hlen & Hcells).
  rewrite E' in E. inversion E; subst ind; clear E.
  split; [exact Hlen |].
  intros p Hp.
  destruct (Z.lt_ge_cases p (Z.of_nat (length indices))) as [Hin | Hout].
  - rewrite Hcells by nia.
    destruct (Z.ltb_spec p (gridDim * blockDim)); [lia | reflexivity].
  - unfold load. destruct (Z.ltb_spec p 0); [reflexivity |].
    rewrite !lookup_ge_None_2 by lia. reflexivity.
Qed.

(** X12.  The device assertions do not reach the host.  With valid
    shapes the operator launches both kernels, one after the other, and
    returns [true], whatever the masks and the value sizes are.  This is
    so even when a position within reach of the launched threads is set in
    no mask: there [ComputeIndicesKernel] stops at its assertion, and
    [FillValuesKernel] is launched all the same on what it left. *)
Theorem boolean_unmask_launches_both_kernels (cfg : Hip.Config)
    (aborted : BooleanUnmask.Outputs -> BooleanUnmask.Outputs)
    (in0 : Tensor.t bool * RawTensor.t) (rest : list (Tensor.t bool * RawTensor.t))
    (c : Hip.Ctx BooleanUnmask.Outputs) :
  let inputs := in0 :: rest in
  let maskSize := Tensor.size (fst in0) in
  let numMasks := Z.of_nat (length inputs) in
  let masks := map (fun p => Tensor.data (fst p)) inputs in
  let grid := Z.min maskSize (Hip.CAFFE_MAXIMUM_NUM_BLOCKS cfg) in
  Hip.config_ok cfg ->
  BooleanUnmask.valid_inputs inputs = true ->
  (exists c',
     BooleanUnmask.RunOnDevice cfg aborted inputs c = (Ok true, c') /\
     Hip.launches c'
     = Hip.launches c ++
       [Hip.mkLaunch "ComputeIndicesKernel" grid (Hip.CAFFE_HIP_NUM_THREADS cfg);
        Hip.mkLaunch "FillValuesKernel"
          (Z.min numMasks (Hip.CAFFE_MAXIMUM_NUM_BLOCKS cfg))
          (Hip.CAFFE_HIP_NUM_THREADS cfg)]) /\
  forall i indices,
    0 <= i < maskSize -> i < grid * Hip.CAFFE_HIP_NUM_THREADS cfg ->
    BooleanUnmask.first_set masks i 0 = None ->
    BooleanUnmask.ComputeIndicesKernel grid (Hip.CAFFE_HIP_NUM_THREADS cfg)
      numMasks maskSize masks indices = None.
Proof.
  intros inputs maskSize numMasks masks grid Hcfg Hvalid.
  pose proof Hcfg as (Hthr & Hmaxb & _).
  split.
  - subst inputs. unfold BooleanUnmask.RunOnDevice. fold maskSize.
    do 2 (erewrite bind_ok by reflexivity).
    erewrite bind_ok.
    2:{ match goal with
        | |- for_each ?f ?l ?s = _ =>
            destruct (check_pairs maskSize l s) as [[_ E] | [Hbad _]];
              [exact E
              | unfold BooleanUnmask.valid_inputs in Hvalid; fold maskSize in Hvalid;
                congruence]
        end. }
    erewrite bind_ok by reflexivity.
    do 2 (erewrite bind_ok by reflexivity).
    eexists. split; [reflexivity |].
    cbn [Hip.launches]. rewrite <- app_assoc. reflexivity.
  - intros i indices Hi Hreach Hnone.
    assert (0 <= grid) as Hgrid by (unfold grid; lia).
    rewrite ComputeIndicesKernel_fold by lia.
    rewrite take_ge by (unfold masks, numMasks, inputs; rewrite length_map; lia).
    apply index_steps_fail; [nia |].
    exists i. repeat split; try lia. exact Hnone.
Qed.

(** * BooleanMask and BooleanUnmask together *)

Section MaskUnmask.

Import Hip BooleanUnmaskSpec.

Lemma Flagged_from_app l1 : forall l2 i,
  BooleanMask.Flagged_from i (l1 ++ l2)
  = BooleanMask.Flagged_from i l1
    ++ BooleanMask.Flagged_from (i + Z.of_nat (length l1)) l2.
Proof.
  induction l1 as [| f l1 IH]; intros l2 i.
  - cbn [app BooleanMask.Flagged_from length]. f_equal. lia.
  - cbn [app BooleanMask.Flagged_from length]. rewrite IH.
    replace (i + 1 + Z.of_nat (length l1)) with (i + Z.of_nat (S (length l1))) by lia.
    destruct f; reflexivity.
Qed.

(** [DeviceSelect::Flagged] selects the positions whose flag is set. *)
Lemma Flagged_filter flags n :
  0 <= n <= Z.of_nat (length flags) ->
  BooleanMask.Flagged flags n = List.filter (fun i => load false flags i) (zrange n).
Proof.
  intros [Hn Hle]. revert Hle. pattern n. apply natlike_ind; [| | exact Hn]; clear n Hn.
  - intros _. reflexivity.
  - intros n Hn IH Hle. unfold Z.succ in *. unfold BooleanMask.Flagged in *.
    rewrite zrange_succ by exact Hn. rewrite List.filter_app.
    replace (Z.to_nat (n + 1)) with (S (Z.to_nat n)) by lia.
    destruct (lookup_lt_is_Some_2 flags (Z.to_nat n) ltac:(lia)) as [f Hf].
    rewrite (take_S_r _ _ _ Hf), Flagged_from_app, IH by lia.
    f_equal. rewrite length_take, Nat.min_l by lia.
    cbn [BooleanMask.Flagged_from List.filter].
    replace (0 + Z.of_nat (Z.to_nat n)) with n by lia.
    unfold load. destruct (Z.ltb_spec n 0); [lia |]. rewrite Hf. cbn.
    destruct f; reflexivity.
Qed.

Lemma zrange_split a b :
  0 <= a -> 0 <= b -> zrange (a + b) = zrange a ++ map (fun x => a + x) (zrange b).
Proof.
  intros Ha Hb. pattern b. apply natlike_ind; [| | exact Hb]; clear b Hb.
  - rewrite Z.add_0_r. cbn [zrange map]. change (zrange 0) with (@nil Z).
    rewrite app_nil_r. reflexivity.
  - intros b Hb IH. unfold Z.succ.
    rewrite Z.add_assoc, !zrange_succ, IH, map_app by lia.
    rewrite <- app_assoc. reflexivity.
Qed.

(** The element of rank [#{i' < i : P i'}] among the selected positions
    is [i] itself. *)
Lemma filter_zrange_rank (P : Z -> bool) n i :
  0 <= i < n -> P i = true ->
  load 0 (List.filter P (zrange n))
    (Z.of_nat (length (List.filter P (zrange i)))) = i /\
  Z.of_nat (length (List.filter P (zrange i)))
  < Z.of_nat (length (List.filter P (zrange n))).
Proof.
  intros Hi HP.
  replace n with (i + (1 + (n - i - 1))) by lia.
  rewrite (zrange_split i) by lia. rewrite (zrange_split 1) by lia.
  change (zrange 1) with [0]. cbn [app map].
  rewrite List.filter_app. cbn [List.filter].
  replace (i + 0) with i by lia. rewrite HP.
  split.
  - unfold load. destruct (Z.ltb_spec (Z.of_nat (length (List.filter P (zrange i)))) 0);
      [lia |].
    rewrite Nat2Z.id, lookup_app_r by lia. rewrite Nat.sub_diag. reflexivity.
  - rewrite length_app. cbn [length]. lia.
Qed.

Lemma load_negb (m : list bool) i :
  0 <= i < Z.of_nat (length m) ->
  load false (map negb m) i = negb (load false m i).
Proof.
  intros Hi. unfold load. destruct (Z.ltb_spec i 0); [lia |].
  change (map negb m) with (negb <$> m). rewrite list_lookup_fmap.
  destruct (lookup_lt_is_Some_2 m (Z.to_nat i) ltac:(lia)) as [b Hb].
  rewrite Hb. reflexivity.
Qed.

(** With a mask and its complement, position [i] belongs to mask 0 when
    the mask is set there and to mask 1 otherwise. *)
Lemma owner_complement (m : list bool) i :
  0 <= i < Z.of_nat (length m) ->
  BooleanUnmask.first_set [m; map negb m] i 0 <> None /\
  owner [m; map negb m] i = if load false m i then 0 else 1.
Proof.
  intros Hi. unfold owner. cbn [BooleanUnmask.first_set].
  rewrite (load_negb m i Hi).
  destruct (load false m i); cbn; split; try reflexivity; discriminate.
Qed.

Lemma rank1_dims (dims : list Z) :
  Z.of_nat (length dims) = 1 -> dims = [nth 0 dims 0].
Proof.
  destruct dims as [| d [| d' l]]; cbn [length nth]; intros H; [lia | reflexivity | lia].
Qed.

(** X13.  BooleanMask and BooleanUnmask are inverse to each other: split
    a rank-1 tensor with a mask and with the complement of the mask, hand
    the two pairs (mask, selected elements) to BooleanUnmask, and the
    output is the tensor one started from (for a mask of at most
    (maximum blocks) x (threads per block) entries). *)
Theorem boolean_mask_unmask_round_trip cfg tsb OutputSize OutputSize' src mask cm cm'
    aborted cu :
  config_ok cfg -> 0 <= tsb ->
  RawTensor.well_formed src -> Tensor.well_formed mask ->
  RawTensor.ndim src = 1 -> Tensor.ndim mask = 1 ->
  RawTensor.dim src 0 = Tensor.dim mask 0 ->
  Tensor.dim mask 0 <= CAFFE_MAXIMUM_NUM_BLOCKS cfg * CAFFE_HIP_NUM_THREADS cfg ->
  let notmask := Tensor.mk (Tensor.dims mask) (map negb (Tensor.data mask)) in
  exists c1 c2 c3,
    BooleanMask.RunOnDevice cfg tsb OutputSize src mask cm = (Ok true, c1) /\
    BooleanMask.RunOnDevice cfg tsb OutputSize' src notmask cm' = (Ok true, c2) /\
    BooleanUnmask.RunOnDevice cfg aborted
      [(mask, BooleanMask.dest (outs c1)); (notmask, BooleanMask.dest (outs c2))] cu
    = (Ok true, c3) /\
    RawTensor.dims (BooleanUnmask.out (outs c3)) = RawTensor.dims src /\
    RawTensor.itemsize (BooleanUnmask.out (outs c3)) = RawTensor.itemsize src /\
    RawTensor.bytes (BooleanUnmask.out (outs c3)) = RawTensor.bytes src.
Proof.
  intros Hcfg Htsb Hsrc Hmask Hr1 Hr2 Hd0 Hthreads notmask.
  pose proof Hsrc as (Hsd & Hsi & Hsl). pose proof Hmask as (Hmd & Hml).
  set (n := Tensor.dim mask 0) in *.
  set (m := Tensor.data mask) in *.
  set (I := RawTensor.itemsize src) in *.
  assert (Tensor.dims mask = [n]) as Hmdims by (apply rank1_dims; exact Hr2).
  assert (RawTensor.dims src = [n]) as Hsdims.
  { rewrite <- Hd0. apply rank1_dims. exact Hr1. }
  assert (0 <= n) as Hn.
  { rewrite Hmdims in Hmd. inversion Hmd. assumption. }
  assert (Z.of_nat (length m) = n) as Hmlen.
  { rewrite Hml. unfold Tensor.size. rewrite Hmdims. apply prod_dims_single. }
  assert (RawTensor.size_from_dim src 1 * I = I) as HnumBytes.
  { unfold RawTensor.size_from_dim. rewrite Hsdims. change (Z.to_nat 1) with 1%nat.
    cbn [drop]. unfold Tensor.prod_dims. cbn [fold_right]. lia. }
  assert (Tensor.well_formed notmask) as Hnotmask.
  { split; [exact Hmd |]. unfold notmask, Tensor.size. cbn [Tensor.data Tensor.dims].
    rewrite length_map. exact Hml. }
  destruct (BooleanMask_run cfg tsb OutputSize src mask cm Hcfg Htsb Hsrc Hmask
              ltac:(lia) Hr2 Hd0) as (c1 & E1 & Hd1 & Hi1 & Hl1 & Hc1 & _).
  destruct (BooleanMask_run cfg tsb OutputSize' src notmask cm' Hcfg Htsb Hsrc Hnotmask
              ltac:(lia) Hr2 Hd0) as (c2 & E2 & Hd2 & Hi2 & Hl2 & Hc2 & _).
  change (Tensor.dim notmask 0) with n in *. fold n in Hd1, Hl1, Hc1.
  change (Tensor.data notmask) with (map negb m) in *. fold m in Hd1, Hl1, Hc1.
  fold I in Hi1, Hl1, Hc1, Hi2, Hl2, Hc2.
  rewrite HnumBytes in Hl1, Hc1, Hl2, Hc2.
  rewrite Flagged_filter in Hd1, Hl1, Hc1, Hd2, Hl2, Hc2 by (rewrite ?length_map; lia).
  set (sel1 := List.filter (fun i => load false m i) (zrange n)) in *.
  set (sel2 := List.filter (fun i => load false (map negb m) i) (zrange n)) in *.
  rewrite Hsdims in Hd1, Hd2. cbn [tail] in Hd1, Hd2.
  set (dest1 := BooleanMask.dest (outs c1)) in *.
  set (dest2 := BooleanMask.dest (outs c2)) in *.
  assert (forall i, 0 <= i < n ->
            owner [m; map negb m] i = if load false m i then 0 else 1) as Hown.
  { intros i Hi. apply owner_complement. lia. }
  assert (count_before (owner [m; map negb m]) 0 n = Z.of_nat (length sel1) /\
          count_before (owner [m; map negb m]) 1 n = Z.of_nat (length sel2)) as [Hcnt1 Hcnt2].
  { unfold count_before, sel1, sel2. split; do 2 f_equal;
      apply List.filter_ext_in; intros i Hi; apply in_zrange in Hi;
      rewrite (Hown i Hi), ?load_negb by lia;
      destruct (load false m i); reflexivity. }
  destruct (BooleanUnmask_run cfg aborted (mask, dest1) [(notmask, dest2)] cu)
    as (c3 & E3 & Hd3 & Hi3 & Hl3 & Hc3).
  - exact Hcfg.
  - unfold BooleanUnmask.valid_inputs, BooleanUnmask.valid_pair.
    cbn [forallb fst snd]. unfold RawTensor.ndim, Tensor.ndim, Tensor.size.
    cbn [Tensor.dims notmask]. rewrite Hd1, Hd2, Hmdims. cbn [length].
    rewrite !Z.eqb_refl. reflexivity.
  - cbn [fst]. unfold Tensor.size. rewrite Hmdims, prod_dims_single. exact Hn.
  - cbn [snd]. rewrite Hi1. fold I. lia.
  - cbn [fst]. unfold Tensor.size. rewrite Hmdims, prod_dims_single. exact Hthreads.
  - cbn [fst map Tensor.data notmask]. fold m.
    unfold Tensor.size. rewrite Hmdims, prod_dims_single.
    intros i Hi. apply owner_complement. lia.
  - cbn [fst map Tensor.data notmask length]. fold m.
    unfold Tensor.size. rewrite Hmdims, prod_dims_single.
    intros j Hj.
    assert (j = 0 \/ j = 1) as [-> | ->] by lia.
    + change (Z.to_nat 0) with 0%nat. cbn [nth snd]. unfold RawTensor.size.
      rewrite Hd1, prod_dims_single. symmetry. exact Hcnt1.
    + change (Z.to_nat 1) with 1%nat. cbn [nth snd]. unfold RawTensor.size.
      rewrite Hd2, prod_dims_single. symmetry. exact Hcnt2.
  - exists c1, c2, c3. split; [exact E1 |]. split; [exact E2 |]. split; [exact E3 |].
    cbn [fst snd map Tensor.data notmask] in Hd3, Hi3, Hl3, Hc3. fold m in Hc3.
    unfold Tensor.size in Hd3, Hl3, Hc3. rewrite Hmdims, prod_dims_single in Hd3, Hl3, Hc3.
    rewrite Hi1 in Hi3, Hl3, Hc3. fold I in Hi3, Hl3, Hc3.
    split; [rewrite Hd3, Hsdims; reflexivity |]. split; [exact Hi3 |].
    assert (Z.of_nat (length (RawTensor.bytes src)) = n * I) as Hsrclen.
    { rewrite Hsl. unfold RawTensor.size. rewrite Hsdims, prod_dims_single. reflexivity. }
    apply (list_eq_load RawTensor.junk); [lia |].
    intros p Hp. rewrite Hl3 in Hp.
    assert (p = (p / I) * I + p mod I) as Ep by (pose proof (Z.div_mod p I); lia).
    assert (0 <= p mod I < I) as Hh by (apply Z.mod_pos_bound; lia).
    assert (0 <= p / I < n) as Hi.
    { split; [apply Z.div_pos; lia |]. apply Z.div_lt_upper_bound; lia. }
    rewrite Ep. set (i := p / I) in *. set (h := p mod I) in *.
    rewrite (Hc3 i h Hi Hh). rewrite (Hown i Hi).
    destruct (load false m i) eqn:Emi.
    + change (load [] [RawTensor.bytes dest1; RawTensor.bytes dest2] 0)
        with (RawTensor.bytes dest1).
      destruct (filter_zrange_rank (fun i' => owner [m; map negb m] i' =? 0) n i Hi)
        as [Hrank Hlt].
      { rewrite (Hown i Hi), Emi. reflexivity. }
      fold (count_before (owner [m; map negb m]) 0 i) in Hrank, Hlt.
      fold (count_before (owner [m; map negb m]) 0 n) in Hlt.
      assert (List.filter (fun i' => owner [m; map negb m] i' =? 0) (zrange n) = sel1) as Es.
      { unfold sel1. apply List.filter_ext_in. intros i' Hi'. apply in_zrange in Hi'.
        rewrite (Hown i' Hi'). destruct (load false m i'); reflexivity. }
      rewrite Es in Hrank. rewrite Hcnt1 in Hlt.
      rewrite Hc1 by (pose proof (count_before_nonneg (owner [m; map negb m]) 0 i); lia).
      rewrite Hrank. reflexivity.
    + change (load [] [RawTensor.bytes dest1; RawTensor.bytes dest2] 1)
        with (RawTensor.bytes dest2).
      destruct (filter_zrange_rank (fun i' => owner [m; map negb m] i' =? 1) n i Hi)
        as [Hrank Hlt].
      { rewrite (Hown i Hi), Emi. reflexivity. }
      fold (count_before (owner [m; map negb m]) 1 i) in Hrank, Hlt.
      fold (count_before (owner [m; map negb m]) 1 n) in Hlt.
      assert (List.filter (fun i' => owner [m; map negb m] i' =? 1) (zrange n) = sel2) as Es.
      { unfold sel2. apply List.filter_ext_in. intros i' Hi'. apply in_zrange in Hi'.
        rewrite (Hown i' Hi'), load_negb by lia.
        destruct (load false m i'); reflexivity. }
      rewrite Es in Hrank. rewrite Hcnt2 in Hlt.
      rewrite Hc2 by (pose proof (count_before_nonneg (owner [m; map negb m]) 1 i); lia).
      rewrite Hrank. reflexivity.
Qed.

End MaskUnmask.

Lemma boolean_unmask_places_values_witness :
  exists c',
    BooleanUnmask.RunOnDevice Hip.default_config (fun o => o)
      [(Tensor.mk [3] [true; false; true], RawTensor.mk [2] 1 [Byte.x01; Byte.x02]);
       (Tensor.mk [3] [false; true; false], RawTensor.mk [1] 1 [Byte.x09])]
      (Hip.mkCtx (BooleanUnmask.mkOutputs (RawTensor.mk [0] 1 []) (Tensor.mk [0] [])) [])
    = (Ok true, c') /\
    RawTensor.dims (BooleanUnmask.out (Hip.outs c')) = [3] /\
    load RawTensor.junk (RawTensor.bytes (BooleanUnmask.out (Hip.outs c'))) 2 = Byte.x02.
Proof.
  destruct (boolean_unmask_places_values Hip.default_config (fun o => o)
              (Tensor.mk [3] [true; false; true], RawTensor.mk [2] 1 [Byte.x01; Byte.x02])
              [(Tensor.mk [3] [false; true; false], RawTensor.mk [1] 1 [Byte.x09])]
              (Hip.mkCtx (BooleanUnmask.mkOutputs (RawTensor.mk [0] 1 [])
                            (Tensor.mk [0] [])) []))
    as (c' & E & Hd & _ & Hcells).
  - exact default_config_ok.
  - reflexivity.
  - vm_compute. discriminate.
  - vm_compute. discriminate.
  - vm_compute. discriminate.
  - intros i Hi. change (0 <= i < 3) in Hi.
    assert (i = 0 \/ i = 1 \/ i = 2) as [-> | [-> | ->]] by lia;
      vm_compute; discriminate.
  - intros j Hj. change (0 <= j < 2) in Hj.
    assert (j = 0 \/ j = 1) as [-> | ->] by lia; vm_compute; reflexivity.
  - exists c'. split; [exact E |]. split; [exact Hd |].
    exact (Hcells 2 0 ltac:(vm_compute; split; discriminate || reflexivity)
             ltac:(vm_compute; split; discriminate || reflexivity)).
Defined.

Lemma compute_indices_witness :
  load 0 [0; 7] 1 = load 0 [7; 7] 1.
Proof.
  apply (proj2 (compute_indices_stops_at_thread_count 1 1 1 2 [[true; true]] [7; 7] [0; 7]
                  ltac:(lia) ltac:(lia) eq_refl)).
  lia.
Defined.

Lemma boolean_unmask_launches_witness :
  (exists c',
     BooleanUnmask.RunOnDevice Hip.default_config (fun o => o)
       [(Tensor.mk [2] [true; false], RawTensor.mk [1] 1 [Byte.x01])]
       (Hip.mkCtx (BooleanUnmask.mkOutputs (RawTensor.mk [0] 1 []) (Tensor.mk [0] [])) [])
     = (Ok true, c') /\
     Hip.launches c'
     = [Hip.mkLaunch "ComputeIndicesKernel" 2 512; Hip.mkLaunch "FillValuesKernel" 1 512]) /\
  BooleanUnmask.ComputeIndicesKernel 2 512 1 2 [[true; false]] [0; 0] = None.
Proof.
  destruct (boolean_unmask_launches_both_kernels Hip.default_config (fun o => o)
              (Tensor.mk [2] [true; false], RawTensor.mk [1] 1 [Byte.x01]) []
              (Hip.mkCtx (BooleanUnmask.mkOutputs (RawTensor.mk [0] 1 []) (Tensor.mk [0] []))
                 []))
    as [Hrun Hassert].
  - exact default_config_ok.
  - reflexivity.
  - split; [exact Hrun |].
    apply (Hassert 1 [0; 0]).
    + vm_compute. split; discriminate || reflexivity.
    + vm_compute. reflexivity.
    + reflexivity.
Defined.

Lemma boolean_mask_unmask_witness :
  exists c1 c2 c3,
    BooleanMask.RunOnDevice Hip.default_config 100 1
      (RawTensor.mk [3] 1 [Byte.x01; Byte.x02; Byte.x03])
      (Tensor.mk [3] [true; false; true])
      (Hip.mkCtx (BooleanMask.mkOutputs (RawTensor.mk [0] 1 []) (Tensor.mk [0] [])
                    (Tensor.mk [0] []) (Tensor.mk [0] [])) [])
    = (Ok true, c1) /\
    BooleanMask.RunOnDevice Hip.default_config 100 1
      (RawTensor.mk [3] 1 [Byte.x01; Byte.x02; Byte.x03])
      (Tensor.mk [3] [false; true; false])
      (Hip.mkCtx (BooleanMask.mkOutputs (RawTensor.mk [0] 1 []) (Tensor.mk [0] [])
                    (Tensor.mk [0] []) (Tensor.mk [0] [])) [])
    = (Ok true, c2) /\
    BooleanUnmask.RunOnDevice Hip.default_config (fun o => o)
      [(Tensor.mk [3] [true; false; true], BooleanMask.dest (Hip.outs c1));
       (Tensor.mk [3] [false; true; false], BooleanMask.dest (Hip.outs c2))]
      (Hip.mkCtx (BooleanUnmask.mkOutputs (RawTensor.mk [0] 1 []) (Tensor.mk [0] [])) [])
    = (Ok true, c3) /\
    RawTensor.bytes (BooleanUnmask.out (Hip.outs c3)) = [Byte.x01; Byte.x02; Byte.x03].
Proof.
  destruct (boolean_mask_unmask_round_trip Hip.default_config 100 1 1
              (RawTensor.mk [3] 1 [Byte.x01; Byte.x02; Byte.x03])
              (Tensor.mk [3] [true; false; true])
              (Hip.mkCtx (BooleanMask.mkOutputs (RawTensor.mk [0] 1 []) (Tensor.mk [0] [])
                            (Tensor.mk [0] []) (Tensor.mk [0] [])) [])
              (Hip.mkCtx (BooleanMask.mkOutputs (RawTensor.mk [0] 1 []) (Tensor.mk [0] [])
                            (Tensor.mk [0] []) (Tensor.mk [0] [])) [])
              (fun o => o)
              (Hip.mkCtx (BooleanUnmask.mkOutputs (RawTensor.mk [0] 1 [])
                            (Tensor.mk [0] [])) []))
    as (c1 & c2 & c3 & E1 & E2 & E3 & _ & _ & Hb).
  - exact default_config_ok.
  - lia.
  - split; [repeat constructor; lia | split; [simpl; lia | reflexivity]].
  - split; [repeat constructor; lia | reflexivity].
  - reflexivity.
  - reflexivity.
  - reflexivity.
  - vm_compute. discriminate.
  - exists c1, c2, c3. split; [exact E1 |]. split; [exact E2 |]. split; [exact E3 |].
    exact Hb.
Defined.

(** Closed arithmetic goals over concrete tensors, by evaluation. *)
Ltac eval_goal :=
  lazymatch goal with
  | |- _ /\ _ => split; eval_goal
  | |- _ \/ _ => first [left; eval_goal | right; eval_goal]
  | |- _ <= _ => apply Z.leb_le; vm_compute; reflexivity
  | |- _ < _ => apply Z.ltb_lt; vm_compute; reflexivity
  | |- _ <> _ => vm_compute; discriminate
  | |- _ = _ -> _ =>
      let E := fresh in intros E; vm_compute in E; first [reflexivity | discriminate E]
  | |- _ = _ => vm_compute; reflexivity
  end.


(** * Sparse Adagrad *)

Section LocalUpdates.

Import Hip Adagrad.

(** A loop whose iterations own disjoint sets of cells: iteration [j]
    writes only cells it owns, and what it writes there depends only on
    cells that no other iteration owns.  Then every owned cell ends on its
    [target] and all other cells stay as they were. *)
Variables (body : Z -> Mem -> Mem) (owns : Z -> Z -> Prop) (target : Z -> Mem) (m0 : Mem).

Let settled (done : list Z) (m : Mem) : Prop :=
  (forall j q, In j done -> owns j q -> m q = target j q) /\
  (forall q, (forall j, In j done -> ~ owns j q) -> m q = m0 q).

Lemma run_local_from todo : forall done m,
  List.NoDup (done ++ todo) ->
  (forall j m q, In j (done ++ todo) -> ~ owns j q -> body j m q = m q) ->
  (forall j j' q, In j (done ++ todo) -> In j' (done ++ todo) ->
     owns j q -> owns j' q -> j = j') ->
  (forall j m, In j (done ++ todo) ->
     (forall q, (forall j', In j' (done ++ todo) -> j' <> j -> ~ owns j' q) -> m q = m0 q) ->
     forall q, owns j q -> body j m q = target j q) ->
  settled done m ->
  settled (done ++ todo) (run body todo m).
Proof.
  induction todo as [| x todo IH]; intros done m Hnd Hframe Hdisj Hlocal [Hown Hrest].
  - rewrite app_nil_r. split; assumption.
  - assert (In x (done ++ x :: todo)) as Hx by (apply in_or_app; right; left; reflexivity).
    assert (~ In x done) as Hxd.
    { intros Hin. apply NoDup_ListNoDup in Hnd. apply NoDup_app in Hnd as (_ & Hd & _).
      apply (Hd x); [apply list_elem_of_In; exact Hin | left]. }
    rewrite run_cons.
    replace (done ++ x :: todo) with ((done ++ [x]) ++ todo) in *
      by (rewrite <- app_assoc; reflexivity).
    apply IH; try assumption.
    split.
    + intros j q Hj Hq. apply in_app_or in Hj as [Hj | [<- | []]].
      * rewrite Hframe; [apply (Hown j q Hj Hq) | exact Hx |].
        intros Hxq.
        assert (x = j) as <-
          by (apply (Hdisj x j q); [exact Hx | apply in_or_app; left; apply in_or_app; left; exact Hj
                                    | exact Hxq | exact Hq]).
        contradiction.
      * apply Hlocal; [exact Hx | | exact Hq].
        intros q' Hq'. apply Hrest. intros j' Hj'. apply Hq'.
        -- apply in_or_app. left. apply in_or_app. left. exact Hj'.
        -- intros ->. contradiction.
    + intros q Hq. rewrite Hframe; [| exact Hx |].
      * apply Hrest. intros j Hj. apply Hq. apply in_or_app. left. exact Hj.
      * apply Hq. apply in_or_app. right. left. reflexivity.
Qed.

Lemma run_local l :
  List.NoDup l ->
  (forall j m q, In j l -> ~ owns j q -> body j m q = m q) ->
  (forall j j' q, In j l -> In j' l -> owns j q -> owns j' q -> j = j') ->
  (forall j m, In j l ->
     (forall q, (forall j', In j' l -> j' <> j -> ~ owns j' q) -> m q = m0 q) ->
     forall q, owns j q -> body j m q = target j q) ->
  (forall j q, In j l -> owns j q -> run body l m0 q = target j q) /\
  (forall q, (forall j, In j l -> ~ owns j q) -> run body l m0 q = m0 q).
Proof.
  intros Hnd Hframe Hdisj Hlocal.
  apply (run_local_from l [] m0); try assumption.
  split; [intros j q [] | intros q _; reflexivity].
Qed.

End LocalUpdates.

Section ThreadSchedules.

Import Hip Adagrad.

Lemma fold_left_inv_ext {S X : Type} (P : S -> Prop) (f g : S -> X -> S) (l : list X) :
  (forall s x, In x l -> P s -> f s x = g s x) ->
  (forall s x, In x l -> P s -> P (g s x)) ->
  forall s, P s -> fold_left f l s = fold_left g l s.
Proof.
  induction l as [| x l IH]; intros Hfg Hpres s Hs; [reflexivity |].
  cbn [fold_left]. rewrite Hfg by (auto; left; reflexivity).
  apply IH.
  - intros s' y Hy. apply Hfg. right. exact Hy.
  - intros s' y Hy. apply Hpres. right. exact Hy.
  - apply Hpres; [left; reflexivity | exact Hs].
Qed.

Lemma run_inv {S : Type} (P : S -> Prop) (body : Z -> S -> S) (l : list Z) :
  (forall i s, In i l -> P s -> P (body i s)) ->
  forall s, P s -> P (run body l s).
Proof.
  induction l as [| x l IH]; intros Hpres s Hs; [exact Hs |].
  rewrite run_cons. apply IH.
  - intros i s' Hi. apply Hpres. right. exact Hi.
  - apply Hpres; [left; reflexivity | exact Hs].
Qed.

Lemma fold_left_runs {S : Type} (body : Z -> S -> S) (ls : list (list Z)) : forall s,
  fold_left (fun s l => run body l s) ls s = run body (concat ls) s.
Proof.
  induction ls as [| l ls IH]; intros s; [reflexivity |].
  cbn [fold_left concat]. rewrite run_app. apply IH.
Qed.

Lemma concat_thread_pairs {Y : Type} (f : Z -> Z -> list Y) (G B : list Z) :
  concat (map (fun bt : Z * Z => f (fst bt) (snd bt))
              (flat_map (fun b => map (fun t => (b, t)) B) G))
  = flat_map (fun b => flat_map (fun t => f b t) B) G.
Proof.
  induction G as [| b G IH]; [reflexivity |].
  cbn [flat_map]. rewrite map_app, concat_app, IH. f_equal.
  clear. induction B as [| t B IH]; [reflexivity |].
  cbn [map concat flat_map fst snd]. rewrite IH. reflexivity.
Qed.

(** Threads that run one loop body over the indices they own, taken one
    after the other, run the body over the whole schedule. *)
Lemma run_threads_flat {S : Type} (gridDim blockDim n : Z) (body : Z -> S -> S) (s : S) :
  run_threads gridDim blockDim n (fun idxs s => run body idxs s) s
  = run body (HIP_1D_KERNEL_LOOP gridDim blockDim n) s.
Proof.
  unfold run_threads, HIP_1D_KERNEL_LOOP.
  rewrite <- (concat_thread_pairs (fun b t => thread_indices gridDim blockDim b t n)).
  rewrite <- fold_left_runs.
  rewrite fold_left_map_list. reflexivity.
Qed.

Lemma in_thread_pairs (gridDim blockDim : Z) (bt : Z * Z) :
  In bt (flat_map (fun b => map (fun t => (b, t)) (zrange blockDim)) (zrange gridDim)) ->
  0 <= fst bt < gridDim /\ 0 <= snd bt < blockDim.
Proof.
  intros Hin. apply in_flat_map in Hin as (b & Hb & Hin).
  apply in_map_iff in Hin as (t & <- & Ht).
  apply in_zrange in Hb, Ht. cbn [fst snd]. split; assumption.
Qed.

End ThreadSchedules.

Section SparseAdagradFacts.

Import Hip Adagrad AdagradSpec.

Variables (N S rows : Z) (epsilon : R) (param mom : Z) (indices : list Z)
          (grad lr : Z) (m0 : Mem).

Let ix (r : Z) : Z := load 0 indices r.
Let cell (i : Z) : Z := ix (Z.quot i S) * S + Z.rem i S.

Hypothesis S_pos : 0 < S.
Hypothesis ix_range : forall i, 0 <= i < N -> 0 <= ix (Z.quot i S) < rows.
Hypothesis ix_inj : forall i i', 0 <= i < N -> 0 <= i' < N ->
  ix (Z.quot i S) = ix (Z.quot i' S) -> Z.quot i S = Z.quot i' S.
Hypothesis param_mom : apart param (rows * S) mom (rows * S).
Hypothesis grad_param : apart grad N param (rows * S).
Hypothesis grad_mom : apart grad N mom (rows * S).
Hypothesis lr_param : outside lr param (rows * S).
Hypothesis lr_mom : outside lr mom (rows * S).

Let new_mom (i : Z) : R := (m0 (grad + i)%Z * m0 (grad + i)%Z + m0 (mom + cell i)%Z)%R.
Let new_param (i : Z) : R :=
  (m0 lr * m0 (grad + i)%Z / (sqrt (new_mom i) + epsilon) + m0 (param + cell i)%Z)%R.

(** The loop body of [SparseAdagradKernel], with the learning rate the
    thread read at its start. *)
Let body (LR : R) (i : Z) (m : Mem) : Mem :=
  let gradIdx := i in
  let index := load 0 indices (Z.quot i S) in
  let paramIdx := index * S + Z.rem i S in
  let mom_new :=
    mixed_add (m (grad + gradIdx)%Z * m (grad + gradIdx)%Z)%R (m (mom + paramIdx)) in
  let m := mixed_store mom_new (mom + paramIdx) m in
  let param_new :=
    mixed_add (LR * m (grad + gradIdx)%Z / (sqrt mom_new + epsilon))%R
              (m (param + paramIdx)) in
  mixed_store param_new (param + paramIdx) m.

Let owns (i q : Z) : Prop := q = mom + cell i \/ q = param + cell i.
Let target (i : Z) : Mem := fun q => if q =? mom + cell i then new_mom i else new_param i.

Lemma sparse_cell_range i : 0 <= i < N -> 0 <= cell i < rows * S.
Proof.
  intros Hi. pose proof (ix_range i Hi) as Hr. unfold cell.
  assert (0 <= Z.rem i S < S) by (apply Z.rem_bound_pos; lia).
  nia.
Qed.

Lemma sparse_cell_inj i i' : 0 <= i < N -> 0 <= i' < N -> cell i = cell i' -> i = i'.
Proof.
  intros Hi Hi' E. unfold cell in E.
  assert (0 <= Z.rem i S < S) by (apply Z.rem_bound_pos; lia).
  assert (0 <= Z.rem i' S < S) by (apply Z.rem_bound_pos; lia).
  assert (ix (Z.quot i S) = ix (Z.quot i' S)) as Eix by nia.
  pose proof (ix_inj i i' Hi Hi' Eix) as Eq.
  assert (Z.rem i S = Z.rem i' S) as Er by nia.
  rewrite (Z.quot_rem' i S), (Z.quot_rem' i' S), Eq, Er. reflexivity.
Qed.

Lemma sparse_body_frame LR i m q : ~ owns i q -> body LR i m q = m q.
Proof.
  intros Hq. unfold body, mixed_store. cbv zeta.
  change (load 0 indices (Z.quot i S) * S + Z.rem i S) with (cell i).
  rewrite poke_other by (intros E; apply Hq; right; exact E).
  rewrite poke_other by (intros E; apply Hq; left; exact E).
  reflexivity.
Qed.

Lemma sparse_body_local l i m :
  (forall x, In x l -> 0 <= x < N) -> In i l ->
  (forall q, (forall j', In j' l -> j' <> i -> ~ owns j' q) -> m q = m0 q) ->
  forall q, owns i q -> body (m0 lr) i m q = target i q.
Proof.
  intros Hl Hi Hm q Hq.
  pose proof (Hl i Hi) as Hi0. pose proof (sparse_cell_range i Hi0) as Hc.
  unfold apart, outside in *.
  assert (forall j', In j' l -> j' <> i ->
            cell j' <> cell i /\ 0 <= cell j' < rows * S) as Hother.
  { intros j' Hj' Hne. split; [| apply sparse_cell_range; apply Hl; exact Hj'].
    intros E. apply Hne. apply sparse_cell_inj; auto. }
  assert (m (grad + i) = m0 (grad + i)) as Eg.
  { apply Hm. intros j' Hj' Hne [E | E]; destruct (Hother j' Hj' Hne); lia. }
  assert (m (mom + cell i) = m0 (mom + cell i)) as Em.
  { apply Hm. intros j' Hj' Hne [E | E]; destruct (Hother j' Hj' Hne); lia. }
  assert (m (param + cell i) = m0 (param + cell i)) as Ep.
  { apply Hm. intros j' Hj' Hne [E | E]; destruct (Hother j' Hj' Hne); lia. }
  unfold body, mixed_store, mixed_add, target. cbv zeta.
  change (load 0 indices (Z.quot i S) * S + Z.rem i S) with (cell i).
  destruct Hq as [-> | ->].
  - rewrite Z.eqb_refl. rewrite poke_other by lia. rewrite poke_same.
    unfold new_mom. rewrite Eg, Em. reflexivity.
  - destruct (Z.eqb_spec (param + cell i) (mom + cell i)) as [E | _]; [lia |].
    rewrite poke_same. rewrite !poke_other by lia.
    unfold new_param, new_mom. rewrite Eg, Em, Ep. reflexivity.
Qed.

Lemma SparseAdagradKernel_spec gridDim blockDim :
  0 < gridDim -> 0 < blockDim ->
  let m' := SparseAdagradKernel gridDim blockDim N S epsilon param mom indices grad lr m0 in
  (forall i, 0 <= i < N ->
     m' (mom + cell i) = new_mom i /\ m' (param + cell i) = new_param i) /\
  (forall q, (forall i, 0 <= i < N -> q <> mom + cell i /\ q <> param + cell i) ->
     m' q = m0 q).
Proof.
  intros Hg Hb m'.
  pose proof (HIP_1D_KERNEL_LOOP_perm gridDim blockDim N Hg Hb) as HP.
  assert (forall x, In x (HIP_1D_KERNEL_LOOP gridDim blockDim N) <-> 0 <= x < N) as Hin.
  { intros x. rewrite <- in_zrange. split; intros Hx.
    - eapply Permutation_in; [exact HP | exact Hx].
    - eapply Permutation_in; [apply Permutation_sym; exact HP | exact Hx]. }
  assert (forall i, 0 <= i < N -> ~ owns i lr) as Hlr.
  { intros i Hi [E | E]; pose proof (sparse_cell_range i Hi);
      unfold outside in *; lia. }
  assert (m' = run (body (m0 lr)) (HIP_1D_KERNEL_LOOP gridDim blockDim N) m0) as ->.
  { rewrite <- run_threads_flat. unfold m', SparseAdagradKernel, run_threads.
    apply (fold_left_inv_ext (fun m : Mem => m lr = m0 lr)); [| | reflexivity].
    - intros m bt _ Hm. cbv zeta. rewrite Hm. reflexivity.
    - intros m bt Hbt Hm. apply in_thread_pairs in Hbt as [Hb0 Ht0].
      apply (run_inv (fun m : Mem => m lr = m0 lr)); [| exact Hm].
      intros i s Hi Hs. rewrite (sparse_body_frame (m0 lr) i s lr); [exact Hs |].
      apply Hlr. apply (thread_indices_range gridDim blockDim (fst bt) (snd bt)); [nia | nia | exact Hi]. }
  destruct (run_local (body (m0 lr)) owns target m0 (HIP_1D_KERNEL_LOOP gridDim blockDim N))
    as [Hown Hrest].
  - eapply Permutation_NoDup; [apply Permutation_sym; exact HP | apply NoDup_zrange].
  - intros j m q _. apply sparse_body_frame.
  - intros j j' q Hj Hj' Hq Hq'. apply Hin in Hj, Hj'.
    pose proof (sparse_cell_range j Hj). pose proof (sparse_cell_range j' Hj').
    apply sparse_cell_inj; [assumption | assumption |].
    unfold apart in *. destruct Hq as [-> | ->], Hq' as [E | E]; lia.
  - intros j m Hj. apply sparse_body_local; [| exact Hj]. intros x Hx. apply Hin. exact Hx.
  - split.
    + intros i Hi. pose proof (sparse_cell_range i Hi) as Hc. split.
      * rewrite (Hown i); [| apply Hin; exact Hi | left; reflexivity].
        unfold target. rewrite Z.eqb_refl. reflexivity.
      * rewrite (Hown i); [| apply Hin; exact Hi | right; reflexivity].
        unfold target. unfold apart in *.
        destruct (Z.eqb_spec (param + cell i) (mom + cell i)); [lia | reflexivity].
    + intros q Hq. apply Hrest. intros j Hj [E | E]; apply Hin in Hj;
        destruct (Hq j Hj); contradiction.
Qed.

End SparseAdagradFacts.

Lemma adagrad_size_split (x : Adagrad.DevTensor) (k : Z) :
  Adagrad.size x
  = Tensor.prod_dims (take (Z.to_nat k) (Adagrad.dims x)) * Adagrad.size_from_dim x k.
Proof.
  unfold Adagrad.size, Adagrad.size_from_dim.
  rewrite <- prod_dims_app, take_drop. reflexivity.
Qed.

Lemma quot_row_range i K S : 0 < S -> 0 <= i < K * S -> 0 <= Z.quot i S < K.
Proof.
  intros HS Hi. rewrite Z.quot_div_nonneg by lia. split.
  - apply Z.div_pos; lia.
  - apply Z.div_lt_upper_bound; lia.
Qed.

(** With the shape checks met, supported types and non-empty indices and
    gradient, the operator is one launch of [SparseAdagradKernel] on the
    output buffers. *)
Lemma Sparse_RunOnDevice_run (cfg : Hip.Config) (op : Adagrad.HIPSparseAdagradOp)
    (inp : Adagrad.SparseInputs) (OUTPUT_PARAM OUTPUT_MOMENT_1 : Z)
    (c : Hip.Ctx Adagrad.Mem) :
  let nd := Tensor.ndim (Adagrad.idx (Adagrad.INDICES inp)) in
  let S := Adagrad.size_from_dim (Adagrad.GRAD inp) nd in
  let N := Adagrad.size (Adagrad.GRAD inp) in
  Adagrad.size (Adagrad.PARAM inp) = Adagrad.size (Adagrad.MOMENT_1 inp) ->
  Adagrad.size (Adagrad.LR inp) = 1 ->
  Adagrad.size_from_dim (Adagrad.PARAM inp) 1 = S ->
  Adagrad.idx_dtype (Adagrad.INDICES inp) = TInt32 \/
  Adagrad.idx_dtype (Adagrad.INDICES inp) = TInt64 ->
  Adagrad.dtype (Adagrad.PARAM inp) = TFloat \/
  Adagrad.dtype (Adagrad.PARAM inp) = TFloat16 ->
  Tensor.size (Adagrad.idx (Adagrad.INDICES inp)) <> 0 ->
  N <> 0 ->
  Adagrad.Sparse_RunOnDevice cfg op inp OUTPUT_PARAM OUTPUT_MOMENT_1 c
  = (Ok true,
     Hip.mkCtx
       (Adagrad.SparseAdagradKernel (Hip.CAFFE_GET_BLOCKS cfg N)
          (Hip.CAFFE_HIP_NUM_THREADS cfg) N S (Adagrad.epsilon_ op)
          OUTPUT_PARAM OUTPUT_MOMENT_1 (Tensor.data (Adagrad.idx (Adagrad.INDICES inp)))
          (Adagrad.ptr (Adagrad.GRAD inp)) (Adagrad.ptr (Adagrad.LR inp)) (Hip.outs c))
       (Hip.launches c ++
        [Hip.mkLaunch "SparseAdagradKernel" (Hip.CAFFE_GET_BLOCKS cfg N)
           (Hip.CAFFE_HIP_NUM_THREADS cfg)])).
Proof.
  intros nd S N E1 E2 E3 Hidx Hty Hn HN.
  unfold Adagrad.Sparse_RunOnDevice, bind, CAFFE_ENFORCE.
  rewrite E1, E2, E3. fold nd. fold S. rewrite !Z.eqb_refl.
  assert (Adagrad.Sparse_DoRunWithType2 cfg op inp OUTPUT_PARAM OUTPUT_MOMENT_1 c
          = (Ok true,
             Hip.mkCtx
               (Adagrad.SparseAdagradKernel (Hip.CAFFE_GET_BLOCKS cfg N)
                  (Hip.CAFFE_HIP_NUM_THREADS cfg) N S (Adagrad.epsilon_ op)
                  OUTPUT_PARAM OUTPUT_MOMENT_1
                  (Tensor.data (Adagrad.idx (Adagrad.INDICES inp)))
                  (Adagrad.ptr (Adagrad.GRAD inp)) (Adagrad.ptr (Adagrad.LR inp))
                  (Hip.outs c))
               (Hip.launches c ++
                [Hip.mkLaunch "SparseAdagradKernel" (Hip.CAFFE_GET_BLOCKS cfg N)
                   (Hip.CAFFE_HIP_NUM_THREADS cfg)]))) as E.
  { unfold Adagrad.Sparse_DoRunWithType2. fold N. fold nd. fold S.
    destruct (Z.eqb_spec N 0) as [E0 | _]; [contradiction |]. reflexivity. }
  assert (Adagrad.Sparse_DoRunWithType cfg op inp OUTPUT_PARAM OUTPUT_MOMENT_1 c
          = Adagrad.Sparse_DoRunWithType2 cfg op inp OUTPUT_PARAM OUTPUT_MOMENT_1 c) as E'.
  { unfold Adagrad.Sparse_DoRunWithType.
    destruct (Z.eqb_spec (Tensor.size (Adagrad.idx (Adagrad.INDICES inp))) 0);
      [contradiction |].
    destruct Hty as [-> | ->]; reflexivity. }
  destruct Hidx as [-> | ->]; rewrite E'; exact E.
Qed.

(** X14.  SparseAdagrad updates the rows its indices name, in the output
    buffers.  For a gradient of [K] rows of [S] elements, pairwise
    distinct row indices below [rows], and buffers that do not overlap,
    one kernel is launched, and element [k] of the row [indices[r]] gets
    the moment [g^2 + moment] and the parameter
    [lr * g / (sqrt(new moment) + epsilon) + param], where [g] is element
    [k] of gradient row [r], and [moment], [param] are what the output
    buffers held before the call (the PARAM and MOMENT_1 inputs are not
    read).  All other cells keep their contents. *)
Theorem sparse_adagrad_updates_indexed_rows (cfg : Hip.Config)
    (op : Adagrad.HIPSparseAdagradOp) (inp : Adagrad.SparseInputs)
    (OUTPUT_PARAM OUTPUT_MOMENT_1 rows : Z) (c : Hip.Ctx Adagrad.Mem) :
  let indices := Tensor.data (Adagrad.idx (Adagrad.INDICES inp)) in
  let nd := Tensor.ndim (Adagrad.idx (Adagrad.INDICES inp)) in
  let S := Adagrad.size_from_dim (Adagrad.GRAD inp) nd in
  let K := Tensor.prod_dims (take (Z.to_nat nd) (Adagrad.dims (Adagrad.GRAD inp))) in
  let grad := Adagrad.ptr (Adagrad.GRAD inp) in
  let lr := Adagrad.ptr (Adagrad.LR inp) in
  Hip.config_ok cfg ->
  Adagrad.size (Adagrad.PARAM inp) = Adagrad.size (Adagrad.MOMENT_1 inp) ->
  Adagrad.size (Adagrad.LR inp) = 1 ->
  Adagrad.size_from_dim (Adagrad.PARAM inp) 1 = S ->
  Adagrad.idx_dtype (Adagrad.INDICES inp) = TInt32 \/
  Adagrad.idx_dtype (Adagrad.INDICES inp) = TInt64 ->
  Adagrad.dtype (Adagrad.PARAM inp) = TFloat \/
  Adagrad.dtype (Adagrad.PARAM inp) = TFloat16 ->
  Tensor.size (Adagrad.idx (Adagrad.INDICES inp)) <> 0 ->
  0 < S -> 0 < K ->
  (forall r, 0 <= r < K -> 0 <= load 0 indices r < rows) ->
  (forall r r', 0 <= r < K -> 0 <= r' < K ->
     load 0 indices r = load 0 indices r' -> r = r') ->
  AdagradSpec.apart OUTPUT_PARAM (rows * S) OUTPUT_MOMENT_1 (rows * S) ->
  AdagradSpec.apart grad (K * S) OUTPUT_PARAM (rows * S) ->
  AdagradSpec.apart grad (K * S) OUTPUT_MOMENT_1 (rows * S) ->
  Adagrad.outside lr OUTPUT_PARAM (rows * S) ->
  Adagrad.outside lr OUTPUT_MOMENT_1 (rows * S) ->
  exists c',
    Adagrad.Sparse_RunOnDevice cfg op inp OUTPUT_PARAM OUTPUT_MOMENT_1 c = (Ok true, c') /\
    Hip.launches c'
    = Hip.launches c ++
      [Hip.mkLaunch "SparseAdagradKernel" (Hip.CAFFE_GET_BLOCKS cfg (K * S))
         (Hip.CAFFE_HIP_NUM_THREADS cfg)] /\
    (forall r k, 0 <= r < K -> 0 <= k < S ->
       let p := load 0 indices r * S + k in
       let g := Hip.outs c (grad + (r * S + k)) in
       Hip.outs c' (OUTPUT_MOMENT_1 + p)
       = (g * g + Hip.outs c (OUTPUT_MOMENT_1 + p)%Z)%R /\
       Hip.outs c' (OUTPUT_PARAM + p)
       = (Hip.outs c lr * g
          / (sqrt (Hip.outs c' (OUTPUT_MOMENT_1 + p)%Z) + Adagrad.epsilon_ op)
          + Hip.outs c (OUTPUT_PARAM + p)%Z)%R) /\
    (forall q,
       (forall r k, 0 <= r < K -> 0 <= k < S ->
          q <> OUTPUT_MOMENT_1 + (load 0 indices r * S + k) /\
          q <> OUTPUT_PARAM + (load 0 indices r * S + k)) ->
       Hip.outs c' q = Hip.outs c q).
Proof.
  intros indices nd S K grad lr Hcfg E1 E2 E3 Hidx Hty Hn HS HK Hrange Hinj
         Hpm Hgp Hgm Hlp Hlm.
  assert (Adagrad.size (Adagrad.GRAD inp) = K * S) as EN
    by exact (adagrad_size_split (Adagrad.GRAD inp) nd).
  assert (0 < K * S) as HN by nia.
  assert (0 < Hip.CAFFE_GET_BLOCKS cfg (K * S)) as Hgrid
    by (destruct Hcfg as (_ & _ & Hg); apply Hg; exact HN).
  assert (0 < Hip.CAFFE_HIP_NUM_THREADS cfg) as Hblock by (destruct Hcfg as (Ht & _); exact Ht).
  assert (forall i, 0 <= i < K * S -> 0 <= load 0 indices (Z.quot i S) < rows) as Hrange'.
  { intros i Hi. apply Hrange. apply quot_row_range; assumption. }
  assert (forall i i', 0 <= i < K * S -> 0 <= i' < K * S ->
            load 0 indices (Z.quot i S) = load 0 indices (Z.quot i' S) ->
            Z.quot i S = Z.quot i' S) as Hinj'.
  { intros i i' Hi Hi' E. apply Hinj; [apply quot_row_range | apply quot_row_range |]; assumption. }
  destruct (SparseAdagradKernel_spec (K * S) S rows (Adagrad.epsilon_ op)
              OUTPUT_PARAM OUTPUT_MOMENT_1 indices grad lr (Hip.outs c) HS
              Hrange' Hinj' Hpm Hgp Hgm Hlp Hlm
              (Hip.CAFFE_GET_BLOCKS cfg (K * S)) (Hip.CAFFE_HIP_NUM_THREADS cfg)
              Hgrid Hblock) as [Hup Hfr].
  exists (Hip.mkCtx
            (Adagrad.SparseAdagradKernel (Hip.CAFFE_GET_BLOCKS cfg (K * S))
               (Hip.CAFFE_HIP_NUM_THREADS cfg) (K * S) S (Adagrad.epsilon_ op)
               OUTPUT_PARAM OUTPUT_MOMENT_1 indices grad lr (Hip.outs c))
            (Hip.launches c ++
             [Hip.mkLaunch "SparseAdagradKernel" (Hip.CAFFE_GET_BLOCKS cfg (K * S))
                (Hip.CAFFE_HIP_NUM_THREADS cfg)])).
  split; [| split; [| split]].
  - rewrite (Sparse_RunOnDevice_run cfg op inp OUTPUT_PARAM OUTPUT_MOMENT_1 c
               E1 E2 E3 Hidx Hty Hn) by (rewrite EN; lia).
    rewrite EN. reflexivity.
  - reflexivity.
  - intros r k Hr Hk. cbv zeta. cbn [Hip.outs].
    assert (0 <= r * S + k < K * S) as Hi by nia.
    destruct (Hup (r * S + k) Hi) as [Em Ep].
    destruct (quot_rem_row r k S) as [Eq Er]; [lia | lia |].
    rewrite Eq, Er in Em, Ep.
    split; [exact Em |]. rewrite Ep, Em. reflexivity.
  - cbn [Hip.outs]. intros q Hq. apply Hfr. intros i Hi.
    pose proof (quot_row_range i K S HS Hi) as Hr.
    assert (0 <= Z.rem i S < S) as Hk by (apply Z.rem_bound_pos; lia).
    exact (Hq (Z.quot i S) (Z.rem i S) Hr Hk).
Qed.

Section RealSums.

Import Hip.

Lemma sum_permutation {X : Type} (f : X -> R) (l1 l2 : list X) :
  Permutation l1 l2 ->
  forall a, fold_left Rplus (map f l1) a = fold_left Rplus (map f l2) a.
Proof.
  induction 1 as [| x l l' HP IH | x y l | l l' l'' HP1 IH1 HP2 IH2]; intros a;
    cbn [map fold_left].
  - reflexivity.
  - apply IH.
  - f_equal. lra.
  - rewrite IH1. apply IH2.
Qed.

Lemma fold_sum_map {X : Type} (f : X -> R) (l : list X) : forall a,
  fold_left (fun acc x => (acc + f x)%R) l a = fold_left Rplus (map f l) a.
Proof.
  induction l as [| x l IH]; intros a; [reflexivity |]. cbn [map fold_left]. apply IH.
Qed.

(** The partial sums of the threads, added up, are the sum over all the
    indices of the threads. *)
Lemma sum_nested {X : Type} (f : Z -> R) (g : X -> list Z) (l : list X) : forall a,
  fold_left (fun acc t => (acc + fold_left (fun s j => (s + f j)%R) (g t) 0%R)%R) l a
  = fold_left Rplus (map f (flat_map g l)) a.
Proof.
  induction l as [| t l IH]; intros a; [reflexivity |].
  cbn [fold_left flat_map]. rewrite IH, map_app, fold_left_app. f_equal.
  rewrite fold_sum_map. rewrite (fold_Rplus_acc _ a). reflexivity.
Qed.

Lemma fold_left_run_flat_map {S X : Type} (body : Z -> S -> S) (f : X -> list Z)
    (l : list X) : forall s,
  fold_left (fun s t => run body (f t) s) l s = run body (flat_map f l) s.
Proof.
  induction l as [| t l IH]; intros s; [reflexivity |].
  cbn [fold_left flat_map]. rewrite run_app. apply IH.
Qed.

(** The threads of a block, each striding by the block size, visit every
    column below [n] once. *)
Lemma block_stride_perm (blockDim n : Z) :
  0 < blockDim ->
  Permutation (flat_map (fun t => stride_loop (Z.to_nat n) t blockDim n) (zrange blockDim))
              (zrange n).
Proof.
  intros HB. apply (strided_threads_perm blockDim n (fun t => t)); [exact HB | reflexivity].
Qed.

End RealSums.

Section RowWiseAdagradFacts.

Import Hip Adagrad AdagradSpec.

Variables (blockDim M N rows : Z) (epsilon : R) (param mom : Z) (indices : list Z)
          (grad lr : Z) (m0 : Mem).

Let ix (i : Z) : Z := load 0 indices i.

Hypothesis blockDim_pos : 0 < blockDim.
Hypothesis N_pos : 0 < N.
Hypothesis ix_range : forall i, 0 <= i < M -> 0 <= ix i < rows.
Hypothesis ix_inj : forall i i', 0 <= i < M -> 0 <= i' < M -> ix i = ix i' -> i = i'.
Hypothesis param_mom : apart param (rows * N) mom rows.
Hypothesis grad_param : apart grad (M * N) param (rows * N).
Hypothesis grad_mom : apart grad (M * N) mom rows.
Hypothesis lr_param : outside lr param (rows * N).
Hypothesis lr_mom : outside lr mom rows.

Let new_mom (i : Z) : R :=
  (m0 (mom + ix i)%Z + row_sum_squares m0 grad N i / IZR N)%R.
Let step (i : Z) : R := (m0 lr / (sqrt (new_mom i) + epsilon))%R.

Let owns (i q : Z) : Prop :=
  q = mom + ix i \/ exists j, 0 <= j < N /\ q = param + (ix i * N + j).
Let target (i : Z) : Mem :=
  fun q => if q =? mom + ix i then new_mom i
           else (m0 q + m0 (grad + (i * N + (q - param - ix i * N)))%Z * step i)%R.

Let cols : list Z :=
  flat_map (fun t => stride_loop (Z.to_nat N) t blockDim N) (zrange blockDim).

Lemma in_cols j : In j cols <-> 0 <= j < N.
Proof.
  rewrite <- in_zrange. split; intros Hj.
  - eapply Permutation_in; [apply block_stride_perm; exact blockDim_pos | exact Hj].
  - eapply Permutation_in;
      [apply Permutation_sym, block_stride_perm; exact blockDim_pos | exact Hj].
Qed.

(** One row, as the block handles it: the moment first, then the
    parameters of the row, column by column. *)
Lemma RowWise_row_unfold i m :
  RowWise_row blockDim N epsilon param mom indices grad lr i m
  = let m1 := poke m (mom + ix i)
                (m (mom + ix i)%Z + row_sum_squares m grad N i / IZR N)%R in
    let st := (m1 lr / (sqrt (m1 (mom + ix i)%Z) + epsilon))%R in
    run (fun j m =>
           poke m (param + (ix i * N + j))
             (m (param + (ix i * N + j))%Z + m (grad + (i * N + j))%Z * st)%R)
        cols m1.
Proof.
  unfold RowWise_row. cbv zeta. fold (ix i).
  rewrite (sum_nested (fun j => (m (grad + (i * N + j))%Z * m (grad + (i * N + j))%Z)%R)
             (fun t => stride_loop (Z.to_nat N) t blockDim N)).
  rewrite (sum_permutation _ _ (zrange N) (block_stride_perm blockDim N blockDim_pos)).
  fold (row_sum_squares m grad N i).
  rewrite (fold_left_run_flat_map
             (fun j m' =>
                poke m' (param + (ix i * N + j))
                  (m' (param + (ix i * N + j))%Z
                   + m' (grad + (i * N + j))%Z
                     * (poke m (mom + ix i)
                          (m (mom + ix i)%Z + row_sum_squares m grad N i / IZR N)%R lr
                        / (sqrt (poke m (mom + ix i)
                                   (m (mom + ix i)%Z
                                    + row_sum_squares m grad N i / IZR N)%R
                                   (mom + ix i)%Z) + epsilon)))%R)
             (fun t => stride_loop (Z.to_nat N) t blockDim N)).
  reflexivity.
Qed.

Lemma RowWise_row_frame i m q : ~ owns i q ->
  RowWise_row blockDim N epsilon param mom indices grad lr i m q = m q.
Proof.
  intros Hq. rewrite RowWise_row_unfold. cbv zeta.
  transitivity (poke m (mom + ix i)
                  (m (mom + ix i)%Z + row_sum_squares m grad N i / IZR N)%R q).
  - apply (run_inv (fun m' : Mem => m' q = poke m (mom + ix i)
                  (m (mom + ix i)%Z + row_sum_squares m grad N i / IZR N)%R q));
      [| reflexivity].
    intros j s Hj Hs. rewrite poke_other; [exact Hs |].
    intros ->. apply Hq. right. exists j. split; [apply in_cols; exact Hj | reflexivity].
  - apply poke_other. intros ->. apply Hq. left. reflexivity.
Qed.

Lemma row_sum_squares_ext (m m' : Mem) i :
  (forall j, 0 <= j < N -> m (grad + (i * N + j)) = m' (grad + (i * N + j))) ->
  row_sum_squares m grad N i = row_sum_squares m' grad N i.
Proof.
  intros H. unfold row_sum_squares. apply sum_ext_in.
  intros j Hj. apply in_zrange in Hj. rewrite (H j Hj). reflexivity.
Qed.

Lemma RowWise_row_local l i m :
  (forall x, In x l -> 0 <= x < M) -> In i l ->
  (forall q, (forall i', In i' l -> i' <> i -> ~ owns i' q) -> m q = m0 q) ->
  forall q, owns i q ->
    RowWise_row blockDim N epsilon param mom indices grad lr i m q = target i q.
Proof.
  intros Hl Hi Hm q Hq.
  pose proof (Hl i Hi) as Hi0. pose proof (ix_range i Hi0) as Hc.
  unfold apart, outside in *.
  assert (forall i', In i' l -> i' <> i -> ix i' <> ix i /\ 0 <= ix i' < rows) as Hother.
  { intros i' Hi' Hne. split; [| apply ix_range; apply Hl; exact Hi'].
    intros E. apply Hne. apply ix_inj; auto. }
  assert (forall q', (forall i', In i' l -> i' <> i -> ix i' <> ix i -> 0 <= ix i' < rows ->
                        ~ owns i' q') -> m q' = m0 q') as Hm'.
  { intros q' H. apply Hm. intros i' Hi' Hne. destruct (Hother i' Hi' Hne). apply H; assumption. }
  assert (forall j, 0 <= j < N -> m (grad + (i * N + j)) = m0 (grad + (i * N + j))) as Eg.
  { intros j Hj. apply Hm'. intros i' Hi' Hne Hix Hr [E | (j' & Hj' & E)]; nia. }
  assert (m (mom + ix i) = m0 (mom + ix i)) as Emom.
  { apply Hm'. intros i' Hi' Hne Hix Hr [E | (j' & Hj' & E)]; nia. }
  assert (forall j, 0 <= j < N -> m (param + (ix i * N + j)) = m0 (param + (ix i * N + j)))
    as Ep.
  { intros j Hj. apply Hm'. intros i' Hi' Hne Hix Hr [E | (j' & Hj' & E)]; nia. }
  assert (m lr = m0 lr) as Elr.
  { apply Hm'. intros i' Hi' Hne Hix Hr [E | (j' & Hj' & E)]; nia. }
  rewrite RowWise_row_unfold. cbv zeta.
  rewrite (row_sum_squares_ext m m0 i Eg), Emom.
  fold (new_mom i).
  set (m1 := poke m (mom + ix i) (new_mom i)).
  assert (m1 lr = m0 lr) as E1lr by (unfold m1; rewrite poke_other by lia; exact Elr).
  assert (m1 (mom + ix i) = new_mom i) as E1mom by (unfold m1; apply poke_same).
  rewrite E1lr, E1mom. fold (step i).
  destruct (run_local
              (fun j m' =>
                 poke m' (param + (ix i * N + j))
                   (m' (param + (ix i * N + j))%Z + m' (grad + (i * N + j))%Z * step i)%R)
              (fun j q' => q' = param + (ix i * N + j))
              (fun j q' => (m1 q' + m1 (grad + (i * N + j))%Z * step i)%R)
              m1 cols) as [Hown Hrest].
  { eapply Permutation_NoDup;
      [apply Permutation_sym, block_stride_perm; exact blockDim_pos | apply NoDup_zrange]. }
  { intros j m' q' _ Hne. apply poke_other. exact Hne. }
  { intros j j' q' _ _ -> E. lia. }
  { intros j m' Hj Hagree q' ->. rewrite poke_same.
    apply in_cols in Hj.
    rewrite (Hagree (param + (ix i * N + j))) by (intros j' _ Hne E; apply Hne; lia).
    rewrite (Hagree (grad + (i * N + j)))
      by (intros j' Hj' _ E; apply in_cols in Hj'; nia).
    reflexivity. }
  unfold target. destruct Hq as [-> | (j & Hj & ->)].
  - rewrite Z.eqb_refl. rewrite Hrest; [exact E1mom |].
    intros j Hj E. apply in_cols in Hj. nia.
  - destruct (Z.eqb_spec (param + (ix i * N + j)) (mom + ix i)) as [E | _]; [nia |].
    rewrite (Hown j); [| apply in_cols; exact Hj | reflexivity].
    unfold m1. rewrite !poke_other by nia.
    rewrite (Ep j Hj), (Eg j Hj).
    replace (param + (ix i * N + j) - param - ix i * N) with j by lia. reflexivity.
Qed.

Lemma RowWiseSparseAdagradKernel_spec gridDim :
  0 < gridDim ->
  let m' := RowWiseSparseAdagradKernel gridDim blockDim M N epsilon param mom
              indices grad lr m0 in
  (forall i, 0 <= i < M ->
     m' (mom + ix i) = new_mom i /\
     forall j, 0 <= j < N ->
       m' (param + (ix i * N + j))
       = (m0 (param + (ix i * N + j))%Z + m0 (grad + (i * N + j))%Z * step i)%R) /\
  (forall q,
     (forall i, 0 <= i < M ->
        q <> mom + ix i /\ forall j, 0 <= j < N -> q <> param + (ix i * N + j)) ->
     m' q = m0 q).
Proof.
  intros Hg m'.
  set (sched := flat_map (fun b => stride_loop (Z.to_nat M) b gridDim M) (zrange gridDim)).
  assert (Permutation sched (zrange M)) as HP
    by (apply (strided_threads_perm gridDim M (fun b => b)); [exact Hg | reflexivity]).
  assert (forall x, In x sched <-> 0 <= x < M) as Hin.
  { intros x. rewrite <- in_zrange. split; intros Hx.
    - eapply Permutation_in; [exact HP | exact Hx].
    - eapply Permutation_in; [apply Permutation_sym; exact HP | exact Hx]. }
  assert (m' = run (RowWise_row blockDim N epsilon param mom indices grad lr) sched m0) as ->.
  { unfold m', RowWiseSparseAdagradKernel. apply fold_left_run_flat_map. }
  destruct (run_local (RowWise_row blockDim N epsilon param mom indices grad lr)
              owns target m0 sched) as [Hown Hrest].
  - eapply Permutation_NoDup; [apply Permutation_sym; exact HP | apply NoDup_zrange].
  - intros i m q _. apply RowWise_row_frame.
  - intros i i' q Hi Hi' Hq Hq'. apply Hin in Hi, Hi'.
    pose proof (ix_range i Hi). pose proof (ix_range i' Hi').
    apply ix_inj; [assumption | assumption |].
    unfold apart in *.
    destruct Hq as [-> | (j & Hj & ->)], Hq' as [E | (j' & Hj' & E)]; nia.
  - intros i m Hi. apply RowWise_row_local; [| exact Hi]. intros x Hx. apply Hin. exact Hx.
  - split.
    + intros i Hi. pose proof (ix_range i Hi) as Hc. split.
      * rewrite (Hown i); [| apply Hin; exact Hi | left; reflexivity].
        unfold target. rewrite Z.eqb_refl. reflexivity.
      * intros j Hj.
        rewrite (Hown i); [| apply Hin; exact Hi | right; exists j; split; [exact Hj | reflexivity]].
        unfold target. unfold apart in *.
        destruct (Z.eqb_spec (param + (ix i * N + j)) (mom + ix i)); [nia |].
        replace (param + (ix i * N + j) - param - ix i * N) with j by lia. reflexivity.
    + intros q Hq. apply Hrest. intros i Hi Ho. apply Hin in Hi.
      destruct (Hq i Hi) as [H1 H2]. destruct Ho as [E | (j & Hj & E)];
        [contradiction | exact (H2 j Hj E)].
Qed.

End RowWiseAdagradFacts.

(** X15.  RowWiseSparseAdagrad keeps one moment per row.  For a gradient
    of [M] rows of [N] elements, pairwise distinct row indices below
    [rows] and buffers that do not overlap, one kernel is launched on
    [min(M, CAFFE_MAXIMUM_NUM_BLOCKS)] blocks; the moment of row
    [indices[i]] grows by the mean of the squares of gradient row [i],
    and every parameter of that row moves by
    [g * lr / (sqrt(new moment) + epsilon)], [g] the gradient element of
    the same column.  All other cells keep their contents. *)
Theorem rowwise_sparse_adagrad_updates_rows (cfg : Hip.Config) (epsilon_ : R)
    (inp : Adagrad.SparseInputs) (OUTPUT_PARAM OUTPUT_MOMENT_1 rows M : Z)
    (rest : list Z) (c : Hip.Ctx Adagrad.Mem) :
  let indices := Tensor.data (Adagrad.idx (Adagrad.INDICES inp)) in
  let N := Tensor.prod_dims rest in
  let grad := Adagrad.ptr (Adagrad.GRAD inp) in
  let lr := Adagrad.ptr (Adagrad.LR inp) in
  Hip.config_ok cfg ->
  Adagrad.dims (Adagrad.GRAD inp) = M :: rest ->
  0 < M -> 0 < N ->
  (forall i, 0 <= i < M -> 0 <= load 0 indices i < rows) ->
  (forall i i', 0 <= i < M -> 0 <= i' < M ->
     load 0 indices i = load 0 indices i' -> i = i') ->
  AdagradSpec.apart OUTPUT_PARAM (rows * N) OUTPUT_MOMENT_1 rows ->
  AdagradSpec.apart grad (M * N) OUTPUT_PARAM (rows * N) ->
  AdagradSpec.apart grad (M * N) OUTPUT_MOMENT_1 rows ->
  Adagrad.outside lr OUTPUT_PARAM (rows * N) ->
  Adagrad.outside lr OUTPUT_MOMENT_1 rows ->
  exists c',
    Adagrad.RowWise_DoRunWithType cfg epsilon_ inp OUTPUT_PARAM OUTPUT_MOMENT_1 c
    = (Ok true, c') /\
    Hip.launches c'
    = Hip.launches c ++
      [Hip.mkLaunch "RowWiseSparseAdagradKernel"
         (Z.min M (Hip.CAFFE_MAXIMUM_NUM_BLOCKS cfg)) (Hip.CAFFE_HIP_NUM_THREADS cfg)] /\
    (forall i, 0 <= i < M ->
       let row := load 0 indices i in
       Hip.outs c' (OUTPUT_MOMENT_1 + row)
       = (Hip.outs c (OUTPUT_MOMENT_1 + row)%Z
          + AdagradSpec.row_sum_squares (Hip.outs c) grad N i / IZR N)%R /\
       forall j, 0 <= j < N ->
         Hip.outs c' (OUTPUT_PARAM + (row * N + j))
         = (Hip.outs c (OUTPUT_PARAM + (row * N + j))%Z
            + Hip.outs c (grad + (i * N + j))%Z
              * (Hip.outs c lr
                 / (sqrt (Hip.outs c' (OUTPUT_MOMENT_1 + row)%Z) + epsilon_)))%R) /\
    (forall q,
       (forall i, 0 <= i < M ->
          q <> OUTPUT_MOMENT_1 + load 0 indices i /\
          forall j, 0 <= j < N -> q <> OUTPUT_PARAM + (load 0 indices i * N + j)) ->
       Hip.outs c' q = Hip.outs c q).
Proof.
  intros indices N grad lr Hcfg Hdims HM HN Hrange Hinj Hpm Hgp Hgm Hlp Hlm.
  assert (Adagrad.size (Adagrad.GRAD inp) = M * N) as Esize
    by (unfold Adagrad.size; rewrite Hdims; reflexivity).
  assert (Adagrad.dim32 (Adagrad.GRAD inp) 0 = M) as Edim
    by (unfold Adagrad.dim32; rewrite Hdims; reflexivity).
  assert (Z.quot (M * N) M = N) as Equot by (rewrite Z.mul_comm; apply Z.quot_mul; lia).
  destruct Hcfg as (Hthreads & Hblocks & _).
  assert (0 < Z.min M (Hip.CAFFE_MAXIMUM_NUM_BLOCKS cfg)) as Hgrid by lia.
  destruct (RowWiseSparseAdagradKernel_spec (Hip.CAFFE_HIP_NUM_THREADS cfg) M N rows
              epsilon_ OUTPUT_PARAM OUTPUT_MOMENT_1 indices grad lr (Hip.outs c)
              Hthreads HN Hrange Hinj Hpm Hgp Hgm Hlp Hlm
              (Z.min M (Hip.CAFFE_MAXIMUM_NUM_BLOCKS cfg)) Hgrid) as [Hup Hfr].
  exists (Hip.mkCtx
            (Adagrad.RowWiseSparseAdagradKernel (Z.min M (Hip.CAFFE_MAXIMUM_NUM_BLOCKS cfg))
               (Hip.CAFFE_HIP_NUM_THREADS cfg) M N epsilon_ OUTPUT_PARAM OUTPUT_MOMENT_1
               indices grad lr (Hip.outs c))
            (Hip.launches c ++
             [Hip.mkLaunch "RowWiseSparseAdagradKernel"
                (Z.min M (Hip.CAFFE_MAXIMUM_NUM_BLOCKS cfg))
                (Hip.CAFFE_HIP_NUM_THREADS cfg)])).
  split; [| split; [| split]].
  - unfold Adagrad.RowWise_DoRunWithType. rewrite Esize, Edim, Equot.
    destruct (Z.eqb_spec (M * N) 0) as [E0 | _]; [nia |]. reflexivity.
  - reflexivity.
  - intros i Hi. cbv zeta. cbn [Hip.outs].
    destruct (Hup i Hi) as [Em Ep]. split; [exact Em |].
    intros j Hj. rewrite (Ep j Hj), Em. reflexivity.
  - cbn [Hip.outs]. exact Hfr.
Qed.

(** X16.  With the identity as indices ([indices[r] = r] for every
    gradient row) SparseAdagrad is dense Adagrad with decay 1 run in
    place: both leave the same contents in every cell of the memory. *)
Theorem sparse_adagrad_with_identity_indices_is_dense (cfg : Hip.Config)
    (op : Adagrad.HIPSparseAdagradOp) (inp : Adagrad.SparseInputs)
    (OUTPUT_PARAM OUTPUT_MOMENT_1 : Z) (c : Hip.Ctx Adagrad.Mem) :
  let indices := Tensor.data (Adagrad.idx (Adagrad.INDICES inp)) in
  let nd := Tensor.ndim (Adagrad.idx (Adagrad.INDICES inp)) in
  let S := Adagrad.size_from_dim (Adagrad.GRAD inp) nd in
  let K := Tensor.prod_dims (take (Z.to_nat nd) (Adagrad.dims (Adagrad.GRAD inp))) in
  let N := Adagrad.size (Adagrad.GRAD inp) in
  let grad := Adagrad.ptr (Adagrad.GRAD inp) in
  let lr := Adagrad.ptr (Adagrad.LR inp) in
  Hip.config_ok cfg ->
  Adagrad.size (Adagrad.PARAM inp) = Adagrad.size (Adagrad.MOMENT_1 inp) ->
  Adagrad.size (Adagrad.LR inp) = 1 ->
  Adagrad.size_from_dim (Adagrad.PARAM inp) 1 = S ->
  Adagrad.idx_dtype (Adagrad.INDICES inp) = TInt32 \/
  Adagrad.idx_dtype (Adagrad.INDICES inp) = TInt64 ->
  Adagrad.dtype (Adagrad.PARAM inp) = TFloat \/
  Adagrad.dtype (Adagrad.PARAM inp) = TFloat16 ->
  Tensor.size (Adagrad.idx (Adagrad.INDICES inp)) <> 0 ->
  0 < S -> 0 < K ->
  (forall r, 0 <= r < K -> load 0 indices r = r) ->
  Adagrad.disjoint OUTPUT_PARAM OUTPUT_MOMENT_1 N ->
  Adagrad.disjoint grad OUTPUT_PARAM N ->
  Adagrad.disjoint grad OUTPUT_MOMENT_1 N ->
  Adagrad.outside lr OUTPUT_PARAM N ->
  Adagrad.outside lr OUTPUT_MOMENT_1 N ->
  exists c1 c2,
    Adagrad.Sparse_RunOnDevice cfg op inp OUTPUT_PARAM OUTPUT_MOMENT_1 c = (Ok true, c1) /\
    Adagrad.adagrad_update cfg N OUTPUT_PARAM grad OUTPUT_MOMENT_1
      OUTPUT_PARAM OUTPUT_MOMENT_1 (Adagrad.epsilon_ op) 1%R lr c = (Ok tt, c2) /\
    forall q, Hip.outs c1 q = Hip.outs c2 q.
Proof.
  intros indices nd S K N grad lr Hcfg E1 E2 E3 Hidx Hty Hn HS HK Hid Hpm Hgp Hgm Hlp Hlm.
  assert (N = K * S) as EN by exact (adagrad_size_split (Adagrad.GRAD inp) nd).
  assert (0 < N) as HN by nia.
  assert (0 < Hip.CAFFE_GET_BLOCKS cfg N) as Hgrid
    by (destruct Hcfg as (_ & _ & Hg); apply Hg; exact HN).
  assert (0 < Hip.CAFFE_HIP_NUM_THREADS cfg) as Hblock by (destruct Hcfg as (Ht & _); exact Ht).
  assert (forall i, 0 <= i < N -> load 0 indices (Z.quot i S) * S + Z.rem i S = i) as Ecell.
  { intros i Hi. rewrite Hid by (apply quot_row_range; lia).
    rewrite (Z.quot_rem' i S) at 3. lia. }
  unfold Adagrad.disjoint, Adagrad.outside in *.
  destruct (SparseAdagradKernel_spec N S K (Adagrad.epsilon_ op)
              OUTPUT_PARAM OUTPUT_MOMENT_1 indices grad lr (Hip.outs c) HS)
    with (gridDim := Hip.CAFFE_GET_BLOCKS cfg N)
         (blockDim := Hip.CAFFE_HIP_NUM_THREADS cfg) as [Hup Hfr];
    try assumption; try (unfold AdagradSpec.apart, Adagrad.outside; lia).
  { intros i Hi. rewrite Hid by (apply quot_row_range; lia). apply quot_row_range; lia. }
  { intros i i' Hi Hi'. rewrite !Hid by (apply quot_row_range; lia). intros E. exact E. }
  destruct (AdagradUpdate_spec OUTPUT_PARAM grad OUTPUT_MOMENT_1 OUTPUT_PARAM OUTPUT_MOMENT_1
              lr N (Adagrad.epsilon_ op) 1%R (Hip.outs c))
    with (gridDim := Hip.CAFFE_GET_BLOCKS cfg N)
         (blockDim := Hip.CAFFE_HIP_NUM_THREADS cfg) as [Dup Dfr];
    try (left; reflexivity); try (unfold Adagrad.disjoint, Adagrad.outside; lia).
  { apply HIP_1D_KERNEL_LOOP_perm; assumption. }
  exists (Hip.mkCtx
            (Adagrad.SparseAdagradKernel (Hip.CAFFE_GET_BLOCKS cfg N)
               (Hip.CAFFE_HIP_NUM_THREADS cfg) N S (Adagrad.epsilon_ op)
               OUTPUT_PARAM OUTPUT_MOMENT_1 indices grad lr (Hip.outs c))
            (Hip.launches c ++
             [Hip.mkLaunch "SparseAdagradKernel" (Hip.CAFFE_GET_BLOCKS cfg N)
                (Hip.CAFFE_HIP_NUM_THREADS cfg)])).
  exists (Hip.mkCtx
            (Adagrad.AdagradUpdate (Hip.CAFFE_GET_BLOCKS cfg N)
               (Hip.CAFFE_HIP_NUM_THREADS cfg) N OUTPUT_PARAM grad OUTPUT_MOMENT_1
               OUTPUT_PARAM OUTPUT_MOMENT_1 (Adagrad.epsilon_ op) 1%R lr (Hip.outs c))
            (Hip.launches c ++
             [Hip.mkLaunch "AdagradUpdate" (Hip.CAFFE_GET_BLOCKS cfg N)
                (Hip.CAFFE_HIP_NUM_THREADS cfg)])).
  split; [| split].
  - apply (Sparse_RunOnDevice_run cfg op inp OUTPUT_PARAM OUTPUT_MOMENT_1 c
             E1 E2 E3 Hidx Hty Hn). fold N. lia.
  - reflexivity.
  - cbn [Hip.outs]. intros q.
    assert (OUTPUT_MOMENT_1 <= q < OUTPUT_MOMENT_1 + N \/
            OUTPUT_PARAM <= q < OUTPUT_PARAM + N \/
            ~ OUTPUT_MOMENT_1 <= q < OUTPUT_MOMENT_1 + N /\
            ~ OUTPUT_PARAM <= q < OUTPUT_PARAM + N) as [Hm | [Hp | [Hnm Hnp]]] by lia.
    + (* a moment cell *)
      replace q with (OUTPUT_MOMENT_1 + (q - OUTPUT_MOMENT_1)) by lia.
      assert (0 <= q - OUTPUT_MOMENT_1 < N) as Hi by lia.
      destruct (Hup _ Hi) as [Em _]. destruct (Dup _ Hi) as [Dm _].
      rewrite (Ecell _ Hi) in Em. rewrite Em, Dm. ring.
    + (* a parameter cell *)
      replace q with (OUTPUT_PARAM + (q - OUTPUT_PARAM)) by lia.
      assert (0 <= q - OUTPUT_PARAM < N) as Hi by lia.
      destruct (Hup _ Hi) as [_ Ep]. destruct (Dup _ Hi) as [_ Dp].
      rewrite (Ecell _ Hi) in Ep. rewrite Ep, Dp.
      replace (1 * Hip.outs c (OUTPUT_MOMENT_1 + (q - OUTPUT_PARAM))%Z
               + Hip.outs c (grad + (q - OUTPUT_PARAM))%Z
                 * Hip.outs c (grad + (q - OUTPUT_PARAM))%Z)%R
        with (Hip.outs c (grad + (q - OUTPUT_PARAM))%Z
              * Hip.outs c (grad + (q - OUTPUT_PARAM))%Z
              + Hip.outs c (OUTPUT_MOMENT_1 + (q - OUTPUT_PARAM))%Z)%R by ring.
      apply Rplus_comm.
    + (* any other cell *)
      rewrite Hfr by (intros i Hi; rewrite (Ecell i Hi); lia).
      rewrite Dfr by (unfold Adagrad.outside; lia). reflexivity.
Qed.

Lemma sparse_adagrad_rows_witness :
  let inp :=
    Adagrad.mkSparseInputs
      (Adagrad.mkDevTensor [3; 2] TFloat 0) (Adagrad.mkDevTensor [3; 2] TFloat 10)
      (Adagrad.mkIndexTensor TInt64 (Tensor.mk [2] [2; 0]))
      (Adagrad.mkDevTensor [2; 2] TFloat 20) (Adagrad.mkDevTensor [1] TFloat 30) in
  exists c',
    Adagrad.Sparse_RunOnDevice Hip.default_config (Adagrad.mkSparseOp 1%R) inp 0 10
      (Hip.mkCtx (fun _ => 1%R) []) = (Ok true, c') /\
    Hip.outs c' (10 + 4) = (1 * 1 + 1)%R /\
    Hip.outs c' 2 = 1%R.
Proof.
  intros inp.
  destruct (sparse_adagrad_updates_indexed_rows Hip.default_config (Adagrad.mkSparseOp 1%R)
              inp 0 10 3 (Hip.mkCtx (fun _ => 1%R) []))
    as (c' & E & _ & Hup & Hfr).
  - exact default_config_ok.
  - reflexivity.
  - reflexivity.
  - reflexivity.
  - right. reflexivity.
  - left. reflexivity.
  - vm_compute. discriminate.
  - reflexivity.
  - reflexivity.
  - intros r Hr. change (0 <= r < 2) in Hr.
    assert (r = 0 \/ r = 1) as [-> | ->] by lia; eval_goal.
  - intros r r' Hr Hr'. change (0 <= r < 2) in Hr. change (0 <= r' < 2) in Hr'.
    assert (r = 0 \/ r = 1) as [-> | ->] by lia;
      assert (r' = 0 \/ r' = 1) as [-> | ->] by lia; eval_goal.
  - unfold AdagradSpec.apart. eval_goal.
  - unfold AdagradSpec.apart. eval_goal.
  - unfold AdagradSpec.apart. eval_goal.
  - unfold Adagrad.outside. eval_goal.
  - unfold Adagrad.outside. eval_goal.
  - exists c'. split; [exact E |]. split.
    + exact (proj1 (Hup 0 0 ltac:(eval_goal) ltac:(eval_goal))).
    + apply (Hfr 2). intros r k Hr Hk. change (0 <= r < 2) in Hr. change (0 <= k < 2) in Hk.
      assert (r = 0 \/ r = 1) as [-> | ->] by lia;
        assert (k = 0 \/ k = 1) as [-> | ->] by lia; eval_goal.
Defined.

Lemma rowwise_sparse_adagrad_witness :
  let inp :=
    Adagrad.mkSparseInputs
      (Adagrad.mkDevTensor [2; 2] TFloat 0) (Adagrad.mkDevTensor [2] TFloat 10)
      (Adagrad.mkIndexTensor TInt64 (Tensor.mk [2] [1; 0]))
      (Adagrad.mkDevTensor [2; 2] TFloat 20) (Adagrad.mkDevTensor [1] TFloat 30) in
  exists c',
    Adagrad.RowWise_DoRunWithType Hip.default_config 1%R inp 0 10
      (Hip.mkCtx (fun _ => 1%R) []) = (Ok true, c') /\
    Hip.outs c' (10 + 1)
    = (1 + AdagradSpec.row_sum_squares (fun _ => 1%R) 20 2 0 / 2)%R.
Proof.
  intros inp.
  destruct (rowwise_sparse_adagrad_updates_rows Hip.default_config 1%R inp 0 10 2 2 [2]
              (Hip.mkCtx (fun _ => 1%R) []))
    as (c' & E & _ & Hup & _).
  - exact default_config_ok.
  - reflexivity.
  - lia.
  - reflexivity.
  - intros i Hi. assert (i = 0 \/ i = 1) as [-> | ->] by lia; eval_goal.
  - intros i i' Hi Hi'.
    assert (i = 0 \/ i = 1) as [-> | ->] by lia;
      assert (i' = 0 \/ i' = 1) as [-> | ->] by lia; eval_goal.
  - unfold AdagradSpec.apart. eval_goal.
  - unfold AdagradSpec.apart. eval_goal.
  - unfold AdagradSpec.apart. eval_goal.
  - unfold Adagrad.outside. eval_goal.
  - unfold Adagrad.outside. eval_goal.
  - exists c'. split; [exact E |].
    exact (proj1 (Hup 0 ltac:(lia))).
Defined.

Lemma sparse_adagrad_identity_witness :
  let inp :=
    Adagrad.mkSparseInputs
      (Adagrad.mkDevTensor [2; 2] TFloat 0) (Adagrad.mkDevTensor [2; 2] TFloat 10)
      (Adagrad.mkIndexTensor TInt32 (Tensor.mk [2] [0; 1]))
      (Adagrad.mkDevTensor [2; 2] TFloat 20) (Adagrad.mkDevTensor [1] TFloat 30) in
  exists c1 c2,
    Adagrad.Sparse_RunOnDevice Hip.default_config (Adagrad.mkSparseOp 1%R) inp 0 10
      (Hip.mkCtx (fun _ => 1%R) []) = (Ok true, c1) /\
    Adagrad.adagrad_update Hip.default_config 4 0 20 10 0 10 1%R 1%R 30
      (Hip.mkCtx (fun _ => 1%R) []) = (Ok tt, c2) /\
    Hip.outs c1 3 = Hip.outs c2 3.
Proof.
  intros inp.
  destruct (sparse_adagrad_with_identity_indices_is_dense Hip.default_config
              (Adagrad.mkSparseOp 1%R) inp 0 10 (Hip.mkCtx (fun _ => 1%R) []))
    as (c1 & c2 & E1 & E2 & Heq).
  - exact default_config_ok.
  - reflexivity.
  - reflexivity.
  - reflexivity.
  - left. reflexivity.
  - left. reflexivity.
  - vm_compute. discriminate.
  - reflexivity.
  - reflexivity.
  - intros r Hr. change (0 <= r < 2) in Hr.
    assert (r = 0 \/ r = 1) as [-> | ->] by lia; reflexivity.
  - unfold Adagrad.disjoint. eval_goal.
  - unfold Adagrad.disjoint. eval_goal.
  - unfold Adagrad.disjoint. eval_goal.
  - unfold Adagrad.outside. eval_goal.
  - unfold Adagrad.outside. eval_goal.
  - exists c1, c2. split; [exact E1 |]. split; [exact E2 | exact (Heq 3)].
Defined.

(** * Devices: the default device, the current device, peer access *)

Section DefaultDevice.

Import CommonHip HipDevice.

(** A count that [NumHipDevices] returns is the cached one, and is not
    negative. *)
Lemma NumHipDevices_ok_count asan dbg rt w n w' :
  NumHipDevices asan dbg rt w = (Ok n, w') -> count w' = n /\ 0 <= n.
Proof.
  intros E. destruct (Z_lt_le_dec (count w) 0) as [Hneg | Hpos].
  - destruct (NumHipDevices_first asan dbg rt w Hneg) as (w1 & E1 & _ & Hc).
    rewrite E1 in E. injection E as Er Ew. subst w1.
    split; [apply Hc; exact Er |].
    unfold first_call_result in Er.
    destruct (fst (rt (queries w))); try destruct asan; try discriminate Er;
      injection Er as <-; lia.
  - destruct (NumHipDevices_cached asan dbg rt w Hpos) as (w1 & E1 & Hc & _).
    rewrite E1 in E. injection E as Er Ew. subst w1 n. split; [exact Hc | exact Hpos].
Qed.

End DefaultDevice.

(** X17.  [SetDefaultGPUID] checks the id against the device count from
    above only.  When [NumHipDevices] reports [n] devices, an id below [n]
    is accepted, negative ids included (also with no device at all), and
    [GetDefaultGPUID] returns it afterwards; an id of [n] or more stops
    with a fatal check and the default id stays what it was. *)
Theorem set_default_gpu_id_checks_upper_bound_only (asan debug_env : bool)
    (rt : CommonHip.Runtime) (deviceid n : Z) (s : HipDevice.State) (w' : CommonHip.World) :
  CommonHip.NumHipDevices asan debug_env rt (HipDevice.world s) = (Ok n, w') ->
  (deviceid < n \/ deviceid < 0 ->
   exists s',
     HipDevice.SetDefaultGPUID asan debug_env rt deviceid s = (Ok tt, s') /\
     HipDevice.GetDefaultGPUID s' = (Ok deviceid, s') /\
     HipDevice.world s' = w') /\
  (n <= deviceid ->
   exists msg s',
     HipDevice.SetDefaultGPUID asan debug_env rt deviceid s = (Fatal msg, s') /\
     HipDevice.GetDefaultGPUID s' = (Ok (HipDevice.gDefaultGPUID s), s')).
Proof.
  intros E. destruct (NumHipDevices_ok_count asan debug_env rt _ n w' E) as [Hc Hn].
  split.
  - intros Hd. assert (deviceid < n) as Hlt by lia.
    eexists. split; [| split].
    + unfold HipDevice.SetDefaultGPUID, bind, HipDevice.in_world. rewrite E.
      destruct (Z.ltb_spec deviceid n) as [_ | ?]; [| lia]. reflexivity.
    + reflexivity.
    + reflexivity.
  - intros Hge.
    destruct (NumHipDevices_cached asan debug_env rt w' ltac:(lia)) as (w2 & E2 & _ & _).
    eexists. eexists. split.
    + unfold HipDevice.SetDefaultGPUID, bind, HipDevice.in_world. rewrite E.
      destruct (Z.ltb_spec deviceid n) as [? | _]; [lia |].
      cbn [HipDevice.world HipDevice.set_world]. rewrite E2. reflexivity.
    + reflexivity.
Qed.

Section DeviceCache.

Import CommonHip HipDevice.

(** The cached device, when there is one, is the runtime's. *)
Let coherent (s : State) : Prop :=
  gCurrentDevice s < 0 \/ gCurrentDevice s = runtime_device s.

Lemma CaffeHipSetDevice_full drt id s :
  CaffeHipSetDevice true drt id s
  = if gCurrentDevice s =? id
    then (Ok tt, s)
    else match hipSetDevice_error drt (length (runtime_calls s)) id with
         | hipSuccess =>
             (Ok tt, mkState (world s) (gDefaultGPUID s) id id
                       (runtime_calls s ++ ["hipSetDevice"%string]))
         | _ =>
             (Fatal "HIP_ENFORCE",
              mkState (world s) (gDefaultGPUID s) (gCurrentDevice s) (runtime_device s)
                (runtime_calls s ++ ["hipSetDevice"%string]))
         end.
Proof.
  unfold CaffeHipSetDevice, bind, get_state, modify, hipSetDevice, HIP_ENFORCE, ret, throw,
    set_gCurrentDevice.
  destruct (Z.eqb_spec (gCurrentDevice s) id) as [<- | Hne]; cbn [negb].
  - destruct s; reflexivity.
  - destruct (hipSetDevice_error drt (length (runtime_calls s)) id); reflexivity.
Qed.

Lemma CaffeHipGetDevice_full drt s :
  CaffeHipGetDevice true drt s
  = if gCurrentDevice s <? 0
    then match hipGetDevice_error drt (length (runtime_calls s)) with
         | hipSuccess =>
             (Ok (runtime_device s),
              mkState (world s) (gDefaultGPUID s) (runtime_device s) (runtime_device s)
                (runtime_calls s ++ ["hipGetDevice"%string]))
         | _ =>
             (Fatal "HIP_ENFORCE",
              mkState (world s) (gDefaultGPUID s) (gCurrentDevice s) (runtime_device s)
                (runtime_calls s ++ ["hipGetDevice"%string]))
         end
    else (Ok (gCurrentDevice s), s).
Proof.
  unfold CaffeHipGetDevice, bind, get_state, modify, hipGetDevice, HIP_ENFORCE, ret, throw,
    set_gCurrentDevice.
  destruct (gCurrentDevice s <? 0).
  - destruct (hipGetDevice_error drt (length (runtime_calls s))); reflexivity.
  - reflexivity.
Qed.

End DeviceCache.

(** X18.  With [caffe2_hip_full_device_control] the cached device never
    disagrees with the runtime.  From a state where the cache is empty
    (negative) or holds the runtime's current device, [CaffeHipSetDevice]
    and [CaffeHipGetDevice] lead to such a state again, whether they
    succeed or throw; a successful [CaffeHipGetDevice] returns the
    runtime's current device; and on a cache hit neither function calls
    the runtime or changes anything.  Without the flag
    [CaffeHipGetDevice] asks the runtime on every call. *)
Theorem device_cache_agrees_with_runtime (drt : HipDevice.DeviceRuntime)
    (s : HipDevice.State) (id : Z) :
  HipDevice.gCurrentDevice s < 0 \/
  HipDevice.gCurrentDevice s = HipDevice.runtime_device s ->
  (forall o s', HipDevice.CaffeHipSetDevice true drt id s = (o, s') ->
     (HipDevice.gCurrentDevice s' < 0 \/
      HipDevice.gCurrentDevice s' = HipDevice.runtime_device s') /\
     (o = Ok tt ->
      HipDevice.gCurrentDevice s' = id /\ (0 <= id -> HipDevice.runtime_device s' = id))) /\
  (forall o s', HipDevice.CaffeHipGetDevice true drt s = (o, s') ->
     (HipDevice.gCurrentDevice s' < 0 \/
      HipDevice.gCurrentDevice s' = HipDevice.runtime_device s') /\
     HipDevice.runtime_device s' = HipDevice.runtime_device s /\
     forall d, o = Ok d -> d = HipDevice.runtime_device s) /\
  (0 <= HipDevice.gCurrentDevice s ->
   HipDevice.CaffeHipGetDevice true drt s = (Ok (HipDevice.gCurrentDevice s), s) /\
   HipDevice.CaffeHipSetDevice true drt (HipDevice.gCurrentDevice s) s = (Ok tt, s)) /\
  (forall o s', HipDevice.CaffeHipGetDevice false drt s = (o, s') ->
     HipDevice.runtime_calls s'
     = HipDevice.runtime_calls s ++ ["hipGetDevice"%string] /\
     forall d, o = Ok d -> d = HipDevice.runtime_device s).
Proof.
  intros Hco. split; [| split; [| split]].
  - intros o s' E. rewrite CaffeHipSetDevice_full in E.
    destruct (Z.eqb_spec (HipDevice.gCurrentDevice s) id) as [Eid | Hne].
    + injection E as <- <-. split; [exact Hco |]. intros _. split; [exact Eid | lia].
    + destruct (HipDevice.hipSetDevice_error drt _ id);
        injection E as <- <-; cbn [HipDevice.gCurrentDevice HipDevice.runtime_device];
        (split; [first [right; reflexivity | exact Hco] |]);
        intros Ho; first [discriminate Ho | split; [reflexivity | intros _; reflexivity]].
  - intros o s' E. rewrite CaffeHipGetDevice_full in E.
    destruct (Z.ltb_spec (HipDevice.gCurrentDevice s) 0) as [Hneg | Hpos].
    + destruct (HipDevice.hipGetDevice_error drt _);
        injection E as <- <-; cbn [HipDevice.gCurrentDevice HipDevice.runtime_device];
        (split; [first [right; reflexivity | exact Hco] |]);
        (split; [reflexivity |]);
        intros d Hd; first [discriminate Hd | injection Hd as <-; reflexivity].
    + injection E as <- <-. split; [exact Hco |]. split; [reflexivity |].
      intros d Hd. injection Hd as <-. lia.
  - intros Hpos. split.
    + rewrite CaffeHipGetDevice_full.
      destruct (Z.ltb_spec (HipDevice.gCurrentDevice s) 0); [lia | reflexivity].
    + rewrite CaffeHipSetDevice_full, Z.eqb_refl. reflexivity.
  - intros o s' E.
    unfold HipDevice.CaffeHipGetDevice, bind, HipDevice.hipGetDevice, HipDevice.HIP_ENFORCE,
      ret, HipDevice.throw in E. cbn [fst snd] in E.
    destruct (HipDevice.hipGetDevice_error drt _);
      injection E as <- <-; cbn [HipDevice.runtime_calls];
      (split; [reflexivity |]);
      intros d Hd; first [discriminate Hd | injection Hd as <-; reflexivity].
Qed.

Section PeerAccess.

Import CommonHip HipDevice HipDeviceSpec.

Variable prt : PeerRuntime.

Lemma set_cell_square n P i j b : square n P -> square n (set_cell P i j b).
Proof.
  intros [Hlen Hrows]. unfold set_cell. split.
  - rewrite store_length. exact Hlen.
  - intros i' Hi'. destruct (Z.eq_dec i i') as [<- | Hne].
    + rewrite load_store_same by lia. rewrite store_length. apply Hrows. exact Hi'.
    + rewrite load_store_other by exact Hne. apply Hrows. exact Hi'.
Qed.

Lemma cell_set_cell n P i j b i' j' :
  square n P -> 0 <= i < n -> 0 <= j < n ->
  cell (set_cell P i j b) i' j'
  = if (i' =? i) && (j' =? j) then b else cell P i' j'.
Proof.
  intros [Hlen Hrows] Hi Hj. unfold cell, set_cell.
  destruct (Z.eqb_spec i' i) as [-> | Hne]; cbn [andb].
  - rewrite load_store_same by lia.
    destruct (Z.eqb_spec j' j) as [-> | Hnej].
    + apply load_store_same. rewrite Hrows by exact Hi. exact Hj.
    + apply load_store_other. intros E. apply Hnej. symmetry. exact E.
  - rewrite load_store_other by (intros E; apply Hne; symmetry; exact E). reflexivity.
Qed.

Lemma scan_app ps1 ps2 : forall P,
  scan prt (ps1 ++ ps2) P
  = match scan prt ps1 P with
    | (true, P') => scan prt ps2 P'
    | (false, P') => (false, P')
    end.
Proof.
  induction ps1 as [| p ps1 IH]; intros P; [reflexivity |].
  cbn [app scan]. destruct (passes prt p); [apply IH | reflexivity].
Qed.

Lemma peer_row_scan i js : forall P,
  peer_row prt i js P = scan prt (map (fun j => (i, j)) js) P.
Proof.
  induction js as [| j js IH]; intros P; [reflexivity |].
  cbn [peer_row map scan]. unfold passes, access. cbn [fst snd].
  destruct (Z.eqb_spec i j) as [-> | Hne]; cbn [negb orb].
  - apply IH.
  - destruct (hipDeviceCanAccessPeer prt i j) as [[] v]; cbn [fst snd];
      first [apply IH | reflexivity].
Qed.

Lemma peer_rows_scan n rows : forall P,
  peer_rows prt n rows P
  = scan prt (flat_map (fun i => map (fun j => (i, j)) (zrange n)) rows) P.
Proof.
  induction rows as [| i rows IH]; intros P; [reflexivity |].
  cbn [peer_rows flat_map]. rewrite scan_app, peer_row_scan.
  destruct (scan prt (map (fun j => (i, j)) (zrange n)) P) as [[] P']; [apply IH | reflexivity].
Qed.

Lemma scan_passes ps : forall P,
  (forall p, In p ps -> passes prt p = true) -> scan prt ps P = (true, fill prt ps P).
Proof.
  induction ps as [| p ps IH]; intros P Hall; [reflexivity |].
  cbn [scan]. rewrite Hall by (left; reflexivity).
  unfold fill. cbn [fold_left]. apply IH. intros q Hq. apply Hall. right. exact Hq.
Qed.

Lemma scan_stops ps1 p0 ps2 P :
  (forall p, In p ps1 -> passes prt p = true) -> passes prt p0 = false ->
  scan prt (ps1 ++ p0 :: ps2) P = (false, fill prt ps1 P).
Proof.
  intros Hall Hp0. rewrite scan_app, scan_passes by exact Hall.
  cbn [scan]. rewrite Hp0. reflexivity.
Qed.

Lemma scan_true ps : forall P P',
  scan prt ps P = (true, P') -> forall p, In p ps -> passes prt p = true.
Proof.
  induction ps as [| q ps IH]; intros P P' E p Hp; [destruct Hp |].
  cbn [scan] in E. destruct (passes prt q) eqn:Eq; [| discriminate E].
  destruct Hp as [<- | Hp]; [exact Eq | exact (IH _ _ E p Hp)].
Qed.

Lemma fill_cells n ps : forall P,
  square n P ->
  (forall p, In p ps -> 0 <= fst p < n /\ 0 <= snd p < n) ->
  square n (fill prt ps P) /\
  forall i j,
    (In (i, j) ps -> cell (fill prt ps P) i j = access prt (i, j)) /\
    (~ In (i, j) ps -> cell (fill prt ps P) i j = cell P i j).
Proof.
  induction ps as [| p ps IH]; intros P Hsq Hrange.
  - split; [exact Hsq |]. intros i j. split; [intros [] | reflexivity].
  - destruct (Hrange p (or_introl eq_refl)) as [Hi Hj].
    destruct (IH (set_cell P (fst p) (snd p) (access prt p))) as [Hsq' Hcells].
    { apply set_cell_square. exact Hsq. }
    { intros q Hq. apply Hrange. right. exact Hq. }
    unfold fill in *. cbn [fold_left]. split; [exact Hsq' |].
    intros i j. destruct (Hcells i j) as [Hin Hnin].
    assert (forall a b : Z * Z, {a = b} + {a <> b}) as Hdec
      by (decide equality; apply Z.eq_dec).
    destruct (in_dec Hdec (i, j) ps) as [Hps | Hps].
    + split; [intros _; apply Hin; exact Hps |].
      intros Hn. exfalso. apply Hn. right. exact Hps.
    + split.
      * intros [E | Hps']; [| contradiction]. rewrite Hnin by exact Hps.
        rewrite (cell_set_cell n) by assumption. subst p. cbn [fst snd].
        rewrite !Z.eqb_refl. reflexivity.
      * intros Hn. rewrite Hnin by exact Hps.
        rewrite (cell_set_cell n) by assumption.
        destruct (Z.eqb_spec i (fst p)) as [Ei | _]; [| reflexivity].
        destruct (Z.eqb_spec j (snd p)) as [Ej | _]; [| reflexivity].
        exfalso. apply Hn. left. destruct p; cbn [fst snd] in *. subst. reflexivity.
Qed.

Lemma flat_map_ext_on {X Y : Type} (f g : X -> list Y) (l : list X) :
  (forall x, In x l -> f x = g x) -> flat_map f l = flat_map g l.
Proof.
  induction l as [| x l IH]; intros H; [reflexivity |].
  cbn [flat_map]. rewrite (H x) by (left; reflexivity). f_equal.
  apply IH. intros y Hy. apply H. right. exact Hy.
Qed.

Lemma flat_map_singleton {X Y : Type} (f : X -> Y) (l : list X) :
  flat_map (fun x => [f x]) l = map f l.
Proof.
  induction l as [| x l IH]; [reflexivity |]. cbn [flat_map map app]. rewrite IH. reflexivity.
Qed.

(** The pairs in the order the loops visit them, by their rank
    [i * n + j]. *)
Lemma pairs_by_rank n :
  0 <= n ->
  flat_map (fun i => map (fun j => (i, j)) (zrange n)) (zrange n)
  = map (fun g => (g / n, g mod n)) (zrange (n * n)).
Proof.
  intros Hn.
  rewrite <- (flat_map_singleton (fun g => (g / n, g mod n))).
  rewrite <- (flat_map_flat_map_zrange n n (fun g => [(g / n, g mod n)]) Hn Hn).
  apply flat_map_ext_on. intros i Hi. apply in_zrange in Hi.
  rewrite (flat_map_singleton (fun t => ((i * n + t) / n, (i * n + t) mod n))).
  apply map_ext_in. intros j Hj. apply in_zrange in Hj.
  f_equal.
  - apply (Z.div_unique _ _ i j); lia.
  - apply (Z.mod_unique _ _ i j); lia.
Qed.

End PeerAccess.

Section PeerAccessPattern.

Import CommonHip HipDevice HipDeviceSpec.

Variable prt : PeerRuntime.

Lemma passes_spec i j :
  passes prt (i, j) = true <-> i = j \/ fst (hipDeviceCanAccessPeer prt i j) = hipSuccess.
Proof.
  unfold passes. cbn [fst snd]. destruct (Z.eqb_spec i j) as [E | Hne]; cbn [orb].
  - split; [intros _; left; exact E | reflexivity].
  - destruct (fst (hipDeviceCanAccessPeer prt i j)); split;
      first [ intros _; right; reflexivity
            | reflexivity
            | discriminate
            | intros [E | E]; [contradiction | discriminate E] ].
Qed.

Lemma in_pairs_range n i j :
  In (i, j) (flat_map (fun i => map (fun j => (i, j)) (zrange n)) (zrange n))
  <-> 0 <= i < n /\ 0 <= j < n.
Proof.
  rewrite in_flat_map. split.
  - intros (i' & Hi' & Hin). apply in_map_iff in Hin as (j' & E & Hj').
    injection E as <- <-. apply in_zrange in Hi', Hj'. split; assumption.
  - intros [Hi Hj]. exists i. split; [apply in_zrange; exact Hi |].
    apply in_map_iff. exists j. split; [reflexivity | apply in_zrange; exact Hj].
Qed.

Lemma empty_pattern_square (n : nat) :
  square (Z.of_nat n) (replicate n (replicate n false)) /\
  forall i j, 0 <= i < Z.of_nat n -> 0 <= j < Z.of_nat n ->
    cell (replicate n (replicate n false)) i j = false.
Proof.
  split; [split |].
  - rewrite length_replicate. reflexivity.
  - intros i Hi. rewrite load_replicate by exact Hi. rewrite length_replicate. reflexivity.
  - intros i j Hi Hj. unfold cell. rewrite load_replicate by exact Hi.
    apply load_replicate. exact Hj.
Qed.

Lemma GetHipPeerAccessPattern_scan (n : nat) P0 :
  hipGetDeviceCount_answer prt = (hipSuccess, n) ->
  GetHipPeerAccessPattern prt P0
  = scan prt (flat_map (fun i => map (fun j => (i, j)) (zrange (Z.of_nat n)))
                       (zrange (Z.of_nat n)))
         (replicate n (replicate n false)).
Proof.
  intros E. unfold GetHipPeerAccessPattern. rewrite E. apply peer_rows_scan.
Qed.

Lemma filled_pattern (n : nat) ps P :
  (forall p, In p ps -> 0 <= fst p < Z.of_nat n /\ 0 <= snd p < Z.of_nat n) ->
  P = fill prt ps (replicate n (replicate n false)) ->
  length P = n /\
  (forall i, 0 <= i < Z.of_nat n -> length (load [] P i) = n) /\
  forall i j, 0 <= i < Z.of_nat n -> 0 <= j < Z.of_nat n ->
    (In (i, j) ps -> cell P i j = access prt (i, j)) /\
    (~ In (i, j) ps -> cell P i j = false).
Proof.
  intros Hrange ->. destruct (empty_pattern_square n) as [Hsq Hfalse].
  destruct (fill_cells prt (Z.of_nat n) ps _ Hsq Hrange) as [[Hlen Hrows] Hcells].
  split; [lia |]. split; [intros i Hi; specialize (Hrows i Hi); lia |].
  intros i j Hi Hj. destruct (Hcells i j) as [Hin Hnin]. split; [exact Hin |].
  intros Hn. rewrite (Hnin Hn). apply Hfalse; assumption.
Qed.

End PeerAccessPattern.

(** X19.  [GetHipPeerAccessPattern] returns [true] exactly when the
    device count query and the peer queries of all pairs of distinct
    devices succeed; a failed count query leaves the pattern untouched.
    On [true] the pattern is replaced by a square matrix of the device
    count, with [true] on the diagonal (no query is made there) and
    elsewhere whether the runtime stored a non-zero value; the Python
    function [get_hip_peer_access_pattern] then returns that matrix. *)
Theorem peer_access_pattern_complete (prt : HipDevice.PeerRuntime) (P0 : list (list bool)) :
  (fst (HipDevice.hipGetDeviceCount_answer prt) <> CommonHip.hipSuccess ->
   HipDevice.GetHipPeerAccessPattern prt P0 = (false, P0)) /\
  (fst (HipDevice.GetHipPeerAccessPattern prt P0) = true <->
   exists n : nat,
     HipDevice.hipGetDeviceCount_answer prt = (CommonHip.hipSuccess, n) /\
     forall i j, 0 <= i < Z.of_nat n -> 0 <= j < Z.of_nat n -> i <> j ->
       fst (HipDevice.hipDeviceCanAccessPeer prt i j) = CommonHip.hipSuccess) /\
  (forall n : nat,
     HipDevice.hipGetDeviceCount_answer prt = (CommonHip.hipSuccess, n) ->
     fst (HipDevice.GetHipPeerAccessPattern prt P0) = true ->
     let P := snd (HipDevice.GetHipPeerAccessPattern prt P0) in
     HipDevice.get_hip_peer_access_pattern prt = Ok P /\
     length P = n /\
     (forall i, 0 <= i < Z.of_nat n -> length (load [] P i) = n) /\
     forall i j, 0 <= i < Z.of_nat n -> 0 <= j < Z.of_nat n ->
       load false (load [] P i) j
       = if i =? j then true
         else negb (snd (HipDevice.hipDeviceCanAccessPeer prt i j) =? 0)).
Proof.
  split; [| split].
  - intros Herr. unfold HipDevice.GetHipPeerAccessPattern.
    destruct (HipDevice.hipGetDeviceCount_answer prt) as [[] n]; cbn [fst] in Herr;
      first [contradiction | reflexivity].
  - split.
    + intros Htrue.
      destruct (HipDevice.hipGetDeviceCount_answer prt) as [err n] eqn:Ecount.
      assert (err = CommonHip.hipSuccess) as ->.
      { unfold HipDevice.GetHipPeerAccessPattern in Htrue. rewrite Ecount in Htrue.
        destruct err; first [reflexivity | discriminate Htrue]. }
      exists n. split; [reflexivity |]. intros i j Hi Hj Hne.
      rewrite (GetHipPeerAccessPattern_scan prt n P0 Ecount) in Htrue.
      destruct (HipDeviceSpec.scan prt _ _) as [[] P'] eqn:Escan; [| discriminate Htrue].
      pose proof (scan_true prt _ _ _ Escan (i, j)
                    (proj2 (in_pairs_range (Z.of_nat n) i j) (conj Hi Hj))) as Hp.
      apply passes_spec in Hp as [E | E]; [contradiction | exact E].
    + intros (n & Ecount & Hall).
      rewrite (GetHipPeerAccessPattern_scan prt n P0 Ecount).
      rewrite scan_passes; [reflexivity |].
      intros [i j] Hin. apply in_pairs_range in Hin as [Hi Hj].
      apply passes_spec. destruct (Z.eq_dec i j) as [E | Hne]; [left; exact E |].
      right. apply Hall; assumption.
  - intros n Ecount Htrue P.
    assert (forall Q, HipDevice.GetHipPeerAccessPattern prt Q
                      = (true, HipDeviceSpec.fill prt
                                 (flat_map (fun i => map (fun j => (i, j)) (zrange (Z.of_nat n)))
                                    (zrange (Z.of_nat n)))
                                 (replicate n (replicate n false)))) as Hrun.
    { intros Q. rewrite (GetHipPeerAccessPattern_scan prt n Q Ecount).
      rewrite (GetHipPeerAccessPattern_scan prt n P0 Ecount) in Htrue.
      destruct (HipDeviceSpec.scan prt _ _) as [[] P'] eqn:Escan; [| discriminate Htrue].
      rewrite scan_passes in Escan by exact (scan_true prt _ _ _ Escan).
      injection Escan as <-. reflexivity. }
    assert (P = HipDeviceSpec.fill prt
                  (flat_map (fun i => map (fun j => (i, j)) (zrange (Z.of_nat n)))
                     (zrange (Z.of_nat n)))
                  (replicate n (replicate n false))) as EP
      by (unfold P; rewrite Hrun; reflexivity).
    destruct (filled_pattern prt n
                (flat_map (fun i => map (fun j => (i, j)) (zrange (Z.of_nat n)))
                   (zrange (Z.of_nat n))) P) as (Hlen & Hrows & Hcells);
      [| exact EP |].
    { intros [i j] Hin. apply in_pairs_range in Hin. exact Hin. }
    split; [| split; [exact Hlen | split; [exact Hrows |]]].
    + unfold HipDevice.get_hip_peer_access_pattern. rewrite Hrun, EP. reflexivity.
    + intros i j Hi Hj.
      exact (proj1 (Hcells i j Hi Hj) (proj2 (in_pairs_range (Z.of_nat n) i j) (conj Hi Hj))).
Qed.

(** X20.  A failed peer query stops [GetHipPeerAccessPattern] at once: it
    returns [false], the Python function fails, and the pattern is left
    half filled: a square matrix of the device count in which the pairs
    visited before the failing one (rows in order, columns in order within
    a row) hold their answer and all others, the failing pair included,
    hold [false]. *)
Theorem peer_access_pattern_stops_at_first_failure (prt : HipDevice.PeerRuntime)
    (P0 : list (list bool)) (n : nat) (i0 j0 : Z) :
  let N := Z.of_nat n in
  HipDevice.hipGetDeviceCount_answer prt = (CommonHip.hipSuccess, n) ->
  0 <= i0 < N -> 0 <= j0 < N -> i0 <> j0 ->
  fst (HipDevice.hipDeviceCanAccessPeer prt i0 j0) <> CommonHip.hipSuccess ->
  (forall i j, 0 <= i < N -> 0 <= j < N -> i <> j -> i * N + j < i0 * N + j0 ->
     fst (HipDevice.hipDeviceCanAccessPeer prt i j) = CommonHip.hipSuccess) ->
  exists P,
    HipDevice.GetHipPeerAccessPattern prt P0 = (false, P) /\
    is_fatal (HipDevice.get_hip_peer_access_pattern prt) = true /\
    length P = n /\
    (forall i, 0 <= i < N -> length (load [] P i) = n) /\
    forall i j, 0 <= i < N -> 0 <= j < N ->
      load false (load [] P i) j
      = if i * N + j <? i0 * N + j0
        then (if i =? j then true
              else negb (snd (HipDevice.hipDeviceCanAccessPeer prt i j) =? 0))
        else false.
Proof.
  intros N Ecount Hi0 Hj0 Hne0 Hfail Hbefore.
  set (decode := fun g : Z => (g / N, g mod N)).
  set (g0 := i0 * N + j0).
  assert (0 <= g0 < N * N) as Hg0 by (unfold g0; nia).
  assert (forall i j, 0 <= i < N -> 0 <= j < N -> decode (i * N + j) = (i, j)) as Hdec.
  { intros i j Hi Hj. unfold decode. f_equal.
    - symmetry. apply (Z.div_unique _ _ i j); lia.
    - symmetry. apply (Z.mod_unique _ _ i j); lia. }
  assert (forall g, 0 <= g < N * N ->
            0 <= g / N < N /\ 0 <= g mod N < N /\ g = g / N * N + g mod N) as Hcode.
  { intros g Hg. assert (0 < N) as HN by nia.
    pose proof (Z.mod_pos_bound g N HN). pose proof (Z.div_mod g N ltac:(lia)).
    assert (0 <= g / N) by (apply Z.div_pos; lia).
    assert (g / N < N) by (apply Z.div_lt_upper_bound; lia).
    lia. }
  assert (flat_map (fun i => map (fun j => (i, j)) (zrange N)) (zrange N)
          = map decode (zrange g0) ++ (i0, j0)
            :: map decode (map (fun x => g0 + 1 + x) (zrange (N * N - g0 - 1)))) as Esplit.
  { rewrite pairs_by_rank by lia. fold decode.
    replace (N * N) with (g0 + 1 + (N * N - g0 - 1)) at 1 by lia.
    rewrite zrange_split, zrange_succ by lia.
    rewrite map_app, map_app, <- app_assoc. cbn [map app].
    unfold g0 at 2. rewrite Hdec by assumption. reflexivity. }
  assert (forall Q, HipDevice.GetHipPeerAccessPattern prt Q
                    = (false, HipDeviceSpec.fill prt (map decode (zrange g0))
                                (replicate n (replicate n false)))) as Hrun.
  { intros Q. rewrite (GetHipPeerAccessPattern_scan prt n Q Ecount). fold N.
    rewrite Esplit. apply scan_stops.
    - intros p Hp. apply in_map_iff in Hp as (g & <- & Hg). apply in_zrange in Hg.
      destruct (Hcode g ltac:(lia)) as (Hi & Hj & Eg).
      unfold decode. apply passes_spec.
      destruct (Z.eq_dec (g / N) (g mod N)) as [E | Hne]; [left; exact E |].
      right. apply Hbefore; try assumption. fold g0. lia.
    - destruct (HipDeviceSpec.passes prt (i0, j0)) eqn:Ep; [| reflexivity].
      apply passes_spec in Ep as [E | E]; contradiction. }
  eexists. split; [apply Hrun |].
  destruct (filled_pattern prt n (map decode (zrange g0))
              (HipDeviceSpec.fill prt (map decode (zrange g0))
                 (replicate n (replicate n false))))
    as (Hlen & Hrows & Hcells); [| reflexivity |].
  { intros p Hp. apply in_map_iff in Hp as (g & <- & Hg). apply in_zrange in Hg.
    destruct (Hcode g ltac:(lia)) as (Hi & Hj & _). unfold decode. cbn [fst snd].
    split; assumption. }
  split; [| split; [exact Hlen | split; [exact Hrows |]]].
  - unfold HipDevice.get_hip_peer_access_pattern. rewrite Hrun. reflexivity.
  - intros i j Hi Hj. destruct (Hcells i j Hi Hj) as [Hin Hnin]. fold g0.
    destruct (Z.ltb_spec (i * N + j) g0) as [Hlt | Hge].
    + apply Hin. apply in_map_iff. exists (i * N + j).
      split; [apply Hdec; assumption | apply in_zrange; nia].
    + apply Hnin. intros Hp. apply in_map_iff in Hp as (g & Eg & Hg).
      apply in_zrange in Hg. destruct (Hcode g ltac:(lia)) as (_ & _ & Egg).
      unfold decode in Eg. injection Eg as E1 E2. rewrite E1, E2 in Egg. lia.
Qed.

Lemma set_default_gpu_id_witness :
  let rt : CommonHip.Runtime := fun _ => (CommonHip.hipSuccess, 2%nat) in
  exists s',
    HipDevice.SetDefaultGPUID false false rt (-3) (HipDevice.initial 0) = (Ok tt, s') /\
    HipDevice.GetDefaultGPUID s' = (Ok (-3), s').
Proof.
  intros rt.
  destruct (set_default_gpu_id_checks_upper_bound_only false false rt (-3) 2
              (HipDevice.initial 0) (CommonHip.mkWorld true 2 1 []) eq_refl) as [Hok _].
  destruct Hok as (s' & E & G & _); [right; lia |].
  exists s'. split; [exact E | exact G].
Defined.

Lemma device_cache_witness :
  let drt := HipDevice.mkDeviceRuntime (fun _ _ => CommonHip.hipSuccess)
               (fun _ => CommonHip.hipSuccess) in
  HipDevice.gCurrentDevice
    (snd (HipDevice.CaffeHipSetDevice true drt 1 (HipDevice.initial 0))) = 1 /\
  HipDevice.runtime_device
    (snd (HipDevice.CaffeHipSetDevice true drt 1 (HipDevice.initial 0))) = 1.
Proof.
  intros drt.
  destruct (device_cache_agrees_with_runtime drt (HipDevice.initial 0) 1) as (Hset & _).
  - left. cbn. lia.
  - destruct (Hset (fst (HipDevice.CaffeHipSetDevice true drt 1 (HipDevice.initial 0)))
                (snd (HipDevice.CaffeHipSetDevice true drt 1 (HipDevice.initial 0)))
                eq_refl) as [_ Hok].
    destruct (Hok eq_refl) as [E1 E2]. split; [exact E1 | apply E2; lia].
Defined.

Lemma peer_access_pattern_witness :
  let prt := HipDevice.mkPeerRuntime (CommonHip.hipSuccess, 2%nat)
               (fun _ _ => (CommonHip.hipSuccess, 1)) in
  HipDevice.get_hip_peer_access_pattern prt
  = Ok (snd (HipDevice.GetHipPeerAccessPattern prt [])) /\
  length (snd (HipDevice.GetHipPeerAccessPattern prt [])) = 2%nat.
Proof.
  intros prt.
  destruct (peer_access_pattern_complete prt []) as (_ & _ & Hfull).
  destruct (Hfull 2%nat eq_refl eq_refl) as (Hpy & Hlen & _).
  split; [exact Hpy | exact Hlen].
Defined.

Lemma peer_access_failure_witness :
  let prt := HipDevice.mkPeerRuntime (CommonHip.hipSuccess, 2%nat)
               (fun i j => if (i =? 1) && (j =? 0)
                           then (CommonHip.hipErrorUnknown, 0)
                           else (CommonHip.hipSuccess, 1)) in
  exists P,
    HipDevice.GetHipPeerAccessPattern prt [] = (false, P) /\
    load false (load [] P 0) 1 = true /\
    load false (load [] P 1) 1 = false.
Proof.
  intros prt.
  destruct (peer_access_pattern_stops_at_first_failure prt [] 2%nat 1 0)
    as (P & E & _ & _ & _ & Hcells).
  - reflexivity.
  - change (Z.of_nat 2) with 2. lia.
  - change (Z.of_nat 2) with 2. lia.
  - lia.
  - vm_compute. discriminate.
  - change (Z.of_nat 2) with 2. intros i j Hi Hj Hne Hlt.
    assert (i = 0) as -> by lia. assert (j = 1) as -> by lia. reflexivity.
  - change (Z.of_nat 2) with 2 in Hcells.
    exists P. split; [exact E |]. split.
    + exact (Hcells 0 1 ltac:(lia) ltac:(lia)).
    + exact (Hcells 1 1 ltac:(lia) ltac:(lia)).
Defined.

(** * RMAC regions: the step and the number of rois *)

Section RMACOrder.

Import Hip RMACRegions RMACSpec.

Lemma rank_of_number f : Float.is_nan f = false -> exists r, Float.rank f = Some r.
Proof.
  destruct f as [s | s | | s m e]; try discriminate; intros _;
    try destruct s; eexists; reflexivity.
Qed.

Lemma triple_eq (x1 x2 x3 y1 y2 y3 : Z) :
  (x1, x2, x3) = (y1, y2, y3) <-> x1 = y1 /\ x2 = y2 /\ x3 = y3.
Proof.
  split; [intros E; inversion E; auto | intros (-> & -> & ->); reflexivity].
Qed.

(** [operator<] on key-value pairs whose values are numbers: by value, and
    among equal values the larger key is the smaller pair. *)
Lemma kv_lt_rank a b ra rb :
  Float.rank (value a) = Some ra -> Float.rank (value b) = Some rb ->
  kv_lt a b = true <-> Float.lex_lt ra rb \/ (ra = rb /\ key b < key a).
Proof.
  intros Ea Eb. unfold kv_lt.
  rewrite orb_true_iff, andb_true_iff, ltb_rank, eqb_rank, Z.ltb_lt. split.
  - intros [(x & y & Ex & Ey & Hlt) | [(x & Ex & Ey) Hk]].
    + rewrite Ea in Ex. rewrite Eb in Ey. inversion Ex; inversion Ey; subst. left. exact Hlt.
    + rewrite Ea in Ex. rewrite Eb in Ey. inversion Ex; inversion Ey; subst. right. auto.
  - intros [Hlt | [-> Hk]].
    + left. exists ra, rb. auto.
    + right. split; [exists rb; auto | exact Hk].
Qed.

Lemma kv_lt_irrefl a : kv_lt a a = false.
Proof.
  unfold kv_lt. rewrite ltb_irrefl, Z.ltb_irrefl, andb_false_r. reflexivity.
Qed.

(** [a <= b] and [b <= c] give [a <= c], where [x <= y] is "not [y < x]",
    when no value is NaN. *)
Lemma kv_le_trans a b c :
  Float.is_nan (value a) = false -> Float.is_nan (value b) = false ->
  Float.is_nan (value c) = false ->
  kv_lt b a = false -> kv_lt c b = false -> kv_lt c a = false.
Proof.
  intros Na Nb Nc Hba Hcb.
  apply rank_of_number in Na as [[[a1 a2] a3] Ea].
  apply rank_of_number in Nb as [[[b1 b2] b3] Eb].
  apply rank_of_number in Nc as [[[c1 c2] c3] Ec].
  apply not_true_iff_false in Hba, Hcb. apply not_true_iff_false.
  rewrite (kv_lt_rank _ _ _ _ Eb Ea) in Hba.
  rewrite (kv_lt_rank _ _ _ _ Ec Eb) in Hcb.
  rewrite (kv_lt_rank _ _ _ _ Ec Ea).
  unfold Float.lex_lt in *. rewrite !triple_eq in *. lia.
Qed.

Lemma kv_lt_asym a b : kv_lt a b = true -> kv_lt b a = false.
Proof.
  intros Hab. destruct (Float.is_nan (value a)) eqn:Na.
  { destruct (value a) eqn:Ea; try discriminate Na.
    unfold kv_lt in Hab. rewrite Ea in Hab. discriminate Hab. }
  destruct (Float.is_nan (value b)) eqn:Nb.
  { destruct (value b) eqn:Eb; try discriminate Nb.
    unfold kv_lt in Hab. rewrite Eb in Hab.
    destruct (value a); discriminate Hab. }
  apply rank_of_number in Na as [[[a1 a2] a3] Ea].
  apply rank_of_number in Nb as [[[b1 b2] b3] Eb].
  apply not_true_iff_false.
  rewrite (kv_lt_rank _ _ _ _ Ea Eb) in Hab.
  rewrite (kv_lt_rank _ _ _ _ Eb Ea).
  unfold Float.lex_lt in *. rewrite !triple_eq in *. lia.
Qed.

(** The block-wide reduction returns one of the pairs, and none of them is
    below it. *)
Lemma fold_kv_min_least xs : forall a,
  Float.is_nan (value a) = false ->
  (forall x, In x xs -> Float.is_nan (value x) = false) ->
  let r := fold_left kv_min xs a in
  (r = a \/ In r xs) /\ kv_lt a r = false /\ forall x, In x xs -> kv_lt x r = false.
Proof.
  induction xs as [| x xs IH]; intros a Na Nxs; cbn [fold_left].
  - split; [left; reflexivity |]. split; [apply kv_lt_irrefl | intros x []].
  - assert (Float.is_nan (value x) = false) as Nx by (apply Nxs; left; reflexivity).
    assert (Float.is_nan (value (kv_min a x)) = false) as Nm
      by (unfold kv_min; destruct (kv_lt x a); assumption).
    destruct (IH (kv_min a x) Nm (fun y Hy => Nxs y (or_intror Hy))) as (Hin & Hm & Hall).
    assert (Float.is_nan (value (fold_left kv_min xs (kv_min a x))) = false) as Nr.
    { destruct Hin as [-> | Hin]; [exact Nm | apply Nxs; right; exact Hin]. }
    assert (kv_lt a (kv_min a x) = false /\ kv_lt x (kv_min a x) = false) as [Ha Hx].
    { unfold kv_min. destruct (kv_lt x a) eqn:E.
      - split; [apply kv_lt_asym; exact E | apply kv_lt_irrefl].
      - split; [apply kv_lt_irrefl | exact E]. }
    split; [| split].
    + destruct Hin as [-> | Hin]; [| right; right; exact Hin].
      unfold kv_min. destruct (kv_lt x a); [right; left; reflexivity | left; reflexivity].
    + exact (kv_le_trans _ _ _ Nr Nm Na Hm Ha).
    + intros y [<- | Hy]; [exact (kv_le_trans _ _ _ Nr Nm Nx Hm Hx) | apply Hall; exact Hy].
Qed.

Variables (W H : Z) (overlap : Float.float).

(** The local reduction of a thread returns what it started from or the
    pair of a step it looked at, and neither the start nor any of those
    steps is below it. *)
Lemma local_argmin_least idxs : forall init,
  Float.is_nan (value init) = false ->
  (forall x, In x idxs -> Float.is_nan (step_value W H overlap (1 + x)) = false) ->
  let r := fold_left (argmin_step W H 1 overlap) idxs init in
  (r = init \/ exists x, In x idxs /\ r = kv_of_step W H overlap (1 + x)) /\
  kv_lt init r = false /\
  forall x, In x idxs -> kv_lt (kv_of_step W H overlap (1 + x)) r = false.
Proof.
  induction idxs as [| x idxs IH]; intros init Ni Nxs; cbn [fold_left].
  - split; [left; reflexivity |]. split; [apply kv_lt_irrefl | intros x []].
  - assert (Float.is_nan (value (kv_of_step W H overlap (1 + x))) = false) as Nx
      by (apply Nxs; left; reflexivity).
    assert (argmin_step W H 1 overlap init x
            = if kv_lt (kv_of_step W H overlap (1 + x)) init
              then kv_of_step W H overlap (1 + x) else init) as Estep by reflexivity.
    assert (Float.is_nan (value (argmin_step W H 1 overlap init x)) = false) as Nm
      by (rewrite Estep; destruct (kv_lt (kv_of_step W H overlap (1 + x)) init);
          assumption).
    destruct (IH (argmin_step W H 1 overlap init x) Nm (fun y Hy => Nxs y (or_intror Hy)))
      as (Hin & Hm & Hall).
    assert (Float.is_nan
              (value (fold_left (argmin_step W H 1 overlap) idxs
                        (argmin_step W H 1 overlap init x))) = false) as Nr.
    { destruct Hin as [-> | (y & Hy & ->)]; [exact Nm | apply Nxs; right; exact Hy]. }
    assert (kv_lt init (argmin_step W H 1 overlap init x) = false /\
            kv_lt (kv_of_step W H overlap (1 + x)) (argmin_step W H 1 overlap init x) = false)
      as [Ha Hx].
    { rewrite Estep. destruct (kv_lt (kv_of_step W H overlap (1 + x)) init) eqn:E.
      - split; [apply kv_lt_asym; exact E | apply kv_lt_irrefl].
      - split; [apply kv_lt_irrefl | exact E]. }
    split; [| split].
    + destruct Hin as [E | (y & Hy & E)].
      * rewrite E, Estep.
        destruct (kv_lt (kv_of_step W H overlap (1 + x)) init);
          [right; exists x; split; [left; reflexivity | reflexivity] | left; reflexivity].
      * right. exists y. split; [right; exact Hy | exact E].
    + exact (kv_le_trans _ _ _ Nr Nm Ni Hm Ha).
    + intros y [<- | Hy]; [exact (kv_le_trans _ _ _ Nr Nm Nx Hm Hx) | apply Hall; exact Hy].
Qed.

(** The threads of the one block share out the indices below [n]. *)
Lemma block_thread_covers blockDim n x :
  0 < blockDim -> 0 <= x < n ->
  exists t, 0 <= t < blockDim /\ In x (thread_indices 1 blockDim 0 t n).
Proof.
  intros HB Hx.
  pose proof (HIP_1D_KERNEL_LOOP_perm 1 blockDim n ltac:(lia) HB) as HP.
  assert (In x (HIP_1D_KERNEL_LOOP 1 blockDim n)) as Hin
    by (eapply Permutation_in; [apply Permutation_sym; exact HP | apply in_zrange; exact Hx]).
  unfold HIP_1D_KERNEL_LOOP in Hin. apply in_flat_map in Hin as (b & Hb & Hin).
  apply in_zrange in Hb. assert (b = 0) as -> by lia.
  apply in_flat_map in Hin as (t & Ht & Hin). apply in_zrange in Ht.
  exists t. split; assumption.
Qed.

(** The step the kernel settles on: no step has a smaller score, and of
    the steps with its score it is the largest. *)
Lemma NumRMACRegionsKernel_argmin blockDim key0 :
  0 < blockDim ->
  Float.ltb (step_value W H overlap 1) FLT_MAX = true ->
  (forall s, 1 <= s <= 6 -> Float.is_nan (step_value W H overlap s) = false) ->
  let locals :=
    map (fun t => local_argmin W H 1 overlap (key0 t) (thread_indices 1 blockDim 0 t (6 - 1 + 1)))
        (zrange blockDim) in
  let min_kv :=
    match locals with
    | [] => mkKV (key0 0) FLT_MAX
    | kv :: rest => fold_left kv_min rest kv
    end in
  1 <= key min_kv <= 6 /\
  forall s, 1 <= s <= 6 ->
    Float.ltb (step_value W H overlap s) (step_value W H overlap (key min_kv)) = false /\
    (Float.eqb (step_value W H overlap s) (step_value W H overlap (key min_kv)) = true ->
     s <= key min_kv).
Proof.
  intros HB Hfin Hnum locals min_kv.
  assert (forall t, 0 <= t < blockDim ->
            forall x, In x (thread_indices 1 blockDim 0 t (6 - 1 + 1)) ->
            Float.is_nan (step_value W H overlap (1 + x)) = false) as Hidx.
  { intros t Ht x Hx. apply Hnum. apply thread_indices_range in Hx; lia. }
  assert (forall l, In l locals ->
            (exists t, l = mkKV (key0 t) FLT_MAX) \/
            (exists s, 1 <= s <= 6 /\ l = kv_of_step W H overlap s)) as Hshape.
  { intros l Hl. apply in_map_iff in Hl as (t & <- & Ht). apply in_zrange in Ht.
    unfold local_argmin.
    destruct (local_argmin_least (thread_indices 1 blockDim 0 t (6 - 1 + 1))
                (mkKV (key0 t) FLT_MAX) eq_refl (Hidx t Ht)) as ([E | (x & Hx & E)] & _ & _).
    - left. exists t. exact E.
    - right. exists (1 + x). split; [| exact E].
      apply thread_indices_range in Hx; lia. }
  assert (forall l, In l locals -> Float.is_nan (value l) = false) as Nloc.
  { intros l Hl. destruct (Hshape l Hl) as [(t & ->) | (s & Hs & ->)];
      [reflexivity | apply Hnum; exact Hs]. }
  assert (In min_kv locals /\ forall l, In l locals -> kv_lt l min_kv = false) as [Hin Hleast].
  { unfold min_kv. destruct locals as [| kv rest] eqn:El.
    - exfalso. unfold locals in El. apply (f_equal (@length _)) in El.
      rewrite length_map, zrange_length in El. cbn in El. lia.
    - destruct (fold_kv_min_least rest kv (Nloc kv (or_introl eq_refl))
                  (fun x Hx => Nloc x (or_intror Hx))) as (Hr & Hkv & Hall).
      split.
      + destruct Hr as [-> | Hr]; [left; reflexivity | right; exact Hr].
      + intros l [<- | Hl]; [exact Hkv | apply Hall; exact Hl]. }
  assert (forall s, 1 <= s <= 6 -> kv_lt (kv_of_step W H overlap s) min_kv = false) as Hsteps.
  { intros s Hs.
    destruct (block_thread_covers blockDim (6 - 1 + 1) (s - 1) HB ltac:(lia)) as (t & Ht & Hx).
    destruct (local_argmin_least (thread_indices 1 blockDim 0 t (6 - 1 + 1))
                (mkKV (key0 t) FLT_MAX) eq_refl (Hidx t Ht)) as (_ & _ & Hall).
    specialize (Hall (s - 1) Hx). replace (1 + (s - 1)) with s in Hall by lia.
    assert (In (local_argmin W H 1 overlap (key0 t)
                  (thread_indices 1 blockDim 0 t (6 - 1 + 1))) locals) as Hl
      by (apply in_map_iff; exists t; split; [reflexivity | apply in_zrange; exact Ht]).
    refine (kv_le_trans min_kv _ (kv_of_step W H overlap s)
              (Nloc _ Hin) (Nloc _ Hl) (Hnum s Hs) _ Hall).
    apply Hleast. exact Hl. }
  destruct (Hshape min_kv Hin) as [(t & E) | (s0 & Hs0 & E)].
  - exfalso. pose proof (Hsteps 1 ltac:(lia)) as H1. rewrite E in H1.
    unfold kv_lt in H1. cbn [value key kv_of_step] in H1. rewrite Hfin in H1.
    discriminate H1.
  - rewrite E. cbn [key kv_of_step]. split; [exact Hs0 |].
    intros s Hs. pose proof (Hsteps s Hs) as Hle. rewrite E in Hle.
    unfold kv_lt in Hle. cbn [value key kv_of_step] in Hle.
    apply orb_false_iff in Hle as [Hlt Heq]. split; [exact Hlt |].
    intros Heqb. rewrite Heqb in Heq. cbn [andb] in Heq. apply Z.ltb_ge in Heq. exact Heq.
Qed.

End RMACOrder.

Section RMACCount.

Import Hip RMACRegions RMACSpec.

Lemma zsum_acc (l : list Z) (a : Z) : fold_left Z.add l a = a + fold_left Z.add l 0.
Proof.
  revert a. induction l as [| x l IH]; intros a; cbn [fold_left]; [lia |].
  rewrite (IH (a + x)), (IH (0 + x)). lia.
Qed.

Lemma zsum_permutation {X : Type} (f : X -> Z) (l1 l2 : list X) :
  Permutation l1 l2 ->
  forall a, fold_left Z.add (map f l1) a = fold_left Z.add (map f l2) a.
Proof.
  induction 1 as [| x l l' HP IH | x y l | l l' l'' HP1 IH1 HP2 IH2]; intros a;
    cbn [map fold_left].
  - reflexivity.
  - apply IH.
  - f_equal. lia.
  - rewrite IH1. apply IH2.
Qed.

Lemma zsum_threads {X : Type} (f : Z -> Z) (g : X -> list Z) (l : list X) : forall a,
  fold_left Z.add
    (map (fun t => fold_left (fun acc x => acc + f x) (g t) 0) l) a
  = fold_left Z.add (map f (flat_map g l)) a.
Proof.
  induction l as [| t l IH]; intros a; [reflexivity |].
  cbn [map fold_left flat_map]. rewrite IH, map_app, fold_left_app. f_equal.
  rewrite (zsum_acc (map f (g t)) a). f_equal.
  generalize 0. induction (g t) as [| x xs IHx]; intros b; [reflexivity |].
  cbn [fold_left map]. apply IHx.
Qed.

(** The block-wide sum is the number of rois of all scales. *)
Lemma block_sum_total_rois blockDim minW Wd Hd scales :
  0 < blockDim ->
  fold_left Z.add
    (map (fun t => local_num_rois minW Wd Hd (thread_indices 1 blockDim 0 t scales))
         (zrange blockDim)) 0
  = total_rois minW Wd Hd scales.
Proof.
  intros HB. unfold local_num_rois, total_rois.
  rewrite (zsum_threads (rois_at_scale minW Wd Hd)
             (fun t => thread_indices 1 blockDim 0 t scales)).
  apply zsum_permutation.
  pose proof (HIP_1D_KERNEL_LOOP_perm 1 blockDim scales ltac:(lia) HB) as HP.
  unfold HIP_1D_KERNEL_LOOP in HP. change (zrange 1) with [0] in HP.
  cbn [flat_map] in HP. rewrite app_nil_r in HP. exact HP.
Qed.

(** On a square image every scale [l <= 2 * W - 1] has [l * l] rois. *)
Lemma total_rois_square W scales :
  1 <= W -> 0 <= scales <= 2 * W - 1 ->
  6 * total_rois W 0 0 scales = scales * (scales + 1) * (2 * scales + 1).
Proof.
  intros HW [H0 Hs]. revert Hs. pattern scales. apply natlike_ind; [| | exact H0].
  - intros _. reflexivity.
  - intros s Hs0 IH Hs. unfold Z.succ in *. unfold total_rois in *.
    rewrite zrange_succ, map_app, fold_left_app by exact Hs0. cbn [map fold_left].
    assert (rois_at_scale W 0 0 s = (s + 1) * (s + 1)) as ->.
    { unfold rois_at_scale. cbv zeta.
      assert (0 < Z.quot (2 * W) (s + 1 + 1)) as Hpos.
      { rewrite Z.quot_div_nonneg by lia. apply Z.div_str_pos. lia. }
      destruct (Z.ltb_spec 0 (Z.quot (2 * W) (s + 1 + 1))); lia. }
    specialize (IH ltac:(lia)). nia.
Qed.

Lemma NumRMACRegionsKernel_cells blockDim W H overlap scales key0 data :
  0 < blockDim -> length data = 3%nat ->
  let r := NumRMACRegionsKernel blockDim W H 1 6 overlap scales key0 data in
  let locals :=
    map (fun t => local_argmin W H 1 overlap (key0 t) (thread_indices 1 blockDim 0 t (6 - 1 + 1)))
        (zrange blockDim) in
  let min_kv :=
    match locals with
    | [] => mkKV (key0 0) FLT_MAX
    | kv :: rest => fold_left kv_min rest kv
    end in
  length r = 3%nat /\
  load 0 r 1 = (if H <? W then key min_kv else 0) /\
  load 0 r 2 = (if W <? H then key min_kv else 0) /\
  load 0 r 0 = total_rois (Z.min H W) (load 0 r 1) (load 0 r 2) scales.
Proof.
  intros HB Hlen r locals min_kv.
  assert (r = store (store (store data 0
                (total_rois (Z.min H W) (if H <? W then key min_kv else 0)
                   (if W <? H then key min_kv else 0) scales))
                1 (if H <? W then key min_kv else 0))
                2 (if W <? H then key min_kv else 0)) as ->.
  { unfold r, NumRMACRegionsKernel. cbv zeta. fold locals. fold min_kv.
    rewrite block_sum_total_rois by exact HB. reflexivity. }
  assert (load 0 (store (store (store data 0
                (total_rois (Z.min H W) (if H <? W then key min_kv else 0)
                   (if W <? H then key min_kv else 0) scales))
                1 (if H <? W then key min_kv else 0))
                2 (if W <? H then key min_kv else 0)) 1
          = if H <? W then key min_kv else 0) as E1.
  { rewrite load_store_other by lia. apply load_store_same. rewrite store_length. lia. }
  assert (load 0 (store (store (store data 0
                (total_rois (Z.min H W) (if H <? W then key min_kv else 0)
                   (if W <? H then key min_kv else 0) scales))
                1 (if H <? W then key min_kv else 0))
                2 (if W <? H then key min_kv else 0)) 2
          = if W <? H then key min_kv else 0) as E2.
  { apply load_store_same. rewrite !store_length. lia. }
  rewrite !store_length. split; [exact Hlen |].
  split; [exact E1 |]. split; [exact E2 |].
  rewrite E1, E2. rewrite !load_store_other by lia. apply load_store_same. lia.
Qed.

End RMACCount.

(** X21.  The step that [NumRMACRegionsKernel] settles on is the arg-min
    of the overlap error over the steps 1 to 6, the errors being the
    [float]s the kernel computes and compared as it compares them: no step
    has an error below that of the chosen one, and of the steps whose
    error equals it the chosen one is the largest.  This holds whatever
    the uninitialised keys of the threads hold, given that no error is NaN
    and the error of step 1 is below [FLT_MAX].  The kernel stores the
    step as the overplus of the longer dimension ([Wd] when [W > H], [Hd]
    when [H > W]); the other overplus, and both for a square image,
    is 0. *)
Theorem rmac_step_is_arg_min (blockDim W H : Z) (overlap : Float.float) (scales : Z)
    (key0 : Z -> Z) (data : list Z) :
  0 < blockDim ->
  Float.ltb (RMACRegions.step_value W H overlap 1) RMACRegions.FLT_MAX = true ->
  (forall s, 1 <= s <= 6 ->
     Float.is_nan (RMACRegions.step_value W H overlap s) = false) ->
  length data = 3%nat ->
  let r := RMACRegions.NumRMACRegionsKernel blockDim W H 1 6 overlap scales key0 data in
  exists step,
    1 <= step <= 6 /\
    load 0 r 1 = (if H <? W then step else 0) /\
    load 0 r 2 = (if W <? H then step else 0) /\
    forall s, 1 <= s <= 6 ->
      Float.ltb (RMACRegions.step_value W H overlap s)
                (RMACRegions.step_value W H overlap step) = false /\
      (Float.eqb (RMACRegions.step_value W H overlap s)
                 (RMACRegions.step_value W H overlap step) = true ->
       s <= step).
Proof.
  intros HB Hfin Hnum Hlen r.
  destruct (NumRMACRegionsKernel_cells blockDim W H overlap scales key0 data HB Hlen)
    as (_ & E1 & E2 & _).
  destruct (NumRMACRegionsKernel_argmin W H overlap blockDim key0 HB Hfin Hnum)
    as [Hstep Hmin].
  eexists. split; [exact Hstep |]. split; [exact E1 |]. split; [exact E2 |]. exact Hmin.
Qed.

(** X22.  The number of rois.  RMACRegions returns an output of
    [batch_size * num_rois] rows, where [num_rois] is the sum over the
    scales [l = 1 .. scales] with a non-zero region size
    [2 * min(H, W) / (l + 1)] of [(l + Wd) * (l + Hd)].  For a square
    image ([H = W >= 1]) both overplus values are 0 and, for at most
    [2 * W - 1] scales, [num_rois = scales (scales + 1) (2 scales + 1) / 6],
    the sum of the squares. *)
Theorem rmac_number_of_rois (cfg : Hip.Config) (overlap_ : Float.float) (scales_ : Z)
    (key0 : Z -> Z) (batch_size channels H W : Z) (more : list Z)
    (c : Hip.Ctx RMACRegions.Outputs) :
  Hip.config_ok cfg ->
  Tensor.prod_dims (batch_size :: channels :: H :: W :: more) <> 0 ->
  exists c' num_rois Wd Hd,
    RMACRegions.RunOnDevice cfg overlap_ scales_ key0
      (batch_size :: channels :: H :: W :: more) c = (Ok true, c') /\
    map (load 0 (Tensor.data (RMACRegions.num_rois_ (Hip.outs c')))) [0; 1; 2]
    = [num_rois; Wd; Hd] /\
    Tensor.dims (RMACRegions.output (Hip.outs c')) = [batch_size * num_rois; 5] /\
    num_rois = RMACSpec.total_rois (Z.min H W) Wd Hd scales_ /\
    (H = W -> Wd = 0 /\ Hd = 0) /\
    (H = W -> 1 <= W -> 0 <= scales_ <= 2 * W - 1 ->
     6 * num_rois = scales_ * (scales_ + 1) * (2 * scales_ + 1)).
Proof.
  intros Hcfg Hprod.
  unfold RMACRegions.RunOnDevice.
  destruct (Z.eqb_spec (Tensor.prod_dims (batch_size :: channels :: H :: W :: more)) 0)
    as [E | _]; [contradiction |].
  do 3 (erewrite bind_ok by (apply dim32_ok; cbn [length]; lia)).
  do 2 (erewrite bind_ok by reflexivity).
  change (nth (Z.to_nat 0) (batch_size :: channels :: H :: W :: more) 0) with batch_size.
  change (nth (Z.to_nat 2) (batch_size :: channels :: H :: W :: more) 0) with H.
  change (nth (Z.to_nat 3) (batch_size :: channels :: H :: W :: more) 0) with W.
  cbn [Hip.outs RMACRegions.num_rois_ RMACRegions.set_num_rois_ RMACRegions.set_output
       RMACRegions.output Tensor.data Tensor.dims].
  set (data := RMACRegions.NumRMACRegionsKernel (Hip.CAFFE_HIP_NUM_THREADS cfg)
                 W H 1 6 overlap_ scales_ key0
                 (Tensor.data (Tensor.Resize 0 [3] (RMACRegions.num_rois_ (Hip.outs c))))).
  destruct (NumRMACRegionsKernel_cells (Hip.CAFFE_HIP_NUM_THREADS cfg) W H overlap_
              scales_ key0
              (Tensor.data (Tensor.Resize 0 [3] (RMACRegions.num_rois_ (Hip.outs c)))))
    as (_ & E1 & E2 & E0).
  { destruct Hcfg as (Hth & _). exact Hth. }
  { rewrite Resize_length. reflexivity. }
  fold data in E0, E1, E2.
  repeat (erewrite bind_ok by reflexivity).
  eexists. exists (load 0 data 0), (load 0 data 1), (load 0 data 2).
  split; [reflexivity |].
  cbn [Hip.outs RMACRegions.num_rois_ RMACRegions.set_num_rois_ RMACRegions.set_output
       RMACRegions.output Tensor.data Tensor.dims].
  fold data.
  split; [reflexivity |]. split; [reflexivity |]. split; [exact E0 |].
  assert (H = W -> load 0 data 1 = 0 /\ load 0 data 2 = 0) as Hsq.
  { intros ->. rewrite E1, E2, Z.ltb_irrefl. split; reflexivity. }
  split; [exact Hsq |].
  intros HHW HW Hs. destruct (Hsq HHW) as [Z1 Z2].
  rewrite E0, Z1, Z2. subst H. rewrite Z.min_id. apply total_rois_square; assumption.
Qed.

(** A 3 x 5 feature map at overlap 0.5: in exact arithmetic the steps 1
    and 2 tie at 1/6; in [float] step 1 has the smaller error, and the
    kernel stores step 1. *)
Lemma rmac_step_witness :
  load 0 (RMACRegions.NumRMACRegionsKernel 4 5 3 1 6
            (Float.div (Float.of_int 1) (Float.of_int 2)) 3 (fun _ => -7) [0; 0; 0]) 1
  = 1.
Proof.
  destruct (rmac_step_is_arg_min 4 5 3 (Float.div (Float.of_int 1) (Float.of_int 2)) 3
              (fun _ => -7) [0; 0; 0])
    as (step & Hstep & E1 & _ & Hmin).
  - lia.
  - vm_compute. reflexivity.
  - intros s Hs.
    assert (s = 1 \/ s = 2 \/ s = 3 \/ s = 4 \/ s = 5 \/ s = 6)
      as [-> | [-> | [-> | [-> | [-> | ->]]]]] by lia; vm_compute; reflexivity.
  - reflexivity.
  - rewrite E1. change (3 <? 5) with true. cbv iota.
    assert (step = 1 \/ step = 2 \/ step = 3 \/ step = 4 \/ step = 5 \/ step = 6)
      as [-> | [-> | [-> | [-> | [-> | ->]]]]] by lia; [reflexivity | | | | |];
      exfalso; destruct (Hmin 1 ltac:(lia)) as [Hlt _]; vm_compute in Hlt;
      discriminate Hlt.
Defined.

Lemma rmac_number_of_rois_witness :
  exists c',
    RMACRegions.RunOnDevice Hip.default_config (Float.div (Float.of_int 2) (Float.of_int 5)) 3 (fun _ => -7) [2; 1; 4; 4]
      (Hip.mkCtx (RMACRegions.mkOutputs (Tensor.mk [0] []) (Tensor.mk [0] [])) [])
    = (Ok true, c') /\
    Tensor.dims (RMACRegions.output (Hip.outs c')) = [2 * 14; 5].
Proof.
  destruct (rmac_number_of_rois Hip.default_config (Float.div (Float.of_int 2) (Float.of_int 5)) 3 (fun _ => -7) 2 1 4 4 []
              (Hip.mkCtx (RMACRegions.mkOutputs (Tensor.mk [0] []) (Tensor.mk [0] [])) []))
    as (c' & num_rois & Wd & Hd & E & _ & Hdims & _ & _ & Hsq).
  - exact default_config_ok.
  - vm_compute. discriminate.
  - exists c'. split; [exact E |].
    assert (num_rois = 14) as <- by (specialize (Hsq eq_refl); lia).
    exact Hdims.
Defined.

Section RMACBatch.

Import Hip RMACRegions.

(** The roi of an index is the roi of its number within the batch item,
    with the batch item in front. *)
Lemma roi_of_index_batch W H num_rois Wd Hd b r :
  0 <= b -> 0 <= r < num_rois ->
  roi_of_index W H num_rois Wd Hd (b * num_rois + r)
  = b :: tail (roi_of_index W H num_rois Wd Hd r).
Proof.
  intros Hb Hr. unfold roi_of_index.
  destruct (quot_rem_row b r num_rois Hb Hr) as [-> ->].
  replace (Z.rem r num_rois) with r by (symmetry; apply Z.rem_small; lia).
  destruct (find_scale (Z.to_nat r) Wd Hd r 0 0) as [roi_id l]. reflexivity.
Qed.

End RMACBatch.

(** X26.  Every item of the batch gets the same regions: row
    [b * num_rois + r] of the RMACRegions output starts with the batch
    index [b], and its four coordinates are those of row [r], the roi of
    the same number of batch item 0. *)
Theorem rmac_batch_items_share_rois (cfg : Hip.Config) (overlap_ : Float.float) (scales_ : Z)
    (key0 : Z -> Z) (batch_size channels H W : Z) (more : list Z)
    (c : Hip.Ctx RMACRegions.Outputs) :
  Hip.config_ok cfg ->
  Tensor.prod_dims (batch_size :: channels :: H :: W :: more) <> 0 ->
  exists c' num_rois,
    RMACRegions.RunOnDevice cfg overlap_ scales_ key0
      (batch_size :: channels :: H :: W :: more) c = (Ok true, c') /\
    Tensor.dims (RMACRegions.output (Hip.outs c')) = [batch_size * num_rois; 5] /\
    forall b r, 0 <= b < batch_size -> 0 <= r < num_rois ->
      let out := Tensor.data (RMACRegions.output (Hip.outs c')) in
      load Float.zero out ((b * num_rois + r) * 5 + 0) = Float.of_int b /\
      forall k, 1 <= k < 5 ->
        load Float.zero out ((b * num_rois + r) * 5 + k) = load Float.zero out (r * 5 + k).
Proof.
  intros Hcfg Hprod.
  unfold RMACRegions.RunOnDevice.
  destruct (Z.eqb_spec (Tensor.prod_dims (batch_size :: channels :: H :: W :: more)) 0)
    as [E | _]; [contradiction |].
  do 3 (erewrite bind_ok by (apply dim32_ok; cbn [length]; lia)).
  do 2 (erewrite bind_ok by reflexivity).
  change (nth (Z.to_nat 0) (batch_size :: channels :: H :: W :: more) 0) with batch_size.
  change (nth (Z.to_nat 2) (batch_size :: channels :: H :: W :: more) 0) with H.
  change (nth (Z.to_nat 3) (batch_size :: channels :: H :: W :: more) 0) with W.
  cbn [Hip.outs RMACRegions.num_rois_ RMACRegions.set_num_rois_ RMACRegions.set_output
       RMACRegions.output Tensor.data Tensor.dims].
  set (data := RMACRegions.NumRMACRegionsKernel (Hip.CAFFE_HIP_NUM_THREADS cfg)
                 W H 1 6 overlap_ scales_ key0
                 (Tensor.data (Tensor.Resize 0 [3] (RMACRegions.num_rois_ (Hip.outs c))))).
  set (num_rois := load 0 data 0).
  set (N := batch_size * num_rois).
  repeat (erewrite bind_ok by reflexivity).
  eexists. exists num_rois.
  split; [reflexivity |].
  cbn [Hip.outs RMACRegions.num_rois_ RMACRegions.set_num_rois_ RMACRegions.set_output
       RMACRegions.output Tensor.data Tensor.dims].
  fold data. fold num_rois. fold N.
  split; [reflexivity |].
  intros b r Hb Hr. cbv zeta.
  assert (0 < N) as HN by (unfold N; nia).
  destruct (RMACRegionsKernel_spec (Hip.CAFFE_GET_BLOCKS cfg N)
              (Hip.CAFFE_HIP_NUM_THREADS cfg) W H N num_rois (load 0 data 1)
              (load 0 data 2) data
              (Tensor.data (Tensor.Resize Float.zero [N; 5] (RMACRegions.output (Hip.outs c)))))
    as [_ Hcells]; try reflexivity.
  { destruct Hcfg as (_ & _ & Hgb). apply Hgb. exact HN. }
  { destruct Hcfg as (Hth & _). exact Hth. }
  rewrite Resize_length in Hcells.
  assert (Tensor.prod_dims [N; 5] = N * 5) as HN5
    by (unfold Tensor.prod_dims; simpl; lia).
  rewrite HN5 in Hcells.
  assert (forall row k, 0 <= row < N -> 0 <= k < 5 ->
            load Float.zero
              (RMACRegions.RMACRegionsKernel (Hip.CAFFE_GET_BLOCKS cfg N)
                 (Hip.CAFFE_HIP_NUM_THREADS cfg) W H N data
                 (Tensor.data (Tensor.Resize Float.zero [N; 5] (RMACRegions.output (Hip.outs c)))))
              (row * 5 + k)
            = Float.of_int
                (load 0 (RMACRegions.roi_of_index W H num_rois (load 0 data 1)
                           (load 0 data 2) row) k)) as Hrow.
  { intros row k Hrow Hk. rewrite Hcells by lia. unfold RMACRegions.roi_cell.
    destruct (quot_rem_row row k 5) as [-> ->]; [lia | lia | reflexivity]. }
  assert (0 <= b * num_rois + r < N) as Hbr by (unfold N; nia).
  assert (0 <= r < N) as Hr0 by (unfold N; nia).
  split.
  - rewrite Hrow by lia. rewrite roi_of_index_batch by lia. reflexivity.
  - intros k Hk. rewrite !Hrow by lia. rewrite roi_of_index_batch by lia.
    f_equal.
    assert (RMACRegions.roi_of_index W H num_rois (load 0 data 1) (load 0 data 2) r
            = 0 :: tail (RMACRegions.roi_of_index W H num_rois (load 0 data 1)
                           (load 0 data 2) r)) as E0.
    { rewrite <- (roi_of_index_batch W H num_rois (load 0 data 1) (load 0 data 2) 0 r)
        by lia. reflexivity. }
    rewrite E0 at 2.
    unfold load. destruct (Z.ltb_spec k 0) as [? | _]; [lia |].
    replace (Z.to_nat k) with (S (Z.to_nat (k - 1))) by lia. reflexivity.
Qed.

Lemma rmac_batch_witness :
  exists c' num_rois,
    RMACRegions.RunOnDevice Hip.default_config (Float.div (Float.of_int 2) (Float.of_int 5)) 3 (fun _ => -7) [2; 1; 4; 6]
      (Hip.mkCtx (RMACRegions.mkOutputs (Tensor.mk [0] []) (Tensor.mk [0] [])) [])
    = (Ok true, c') /\
    Tensor.dims (RMACRegions.output (Hip.outs c')) = [2 * num_rois; 5].
Proof.
  destruct (rmac_batch_items_share_rois Hip.default_config (Float.div (Float.of_int 2) (Float.of_int 5)) 3 (fun _ => -7)
              2 1 4 6 []
              (Hip.mkCtx (RMACRegions.mkOutputs (Tensor.mk [0] []) (Tensor.mk [0] [])) []))
    as (c' & num_rois & E & Hdims & _).
  - exact default_config_ok.
  - vm_compute. discriminate.
  - exists c', num_rois. split; [exact E | exact Hdims].
Defined.

(** * BooleanMask: masks that select everything or nothing *)

Section BooleanMaskEdges.

Import Hip BooleanMask.

Lemma Flagged_from_all_true flags : forall i,
  (forall b, In b flags -> b = true) ->
  Flagged_from i flags = map (fun k => i + Z.of_nat k) (seq 0 (length flags)).
Proof.
  induction flags as [| f flags IH]; intros i Hall; [reflexivity |].
  cbn [Flagged_from length seq map].
  rewrite (Hall f) by (left; reflexivity).
  rewrite Z.add_0_r. f_equal.
  rewrite IH by (intros b Hb; apply Hall; right; exact Hb).
  rewrite <- seq_shift, map_map. apply map_ext. intros k. lia.
Qed.

Lemma Flagged_from_all_false flags : forall i,
  (forall b, In b flags -> b = false) -> Flagged_from i flags = [].
Proof.
  induction flags as [| f flags IH]; intros i Hall; [reflexivity |].
  cbn [Flagged_from]. rewrite (Hall f) by (left; reflexivity).
  apply IH. intros b Hb. apply Hall. right. exact Hb.
Qed.

Lemma Flagged_all_true flags n :
  Z.of_nat (length flags) = n -> (forall b, In b flags -> b = true) ->
  Flagged flags n = zrange n.
Proof.
  intros Hn Hall. unfold Flagged. rewrite take_ge by lia.
  rewrite Flagged_from_all_true by exact Hall.
  unfold zrange. replace (Z.to_nat n) with (length flags) by lia.
  apply map_ext. intros k. lia.
Qed.

Lemma Flagged_all_false flags n :
  (forall b, In b flags -> b = false) -> Flagged flags n = [].
Proof.
  intros Hall. unfold Flagged. apply Flagged_from_all_false.
  intros b Hb. apply Hall. rewrite <- (take_drop (Z.to_nat n) flags).
  apply in_or_app. left. exact Hb.
Qed.

Lemma load_zrange n k : 0 <= k < n -> load 0 (zrange n) k = k.
Proof.
  intros Hk. unfold load, zrange. destruct (Z.ltb_spec k 0); [lia |].
  change (map Z.of_nat (seq 0 (Z.to_nat n))) with (Z.of_nat <$> seq 0 (Z.to_nat n)).
  rewrite list_lookup_fmap, lookup_seq_lt by lia. cbn. lia.
Qed.

(** The kernel is launched only when something is selected. *)
Lemma BooleanMask_launches cfg temp_storage_bytes OutputSize src mask c :
  0 <= temp_storage_bytes ->
  1 <= RawTensor.ndim src -> Tensor.ndim mask = 1 ->
  RawTensor.dim src 0 = Tensor.dim mask 0 ->
  let numOfOutput := Z.of_nat (length (Flagged (Tensor.data mask) (Tensor.dim mask 0))) in
  launches (snd (RunOnDevice cfg temp_storage_bytes OutputSize src mask c))
  = launches c ++
    (if 0 <? numOfOutput
     then [mkLaunch "BooleanMaskCopyKernel"
             (Z.min numOfOutput (CAFFE_MAXIMUM_NUM_BLOCKS cfg)) (CAFFE_HIP_NUM_THREADS cfg)]
     else []).
Proof.
  intros Htsb Hr1 Hr2 Hd0 numOfOutput.
  unfold RunOnDevice.
  erewrite bind_ok by (apply enforce_true, Z.leb_le; exact Hr1).
  erewrite bind_ok by (apply enforce_true, Z.eqb_eq; exact Hr2).
  erewrite bind_ok by (apply enforce_true, Z.eqb_eq; exact Hd0).
  do 4 (erewrite bind_ok by reflexivity).
  erewrite bind_ok by reflexivity.
  match goal with
  | |- context [load 0 (Tensor.data (scratch_ ?o)) ?p] =>
      assert (load 0 (Tensor.data (scratch_ o)) p = numOfOutput) as Hnum
  end.
  { cbn [outs scratch_ set_scratch_ set_indices_ set_data Tensor.data Tensor.dims].
    apply load_store_same. rewrite Resize_length, prod_dims_single.
    assert (0 <= Z.quot (temp_storage_bytes + sizeof_TIndex - 1) sizeof_TIndex)
      by (apply Z.quot_pos; unfold sizeof_TIndex; lia).
    lia. }
  rewrite Hnum. clear Hnum.
  do 3 (erewrite bind_ok by reflexivity).
  destruct (Z.eqb_spec OutputSize 2) as [Hos | Hos];
    (erewrite bind_ok by reflexivity);
    destruct (Z.ltb_spec 0 numOfOutput) as [Hpos | Hzero];
    repeat (erewrite bind_ok by reflexivity);
    cbn [snd launches]; rewrite ?app_nil_r; reflexivity.
Qed.

End BooleanMaskEdges.

(** X23.  The two extreme masks of BooleanMask.  A mask that is true
    everywhere returns the source itself: same dims, item size and bytes.
    A mask that is false everywhere returns an output with first
    dimension 0 and no bytes, and launches no kernel at all. *)
Theorem boolean_mask_all_or_nothing (cfg : Hip.Config)
    (temp_storage_bytes OutputSize : Z) (src : RawTensor.t)
    (mask : Tensor.t bool) (c : Hip.Ctx BooleanMask.Outputs) :
  Hip.config_ok cfg -> 0 <= temp_storage_bytes ->
  RawTensor.well_formed src -> Tensor.well_formed mask ->
  1 <= RawTensor.ndim src -> Tensor.ndim mask = 1 ->
  RawTensor.dim src 0 = Tensor.dim mask 0 ->
  ((forall b, In b (Tensor.data mask) -> b = true) ->
   exists c',
     BooleanMask.RunOnDevice cfg temp_storage_bytes OutputSize src mask c = (Ok true, c') /\
     RawTensor.dims (BooleanMask.dest (Hip.outs c')) = RawTensor.dims src /\
     RawTensor.itemsize (BooleanMask.dest (Hip.outs c')) = RawTensor.itemsize src /\
     RawTensor.bytes (BooleanMask.dest (Hip.outs c')) = RawTensor.bytes src) /\
  ((forall b, In b (Tensor.data mask) -> b = false) ->
   exists c',
     BooleanMask.RunOnDevice cfg temp_storage_bytes OutputSize src mask c = (Ok true, c') /\
     RawTensor.dims (BooleanMask.dest (Hip.outs c')) = 0 :: tail (RawTensor.dims src) /\
     RawTensor.bytes (BooleanMask.dest (Hip.outs c')) = [] /\
     Hip.launches c' = Hip.launches c).
Proof.
  intros Hcfg Htsb Hsrc Hmask Hr1 Hr2 Hd0.
  destruct (BooleanMask_run cfg temp_storage_bytes OutputSize src mask c
              Hcfg Htsb Hsrc Hmask Hr1 Hr2 Hd0)
    as (c' & E & Hdims & Hitem & Hlen & Hcells & _).
  cbv zeta in Hdims, Hlen, Hcells.
  destruct Hsrc as (Hsd & Hsi & Hsl). destruct Hmask as (Hmd & Hml).
  set (n := Tensor.dim mask 0) in *.
  assert (Z.of_nat (length (Tensor.data mask)) = n) as Hn.
  { rewrite Hml. unfold n, Tensor.size, Tensor.dim, Tensor.ndim in *.
    change (Z.to_nat 0) with 0%nat.
    destruct (Tensor.dims mask) as [| d [| ? ?]]; cbn [length nth] in *;
      [lia | apply prod_dims_single | lia]. }
  assert (RawTensor.dims src = n :: tail (RawTensor.dims src)) as Hsdims.
  { unfold RawTensor.dim, RawTensor.ndim in *. change (Z.to_nat 0) with 0%nat in Hd0.
    destruct (RawTensor.dims src) as [| d ds]; cbn [length nth tail] in *; [lia |].
    rewrite Hd0. reflexivity. }
  assert (RawTensor.size src = n * RawTensor.size_from_dim src 1) as Hsize.
  { unfold RawTensor.size, RawTensor.size_from_dim. rewrite Hsdims at 1.
    rewrite prod_dims_cons. destruct (RawTensor.dims src); reflexivity. }
  split.
  - intros Hall. rewrite (Flagged_all_true _ n Hn Hall) in Hdims, Hlen, Hcells.
    rewrite zrange_length in Hdims, Hlen, Hcells.
    assert (0 <= n) as Hn0 by lia.
    rewrite Z2Nat.id in Hdims, Hlen, Hcells by exact Hn0.
    exists c'. split; [exact E |]. split; [rewrite Hdims; symmetry; exact Hsdims |].
    split; [exact Hitem |].
    set (numBytes := RawTensor.size_from_dim src 1 * RawTensor.itemsize src) in *.
    assert (0 <= RawTensor.size_from_dim src 1) as Hsfd.
    { unfold RawTensor.size_from_dim. apply prod_dims_nonneg. apply Forall_drop.
      exact Hsd. }
    assert (0 <= numBytes) as Hnb by (unfold numBytes; nia).
    assert (Z.of_nat (length (RawTensor.bytes src)) = n * numBytes) as Hslen
      by (rewrite Hsl, Hsize; unfold numBytes; lia).
    apply (list_eq_load RawTensor.junk); [lia |].
    intros p Hp. rewrite Hlen in Hp.
    assert (0 < numBytes) as Hpos by nia.
    assert (p = p / numBytes * numBytes + p mod numBytes) as Ep
      by (pose proof (Z.div_mod p numBytes ltac:(lia)); lia).
    assert (0 <= p mod numBytes < numBytes) as Hj by (apply Z.mod_pos_bound; exact Hpos).
    assert (0 <= p / numBytes < n) as Hk.
    { split; [apply Z.div_pos; lia | apply Z.div_lt_upper_bound; lia]. }
    rewrite Ep. rewrite (Hcells _ _ Hk Hj). rewrite load_zrange by exact Hk. reflexivity.
  - intros Hall. rewrite (Flagged_all_false _ n Hall) in Hdims, Hlen.
    cbn [length] in Hdims, Hlen.
    exists c'. split; [exact E |]. split; [exact Hdims |].
    split.
    + destruct (RawTensor.bytes (BooleanMask.dest (Hip.outs c')));
        [reflexivity | cbn [length] in Hlen; lia].
    + pose proof (BooleanMask_launches cfg temp_storage_bytes OutputSize src mask c
                    Htsb Hr1 Hr2 Hd0) as HL.
      cbv zeta in HL. rewrite E in HL. cbn [snd] in HL.
      fold n in HL. rewrite (Flagged_all_false _ n Hall) in HL. cbn [length] in HL.
      change (0 <? Z.of_nat 0) with false in HL. rewrite app_nil_r in HL. exact HL.
Qed.

(** * SparseToDense with distinct indices *)

Section ScatterDistinct.

Context {TData : Type} (zero : TData) (add : TData -> TData -> TData).

Variables (indices : list Z) (vals : list TData) (B row col : Z).

Let step (acc : TData) (j : Z) : TData :=
  if load 0 indices j =? row then add acc (load zero vals (j * B + col)) else acc.



End ScatterDistinct.


Lemma boolean_mask_all_true_witness :
  let src := RawTensor.mk [2; 2] 1 [Byte.x01; Byte.x02; Byte.x03; Byte.x04] in
  exists c',
    BooleanMask.RunOnDevice Hip.default_config 100 1 src (Tensor.mk [2] [true; true])
      (Hip.mkCtx (BooleanMask.mkOutputs (RawTensor.mk [0] 1 []) (Tensor.mk [0] [])
                    (Tensor.mk [0] []) (Tensor.mk [0] [])) [])
    = (Ok true, c') /\
    RawTensor.bytes (BooleanMask.dest (Hip.outs c')) = RawTensor.bytes src.
Proof.
  intros src.
  destruct (boolean_mask_all_or_nothing Hip.default_config 100 1 src
              (Tensor.mk [2] [true; true])
              (Hip.mkCtx (BooleanMask.mkOutputs (RawTensor.mk [0] 1 []) (Tensor.mk [0] [])
                            (Tensor.mk [0] []) (Tensor.mk [0] [])) []))
    as [Hall _].
  - exact default_config_ok.
  - lia.
  - split; [repeat constructor; lia | split; [simpl; lia | reflexivity]].
  - split; [repeat constructor; lia | reflexivity].
  - vm_compute. discriminate.
  - reflexivity.
  - reflexivity.
  - destruct Hall as (c' & E & _ & _ & Hb).
    + intros b [<- | [<- | []]]; reflexivity.
    + exists c'. split; [exact E | exact Hb].
Defined.

